(** * The class analyzer of the Tart compiler: pass registry, base types,
      field layout, constructors and method tables

    A shallow embedding of [lib/Sema/ClassAnalyzer.cpp].  The analyzer works
    on one composite type (the _target_); everything it mutates on the target
    is gathered in the record [State], and the C++ member functions become
    computations in a state monad over it.  What the analyzer only reads from
    other definitions (the kind of a base, the method table of the super
    type, the outcome of a nested analysis) is supplied by the record [Env]. *)

From Stdlib Require Import NArith ZArith List Bool Lia String.
From stdpp Require Import gmap list strings.
Import ListNotations.

Open Scope Z_scope.

(** ** Identifiers and enumerations *)

Definition TypeId := nat.
Definition FnId := nat.
Definition Name := string.

Inductive TypeClass := Class | Struct | Interface | Protocol.

Inductive StorageClass := Storage_Global | Storage_Instance | Storage_Static | Storage_Local.

Inductive Visibility := Public | Protected | Private.

Inductive AnalysisTask :=
| Task_PrepTypeComparison
| Task_PrepMemberLookup
| Task_PrepConstruction
| Task_PrepConversion
| Task_PrepEvaluation
| Task_PrepTypeGeneration
| Task_PrepCodeGeneration
| Task_PrepCallOrUse
| Task_InferType.

Definition TypeClass_eqb (a b : TypeClass) : bool :=
  match a, b with
  | Class, Class | Struct, Struct | Interface, Interface | Protocol, Protocol => true
  | _, _ => false
  end.

Definition StorageClass_eqb (a b : StorageClass) : bool :=
  match a, b with
  | Storage_Global, Storage_Global | Storage_Instance, Storage_Instance
  | Storage_Static, Storage_Static | Storage_Local, Storage_Local => true
  | _, _ => false
  end.

Definition Visibility_eqb (a b : Visibility) : bool :=
  match a, b with
  | Public, Public | Protected, Protected | Private, Private => true
  | _, _ => false
  end.

(** ** The pass registry *)

(** Modelled from the spec: the enumeration of the passes of a composite type
    in their declared order ([CompositeType.h] is not part of the sources at
    hand). *)
Inductive Pass :=
| ScopeCreationPass
| BaseTypesPass
| AttributePass
| NamingConflictPass
| ConverterPass
| ConstructorPass
| MemberTypePass
| FieldPass
| FieldTypePass
| MethodPass
| OverloadingPass
| CompletionPass.

Definition allPasses : list Pass :=
  [ScopeCreationPass; BaseTypesPass; AttributePass; NamingConflictPass; ConverterPass;
   ConstructorPass; MemberTypePass; FieldPass; FieldTypePass; MethodPass; OverloadingPass;
   CompletionPass].

(** The position of a pass in the enumeration, which is also its bit. *)
Definition passIndex (p : Pass) : N :=
  match p with
  | ScopeCreationPass => 0
  | BaseTypesPass => 1
  | AttributePass => 2
  | NamingConflictPass => 3
  | ConverterPass => 4
  | ConstructorPass => 5
  | MemberTypePass => 6
  | FieldPass => 7
  | FieldTypePass => 8
  | MethodPass => 9
  | OverloadingPass => 10
  | CompletionPass => 11
  end%N.

(** [q] comes strictly before [p] in the enumeration. *)
Definition precedes (q p : Pass) : bool := (passIndex q <? passIndex p)%N.

Definition Pass_eqb (p q : Pass) : bool := (passIndex p =? passIndex q)%N.

(** A set of passes is a bit set, one bit per enumerator. *)
Definition PassSet := N.

Module PassSet.
Definition empty : PassSet := 0%N.
Definition contains (s : PassSet) (p : Pass) : bool := N.testbit s (passIndex p).
Definition add (p : Pass) (s : PassSet) : PassSet := N.setbit s (passIndex p).
Definition remove (p : Pass) (s : PassSet) : PassSet := N.clearbit s (passIndex p).
Definition addAll (s t : PassSet) : PassSet := N.lor s t.
Definition removeAll (s t : PassSet) : PassSet := N.ldiff s t.
Definition isEmpty (s : PassSet) : bool := (s =? 0)%N.
(** [PassSet::of(p1, ..., pn)] *)
Definition of_list (ps : list Pass) : PassSet := fold_right add empty ps.
End PassSet.

(** Modelled from the spec: the registry of a composite type, two parallel
    bit sets ([PassMgr.h] is not part of the sources at hand). *)
Record PassMgr := mkPassMgr {
  running : PassSet;
  finished : PassSet
}.

Definition isRunning (m : PassMgr) (p : Pass) : bool := PassSet.contains (running m) p.
Definition isFinished (m : PassMgr) (p : Pass) : bool := PassSet.contains (finished m) p.

Inductive BeginResult :=
| Begun (m : PassMgr)      (* the pass was marked running: [begin] returns true *)
| AlreadyFinished          (* [begin] returns false and does nothing *)
| ReEntered.               (* [begin] returns false and signals the re-entry *)

(** Modelled from the spec: the contract of [begin(pass)]. *)
Definition PassMgr_begin (p : Pass) (m : PassMgr) : BeginResult :=
  if isFinished m p then AlreadyFinished
  else if isRunning m p then ReEntered
  else Begun (mkPassMgr (PassSet.add p (running m)) (finished m)).

(** Modelled from the spec: the contract of [finish(pass)]. *)
Definition PassMgr_finish (p : Pass) (m : PassMgr) : PassMgr :=
  mkPassMgr (PassSet.remove p (running m)) (PassSet.add p (finished m)).

Definition noPasses : PassMgr := mkPassMgr PassSet.empty PassSet.empty.

(** No pass of the registry is in progress. *)
Definition noneRunning (m : PassMgr) : Prop := forall q, isRunning m q = false.

(** [m'] is [m] after pass [p] has been run to its end. *)
Definition ranPass (p : Pass) (m m' : PassMgr) : Prop :=
  noneRunning m' /\ forall q, isFinished m' q = Pass_eqb p q || isFinished m q.

(** ** Expressions, blocks and definitions *)

(** Only what the analyzer looks at: whether an expression is a constant, and
    the shape of the statements of a synthesized constructor. *)
Inductive Expr :=
| ConstantExpr (value : Z)
| OpaqueExpr (tag : nat)
| LValueExpr (defn : Name)                   (* an l-value without base object *)
| MemberExpr (base : Expr) (defn : Name)     (* an l-value [base.defn] *)
| AssignmentExpr (lhs rhs : Expr).

Definition isConstant (e : Expr) : bool :=
  match e with ConstantExpr _ => true | _ => false end.

Record Block := mkBlock {
  blockLabel : string;
  exprs : list Expr
}.

Record ParameterDefn := mkParameterDefn {
  paramName : Name;
  paramInitValue : option Expr
}.

(** A function definition.  The fields are what the parser and the function
    analyzer produced; the parts the class analyzer mutates (dispatch index,
    set of overridden methods, the [Ctor] and [Singular] traits it adds) live
    in the store of [FnState]s, keyed by [fnId]. *)
Record FunctionDefn := mkFunctionDefn {
  fnId : FnId;
  fnName : Name;
  fnIsMacro : bool;                      (* defnType() is Macro rather than Function *)
  fnStorageClass : StorageClass;
  fnVisibility : Visibility;
  fnParentProperty : option Name;        (* parentDefn(), when it is a property or indexer *)
  fnParams : list ParameterDefn;
  fnBlocks : list Block;
  fnDeclaredCtor : bool;
  fnDeclaredSingular : bool;
  fnSynthetic : bool;
  fnIsFinal : bool;
  fnIsUndefined : bool;
  fnIsOverride : bool;
  fnIsExtern : bool;
  fnIsIntrinsic : bool;
  fnHasUnboundTypeParams : bool;
  fnReturnTypeDefined : bool;
  fnReturnsNonVoid : bool;               (* returnType().isNonVoidType() *)
  fnSignatureOk : bool                   (* FunctionAnalyzer(fn).analyze(Task_PrepTypeComparison) *)
}.

(** Modelled from the spec: a function has a body when it carries body
    blocks ([FunctionDefn.h] is not part of the sources at hand). *)
Definition hasBody (f : FunctionDefn) : bool :=
  match fnBlocks f with [] => false | _ :: _ => true end.

Record VariableDefn := mkVariableDefn {
  varName : Name;
  varIsLet : bool;                       (* defnType() is Let rather than Var *)
  varStorageClass : StorageClass;
  varVisibility : Visibility;
  varInitValue : option Expr;
  varTypeIsNArray : bool;                (* type().typeClass() == Type::NArray *)
  varTypeNullInitValue : option Expr;    (* type()->nullInitValue() *)
  memberIndex : Z;
  memberIndexRecursive : Z
}.

Record PropertyDefn := mkPropertyDefn {
  propName : Name;
  propIsIndexer : bool;
  propStorageClass : StorageClass;
  propIsSingular : bool;
  propHasUnboundTypeParams : bool;
  propTypePassFinished : bool;           (* passes().isFinished(PropertyTypePass) *)
  getter : option FunctionDefn;
  setter : option FunctionDefn
}.

Inductive DefnType := Typedef | Namespace | Var | Let | Function | Macro | Property | Indexer.

Definition DefnType_eqb (a b : DefnType) : bool :=
  match a, b with
  | Typedef, Typedef | Namespace, Namespace | Var, Var | Let, Let
  | Function, Function | Macro, Macro | Property, Property | Indexer, Indexer => true
  | _, _ => false
  end.

(** A member of the target's scope. *)
Inductive Defn :=
| DVariable (v : VariableDefn)
| DFunction (f : FunctionDefn)
| DProperty (p : PropertyDefn)
| DTypedef (name : Name) (storage : StorageClass) (singular : bool)
| DNamespace (name : Name).

Definition defnType (d : Defn) : DefnType :=
  match d with
  | DVariable v => if varIsLet v then Let else Var
  | DFunction f => if fnIsMacro f then Macro else Function
  | DProperty p => if propIsIndexer p then Indexer else Property
  | DTypedef _ _ _ => Typedef
  | DNamespace _ => Namespace
  end.

Definition defnName (d : Defn) : Name :=
  match d with
  | DVariable v => varName v
  | DFunction f => fnName f
  | DProperty p => propName p
  | DTypedef n _ _ => n
  | DNamespace n => n
  end.

Definition Name_eqb (a b : Name) : bool := String.eqb a b.

(** The interned names the analyzer looks for. *)
Definition idConstruct : Name := "construct"%string.
Definition idCreate : Name := "create"%string.
Definition idCoerce : Name := "coerce"%string.
Definition idSelf : Name := "self"%string.

(** ** The symbol table of the target *)

(** Modelled from the spec: the symbol table maps a name to the
    insertion-ordered list of the members that share it.  It is derived from
    the member list (the [firstMember]/[nextInScope] chain); names are visited
    in the order of their first member. *)
Fixpoint addToTable (d : Defn) (t : list (Name * list Defn)) : list (Name * list Defn) :=
  match t with
  | [] => [(defnName d, [d])]
  | (n, ds) :: rest =>
      if Name_eqb n (defnName d) then (n, ds ++ [d]) :: rest
      else (n, ds) :: addToTable d rest
  end.

Definition SymbolTable := list (Name * list Defn).

Definition symbolTable (ms : list Defn) : SymbolTable :=
  fold_left (fun t d => addToTable d t) ms [].

(** [lookupMember(name, out, false)]: the members of this type, not of its
    bases, that carry the name. *)
Definition lookupMember (n : Name) (ms : list Defn) : list Defn :=
  List.filter (fun d => Name_eqb (defnName d) n) ms.

(** ** Function types

    [lib/CFG/FunctionType.cpp], as far as the class analyzer depends on it:
    the test that the type of a synthesized constructor is singular, the
    notes that explain why it is not, and the comparison of two function
    types.  Type references, with
    [isDefined], [isSingular] and [isEqual] on them, are given. *)

Section FunctionTypes.

Variable TypeRef : Type.
Variable isDefined : TypeRef -> bool.                 (* TypeRef::isDefined *)
Variable refIsSingular : TypeRef -> bool.             (* TypeRef::isSingular *)
Variable refIsEqual : TypeRef -> TypeRef -> bool.     (* a.isEqual(b) *)

(** A parameter, with what a function type reads of it. *)
Record TypedParameter := mkTypedParameter {
  tpName : option string;                    (* name() may be NULL *)
  tpType : TypeRef
}.

Record FunctionType := mkFunctionType {
  isStatic_ : bool;
  returnType_ : TypeRef;
  selfParam_ : option TypedParameter;
  params_ : list TypedParameter
}.

Fixpoint paramsSingular (ps : list TypedParameter) : bool :=
  match ps with
  | [] => true
  | param :: rest =>
      if negb (isDefined (tpType param)) || negb (refIsSingular (tpType param)) then false
      else paramsSingular rest
  end.

Definition FunctionType_isSingular (ft : FunctionType) : bool :=
  if negb (isDefined (returnType_ ft)) || negb (refIsSingular (returnType_ ft)) then false
  else if match selfParam_ ft with
          | Some self => negb (isDefined (tpType self)) || negb (refIsSingular (tpType self))
          | None => false
          end then false
  else paramsSingular (params_ ft).

(** The notes of [whyNotSingular], in the order in which they are given. *)
Inductive SingularityNote :=
| NoteUnspecifiedReturnType
| NoteNonSingularReturnType
| NoteSelfUnspecified
| NoteSelfNonSingular
| NoteParameterUnspecified (name : option string)
| NoteParameterNonSingular (name : option string).

Definition whyNotSingular (ft : FunctionType) : list SingularityNote :=
  (if negb (isDefined (returnType_ ft)) then [NoteUnspecifiedReturnType]
   else if negb (refIsSingular (returnType_ ft)) then [NoteNonSingularReturnType]
   else [])
  ++ (match selfParam_ ft with
      | Some self =>
          if negb (isDefined (tpType self)) then [NoteSelfUnspecified]
          else if negb (refIsSingular (tpType self)) then [NoteSelfNonSingular]
          else []
      | None => []
      end)
  ++ flat_map (fun param =>
                 if negb (isDefined (tpType param))
                 then [NoteParameterUnspecified (tpName param)]
                 else if negb (refIsSingular (tpType param))
                      then [NoteParameterNonSingular (tpName param)]
                      else []) (params_ ft).

(** The loop of [isEqual] over the parameters of two lists of one length. *)
Fixpoint paramsEqual (ps qs : list TypedParameter) : bool :=
  match ps, qs with
  | p :: ps', q :: qs' =>
      if negb (refIsEqual (tpType p) (tpType q)) then false else paramsEqual ps' qs'
  | _, _ => true
  end.

(** [this->isEqual(other)] for another function type [ft]; [None] where the
    assertion that the return type of [ft] is defined fails. *)
Definition FunctionType_isEqual (this ft : FunctionType) : option bool :=
  if negb (length (params_ ft) =? length (params_ this))%nat then Some false
  else if negb (Bool.eqb (isStatic_ ft) (isStatic_ this)) then Some false
  else if negb (isDefined (returnType_ ft)) then None
  else if negb (refIsEqual (returnType_ ft) (returnType_ this)) then Some false
  else Some (paramsEqual (params_ this) (params_ ft)).

(** [paramNameIndex(name)]: the position of the first parameter of that
    name, or -1. *)
Fixpoint paramNameIndexFrom (i : Z) (ps : list TypedParameter) (name : string) : Z :=
  match ps with
  | [] => -1
  | param :: rest =>
      if match tpName param with
         | Some n => String.eqb n name
         | None => false
         end
      then i
      else paramNameIndexFrom (i + 1) rest name
  end.

Definition paramNameIndex (ft : FunctionType) (name : string) : Z :=
  paramNameIndexFrom 0 (params_ ft) name.

End FunctionTypes.

Arguments mkTypedParameter {TypeRef} _ _.
Arguments tpName {TypeRef} _.
Arguments tpType {TypeRef} _.
Arguments mkFunctionType {TypeRef} _ _ _ _.
Arguments isStatic_ {TypeRef} _.
Arguments returnType_ {TypeRef} _.
Arguments selfParam_ {TypeRef} _.
Arguments params_ {TypeRef} _.
Arguments paramsSingular {TypeRef} _ _ _.
Arguments FunctionType_isSingular {TypeRef} _ _ _.
Arguments whyNotSingular {TypeRef} _ _ _.
Arguments paramsEqual {TypeRef} _ _ _.
Arguments FunctionType_isEqual {TypeRef} _ _ _ _.
Arguments paramNameIndex {TypeRef} _ _.
Arguments paramNameIndexFrom {TypeRef} _ _ _.

(** What the class analyzer reads of a type reference: whether it is
    defined and whether the type is singular. *)
Record TypeRefView := mkTypeRefView {
  trDefined : bool;                          (* TypeRef::isDefined *)
  trSingular : bool                          (* TypeRef::isSingular *)
}.

(** ** Diagnostics *)

Inductive Severity := SevFatal | SevError | SevWarn | SevInfo.

Inductive Message :=
| MsgInfiniteRecursion (p : Pass)
| MsgNameConflict (d : Name)
| MsgEarlierDefinition (d : Name)
| MsgCircularInheritance
| MsgInterfaceFinal
| MsgProtocolFinal
| MsgCannotInheritFrom (astBase : nat)
| MsgBaseIsTemplate (astBase : nat)
| MsgBaseIsFinal (astBase : nat)
| MsgSingleConcreteSupertype
| MsgClassInheritsClassOrInterface
| MsgStructDerivesStructOrProtocol
| MsgStructSingleSupertype
| MsgInterfaceInheritsInterfaceOrProtocol
| MsgDataMemberInInterface (field : Name)
| MsgConstructorReturnType (f : FnId)
| MsgConstructorNotInstance (f : FnId)
| MsgConstructNotMethod (d : Name)
| MsgNoSuperDefaultConstructor
| MsgUnimplementedDefaultInit (field : Name)
| MsgSignatureConflict (f : FnId)
| MsgFromHere (f : FnId)
| MsgShouldDeclareOverride (f : FnId)
| MsgHidden (m : FnId)
| MsgHiddenBy (f : FnId)
| MsgInvalidAccessorOverride (m : FnId)
| MsgUndefWithoutBase (f : FnId)
| MsgLacksDefinitions
| MsgLacksImplementations (iface : TypeId)
| MsgMissingMethod (f : FnId)
| MsgConstructorTypeNotSingular
| MsgWhyNotSingular (note : SingularityNote).

Definition Diagnostic : Type := Severity * Message.

(** What [module->addSymbol] and [addBaseXRefs] record. *)
Inductive Symbol :=
| SymType (t : TypeId)
| SymBaseXRefs (t : TypeId)
| SymFunction (f : FnId)
| SymVariable (v : Name)
| SymTypecastError.

(** ** The state of the analysis of one composite type *)

(** The mutable part of a function definition. *)
Record FnState := mkFnState {
  dispatchIndex : Z;                     (* -1 when the function has no slot *)
  overriddenMethods : gset FnId;
  addedCtor : bool;                      (* addTrait(Defn::Ctor) *)
  addedSingular : bool                   (* addTrait(Defn::Singular) *)
}.

Definition freshFnState : FnState := mkFnState (-1) ∅ false false.

Record InterfaceTable := mkInterfaceTable {
  interfaceType : TypeId;
  methods : list FunctionDefn
}.

Record State := mkState {
  passes : PassMgr;
  super : option TypeId;
  bases : list TypeId;
  members : list Defn;
  instanceFields : list (option VariableDefn);   (* [None] is the NULL slot of the super type *)
  staticFields : list VariableDefn;
  instanceMethods : list FunctionDefn;
  interfaces : list InterfaceTable;
  coercers : list FunctionDefn;
  functions : gmap FnId FnState;
  diag : list Diagnostic;
  moduleSymbols : list Symbol
}.

(** A composite type as its constructor leaves it, with the given members. *)
Definition newState (ms : list Defn) : State :=
  mkState noPasses None [] ms [] [] [] [] [] ∅ [] [].

Definition setPasses (x : PassMgr) (s : State) : State :=
  mkState x (super s) (bases s) (members s) (instanceFields s) (staticFields s)
    (instanceMethods s) (interfaces s) (coercers s) (functions s) (diag s) (moduleSymbols s).
Definition setSuper (x : option TypeId) (s : State) : State :=
  mkState (passes s) x (bases s) (members s) (instanceFields s) (staticFields s)
    (instanceMethods s) (interfaces s) (coercers s) (functions s) (diag s) (moduleSymbols s).
Definition setBases (x : list TypeId) (s : State) : State :=
  mkState (passes s) (super s) x (members s) (instanceFields s) (staticFields s)
    (instanceMethods s) (interfaces s) (coercers s) (functions s) (diag s) (moduleSymbols s).
Definition setMembers (x : list Defn) (s : State) : State :=
  mkState (passes s) (super s) (bases s) x (instanceFields s) (staticFields s)
    (instanceMethods s) (interfaces s) (coercers s) (functions s) (diag s) (moduleSymbols s).
Definition setInstanceFields (x : list (option VariableDefn)) (s : State) : State :=
  mkState (passes s) (super s) (bases s) (members s) x (staticFields s)
    (instanceMethods s) (interfaces s) (coercers s) (functions s) (diag s) (moduleSymbols s).
Definition setStaticFields (x : list VariableDefn) (s : State) : State :=
  mkState (passes s) (super s) (bases s) (members s) (instanceFields s) x
    (instanceMethods s) (interfaces s) (coercers s) (functions s) (diag s) (moduleSymbols s).
Definition setInstanceMethods (x : list FunctionDefn) (s : State) : State :=
  mkState (passes s) (super s) (bases s) (members s) (instanceFields s) (staticFields s)
    x (interfaces s) (coercers s) (functions s) (diag s) (moduleSymbols s).
Definition setInterfaces (x : list InterfaceTable) (s : State) : State :=
  mkState (passes s) (super s) (bases s) (members s) (instanceFields s) (staticFields s)
    (instanceMethods s) x (coercers s) (functions s) (diag s) (moduleSymbols s).
Definition setCoercers (x : list FunctionDefn) (s : State) : State :=
  mkState (passes s) (super s) (bases s) (members s) (instanceFields s) (staticFields s)
    (instanceMethods s) (interfaces s) x (functions s) (diag s) (moduleSymbols s).
Definition setFunctions (x : gmap FnId FnState) (s : State) : State :=
  mkState (passes s) (super s) (bases s) (members s) (instanceFields s) (staticFields s)
    (instanceMethods s) (interfaces s) (coercers s) x (diag s) (moduleSymbols s).
Definition setDiag (x : list Diagnostic) (s : State) : State :=
  mkState (passes s) (super s) (bases s) (members s) (instanceFields s) (staticFields s)
    (instanceMethods s) (interfaces s) (coercers s) (functions s) x (moduleSymbols s).
Definition setModuleSymbols (x : list Symbol) (s : State) : State :=
  mkState (passes s) (super s) (bases s) (members s) (instanceFields s) (staticFields s)
    (instanceMethods s) (interfaces s) (coercers s) (functions s) (diag s) x.

(** ** The analysis monad *)

(** A computation either returns normally or stops at [DFAIL], the
    compiler's deliberate abort. *)
Inductive Outcome (A : Type) :=
| Done (a : A) (s : State)
| Aborted (why : string) (s : State).
Arguments Done {A} a s.
Arguments Aborted {A} why s.

Definition M (A : Type) : Type := State -> Outcome A.

Definition ret {A} (a : A) : M A := fun s => Done a s.
Definition bind {A B} (c : M A) (k : A -> M B) : M B :=
  fun s => match c s with
           | Done a s' => k a s'
           | Aborted why s' => Aborted why s'
           end.
Definition DFAIL {A} (why : string) : M A := fun s => Aborted why s.

Notation "x <- c ;; k" := (bind c (fun x => k))
  (at level 100, c at next level, right associativity).
Notation "c ;; k" := (bind c (fun _ => k))
  (at level 100, right associativity).

Definition get {A} (f : State -> A) : M A := fun s => Done (f s) s.
Definition modify (f : State -> State) : M unit := fun s => Done tt (f s).

(** [when c k]: a statement guarded by [if (c) { ... }]. *)
Definition when (c : bool) (k : M unit) : M unit := if c then k else ret tt.

(** A [for] loop over a list whose body has no early exit. *)
Fixpoint forEach {A} (l : list A) (body : A -> M unit) : M unit :=
  match l with
  | [] => ret tt
  | x :: rest => body x ;; forEach rest body
  end.

Definition emit (sev : Severity) (m : Message) : M unit :=
  modify (fun s => setDiag (diag s ++ [(sev, m)]) s).

Definition addSymbol (y : Symbol) : M unit :=
  modify (fun s => setModuleSymbols (moduleSymbols s ++ [y]) s).

(** [type->passes().begin(p, quiet)]: true when the pass was marked running. *)
Definition beginPass (p : Pass) (quiet : bool) : M bool :=
  m <- get passes ;;
  match PassMgr_begin p m with
  | Begun m' => modify (setPasses m') ;; ret true
  | AlreadyFinished => ret false
  | ReEntered => when (negb quiet) (emit SevFatal (MsgInfiniteRecursion p)) ;; ret false
  end.

Definition finishPass (p : Pass) : M unit :=
  modify (fun s => setPasses (PassMgr_finish p (passes s)) s).

(** The function store. *)
Definition fnStateOf (s : State) (f : FunctionDefn) : FnState :=
  default freshFnState (functions s !! fnId f).

Definition updateFn (f : FunctionDefn) (u : FnState -> FnState) : M unit :=
  modify (fun s => setFunctions (<[fnId f := u (fnStateOf s f)]> (functions s)) s).

Definition setDispatchIndex (f : FunctionDefn) (i : Z) : M unit :=
  updateFn f (fun x => mkFnState i (overriddenMethods x) (addedCtor x) (addedSingular x)).
Definition insertOverridden (f m : FunctionDefn) : M unit :=
  updateFn f (fun x => mkFnState (dispatchIndex x) ({[fnId m]} ∪ overriddenMethods x)
                         (addedCtor x) (addedSingular x)).
Definition addCtorTrait (f : FunctionDefn) : M unit :=
  updateFn f (fun x => mkFnState (dispatchIndex x) (overriddenMethods x) true (addedSingular x)).
Definition addSingularTrait (f : FunctionDefn) : M unit :=
  updateFn f (fun x => mkFnState (dispatchIndex x) (overriddenMethods x) (addedCtor x) true).

Definition isCtorIn (s : State) (f : FunctionDefn) : bool :=
  fnDeclaredCtor f || addedCtor (fnStateOf s f).
Definition isSingularIn (s : State) (f : FunctionDefn) : bool :=
  fnDeclaredSingular f || addedSingular (fnStateOf s f).

(** ** What the analyzer is given *)

(** The result of [ta.typeFromAST] on one base of the declaration. *)
Inductive ResolvedType :=
| ErrorType                                     (* isErrorResult(baseType) *)
| NonComposite (hasTypeDefn : bool)
| Composite (t : TypeId) (hasTypeDefn : bool).

Record ASTBase := mkASTBase {
  astNode : nat;
  resolved : ResolvedType;
  baseLookupOk : bool      (* ClassAnalyzer(baseDefn).analyze(Task_PrepMemberLookup) *)
}.

(** The target's definition: what [target->...] answers. *)
Record TypeDefn := mkTypeDefn {
  typeClass : TypeClass;
  hasAST : bool;
  isTemplate : bool;
  isTemplateMember : bool;
  isPartialInstantiation : bool;
  isFinal : bool;
  isAbstract : bool;
  isSingular : bool;
  isSynthetic : bool;
  isObject : bool;                              (* type == Builtins::typeObject *)
  astBases : list ASTBase
}.

(** Another composite type, as the analyzer of the target reads it. *)
Record TypeView := mkTypeView {
  tvTypeClass : TypeClass;
  tvIsSingular : bool;
  tvIsFinal : bool;                             (* typeDefn()->isFinal() *)
  tvPasses : PassMgr;
  tvBases : list TypeId;
  tvInstanceMethods : list FunctionDefn;
  tvInstanceFieldCountRecursive : Z;
  tvDefaultConstructor : option FnId            (* defaultConstructor(), None for NULL *)
}.

Record Env := mkEnv {
  target : TypeDefn;
  targetId : TypeId;
  typeObject : TypeId;                          (* Builtins::typeObject *)
  typeView : TypeId -> TypeView;
  createMembersFromAST : bool;                  (* result of the call on the target *)
  resolveAttributes : bool;
  superConstruction : bool;   (* ClassAnalyzer(super).analyze(Task_PrepConstruction) *)
  methodDiagnostics : list Diagnostic;          (* what the checks of the Method pass report *)
  ancestorClasses : list TypeId;                (* type->ancestorClasses(ancestors) *)
  findBaseImplementationOf : State -> TypeId -> option InterfaceTable;
  canOverride : FunctionDefn -> FunctionDefn -> bool;      (* [canOverride f m]: f->canOverride(m) *)
  hasSameSignature : FunctionDefn -> FunctionDefn -> bool;
  newFunctionId : FnId;                         (* identity of the next [new FunctionDefn] *)
  voidType : TypeRefView;                       (* the reference to [VoidType::instance] *)
  paramType : ParameterDefn -> TypeRefView      (* param->type(), the type of its field *)
}.

(** ** The pass sets of the tasks *)

Definition PASS_SET_RESOLVE_TYPE : PassSet :=
  PassSet.of_list [ScopeCreationPass; BaseTypesPass].

Definition PASS_SET_LOOKUP : PassSet :=
  PassSet.of_list [ScopeCreationPass; BaseTypesPass; AttributePass].

Definition PASS_SET_CONSTRUCTION : PassSet :=
  PassSet.of_list [ScopeCreationPass; BaseTypesPass; AttributePass; NamingConflictPass;
                   ConstructorPass].

Definition PASS_SET_CONVERSION : PassSet :=
  PassSet.of_list [ScopeCreationPass; BaseTypesPass; AttributePass; NamingConflictPass;
                   ConverterPass].

Definition PASS_SET_EVALUATION : PassSet :=
  PassSet.of_list [ScopeCreationPass; BaseTypesPass; AttributePass; NamingConflictPass;
                   ConverterPass; MemberTypePass; FieldPass; MethodPass; OverloadingPass].

Definition PASS_SET_TYPEGEN : PassSet :=
  PassSet.of_list [ScopeCreationPass; BaseTypesPass; NamingConflictPass; AttributePass;
                   FieldPass; FieldTypePass].

Definition PASS_SET_CODEGEN : PassSet :=
  PassSet.of_list [ScopeCreationPass; BaseTypesPass; AttributePass; NamingConflictPass;
                   ConverterPass; ConstructorPass; MemberTypePass; FieldPass; MethodPass;
                   OverloadingPass; CompletionPass].

(** ** The analyzer *)

Definition defnStorageClass (d : Defn) : StorageClass :=
  match d with
  | DVariable v => varStorageClass v
  | DFunction f => fnStorageClass f
  | DProperty p => propStorageClass p
  | DTypedef _ sc _ => sc
  | DNamespace _ => Storage_Global
  end.

Definition isSome {A} (o : option A) : bool :=
  match o with Some _ => true | None => false end.

(** [l.empty()] *)
Definition isNil {A} (l : list A) : bool :=
  match l with [] => true | _ :: _ => false end.

Definition isClassOrStruct (k : TypeClass) : bool :=
  match k with Class | Struct => true | _ => false end.

Section ClassAnalyzer.

Variable env : Env.

Let tdef : TypeDefn := target env.

(** *** Naming conflicts *)

Definition checkEntry (entry : Name * list Defn) : M bool :=
  match snd entry with
  | [] => ret true
  | front :: _ =>
      (* the first member of another kind than the front one is reported *)
      match find (fun de => negb (DefnType_eqb (defnType de) (defnType front))) (snd entry) with
      | Some de =>
          emit SevError (MsgNameConflict (defnName de)) ;;
          emit SevInfo (MsgEarlierDefinition (defnName front)) ;;
          ret false
      | None => ret true
      end
  end.

Fixpoint checkEntries (symbols : SymbolTable) (success : bool) : M bool :=
  match symbols with
  | [] => ret success
  | entry :: rest =>
      ok <- checkEntry entry ;;
      checkEntries rest (success && ok)
  end.

Definition checkNameConflicts : M bool :=
  begun <- beginPass NamingConflictPass false ;;
  if begun then
    symbols <- get (fun s => symbolTable (members s)) ;;
    success <- checkEntries symbols true ;;
    finishPass NamingConflictPass ;;
    ret success
  else ret true.

(** *** Base types *)

(** The [switch (dtype)] of the loop over the bases: whether the base becomes
    the primary base. *)
Definition classifyBase (dtype baseKind : TypeClass) (primaryBase : option TypeId)
    (node : nat) : M bool :=
  match dtype with
  | Class =>
      if TypeClass_eqb baseKind Class then
        match primaryBase with
        | None => ret true
        | Some _ => emit SevError MsgSingleConcreteSupertype ;; ret false
        end
      else if negb (TypeClass_eqb baseKind Interface) then
        emit SevError MsgClassInheritsClassOrInterface ;; ret false
      else ret false
  | Struct =>
      if negb (TypeClass_eqb baseKind Struct) && negb (TypeClass_eqb baseKind Protocol) then
        emit SevError MsgStructDerivesStructOrProtocol ;; ret false
      else
        match primaryBase with
        | None => ret true
        | Some _ => emit SevError MsgStructSingleSupertype ;; ret false
        end
  | Interface =>
      if negb (TypeClass_eqb baseKind Interface) && negb (TypeClass_eqb baseKind Protocol) then
        emit SevError (MsgInterfaceInheritsInterfaceOrProtocol) ;; ret false
      else
        match primaryBase with
        | None => ret true
        | Some _ => ret false
        end
  | Protocol => DFAIL "IllegalState"
  end.

(** The loop over [ast->bases()].  The result is [None] when the loop is left
    by [return false], and the primary base selected so far otherwise. *)
Fixpoint resolveBases (isFromTemplate : bool) (astBases : list ASTBase)
    (primaryBase : option TypeId) : M (option (option TypeId)) :=
  match astBases with
  | [] => ret (Some primaryBase)
  | b :: rest =>
      match resolved b with
      | ErrorType => ret None
      | NonComposite _ | Composite _ false =>
          emit SevError (MsgCannotInheritFrom (astNode b)) ;; ret None
      | Composite base true =>
          let v := typeView env base in
          if negb (tvIsSingular v) && negb isFromTemplate then
            emit SevError (MsgBaseIsTemplate (astNode b)) ;; ret None
          else
            when (tvIsFinal v) (emit SevError (MsgBaseIsFinal (astNode b))) ;;
            (* Recursively analyze the bases of the base *)
            if negb (baseLookupOk b) then ret None
            else
              isPrimary <- classifyBase (typeClass tdef) (tvTypeClass v) primaryBase
                             (astNode b) ;;
              when (tvIsSingular v) (addSymbol (SymBaseXRefs base)) ;;
              if isPrimary then resolveBases isFromTemplate rest (Some base)
              else
                modify (fun s => setBases (bases s ++ [base]) s) ;;
                resolveBases isFromTemplate rest primaryBase
      end
  end.

Definition analyzeBaseClassesImpl : M bool :=
  if negb (hasAST tdef) then ret true
  else
    let isFromTemplate :=
      isTemplate tdef || isTemplateMember tdef || isPartialInstantiation tdef in
    (* Check for valid finality *)
    when (isFinal tdef)
      (match typeClass tdef with
       | Interface => emit SevError MsgInterfaceFinal
       | Protocol => emit SevError MsgProtocolFinal
       | _ => ret tt
       end) ;;
    r <- resolveBases isFromTemplate (astBases tdef) None ;;
    match r with
    | None => ret false
    | Some primaryBase =>
        (* If no base was specified, use Object. *)
        primaryBase <-
          (if TypeClass_eqb (typeClass tdef) Class && negb (isSome primaryBase)
              && negb (isObject tdef)
           then addSymbol (SymType (typeObject env)) ;; ret (Some (typeObject env))
           else ret primaryBase) ;;
        modify (setSuper primaryBase) ;;
        match primaryBase with
        | Some base =>
            (* Move the primary base to be first in the list. *)
            modify (fun s => setBases (base :: bases s) s)
        | None => ret tt
        end ;;
        when (TypeClass_eqb (typeClass tdef) Interface) (addSymbol SymTypecastError) ;;
        ret true
    end.

Definition analyzeBaseClasses : M bool :=
  m <- get passes ;;
  if isRunning m BaseTypesPass then
    emit SevError MsgCircularInheritance ;; ret false
  else
    begun <- beginPass BaseTypesPass false ;;
    if negb begun then ret true
    else
      result <- analyzeBaseClassesImpl ;;
      finishPass BaseTypesPass ;;
      ret result.

(** *** Converters *)

Definition addCoercer (d : Defn) : M unit :=
  match d with
  | DFunction fn =>
      if fnSignatureOk fn && fnReturnsNonVoid fn
         && StorageClass_eqb (fnStorageClass fn) Storage_Static
         && (length (fnParams fn) =? 1)%nat
      then
        when (negb (fnHasUnboundTypeParams fn) && isSingular tdef) (addSingularTrait fn) ;;
        modify (fun s => setCoercers (coercers s ++ [fn]) s)
      else ret tt
  | _ => ret tt
  end.

Definition analyzeConverters : M bool :=
  begun <- beginPass ConverterPass false ;;
  if begun then
    when (isClassOrStruct (typeClass tdef))
      (* Note: "coerce" methods are *not* inherited. *)
      (ms <- get (fun s => lookupMember idCoerce (members s)) ;;
       forEach ms addCoercer) ;;
    finishPass ConverterPass ;;
    ret true
  else ret true.

(** *** Member types *)

(** The body copies a trait onto the member types, which the target's
    state does not hold. *)
Definition analyzeMemberTypes : M bool :=
  begun <- beginPass MemberTypePass false ;;
  if begun then finishPass MemberTypePass ;; ret true
  else ret true.

(** *** Fields *)

Definition setMemberIndices (field : VariableDefn) (index indexRecursive : Z) : VariableDefn :=
  mkVariableDefn (varName field) (varIsLet field) (varStorageClass field)
    (varVisibility field) (varInitValue field) (varTypeIsNArray field)
    (varTypeNullInitValue field) index indexRecursive.

Definition isStorageRequired (field : VariableDefn) : bool :=
  negb (varIsLet field
        && match varInitValue field with
           | Some e => isConstant e
           | None => false
           end).

(** The loop over the members.  It returns the members as the loop leaves
    them (the fields carry their indices) and the two counters. *)
Fixpoint layoutFields (ms : list Defn) (instanceFieldCount instanceFieldCountRecursive : Z)
    : M (list Defn * Z * Z) :=
  match ms with
  | [] => ret ([], instanceFieldCount, instanceFieldCountRecursive)
  | DVariable field :: rest =>
      if isStorageRequired field then
        when (TypeClass_eqb (typeClass tdef) Interface)
          (emit SevError (MsgDataMemberInInterface (varName field))) ;;
        match varStorageClass field with
        | Storage_Instance =>
            let field' :=
              setMemberIndices field instanceFieldCount instanceFieldCountRecursive in
            modify (fun s => setInstanceFields (instanceFields s ++ [Some field']) s) ;;
            r <- layoutFields rest (instanceFieldCount + 1) (instanceFieldCountRecursive + 1) ;;
            let '(ms', n, nrec) := r in
            ret (DVariable field' :: ms', n, nrec)
        | Storage_Static =>
            addSymbol (SymVariable (varName field)) ;;
            modify (fun s => setStaticFields (staticFields s ++ [field]) s) ;;
            r <- layoutFields rest instanceFieldCount instanceFieldCountRecursive ;;
            let '(ms', n, nrec) := r in
            ret (DVariable field :: ms', n, nrec)
        | _ =>
            r <- layoutFields rest instanceFieldCount instanceFieldCountRecursive ;;
            let '(ms', n, nrec) := r in
            ret (DVariable field :: ms', n, nrec)
        end
      else
        r <- layoutFields rest instanceFieldCount instanceFieldCountRecursive ;;
        let '(ms', n, nrec) := r in
        ret (DVariable field :: ms', n, nrec)
  | d :: rest =>
      r <- layoutFields rest instanceFieldCount instanceFieldCountRecursive ;;
      let '(ms', n, nrec) := r in
      ret (d :: ms', n, nrec)
  end.

(** [analyzeFields] also hands back the final value of the local counter
    [instanceFieldCount], which the closing assertion of the C++ function
    compares with the size of [instanceFields_]; [None] when the pass did not
    run. *)
Definition analyzeFieldsCounting : M (bool * option Z) :=
  begun <- beginPass FieldPass false ;;
  if begun then
    sup <- get super ;;
    start <-
      match sup with
      | Some sp =>
          (* Reserve one slot for the superclass. *)
          modify (fun s => setInstanceFields (instanceFields s ++ [None]) s) ;;
          ret (1, tvInstanceFieldCountRecursive (typeView env sp))
      | None => ret (0, 0)
      end ;;
    ms <- get members ;;
    r <- layoutFields ms (fst start) (snd start) ;;
    let '(ms', instanceFieldCount, _) := r in
    modify (setMembers ms') ;;
    finishPass FieldPass ;;
    ret (true, Some instanceFieldCount)
  else ret (true, None).

Definition analyzeFields : M bool :=
  r <- analyzeFieldsCounting ;; ret (fst r).

(** *** Constructors *)

(** The value a field of the default constructor falls back on: its
    initializer, else the null value of its type when that is a constant. *)
Definition defaultValueOf (memberVar : VariableDefn) : option Expr :=
  match varInitValue memberVar with
  | Some e => Some e
  | None =>
      match varTypeNullInitValue memberVar with
      | Some e => if isConstant e then Some e else None
      | None => None
      end
  end.

Definition selfExpr : Expr := LValueExpr idSelf.

(** The loop of [createDefaultConstructor] over the members: the required
    parameters, the optional parameters and the statements of the body. *)
Fixpoint collectInitializers (ms : list Defn)
    (requiredParams optionalParams : list ParameterDefn) (body : list Expr)
    : M (list ParameterDefn * list ParameterDefn * list Expr) :=
  match ms with
  | [] => ret (requiredParams, optionalParams, body)
  | DVariable v :: rest =>
      if StorageClass_eqb (varStorageClass v) Storage_Instance then
        if varIsLet v then
          if isSome (varInitValue v) then DFAIL "Implement me!"
          else collectInitializers rest requiredParams optionalParams body
        else
          let defaultValue := defaultValueOf v in
          if varTypeIsNArray v then
            collectInitializers rest requiredParams optionalParams body
          else if Visibility_eqb (varVisibility v) Public then
            let param := mkParameterDefn (varName v) defaultValue in
            let initExpr :=
              AssignmentExpr (MemberExpr selfExpr (varName v)) (LValueExpr (paramName param)) in
            if isSome defaultValue then
              collectInitializers rest requiredParams (optionalParams ++ [param])
                (body ++ [initExpr])
            else
              collectInitializers rest (requiredParams ++ [param]) optionalParams
                (body ++ [initExpr])
          else if isSome defaultValue then
            collectInitializers rest requiredParams optionalParams body
          else if isObject tdef then
            collectInitializers rest requiredParams optionalParams body
          else
            emit SevFatal (MsgUnimplementedDefaultInit (varName v)) ;;
            DFAIL "Implement"
      else collectInitializers rest requiredParams optionalParams body
  | _ :: rest => collectInitializers rest requiredParams optionalParams body
  end.

Definition defaultConstructorDefn (params : list ParameterDefn) (body : list Expr)
    : FunctionDefn :=
  {| fnId := newFunctionId env;
     fnName := idConstruct;
     fnIsMacro := false;
     fnStorageClass := Storage_Instance;
     fnVisibility := Public;
     fnParentProperty := None;
     fnParams := params;
     fnBlocks := [mkBlock "entry" body];
     fnDeclaredCtor := true;
     fnDeclaredSingular := isSingular tdef;
     fnSynthetic := isSynthetic tdef;
     fnIsFinal := false;
     fnIsUndefined := false;
     fnIsOverride := false;
     fnIsExtern := false;
     fnIsIntrinsic := false;
     fnHasUnboundTypeParams := false;
     fnReturnTypeDefined := true;
     fnReturnsNonVoid := false;
     fnSignatureOk := true |}.

(** The type of the default constructor: it returns [void], its [self] is of
    the type under analysis, and each parameter has the type of its field. *)
Definition constructorType (params : list ParameterDefn) : FunctionType TypeRefView :=
  mkFunctionType false (voidType env)
    (Some (mkTypedParameter (Some idSelf) (mkTypeRefView true (isSingular tdef))))
    (map (fun param => mkTypedParameter (Some (paramName param)) (paramType env param))
       params).

Definition createDefaultConstructor : M bool :=
  sup <- get super ;;
  if match sup with
     | Some sp => negb (isSome (tvDefaultConstructor (typeView env sp)))
     | None => false
     end
  then emit SevFatal MsgNoSuperDefaultConstructor ;; ret false
  else
    ms <- get members ;;
    r <- collectInitializers ms [] [] [] ;;
    let '(requiredParams, optionalParams, body) := r in
    (* Optional params go after required params. *)
    let params := requiredParams ++ optionalParams in
    let funcType := constructorType params in
    let constructorDef := defaultConstructorDefn params body in
    when (isSingular tdef && negb (isSynthetic tdef))
      (addSymbol (SymFunction (fnId constructorDef))) ;;
    if negb (fnDeclaredSingular constructorDef) then DFAIL "constructorDef->isSingular()"
    else
      when (negb (FunctionType_isSingular trDefined trSingular funcType))
        (emit SevFatal MsgConstructorTypeNotSingular ;;
         forEach (whyNotSingular trDefined trSingular funcType)
           (fun note => emit SevInfo (MsgWhyNotSingular note))) ;;
      modify (fun s => setMembers (members s ++ [DFunction constructorDef]) s) ;;
      ret true.

(** The loop over the members named [construct]; the result is
    [hasConstructors]. *)
Fixpoint analyzeDeclaredConstructors (ctors : list Defn) (hasConstructors : bool) : M bool :=
  match ctors with
  | [] => ret hasConstructors
  | DFunction ctor :: rest =>
      addCtorTrait ctor ;;
      if negb (fnSignatureOk ctor) then analyzeDeclaredConstructors rest true
      else if fnReturnTypeDefined ctor && fnReturnsNonVoid ctor then
        emit SevFatal (MsgConstructorReturnType (fnId ctor)) ;; ret true
      else if negb (StorageClass_eqb (fnStorageClass ctor) Storage_Instance) then
        emit SevFatal (MsgConstructorNotInstance (fnId ctor)) ;; ret true
      else
        when (negb (fnHasUnboundTypeParams ctor) && isSingular tdef) (addSingularTrait ctor) ;;
        analyzeDeclaredConstructors rest true
  | d :: _ =>
      emit SevFatal (MsgConstructNotMethod (defnName d)) ;; ret hasConstructors
  end.

Definition isStaticFunction (d : Defn) : bool :=
  match d with
  | DFunction f => StorageClass_eqb (fnStorageClass f) Storage_Static
  | _ => false
  end.

Definition analyzeConstructors : M bool :=
  begun <- beginPass ConstructorPass false ;;
  if begun then
    if isClassOrStruct (typeClass tdef) then
      sup <- get super ;;
      (* Analyze superclass constructors *)
      if match sup with
         | Some sp =>
             negb (isFinished (tvPasses (typeView env sp)) ConstructorPass)
             && negb (isRunning (tvPasses (typeView env sp)) ConstructorPass)
             && negb (superConstruction env)
         | None => false
         end
      then ret false
      else
        ctors <- get (fun s => lookupMember idConstruct (members s)) ;;
        hasConstructors <- analyzeDeclaredConstructors ctors false ;;
        (* Look for creator functions. *)
        creators <- get (fun s => lookupMember idCreate (members s)) ;;
        let hasConstructors := hasConstructors || existsb isStaticFunction creators in
        (if negb hasConstructors then createDefaultConstructor else ret true) ;;
        finishPass ConstructorPass ;;
        ret true
    else
      finishPass ConstructorPass ;; ret true
  else ret true.

(** *** Methods *)

(** The checks of this pass only report; their reports come with the
    environment. *)
Definition analyzeMethods : M bool :=
  begun <- beginPass MethodPass false ;;
  if begun then
    forEach (methodDiagnostics env) (fun d => emit (fst d) (snd d)) ;;
    finishPass MethodPass ;;
    ret true
  else ret true.

(** *** Overloading *)

(** The type whose methods [copyBaseClassMethods] copies. *)
Definition superClassOf (sup : option TypeId) (bs : list TypeId) : option TypeId :=
  (* If it's not a normal class, it can still have a supertype. *)
  match sup, typeClass tdef, bs with
  | Some sp, _, _ => Some sp
  | None, (Interface | Struct), front :: _ => Some front
  | None, _, _ => None
  end.

Definition copyBaseClassMethods : M unit :=
  sup <- get super ;;
  bs <- get bases ;;
  let superClass := superClassOf sup bs in
  (* Copy superclass methods to instance method table *)
  match superClass with
  | Some sc =>
      if negb (tvIsSingular (typeView env sc)) then DFAIL "superClass->isSingular()"
      else
        modify (fun s =>
          setInstanceMethods (instanceMethods s ++ tvInstanceMethods (typeView env sc)) s)
  | None => ret tt
  end.

Definition removeType (t : TypeId) (l : list TypeId) : list TypeId :=
  List.filter (fun x => negb (Nat.eqb x t)) l.

Definition insertType (t : TypeId) (l : list TypeId) : list TypeId :=
  if existsb (Nat.eqb t) l then l else l ++ [t].

(** The body of the loop of [createInterfaceTables] over the interfaces that
    remain. *)
Definition createInterfaceTable (itype : TypeId) : M unit :=
  if negb (TypeClass_eqb (tvTypeClass (typeView env itype)) Interface)
  then DFAIL "itype->typeClass() == Type::Interface"
  else
    (* Do the search before we push the new itable entry. *)
    s <- get (fun s => s) ;;
    match findBaseImplementationOf env s itype with
    | Some parentImpl =>
        if negb (length (tvInstanceMethods (typeView env itype))
                 =? length (methods parentImpl))%nat
        then
          (* the entry is there, still empty, when the assertion fails *)
          modify (fun s => setInterfaces (interfaces s ++ [mkInterfaceTable itype []]) s) ;;
          DFAIL "itype->instanceMethods_.size() == parentImpl->methods.size()"
        else
          modify (fun s =>
            setInterfaces (interfaces s ++ [mkInterfaceTable itype (methods parentImpl)]) s)
    | None =>
        modify (fun s =>
          setInterfaces
            (interfaces s
             ++ [mkInterfaceTable itype (tvInstanceMethods (typeView env itype))]) s)
    end.

Definition createInterfaceTables : M unit :=
  own <- get bases ;;
  let ancestors := ancestorClasses env in
  let basesOf (t : TypeId) :=
    if Nat.eqb t (targetId env) then own else tvBases (typeView env t) in
  (* Remove from the set all types which are the first parent of some other type
     that is already in the set, since they can use the same dispatch table. *)
  let interfaceTypes :=
    fold_left (fun acc base =>
                 match basesOf base with
                 | baseBase :: _ => removeType baseBase acc
                 | [] => acc
                 end)
              (insertType (targetId env) ancestors) ancestors in
  (* Create the tables for each interface that remains. *)
  forEach interfaceTypes createInterfaceTable.

Fixpoint ensureUniqueSignatures (ms : list FunctionDefn) : M unit :=
  match ms with
  | [] => ret tt
  | mi :: rest =>
      forEach rest (fun mj =>
        when (hasSameSignature env mi mj)
          (emit SevError (MsgSignatureConflict (fnId mj)) ;;
           emit SevInfo (MsgFromHere (fnId mi)))) ;;
      ensureUniqueSignatures rest
  end.

Definition findOverride (f : FunctionDefn) (overrides : list FunctionDefn)
    : option FunctionDefn :=
  find (fun o => canOverride env o f) overrides.

(** The loop of [overrideMethods] from slot [i] on; the result is the rest of
    the table with its slots replaced. *)
Fixpoint overrideSlots (name : Name) (overrides : list FunctionDefn) (canHide : bool)
    (i : Z) (table : list FunctionDefn) : M (list FunctionDefn) :=
  match table with
  | [] => ret []
  | m :: rest =>
      slot <-
        (if Name_eqb (fnName m) name then
           match findOverride m overrides with
           | Some newMethod =>
               st <- get (fun s => fnStateOf s newMethod) ;;
               when (canHide && (dispatchIndex st <? 0)) (setDispatchIndex newMethod i) ;;
               when (hasBody m && negb (fnIsOverride newMethod))
                 (emit SevError (MsgShouldDeclareOverride (fnId newMethod))) ;;
               insertOverridden newMethod m ;;
               ret newMethod
           | None =>
               when canHide
                 (emit SevWarn (MsgHidden (fnId m)) ;;
                  forEach overrides (fun o => emit SevInfo (MsgHiddenBy (fnId o)))) ;;
               ret m
           end
         else ret m) ;;
      rest' <- overrideSlots name overrides canHide (i + 1) rest ;;
      ret (slot :: rest')
  end.

Definition overrideMethods (table overrides : list FunctionDefn) (canHide : bool)
    : M (list FunctionDefn) :=
  match overrides with
  | [] => ret table
  | front :: _ => overrideSlots (fnName front) overrides canHide 0 table
  end.

Fixpoint overrideAccessorSlots (name : Name) (prop : PropertyDefn)
    (accessors : list FunctionDefn) (canHide : bool)
    (i : Z) (table : list FunctionDefn) : M (list FunctionDefn) :=
  match table with
  | [] => ret []
  | m :: rest =>
      slot <-
        (match fnParentProperty m with
         | Some p =>
             if Name_eqb (fnName m) name && Name_eqb p (propName prop) then
               match findOverride m accessors with
               | Some newAccessor =>
                   st <- get (fun s => fnStateOf s newAccessor) ;;
                   when (canHide && (dispatchIndex st <? 0)) (setDispatchIndex newAccessor i) ;;
                   insertOverridden newAccessor m ;;
                   ret newAccessor
               | None =>
                   emit SevWarn (MsgInvalidAccessorOverride (fnId m)) ;;
                   forEach accessors (fun o => emit SevInfo (MsgHiddenBy (fnId o))) ;;
                   ret m
               end
             else ret m
         | None => ret m
         end) ;;
      rest' <- overrideAccessorSlots name prop accessors canHide (i + 1) rest ;;
      ret (slot :: rest')
  end.

Definition overridePropertyAccessors (table : list FunctionDefn) (prop : PropertyDefn)
    (accessors : list FunctionDefn) (canHide : bool) : M (list FunctionDefn) :=
  match accessors with
  | [] => ret table
  | front :: _ => overrideAccessorSlots (fnName front) prop accessors canHide 0 table
  end.

Fixpoint mapM {A B} (f : A -> M B) (l : list A) : M (list B) :=
  match l with
  | [] => ret []
  | x :: rest => y <- f x ;; ys <- mapM f rest ;; ret (y :: ys)
  end.

(** Apply an override step to the instance method table ([canHide] true) and
    then to the table of every interface ([canHide] false). *)
Definition overrideInTables (step : list FunctionDefn -> bool -> M (list FunctionDefn))
    : M unit :=
  table <- get instanceMethods ;;
  table' <- step table true ;;
  modify (setInstanceMethods table') ;;
  ifaceList <- get interfaces ;;
  ifaceList' <- mapM (fun it =>
                        ms <- step (methods it) false ;;
                        ret (mkInterfaceTable (interfaceType it) ms)) ifaceList ;;
  modify (setInterfaces ifaceList').

(** The same-named methods, getters and setters of one symbol table entry,
    and the last property seen. *)
Fixpoint collectOverrides (entry : list Defn)
    (ms getters setters : list FunctionDefn) (prop : option PropertyDefn)
    : M (list FunctionDefn * list FunctionDefn * list FunctionDefn * option PropertyDefn) :=
  match entry with
  | [] => ret (ms, getters, setters, prop)
  | DFunction func :: rest =>
      s <- get (fun s => s) ;;
      if isSingularIn s func then
        addSymbol (SymFunction (fnId func)) ;;
        if StorageClass_eqb (fnStorageClass func) Storage_Instance && negb (isCtorIn s func)
        then collectOverrides rest (ms ++ [func]) getters setters prop
        else collectOverrides rest ms getters setters prop
      else collectOverrides rest ms getters setters prop
  | DProperty p :: rest =>
      if StorageClass_eqb (propStorageClass p) Storage_Instance && propIsSingular p then
        if negb (propTypePassFinished p)
        then DFAIL "prop->passes().isFinished(PropertyDefn::PropertyTypePass)"
        else
          collectOverrides rest ms
            (getters ++ match getter p with Some g => [g] | None => [] end)
            (setters ++ match setter p with Some g => [g] | None => [] end)
            (Some p)
      else collectOverrides rest ms getters setters (Some p)
  | _ :: rest => collectOverrides rest ms getters setters prop
  end.

Definition overrideEntry (entry : Name * list Defn) : M unit :=
  r <- collectOverrides (snd entry) [] [] [] None ;;
  let '(ms, getters, setters, prop) := r in
  when (negb (isNil ms))
    (ensureUniqueSignatures ms ;;
     overrideInTables (fun table canHide => overrideMethods table ms canHide)) ;;
  match prop with
  | Some prop =>
      when (negb (isNil getters))
        (ensureUniqueSignatures getters ;;
         overrideInTables (fun table canHide =>
                             overridePropertyAccessors table prop getters canHide)) ;;
      when (negb (isNil setters))
        (ensureUniqueSignatures setters ;;
         overrideInTables (fun table canHide =>
                             overridePropertyAccessors table prop setters canHide))
  | None => ret tt
  end.

Definition overrideMembers : M unit :=
  clMembers <- get (fun s => symbolTable (members s)) ;;
  forEach clMembers overrideEntry.

Definition appendMethod (fn : FunctionDefn) : M unit :=
  n <- get (fun s => length (instanceMethods s)) ;;
  setDispatchIndex fn (Z.of_nat n) ;;
  modify (fun s => setInstanceMethods (instanceMethods s ++ [fn]) s).

Definition addAccessor (accessor : option FunctionDefn) : M unit :=
  match accessor with
  | Some fn =>
      st <- get (fun s => fnStateOf s fn) ;;
      when (negb (fnIsFinal fn) && (dispatchIndex st <? 0)) (appendMethod fn)
  | None => ret tt
  end.

Definition addNewMethod (de : Defn) : M unit :=
  s <- get (fun s => s) ;;
  match de with
  | DFunction fn =>
      if StorageClass_eqb (fnStorageClass fn) Storage_Instance && isSingularIn s fn
         && negb (fnIsMacro fn)
      then
        let st := fnStateOf s fn in
        when (fnIsUndefined fn && bool_decide (overriddenMethods st = ∅)
              && (negb (isCtorIn s fn) || negb (isNil (fnParams fn))))
          (emit SevError (MsgUndefWithoutBase (fnId fn))) ;;
        when (negb (isCtorIn s fn) && negb (fnIsFinal fn) && (dispatchIndex st <? 0))
          (appendMethod fn)
      else ret tt
  | DProperty prop =>
      if StorageClass_eqb (propStorageClass prop) Storage_Instance && propIsSingular prop
      then addAccessor (getter prop) ;; addAccessor (setter prop)
      else ret tt
  | _ => ret tt
  end.

Definition addNewMethods : M unit :=
  ms <- get members ;;
  forEach ms addNewMethod.

Definition isUnimplemented (func : FunctionDefn) : bool :=
  negb (hasBody func) && negb (fnIsExtern func) && negb (fnIsIntrinsic func)
  && negb (fnIsUndefined func).

Definition listMethods (ms : list FunctionDefn) : M unit :=
  forEach ms (fun f => emit SevInfo (MsgMissingMethod (fnId f))).

(** The loop over the interface tables, left by [return] at the first table
    with an unimplemented method. *)
Fixpoint checkInterfaceTables (itab : list InterfaceTable) : M unit :=
  match itab with
  | [] => ret tt
  | it :: rest =>
      match List.filter isUnimplemented (methods it) with
      | [] => checkInterfaceTables rest
      | unimpMethods =>
          emit SevError (MsgLacksImplementations (interfaceType it)) ;;
          listMethods unimpMethods
      end
  end.

Definition checkForRequiredMethods : M unit :=
  if isAbstract tdef then ret tt
  else
    ms <- get instanceMethods ;;
    (* Check for abstract or interface methods which weren't overridden. *)
    match List.filter isUnimplemented ms with
    | [] =>
        itab <- get interfaces ;;
        checkInterfaceTables itab
    | abstractMethods =>
        when (TypeClass_eqb (typeClass tdef) Struct
              || (TypeClass_eqb (typeClass tdef) Class && negb (isAbstract tdef)))
          (emit SevError MsgLacksDefinitions ;;
           listMethods abstractMethods)
    end.

Definition analyzeOverloading : M bool :=
  begun <- beginPass OverloadingPass false ;;
  if begun then
    copyBaseClassMethods ;;
    createInterfaceTables ;;
    overrideMembers ;;
    addNewMethods ;;
    checkForRequiredMethods ;;
    finishPass OverloadingPass ;;
    ret true
  else ret true.

(** *** Field types and completion *)

Definition analyzeFieldTypes : M bool :=
  begun <- beginPass FieldTypePass true ;;
  if begun then finishPass FieldTypePass ;; ret true
  else ret true.

Definition analyzeCompletely : M bool :=
  (* In this case, it's OK if it's already running. *)
  begun <- beginPass CompletionPass true ;;
  if begun then finishPass CompletionPass ;; ret true
  else ret true.

(** *** Running the passes of a task *)

(** [if (passesToRun.contains(p) && !c()) return false; k] *)
Definition step (passesToRun : PassSet) (p : Pass) (c : M bool) (k : M bool) : M bool :=
  if PassSet.contains passesToRun p then
    ok <- c ;;
    if ok then k else ret false
  else k.

(** [if (passesToRun.contains(p) && begin(p)) { if (!body) return false; finish(p); } k] *)
Definition guarded (passesToRun : PassSet) (p : Pass) (body : bool) (k : M bool) : M bool :=
  if PassSet.contains passesToRun p then
    begun <- beginPass p false ;;
    if begun then
      if body then finishPass p ;; k else ret false
    else k
  else k.

Definition runPasses (passesToRun : PassSet) : M bool :=
  (* Work out what passes need to be run. *)
  done <- get (fun s => finished (passes s)) ;;
  let passesToRun := PassSet.removeAll passesToRun done in
  if PassSet.isEmpty passesToRun then ret true
  else if isTemplate tdef then
    (* Skip analysis of templates - for now. *)
    step passesToRun BaseTypesPass analyzeBaseClasses
      (guarded passesToRun ScopeCreationPass (createMembersFromAST env) (ret true))
  else if isTemplateMember tdef then ret true
  else
    guarded passesToRun ScopeCreationPass (createMembersFromAST env)
    (guarded passesToRun AttributePass (resolveAttributes env)
    (step passesToRun NamingConflictPass checkNameConflicts
    (step passesToRun BaseTypesPass analyzeBaseClasses
    (step passesToRun MemberTypePass analyzeMemberTypes
    (step passesToRun FieldPass analyzeFields
    (step passesToRun ConverterPass analyzeConverters
    (step passesToRun ConstructorPass analyzeConstructors
    (step passesToRun MethodPass analyzeMethods
    (step passesToRun OverloadingPass analyzeOverloading
    (step passesToRun FieldTypePass analyzeFieldTypes
    (step passesToRun CompletionPass analyzeCompletely
    (ret true)))))))))))).

Definition passSetOf (task : AnalysisTask) : option PassSet :=
  match task with
  | Task_PrepTypeComparison => Some PASS_SET_RESOLVE_TYPE
  | Task_PrepMemberLookup => Some PASS_SET_LOOKUP
  | Task_PrepConstruction => Some PASS_SET_CONSTRUCTION
  | Task_PrepConversion => Some PASS_SET_CONVERSION
  | Task_PrepEvaluation => Some PASS_SET_EVALUATION
  | Task_PrepTypeGeneration => Some PASS_SET_TYPEGEN
  | Task_PrepCodeGeneration => Some PASS_SET_CODEGEN
  | _ => None
  end.

Definition analyze (task : AnalysisTask) : M bool :=
  match passSetOf task with
  | Some passesToRun => runPasses passesToRun
  | None => ret true
  end.

End ClassAnalyzer.

(** * Union types

    [lib/CFG/UnionType.cpp]: the counters that the constructor keeps, the
    tests on them, the index of a type among the members and the comparison
    of two unions.  The member types, [dealias], [isEqual] and [isSubtype]
    on them and the ordering of the members are given; [size_t] is taken as
    64 bits wide. *)

Definition sizeWrap (x : Z) : Z := x mod 2 ^ 64.

Section UnionTypes.

Variable Ty : Type.
Variable dealias : Ty -> Ty.
Variable tyIsEqual : Ty -> Ty -> bool.          (* a->isEqual(b) *)
Variable tyIsSubtype : Ty -> Ty -> bool.        (* a->isSubtype(b) *)
Variable isVoidInstance : Ty -> bool.           (* t == &VoidType::instance *)
Variable isNullInstance : Ty -> bool.           (* t == &NullType::instance *)
Variable isReferenceType : Ty -> bool.
Variable sortTypes : list Ty -> list Ty.        (* std::sort, LexicalTypeOrdering *)

Record UnionType := mkUnionType {
  unionAddr : N;                                (* the identity of the object *)
  members_ : list Ty;
  numValueTypes_ : Z;
  numReferenceTypes_ : Z;
  hasVoidType_ : bool;
  hasNullType_ : bool
}.

(** The inner loop of the constructor: one pass over [combined] for a new
    type, which drops the members that are subtypes of it. *)
Fixpoint mergeInto (type : Ty) (combined : list Ty) (addNew : bool) : list Ty * bool :=
  match combined with
  | [] => ([], addNew)
  | m :: rest =>
      if tyIsEqual m type || tyIsSubtype type m then
        let '(rest', addNew') := mergeInto type rest false in (m :: rest', addNew')
      else if tyIsSubtype m type then mergeInto type rest addNew
      else let '(rest', addNew') := mergeInto type rest addNew in (m :: rest', addNew')
  end.

Definition addMember (combined : list Ty) (t : Ty) : list Ty :=
  let type := dealias t in
  let '(combined', addNew) := mergeInto type combined true in
  if addNew then combined' ++ [type] else combined'.

Definition countMember (u : UnionType) (t : Ty) : UnionType :=
  let memberType := dealias t in
  if isVoidInstance memberType then
    mkUnionType (unionAddr u) (members_ u) (numValueTypes_ u) (numReferenceTypes_ u)
      true (hasNullType_ u)
  else if isNullInstance memberType then
    mkUnionType (unionAddr u) (members_ u) (numValueTypes_ u) (numReferenceTypes_ u)
      (hasVoidType_ u) true
  else if isReferenceType memberType then
    mkUnionType (unionAddr u) (members_ u) (numValueTypes_ u)
      (sizeWrap (numReferenceTypes_ u + 1)) (hasVoidType_ u) (hasNullType_ u)
  else
    mkUnionType (unionAddr u) (members_ u) (sizeWrap (numValueTypes_ u + 1))
      (numReferenceTypes_ u) (hasVoidType_ u) (hasNullType_ u).

(** The constructor, for the object at [addr]. *)
Definition UnionType_new (addr : N) (members : list Ty) : UnionType :=
  let combined := fold_left addMember members [] in
  let combined := sortTypes combined in
  let u := fold_left countMember combined (mkUnionType addr [] 0 0 false false) in
  mkUnionType (unionAddr u) combined (numValueTypes_ u) (numReferenceTypes_ u)
    (hasVoidType_ u) (hasNullType_ u).

Definition hasRefTypesOnly (u : UnionType) : bool :=
  (numValueTypes_ u =? 0) && negb (hasVoidType_ u).

Definition isSingleOptionalType (u : UnionType) : bool :=
  if numValueTypes_ u =? 0 then
    hasNullType_ u && negb (hasVoidType_ u) && (numReferenceTypes_ u =? 1)
  else if numReferenceTypes_ u =? 0 then
    hasVoidType_ u && negb (hasNullType_ u) && (numValueTypes_ u =? 1)
  else false.


Fixpoint typeIndexFrom (index : Z) (type : Ty) (ms : list Ty) : Z :=
  match ms with
  | [] => -1
  | m :: rest => if tyIsEqual type m then index else typeIndexFrom (index + 1) type rest
  end.

Definition getTypeIndex (u : UnionType) (type : Ty) : Z :=
  let type := dealias type in
  (* If it only has reference types, then use subclass tests instead of
     a discriminator field. *)
  if (numValueTypes_ u =? 0) && negb (hasVoidType_ u) then 0
  else typeIndexFrom 0 type (members_ u).

(** One loop of [isEqual]: all types of [ts] have an index in [self]. *)
Fixpoint allIndexed (self : UnionType) (ts : list Ty) : bool :=
  match ts with
  | [] => true
  | t :: rest => if getTypeIndex self t <? 0 then false else allIndexed self rest
  end.

(** [this->isEqual(u)] for another union [u]. *)
Definition UnionType_isEqual (this u : UnionType) : bool :=
  if N.eqb (unionAddr u) (unionAddr this) then true
  else if negb (allIndexed this (members_ u)) then false
  else if negb (allIndexed u (members_ this)) then false
  else true.

End UnionTypes.

Arguments mkUnionType {Ty} _ _ _ _ _ _.
Arguments unionAddr {Ty} _.
Arguments members_ {Ty} _.
Arguments numValueTypes_ {Ty} _.
Arguments numReferenceTypes_ {Ty} _.
Arguments hasVoidType_ {Ty} _.
Arguments hasNullType_ {Ty} _.
Arguments mergeInto {Ty} _ _ _ _ _.
Arguments addMember {Ty} _ _ _ _ _.
Arguments countMember {Ty} _ _ _ _ _ _.
Arguments UnionType_new {Ty} _ _ _ _ _ _ _ _ _.
Arguments hasRefTypesOnly {Ty} _.
Arguments isSingleOptionalType {Ty} _.
Arguments typeIndexFrom {Ty} _ _ _ _.
Arguments getTypeIndex {Ty} _ _ _ _.
Arguments allIndexed {Ty} _ _ _ _.
Arguments UnionType_isEqual {Ty} _ _ _ _.

(** * The size of an IR type

    [estimateTypeSize] and [isLargeIRType] of [lib/CFG/Defn.cpp], over the
    types of the code generator: a type has an id; a primitive one has a
    size in bits, a struct its subtypes, an array or vector an element type
    and a number of elements. *)

Inductive TypeID :=
| VoidTyID | FloatTyID | DoubleTyID | X86_FP80TyID | FP128TyID | PPC_FP128TyID
| IntegerTyID | OpaqueTyID | LabelTyID | MetadataTyID | FunctionTyID.

#[warnings="-register-all"] Inductive IRType :=
| IRPlain (id : TypeID) (primitiveSizeInBits : Z)
| IRPointer
| IRStruct (subtypes : list IRType)
| IRArray (elementType : IRType) (numElements : Z)
| IRVector (elementType : IRType) (numElements : Z).

Fixpoint estimateTypeSize (type : IRType) (numPointers numBits : Z) : Z * Z :=
  match type with
  | IRPlain id bits =>
      match id with
      | VoidTyID | FloatTyID | DoubleTyID | X86_FP80TyID | FP128TyID | PPC_FP128TyID
      | IntegerTyID => (numPointers, sizeWrap (numBits + bits))
      | OpaqueTyID | LabelTyID | MetadataTyID | FunctionTyID => (numPointers, numBits)
      end
  | IRPointer => (sizeWrap (numPointers + 1), numBits)
  | IRStruct subtypes =>
      (fix each (ts : list IRType) (numPointers numBits : Z) : Z * Z :=
         match ts with
         | [] => (numPointers, numBits)
         | t :: rest =>
             let '(numPointers', numBits') := estimateTypeSize t numPointers numBits in
             each rest numPointers' numBits'
         end) subtypes numPointers numBits
  | IRArray elementType numElements =>
      let elemPointers := 0 in
      let elemBits := 0 in
      let '(numPointers', numBits') := estimateTypeSize elementType numPointers numBits in
      (sizeWrap (numPointers' + sizeWrap (elemPointers * numElements)),
       sizeWrap (numBits' + sizeWrap (elemBits * numElements)))
  | IRVector elementType numElements =>
      let elemPointers := 0 in
      let elemBits := 0 in
      let '(numPointers', numBits') := estimateTypeSize elementType numPointers numBits in
      (sizeWrap (numPointers' + sizeWrap (elemPointers * numElements)),
       sizeWrap (numBits' + sizeWrap (elemBits * numElements)))
  end.

Section LargeTypes.
Variable isAbstract : IRType -> bool.           (* llvm::Type::isAbstract *)
Variable isFirstClassType : IRType -> bool.     (* llvm::Type::isFirstClassType *)

Definition isLargeIRType (type : IRType) : bool :=
  if isAbstract type || negb (isFirstClassType type) then true
  else
    let '(numPointers, numBits) := estimateTypeSize type 0 0 in
    (2 <? numPointers) || (64 <? numBits) || ((0 <? numPointers) && (32 <? numBits)).
End LargeTypes.

(** * Vocabulary of the properties *)

(** A computation leaves a component of the state as it found it. *)
Definition preserves {X A} (proj : State -> X) (c : M A) : Prop :=
  forall s a s', c s = Done a s' -> proj s' = proj s.

(** Whether [runPasses] runs pass [q] at all on the target: only the first
    two passes on a template, none on the member of a template. *)
Definition runsOn (td : TypeDefn) (q : Pass) : bool :=
  if isTemplate td then Pass_eqb q ScopeCreationPass || Pass_eqb q BaseTypesPass
  else negb (isTemplateMember td).

(** One statement of [runPasses]: when the run goes on with success, the
    pass is finished if it was asked for, and nothing is in progress. *)
Definition afterStep (passesToRun : PassSet) (p : Pass) (s s1 : State) : Prop :=
  noneRunning (passes s1)
  /\ forall q, isFinished (passes s1) q
               = (PassSet.contains passesToRun p && Pass_eqb p q) || isFinished (passes s) q.

(** The pass sets of the tasks the class analyzer knows. *)
Definition taskPassSets : list PassSet :=
  [PASS_SET_RESOLVE_TYPE; PASS_SET_LOOKUP; PASS_SET_CONSTRUCTION; PASS_SET_CONVERSION;
   PASS_SET_EVALUATION; PASS_SET_TYPEGEN; PASS_SET_CODEGEN].

(** Every task that asks for pass [p] asks for pass [q] as well. *)
Definition requiredBy (p q : Pass) : bool :=
  forallb (fun set => implb (PassSet.contains set p) (PassSet.contains set q)) taskPassSets.

(** The finished passes are closed under [requiredBy]. *)
Definition closedUnderTasks (m : PassMgr) : Prop :=
  forall p q, isFinished m p = true -> requiredBy p q = true -> isFinished m q = true.

(** The finished passes are a prefix of the enumeration. *)
Definition passOrder (m : PassMgr) : Prop :=
  forall p q, isFinished m p = true -> precedes q p = true -> isFinished m q = true.

(** A series of requests on one target, each in the environment it meets;
    the state after the last one when every request succeeded. *)
Fixpoint analyzeAll (calls : list (Env * AnalysisTask)) (s : State) : option State :=
  match calls with
  | [] => Some s
  | (env, task) :: rest =>
      match analyze env task s with
      | Done true s' => analyzeAll rest s'
      | _ => None
      end
  end.

(** The kinds of base a struct or an interface accepts. *)
Definition acceptsBase (dtype baseKind : TypeClass) : bool :=
  match dtype with
  | Struct => TypeClass_eqb baseKind Struct || TypeClass_eqb baseKind Protocol
  | Interface => TypeClass_eqb baseKind Interface || TypeClass_eqb baseKind Protocol
  | _ => false
  end.

(** The first base of an accepted kind, and the other bases in their order. *)
Fixpoint splitPrimary (accepted : TypeId -> bool) (ids : list TypeId)
    : option TypeId * list TypeId :=
  match ids with
  | [] => (None, [])
  | t :: rest =>
      if accepted t then (Some t, rest)
      else let (p, others) := splitPrimary accepted rest in (p, t :: others)
  end.

Definition compositeBase (t : TypeId) (b : ASTBase) : Prop := resolved b = Composite t true.








(** The warning that a definition is hidden. *)
Definition isHiddenWarning (d : Diagnostic) : bool :=
  match d with
  | (SevWarn, MsgHidden _) => true
  | _ => false
  end.

(** The slots of a table that carry the name of the overrides and for which
    none of the overrides is compatible. *)
Definition unmatchedSlots (env : Env) (overrides table : list FunctionDefn)
    : list FunctionDefn :=
  match overrides with
  | [] => []
  | front :: _ =>
      List.filter (fun m => Name_eqb (fnName m) (fnName front)
                       && negb (isSome (findOverride env m overrides))) table
  end.

(** The report that an interface lacks implementations. *)
Definition isInterfaceReport (d : Diagnostic) : bool :=
  match d with
  | (_, MsgLacksImplementations _) => true
  | _ => false
  end.

Definition missingMethods (ms : list FunctionDefn) : list Diagnostic :=
  map (fun f => (SevInfo, MsgMissingMethod (fnId f))) ms.

(** What the check reports about the instance method table. *)
Definition vtableReport (td : TypeDefn) (abstractMethods : list FunctionDefn)
    : list Diagnostic :=
  match typeClass td with
  | Struct | Class => (SevError, MsgLacksDefinitions) :: missingMethods abstractMethods
  | Interface | Protocol => []
  end.

(** What the check reports about the interface tables: the first table with
    an unimplemented method, and nothing about the tables after it. *)
Fixpoint interfaceReport (itab : list InterfaceTable) : list Diagnostic :=
  match itab with
  | [] => []
  | it :: rest =>
      match List.filter isUnimplemented (methods it) with
      | [] => interfaceReport rest
      | unimpMethods =>
          (SevError, MsgLacksImplementations (interfaceType it)) :: missingMethods unimpMethods
      end
  end.

Definition isFunctionDefn (d : Defn) : bool :=
  match d with DFunction _ => true | _ => false end.

(** The fields the default constructor takes a parameter for: public
    variables with instance storage whose type is not a native array. *)
Definition constructorField (d : Defn) : option VariableDefn :=
  match d with
  | DVariable v =>
      if StorageClass_eqb (varStorageClass v) Storage_Instance && negb (varIsLet v)
         && negb (varTypeIsNArray v) && Visibility_eqb (varVisibility v) Public
      then Some v else None
  | _ => None
  end.

Fixpoint constructorFields (ms : list Defn) : list VariableDefn :=
  match ms with
  | [] => []
  | d :: rest =>
      match constructorField d with
      | Some v => v :: constructorFields rest
      | None => constructorFields rest
      end
  end.

Definition parameterOf (v : VariableDefn) : ParameterDefn :=
  mkParameterDefn (varName v) (defaultValueOf v).

Definition hasDefault (v : VariableDefn) : bool := isSome (defaultValueOf v).

Definition requiredParameters (ms : list Defn) : list ParameterDefn :=
  map parameterOf (List.filter (fun v => negb (hasDefault v)) (constructorFields ms)).

Definition optionalParameters (ms : list Defn) : list ParameterDefn :=
  map parameterOf (List.filter hasDefault (constructorFields ms)).

Definition fieldAssignments (ms : list Defn) : list Expr :=
  map (fun v => AssignmentExpr (MemberExpr selfExpr (varName v)) (LValueExpr (varName v)))
    (constructorFields ms).

(** What the loop over the members named [construct] reports when none of
    them is a function: the first of them. *)
Definition notMethodReport (ctors : list Defn) : list Diagnostic :=
  match ctors with
  | d :: _ => [(SevFatal, MsgConstructNotMethod (defnName d))]
  | [] => []
  end.

(** What [createDefaultConstructor] reports about the type of the
    constructor: nothing when it is singular, else the fatal error and the
    notes of [whyNotSingular]. *)
Definition constructorTypeReport (env : Env) (params : list ParameterDefn)
    : list Diagnostic :=
  if FunctionType_isSingular trDefined trSingular (constructorType env params) then []
  else (SevFatal, MsgConstructorTypeNotSingular)
       :: map (fun note => (SevInfo, MsgWhyNotSingular note))
            (whyNotSingular trDefined trSingular (constructorType env params)).

(** The members on which [createDefaultConstructor] stops at [DFAIL]: an
    instance constant with an initializer, and (outside [Object]) a
    non-public instance variable without default value. *)
Definition unimplementedInitializer (td : TypeDefn) (d : Defn) : bool :=
  match d with
  | DVariable v =>
      StorageClass_eqb (varStorageClass v) Storage_Instance
      && (if varIsLet v then isSome (varInitValue v)
          else negb (varTypeIsNArray v) && negb (Visibility_eqb (varVisibility v) Public)
               && negb (hasDefault v) && negb (isObject td))
  | _ => false
  end.

(** The super type, if any, passes the checks of the Constructor pass. *)
Definition superConstructible (env : Env) (sup : option TypeId) : bool :=
  match sup with
  | Some sp =>
      (isFinished (tvPasses (typeView env sp)) ConstructorPass
       || isRunning (tvPasses (typeView env sp)) ConstructorPass
       || superConstruction env)
      && isSome (tvDefaultConstructor (typeView env sp))
  | None => true
  end.

(** The set of methods a function has been recorded to override. *)
Definition overriddenBy (s : State) (f : FunctionDefn) : gset FnId :=
  overriddenMethods (fnStateOf s f).

(** The sets of overridden methods only grow from [s] to [s']. *)
Definition overriddenGrows (s s' : State) : Prop :=
  forall g, overriddenBy s g ⊆ overriddenBy s' g.

(** [f] overrides [m], directly or through the methods that it overrides. *)
Inductive overrides (s : State) : FunctionDefn -> FunctionDefn -> Prop :=
| overrides_direct f m : fnId m ∈ overriddenBy s f -> overrides s f m
| overrides_chain f g m :
    fnId g ∈ overriddenBy s f -> overrides s g m -> overrides s f m.

(** What an override step does to a table: every slot keeps its occupant or
    receives a method that meets the old occupant (as [meets] says), can
    override it and has it recorded as overridden. *)
Definition tableStep (env : Env) (meets : FunctionDefn -> FunctionDefn -> Prop)
    (table : list FunctionDefn) (s : State) (table' : list FunctionDefn) (s' : State) : Prop :=
  length table' = length table
  /\ overriddenGrows s s'
  /\ forall k o, table !! k = Some o ->
       exists n, table' !! k = Some n
                 /\ (n = o \/ (meets n o /\ canOverride env n o = true
                               /\ fnId o ∈ overriddenBy s' n)).

(** The functions a member brings into the override step. *)
Definition functionsOf (d : Defn) : list FunctionDefn :=
  match d with
  | DFunction f => [f]
  | DProperty p =>
      match getter p with Some g => [g] | None => [] end
      ++ match setter p with Some g => [g] | None => [] end
  | _ => []
  end.

Definition ownFunctions (ms : list Defn) : list FunctionDefn := flat_map functionsOf ms.

(** A property of the two tables of a type and of the sets of overridden
    methods that every override step keeps. *)
Record TableInvariant (env : Env) (meets : FunctionDefn -> FunctionDefn -> Prop)
    (I : list FunctionDefn -> list InterfaceTable -> State -> Prop) : Prop := {
  inv_grows : forall vt its s s', overriddenGrows s s' -> I vt its s -> I vt its s';
  inv_vtable : forall vt its s vt' s',
    tableStep env meets vt s vt' s' -> I vt its s -> I vt' its s';
  inv_itable : forall vt pre it post s t' s',
    tableStep env meets (methods it) s t' s' ->
    I vt (pre ++ it :: post) s ->
    I vt (pre ++ mkInterfaceTable (interfaceType it) t' :: post) s'
}.

(** The two tables of the state. *)
Definition tablesOf (s : State) : list FunctionDefn * list InterfaceTable :=
  (instanceMethods s, interfaces s).

(** An override step: it is a [tableStep] on the table it is given and
    leaves the tables of the state alone. *)
Definition overrideStep (env : Env) (meets : FunctionDefn -> FunctionDefn -> Prop)
    (stp : list FunctionDefn -> bool -> M (list FunctionDefn)) : Prop :=
  forall t b, preserves tablesOf (stp t b)
              /\ forall s t' s', stp t b s = Done t' s' -> tableStep env meets t s t' s'.

(** The tables and the function store. *)
Definition tablesAndFunctions (s : State)
    : list FunctionDefn * list InterfaceTable * gmap FnId FnState :=
  (instanceMethods s, interfaces s, functions s).

(** The method table grew at its end, the interface tables are the same and
    the sets of overridden methods grew. *)
Definition extendsTables (s s' : State) : Prop :=
  (exists extra, instanceMethods s' = instanceMethods s ++ extra)
  /\ interfaces s' = interfaces s
  /\ overriddenGrows s s'.

(** Slot [i] of the method table of the state holds the method of the same
    slot of [base], or a method recorded to override it. *)
Definition inheritedOrOverridden (s : State) (base : list FunctionDefn) (i : nat) : Prop :=
  exists f m, instanceMethods s !! i = Some f /\ base !! i = Some m
              /\ (f = m \/ fnId m ∈ overriddenBy s f).

(** [f] fills the slot of [m]: it is [m] or overrides it. *)
Definition implementsSlot (s : State) (f m : FunctionDefn) : Prop :=
  f = m \/ overrides s f m.

(** A table holds, slot by slot, an implementation of the reference table. *)
Definition implementsTable (s : State) (table reference : list FunctionDefn) : Prop :=
  length table = length reference
  /\ forall j m, reference !! j = Some m ->
       exists f, table !! j = Some f /\ implementsSlot s f m.

(** A method [n] of the type [ms] can come upon the method [o] in a slot:
    [n] is a function of the type and [o] has its name, or [n] is an accessor
    of a property of the type and [o] belongs to a property of that name. *)
Definition mayReplace (ms : list Defn) (n o : FunctionDefn) : Prop :=
  (In (DFunction n) ms /\ fnName n = fnName o)
  \/ (exists p, In (DProperty p) ms /\ (getter p = Some n \/ setter p = Some n)
                /\ fnParentProperty o = Some (propName p)).

(** No method of the type can override another method of the type that it
    can come upon in a slot. *)
Definition noOverrideAmong (env : Env) (ms : list Defn) : Prop :=
  forall n o, In o (ownFunctions ms) -> mayReplace ms n o ->
              canOverride env n o = true -> n = o.

(** The method table against the table it was copied from: every slot of
    the base table is still there and holds the base method or a method of
    the type recorded to override it. *)
Definition vtableInvariant (own base : list FunctionDefn)
    (vt : list FunctionDefn) (its : list InterfaceTable) (s : State) : Prop :=
  length vt = length base
  /\ forall k m, base !! k = Some m ->
       exists f, vt !! k = Some f
                 /\ (f = m \/ (In f own /\ fnId m ∈ overriddenBy s f)).

(** The interface tables against the method tables of their interfaces. *)
Definition itableInvariant (env : Env)
    (vt : list FunctionDefn) (its : list InterfaceTable) (s : State) : Prop :=
  Forall (fun it => implementsTable s (methods it)
                      (tvInstanceMethods (typeView env (interfaceType it)))) its.

(** Where the table of an interface starts from: the table of a base that
    implements it, or the method table of the interface itself. *)
Definition initialTable (env : Env) (it : InterfaceTable) : Prop :=
  (exists st parentImpl,
      findBaseImplementationOf env st (interfaceType it) = Some parentImpl
      /\ methods it = methods parentImpl)
  \/ methods it = tvInstanceMethods (typeView env (interfaceType it)).

(** The tables, the function store and the members. *)
Definition tablesFunctionsMembers (s : State) :=
  (instanceMethods s, interfaces s, functions s, members s).

(** A computation that never stops at [DFAIL]. *)
Definition returns {A} (c : M A) : Prop := forall s, exists a s', c s = Done a s'.

(** The task asks for the pass. *)
Definition asksFor (task : AnalysisTask) (q : Pass) : bool :=
  match passSetOf task with
  | Some set => PassSet.contains set q
  | None => false
  end.

(** What the passes after BaseTypes build on the target. *)
Definition analysisResults (s : State) :=
  (members s, instanceFields s, staticFields s, instanceMethods s, interfaces s,
   coercers s, functions s).

(** Members that share a name are definitions of the same kind. *)
Definition kindsAgree (ms : list Defn) : Prop :=
  forall d1 d2, In d1 ms -> In d2 ms -> defnName d1 = defnName d2 ->
                defnType d1 = defnType d2.

(** Two members carry the name and are definitions of different kinds. *)
Definition inConflict (ms : list Defn) (n : Name) : Prop :=
  exists d1 d2, In d1 ms /\ In d2 ms /\ defnName d1 = n /\ defnName d2 = n
                /\ defnType d1 <> defnType d2.

(** Every member of the entry is of the kind of the first one. *)
Definition sameKind (entry : Name * list Defn) : bool :=
  match snd entry with
  | [] => true
  | front :: _ =>
      forallb (fun de => DefnType_eqb (defnType de) (defnType front)) (snd entry)
  end.

(** The names that the reports of a naming conflict are about. *)
Fixpoint conflictNames (l : list Diagnostic) : list Name :=
  match l with
  | [] => []
  | (SevError, MsgNameConflict n) :: rest => n :: conflictNames rest
  | _ :: rest => conflictNames rest
  end.

(** The entries of a well-formed table: no entry is empty, the members of an
    entry carry its name, and no two entries have the same name. *)
Definition wellFormedTable (t : SymbolTable) : Prop :=
  (forall n ds, In (n, ds) t -> ds <> [] /\ forall d, In d ds -> defnName d = n)
  /\ NoDup (map fst t).

(** The super type and the bases. *)
Definition typeRelations (s : State) := (super s, bases s).

(** What makes a function named [coerce] a converter of the type. *)
Definition isCoercer (fn : FunctionDefn) : bool :=
  fnSignatureOk fn && fnReturnsNonVoid fn
  && StorageClass_eqb (fnStorageClass fn) Storage_Static
  && (length (fnParams fn) =? 1)%nat.

(** The converters among some definitions, in their order. *)
Fixpoint coercersAmong (ds : list Defn) : list FunctionDefn :=
  match ds with
  | [] => []
  | DFunction fn :: rest =>
      if isCoercer fn then fn :: coercersAmong rest else coercersAmong rest
  | _ :: rest => coercersAmong rest
  end.

(** The type declares a constructor: the first member named [construct] is a
    function, or there is a static function named [create]. *)
Definition declaresConstructor (ms : list Defn) : bool :=
  match lookupMember idConstruct ms with
  | DFunction _ :: _ => true
  | _ => false
  end
  || existsb isStaticFunction (lookupMember idCreate ms).

(** The Constructor pass of the super type has neither been run nor begun,
    and running it fails. *)
Definition superConstructionFails (env : Env) (sup : option TypeId) : bool :=
  match sup with
  | Some sp =>
      negb (isFinished (tvPasses (typeView env sp)) ConstructorPass)
      && negb (isRunning (tvPasses (typeView env sp)) ConstructorPass)
      && negb (superConstruction env)
  | None => false
  end.

(** What the loop over the members named [construct] leaves alone. *)
Definition besideFunctions (s : State) := (passes s, super s, members s, moduleSymbols s).

(** The pairs of an earlier and a later method of the list that have the
    same signature, in the order in which the two loops meet them. *)
Fixpoint signatureClashes (env : Env) (ms : list FunctionDefn)
    : list (FunctionDefn * FunctionDefn) :=
  match ms with
  | [] => []
  | mi :: rest =>
      map (fun mj => (mi, mj)) (List.filter (hasSameSignature env mi) rest)
      ++ signatureClashes env rest
  end.

(** What is reported about one such pair. *)
Definition clashReport (c : FunctionDefn * FunctionDefn) : list Diagnostic :=
  [(SevError, MsgSignatureConflict (fnId (snd c))); (SevInfo, MsgFromHere (fnId (fst c)))].

(** The occupant of a slot after the override step with the given methods
    of one name. *)
Definition slotAfter (env : Env) (overrides : list FunctionDefn) (m : FunctionDefn)
    : FunctionDefn :=
  match overrides with
  | [] => m
  | front :: _ =>
      if Name_eqb (fnName m) (fnName front)
      then match findOverride env m overrides with
           | Some newMethod => newMethod
           | None => m
           end
      else m
  end.

(** The report that a method should be declared with [override]. *)
Definition isOverrideError (d : Diagnostic) : bool :=
  match d with
  | (SevError, MsgShouldDeclareOverride _) => true
  | _ => false
  end.

(** The replaced slots whose old occupant has a body while the new one is
    not declared with [override]; the list holds the new occupants. *)
Definition undeclaredOverrides (env : Env) (overrides table : list FunctionDefn)
    : list FunctionDefn :=
  match overrides with
  | [] => []
  | front :: _ =>
      flat_map (fun m =>
                  if Name_eqb (fnName m) (fnName front)
                  then match findOverride env m overrides with
                       | Some newMethod =>
                           if hasBody m && negb (fnIsOverride newMethod)
                           then [newMethod] else []
                       | None => []
                       end
                  else []) table
  end.

(** The occupant of a slot after the override step with the accessors of a
    property. *)
Definition accessorSlotAfter (env : Env) (prop : PropertyDefn)
    (accessors : list FunctionDefn) (m : FunctionDefn) : FunctionDefn :=
  match accessors, fnParentProperty m with
  | front :: _, Some p =>
      if Name_eqb (fnName m) (fnName front) && Name_eqb p (propName prop)
      then match findOverride env m accessors with
           | Some newAccessor => newAccessor
           | None => m
           end
      else m
  | _, _ => m
  end.

(** The accessors in a table that belong to a property of the given name,
    carry the name of the given accessors, and are override-compatible with
    none of them. *)
Definition unmatchedAccessors (env : Env) (prop : PropertyDefn)
    (accessors table : list FunctionDefn) : list FunctionDefn :=
  match accessors with
  | [] => []
  | front :: _ =>
      List.filter (fun m =>
                     match fnParentProperty m with
                     | Some p =>
                         Name_eqb (fnName m) (fnName front) && Name_eqb p (propName prop)
                         && negb (isSome (findOverride env m accessors))
                     | None => false
                     end) table
  end.

(** The warning that an accessor is overridden by one of another type. *)
Definition isAccessorWarning (d : Diagnostic) : bool :=
  match d with
  | (SevWarn, MsgInvalidAccessorOverride _) => true
  | _ => false
  end.

(** The base is of class kind. *)
Definition isClassKind (env : Env) (t : TypeId) : bool :=
  TypeClass_eqb (tvTypeClass (typeView env t)) Class.

(** The base is of a kind a class cannot inherit from. *)
Definition isForeignKind (env : Env) (t : TypeId) : bool :=
  negb (TypeClass_eqb (tvTypeClass (typeView env t)) Class)
  && negb (TypeClass_eqb (tvTypeClass (typeView env t)) Interface).

Definition isSingleSupertypeError (d : Diagnostic) : bool :=
  match d with (SevError, MsgSingleConcreteSupertype) => true | _ => false end.

Definition isForeignBaseError (d : Diagnostic) : bool :=
  match d with (SevError, MsgClassInheritsClassOrInterface) => true | _ => false end.

Definition isFinalBaseError (d : Diagnostic) : bool :=
  match d with (SevError, MsgBaseIsFinal _) => true | _ => false end.



(** The bases of a type as [createInterfaceTables] reads them: those of the
    target from its state, those of another type from its definition. *)
Definition basesAsSeen (env : Env) (own : list TypeId) (t : TypeId) : list TypeId :=
  if Nat.eqb t (targetId env) then own else tvBases (typeView env t).

(** [t] is the first base of [a]. *)
Definition firstBaseOf (env : Env) (own : list TypeId) (a t : TypeId) : bool :=
  match basesAsSeen env own a with
  | baseBase :: _ => Nat.eqb baseBase t
  | [] => false
  end.

(** [t] is the first base of the target or of one of its ancestors. *)
Definition isFirstParent (env : Env) (own : list TypeId) (t : TypeId) : bool :=
  existsb (fun a => firstBaseOf env own a t) (insertType (targetId env) (ancestorClasses env)).

(** The ancestors that [createInterfaceTables] makes a table for, where
    [own] are the bases of the target. *)
Definition interfaceTypesOf (env : Env) (own : list TypeId) : list TypeId :=
  List.filter (fun t => negb (isFirstParent env own t)) (ancestorClasses env).

(** Every type that gets a table is an interface. *)
Definition interfacesOnly (env : Env) (own : list TypeId) : bool :=
  forallb (fun t => TypeClass_eqb (tvTypeClass (typeView env t)) Interface)
    (interfaceTypesOf env own).

(** The table of a base that implements an interface has the size of the
    method table of the interface. *)
Definition parentTablesFit (env : Env) (own : list TypeId) : Prop :=
  forall st itype parentImpl,
    In itype (interfaceTypesOf env own) ->
    findBaseImplementationOf env st itype = Some parentImpl ->
    length (methods parentImpl) = length (tvInstanceMethods (typeView env itype)).

(** The types of the instance properties of the type have been analyzed, as
    [overrideMembers] asserts. *)
Definition propertiesTyped (ms : list Defn) : bool :=
  forallb (fun d => match d with
                    | DProperty p =>
                        negb (StorageClass_eqb (propStorageClass p) Storage_Instance
                              && propIsSingular p)
                        || propTypePassFinished p
                    | _ => true
                    end) ms.

(** The type whose methods are copied is singular. *)
Definition superClassSingular (env : Env) (s : State) : bool :=
  match superClassOf env (super s) (bases s) with
  | Some sc => tvIsSingular (typeView env sc)
  | None => true
  end.

(** Everything in the state but the interface tables. *)
Definition besideInterfaces (s : State) :=
  (passes s, super s, bases s, members s, instanceFields s, staticFields s,
   instanceMethods s, coercers s, functions s, diag s, moduleSymbols s).

(** The function that runs a pass, for the passes that have one of their
    own, and whether it begins the pass quietly. *)
Definition passFunction (env : Env) (p : Pass) : option (M bool) :=
  match p with
  | NamingConflictPass => Some checkNameConflicts
  | ConverterPass => Some (analyzeConverters env)
  | ConstructorPass => Some (analyzeConstructors env)
  | MemberTypePass => Some (analyzeMemberTypes)
  | FieldPass => Some (analyzeFields env)
  | FieldTypePass => Some analyzeFieldTypes
  | MethodPass => Some (analyzeMethods env)
  | OverloadingPass => Some (analyzeOverloading env)
  | CompletionPass => Some analyzeCompletely
  | ScopeCreationPass | BaseTypesPass | AttributePass => None
  end.

Definition beginsQuietly (p : Pass) : bool :=
  match p with
  | FieldTypePass | CompletionPass => true
  | _ => false
  end.

(** What [addNewMethods] leaves alone: everything but the method table, the
    function store and the diagnostics. *)
Definition besideMethods (s : State) :=
  (passes s, super s, bases s, members s, instanceFields s, staticFields s,
   interfaces s, coercers s, moduleSymbols s).

(** The function is an instance method of the type that [addNewMethods]
    looks at. *)
Definition isOwnMethod (s : State) (fn : FunctionDefn) : bool :=
  StorageClass_eqb (fnStorageClass fn) Storage_Instance && isSingularIn s fn
  && negb (fnIsMacro fn).

(** The function may take a slot of the method table. *)
Definition isDispatched (s : State) (fn : FunctionDefn) : bool :=
  isOwnMethod s fn && negb (isCtorIn s fn) && negb (fnIsFinal fn).

(** The function is declared [undef] and overrides nothing, and is not a
    constructor without parameters. *)
Definition isStrayUndef (s : State) (fn : FunctionDefn) : bool :=
  isOwnMethod s fn && fnIsUndefined fn
  && bool_decide (overriddenMethods (fnStateOf s fn) = ∅)
  && (negb (isCtorIn s fn) || negb (isNil (fnParams fn))).

Fixpoint strayUndefs (s : State) (ms : list Defn) : list FunctionDefn :=
  match ms with
  | [] => []
  | DFunction fn :: rest =>
      if isStrayUndef s fn then fn :: strayUndefs s rest else strayUndefs s rest
  | _ :: rest => strayUndefs s rest
  end.

(** The state [cur] is [s0] with the methods [added] appended to the method
    table, each with its slot as dispatch index. *)
Definition methodsAppended (s0 cur : State) (added : list FunctionDefn) : Prop :=
  instanceMethods cur = instanceMethods s0 ++ added
  /\ besideMethods cur = besideMethods s0
  /\ (forall g, overriddenMethods (fnStateOf cur g) = overriddenMethods (fnStateOf s0 g)
                /\ addedCtor (fnStateOf cur g) = addedCtor (fnStateOf s0 g)
                /\ addedSingular (fnStateOf cur g) = addedSingular (fnStateOf s0 g))
  /\ (forall i f, added !! i = Some f ->
        dispatchIndex (fnStateOf cur f) = Z.of_nat (length (instanceMethods s0) + i)
        /\ dispatchIndex (fnStateOf s0 f) < 0
        /\ fnIsFinal f = false)
  /\ (forall g, (forall f, In f added -> fnId f <> fnId g) ->
        dispatchIndex (fnStateOf cur g) = dispatchIndex (fnStateOf s0 g)).

(** No pass other than [p] is in progress. *)
Definition onlyRunning (p : Pass) (m : PassMgr) : Prop :=
  forall q, isRunning m q = true -> q = p.

(** The passes that a failed request can leave in progress. *)
Definition canStayRunning (p : Pass) : bool :=
  match p with
  | ScopeCreationPass | AttributePass | ConstructorPass => true
  | _ => false
  end.

(** The comparison of type references is an equivalence. *)
Record refEquivalence {TypeRef} (refIsEqual : TypeRef -> TypeRef -> bool) : Prop := {
  ref_refl : forall a, refIsEqual a a = true;
  ref_sym : forall a b, refIsEqual a b = refIsEqual b a;
  ref_trans : forall a b c, refIsEqual a b = true -> refIsEqual b c = true ->
                            refIsEqual a c = true
}.

(** The parameters [whyNotSingular] has a note for. *)
Definition needsNote {TypeRef} (isDefined refIsSingular : TypeRef -> bool)
    (param : TypedParameter TypeRef) : bool :=
  negb (isDefined (tpType param) && refIsSingular (tpType param)).

(** Every type of [b] is, dealiased, equal to a member of [a], or [a] does
    not tell its members apart at all. *)
Definition covers {Ty} (dealias : Ty -> Ty) (tyIsEqual : Ty -> Ty -> bool)
    (a b : UnionType Ty) : Prop :=
  hasRefTypesOnly a = true
  \/ forall t, In t (members_ b) ->
       exists m, In m (members_ a) /\ tyIsEqual (dealias t) m = true.

(** The four kinds of member the constructor tells apart. *)
Inductive MemberKind := VoidMember | NullMember | ReferenceMember | ValueMember.

Definition memberKind {Ty} (dealias : Ty -> Ty)
    (isVoidInstance isNullInstance isReferenceType : Ty -> bool) (t : Ty) : MemberKind :=
  if isVoidInstance (dealias t) then VoidMember
  else if isNullInstance (dealias t) then NullMember
  else if isReferenceType (dealias t) then ReferenceMember
  else ValueMember.

Definition MemberKind_eqb (a b : MemberKind) : bool :=
  match a, b with
  | VoidMember, VoidMember | NullMember, NullMember
  | ReferenceMember, ReferenceMember | ValueMember, ValueMember => true
  | _, _ => false
  end.

Definition countKind {Ty} (kindOf : Ty -> MemberKind) (k : MemberKind) (ts : list Ty) : Z :=
  Z.of_nat (length (List.filter (fun t => MemberKind_eqb (kindOf t) k) ts)).

(** The parts of a type that [estimateTypeSize] reaches: an array or a
    vector stands for one element. *)
Fixpoint countedParts (type : IRType) : list IRType :=
  match type with
  | IRStruct subtypes => flat_map countedParts subtypes
  | IRArray elementType _ => countedParts elementType
  | IRVector elementType _ => countedParts elementType
  | _ => [type]
  end.

Definition pointerOf (type : IRType) : Z :=
  match type with IRPointer => 1 | _ => 0 end.

Definition bitsOf (type : IRType) : Z :=
  match type with
  | IRPlain id bits =>
      match id with
      | OpaqueTyID | LabelTyID | MetadataTyID | FunctionTyID => 0
      | _ => bits
      end
  | _ => 0
  end.

Definition sumOf (f : IRType -> Z) (ts : list IRType) : Z :=
  fold_right (fun t acc => f t + acc) 0 ts.

(** * Sample declarations *)

(** A definition with an AST, no bases and no special trait. *)
Definition plainType (k : TypeClass) : TypeDefn :=
  {| typeClass := k; hasAST := true; isTemplate := false; isTemplateMember := false;
     isPartialInstantiation := false; isFinal := false; isAbstract := false;
     isSingular := true; isSynthetic := false; isObject := false; astBases := [] |}.

Definition viewOf (k : TypeClass) (ms : list FunctionDefn) : TypeView :=
  {| tvTypeClass := k; tvIsSingular := true; tvIsFinal := false; tvPasses := noPasses;
     tvBases := []; tvInstanceMethods := ms; tvInstanceFieldCountRecursive := 0;
     tvDefaultConstructor := None |}.

(** An environment in which every nested analysis succeeds and no function
    overrides another. *)
Definition plainEnv (td : TypeDefn) (views : TypeId -> TypeView) : Env :=
  {| target := td; targetId := 0%nat; typeObject := 1%nat; typeView := views;
     createMembersFromAST := true; resolveAttributes := true; superConstruction := true;
     methodDiagnostics := []; ancestorClasses := [];
     findBaseImplementationOf := fun _ _ => None;
     canOverride := fun _ _ => false; hasSameSignature := fun _ _ => false;
     newFunctionId := 1000%nat;
     voidType := mkTypeRefView true true;
     paramType := fun _ => mkTypeRefView true true |}.

Definition emptyInterfaceEnv : Env := plainEnv (plainType Interface) (fun _ => viewOf Class []).

Definition structWithProtocolEnv (k : TypeClass) : Env :=
  plainEnv
    {| typeClass := k; hasAST := true; isTemplate := false; isTemplateMember := false;
       isPartialInstantiation := false; isFinal := false; isAbstract := false;
       isSingular := true; isSynthetic := false; isObject := false;
       astBases := [mkASTBase 1 (Composite 20%nat true) true;
                    mkASTBase 2 (Composite 21%nat true) true] |}
    (fun t => if Nat.eqb t 20 then viewOf Protocol [] else viewOf k []).

(** A state in which the BaseTypes pass has begun, after the two passes that
    [runPasses] puts before it. *)
Definition baseTypesInProgress : State :=
  setPasses (mkPassMgr (PassSet.of_list [BaseTypesPass])
                       (PassSet.of_list [ScopeCreationPass; AttributePass]))
    (newState []).

Definition field (name : Name) (isLet : bool) (sc : StorageClass) (vis : Visibility)
    (init : option Expr) : VariableDefn :=
  {| varName := name; varIsLet := isLet; varStorageClass := sc; varVisibility := vis;
     varInitValue := init; varTypeIsNArray := false; varTypeNullInitValue := None;
     memberIndex := -1; memberIndexRecursive := -1 |}.


Definition derivedState : State :=
  setSuper (Some 5%nat)
    (newState [DVariable (field "x" false Storage_Instance Public None);
               DVariable (field "limit" true Storage_Instance Public (Some (ConstantExpr 10)));
               DVariable (field "count" false Storage_Static Public None);
               DVariable (field "y" false Storage_Instance Private (Some (OpaqueExpr 1)))]).

Definition method (id : FnId) (name : Name) (blocks : list Block) (override : bool)
    : FunctionDefn :=
  {| fnId := id; fnName := name; fnIsMacro := false; fnStorageClass := Storage_Instance;
     fnVisibility := Public; fnParentProperty := None; fnParams := []; fnBlocks := blocks;
     fnDeclaredCtor := false; fnDeclaredSingular := true; fnSynthetic := false;
     fnIsFinal := false; fnIsUndefined := false; fnIsOverride := override;
     fnIsExtern := false; fnIsIntrinsic := false; fnHasUnboundTypeParams := false;
     fnReturnTypeDefined := true; fnReturnsNonVoid := false; fnSignatureOk := true |}.

Definition someBody : list Block := [mkBlock "entry" [OpaqueExpr 0]].

(** An abstract method [foo] of a base class, and a method [foo] of the
    target with another signature. *)
Definition abstractFoo : FunctionDefn := method 1%nat "foo" [] false.
Definition newFoo : FunctionDefn := method 2%nat "foo" someBody false.

(** A concrete struct with an unimplemented method in its table and in the
    tables of two interfaces. *)
Definition incompleteEnv : Env := plainEnv (plainType Struct) (fun _ => viewOf Interface []).

Definition incompleteState : State :=
  setInterfaces [mkInterfaceTable 30%nat [abstractFoo]; mkInterfaceTable 31%nat [abstractFoo]]
    (setInstanceMethods [abstractFoo] (newState [])).

(** [class P { public var x: Int; public var y: Int = 3; private var z: Int = 0 }]
    where the null value of [Int] is the constant 0. *)
Definition intField (name : Name) (vis : Visibility) (init : option Expr) : VariableDefn :=
  {| varName := name; varIsLet := false; varStorageClass := Storage_Instance;
     varVisibility := vis; varInitValue := init; varTypeIsNArray := false;
     varTypeNullInitValue := Some (ConstantExpr 0);
     memberIndex := -1; memberIndexRecursive := -1 |}.

Definition classP : list Defn :=
  [DVariable (intField "x" Public None);
   DVariable (intField "y" Public (Some (ConstantExpr 3)));
   DVariable (intField "z" Private (Some (ConstantExpr 0)))].

(** [class R { public var y: Int = 3; public var x: T; private var z: Int = 0 }]
    where the type [T] of [x] has no null value. *)
Definition classR : list Defn :=
  [DVariable (intField "y" Public (Some (ConstantExpr 3)));
   DVariable (field "x" false Storage_Instance Public None);
   DVariable (intField "z" Private (Some (ConstantExpr 0)))].

(** The class of [derivedState] under a super type without default
    constructor. *)
Definition orphanEnv : Env := plainEnv (plainType Class) (fun _ => viewOf Class []).

(** The class [P] as a partial instantiation of a template: not singular. *)
Definition partialEnv : Env :=
  plainEnv
    {| typeClass := Class; hasAST := true; isTemplate := false; isTemplateMember := false;
       isPartialInstantiation := true; isFinal := false; isAbstract := false;
       isSingular := false; isSynthetic := false; isObject := false; astBases := [] |}
    (fun _ => viewOf Class []).

(** An environment with a given override relation, given ancestors and no
    interface implemented by a base. *)
Definition overrideEnv (views : TypeId -> TypeView) (ancestors : list TypeId)
    (compatible : FnId -> FnId -> bool) : Env :=
  {| target := plainType Class; targetId := 0%nat; typeObject := 1%nat; typeView := views;
     createMembersFromAST := true; resolveAttributes := true; superConstruction := true;
     methodDiagnostics := []; ancestorClasses := ancestors;
     findBaseImplementationOf := fun _ _ => None;
     canOverride := fun f m => compatible (fnId f) (fnId m);
     hasSameSignature := fun _ _ => false;
     newFunctionId := 1000%nat;
     voidType := mkTypeRefView true true;
     paramType := fun _ => mkTypeRefView true true |}.

Definition accessor (id : FnId) (name : Name) (prop : Name) : FunctionDefn :=
  {| fnId := id; fnName := name; fnIsMacro := false; fnStorageClass := Storage_Instance;
     fnVisibility := Public; fnParentProperty := Some prop; fnParams := [];
     fnBlocks := someBody; fnDeclaredCtor := false; fnDeclaredSingular := true;
     fnSynthetic := false; fnIsFinal := false; fnIsUndefined := false; fnIsOverride := true;
     fnIsExtern := false; fnIsIntrinsic := false; fnHasUnboundTypeParams := false;
     fnReturnTypeDefined := true; fnReturnsNonVoid := true; fnSignatureOk := true |}.

(** [class B { def foo() {} }], [class A : B { ... }] with B as type 5. *)
Definition baseFoo : FunctionDefn := method 1%nat "foo" someBody false.
Definition overFoo : FunctionDefn := method 2%nat "foo" someBody true.
Definition newBar : FunctionDefn := method 3%nat "bar" someBody false.

Definition derivedFrom (ms : list Defn) : State :=
  setBases [5%nat] (setSuper (Some 5%nat) (newState ms)).

(** [A] adds a method [bar]. *)
Definition extendingEnv : Env :=
  overrideEnv (fun _ => viewOf Class [baseFoo]) [] (fun _ _ => false).

(** [A] overrides [foo]. *)
Definition overridingEnv : Env :=
  overrideEnv (fun _ => viewOf Class [baseFoo]) []
    (fun f m => Nat.eqb f 2 && Nat.eqb m 1).

(** [B] has a property [p] with a getter; [A] declares the property again and
    also a method [get] that is override-compatible with the new getter. *)
Definition baseGetter : FunctionDefn := accessor 10%nat "get" "p".
Definition newGetter : FunctionDefn := accessor 11%nat "get" "p".
Definition getMethod : FunctionDefn := method 12%nat "get" someBody true.

Definition propertyP : PropertyDefn :=
  {| propName := "p"; propIsIndexer := false; propStorageClass := Storage_Instance;
     propIsSingular := true; propHasUnboundTypeParams := false;
     propTypePassFinished := true;
     getter := Some newGetter; setter := None |}.

Definition getterEnv : Env :=
  overrideEnv (fun _ => viewOf Class [baseGetter]) []
    (fun f m => Nat.eqb f 11 && Nat.eqb m 10 || Nat.eqb f 12 && Nat.eqb m 11).

(** [interface I { def m() }] as type 30, [class C : Object, I { def m() {} }]. *)
Definition interfaceM : FunctionDefn := method 20%nat "m" [] false.
Definition implM : FunctionDefn := method 21%nat "m" someBody false.

Definition implementingEnv : Env :=
  overrideEnv (fun t => if Nat.eqb t 30 then viewOf Interface [interfaceM] else viewOf Class [])
    [30%nat] (fun f m => Nat.eqb f 21 && Nat.eqb m 20).

(** An environment in which a method can override the methods of its name,
    with given ancestors and given tables of the bases. *)
Definition namedEnv (k : TypeClass) (views : TypeId -> TypeView) (ancestors : list TypeId)
    (tables : TypeId -> option InterfaceTable) : Env :=
  {| target := plainType k; targetId := 0%nat; typeObject := 1%nat; typeView := views;
     createMembersFromAST := true; resolveAttributes := true; superConstruction := true;
     methodDiagnostics := []; ancestorClasses := ancestors;
     findBaseImplementationOf := fun _ t => tables t;
     canOverride := fun f m => Name_eqb (fnName f) (fnName m);
     hasSameSignature := fun _ _ => false;
     newFunctionId := 1000%nat;
     voidType := mkTypeRefView true true;
     paramType := fun _ => mkTypeRefView true true |}.

(** [class B { def foo() {} }] as type 5, [class A : B { override def foo() {}
    def bar() {} }]. *)
Definition overridingAndAddingEnv : Env :=
  namedEnv Class (fun _ => viewOf Class [baseFoo]) [5%nat] (fun _ => None).

(** [interface I { def m() }] as type 30, [class B : Object, I { def m() {} }]
    as type 5, whose table of [I] holds [B.m], and
    [class C : B { override def m() {} }]. *)
Definition implB : FunctionDefn := method 21%nat "m" someBody false.
Definition implC : FunctionDefn := method 22%nat "m" someBody true.

Definition inheritingEnv : Env :=
  namedEnv Class (fun t => if Nat.eqb t 30 then viewOf Interface [interfaceM]
                           else if Nat.eqb t 5 then
                             {| tvTypeClass := Class; tvIsSingular := true;
                                tvIsFinal := false; tvPasses := noPasses;
                                tvBases := [1%nat; 30%nat]; tvInstanceMethods := [implB];
                                tvInstanceFieldCountRecursive := 0;
                                tvDefaultConstructor := None |}
                           else viewOf Class [])
    [5%nat; 1%nat; 30%nat]
    (fun t => if Nat.eqb t 30 then Some (mkInterfaceTable 30%nat [implB]) else None).

(** The state of [C] before the pass; [B.m] is recorded to override [I.m]. *)
Definition inheritingState : State :=
  setFunctions {[ fnId implB := mkFnState 0 {[ fnId interfaceM ]} false false ]}
    (derivedFrom [DFunction implC]).

(** [protocol P] as type 40 and [interface I2] as type 31,
    [interface J : I2, P]: the protocol is an ancestor that is the first
    base of no type. *)
Definition protocolAncestorEnv : Env :=
  namedEnv Interface
    (fun t => if Nat.eqb t 40 then viewOf Protocol [] else viewOf Interface [])
    [31%nat; 40%nat] (fun _ => None).

(** A template with one base that does not resolve. *)
Definition templateEnv : Env :=
  plainEnv
    {| typeClass := Class; hasAST := true; isTemplate := true; isTemplateMember := false;
       isPartialInstantiation := false; isFinal := false; isAbstract := false;
       isSingular := false; isSynthetic := false; isObject := false;
       astBases := [mkASTBase 1 (Composite 20%nat true) true] |}
    (fun _ => viewOf Class []).

(** [class A : Missing], where the name of the base cannot be resolved. *)
Definition unresolvedBaseEnv : Env :=
  plainEnv
    {| typeClass := Class; hasAST := true; isTemplate := false; isTemplateMember := false;
       isPartialInstantiation := false; isFinal := false; isAbstract := false;
       isSingular := true; isSynthetic := false; isObject := false;
       astBases := [mkASTBase 1 ErrorType true] |}
    (fun _ => viewOf Class []).

(** [class A { var size: Int; def size() {} }] *)
Definition clashingMembers : list Defn :=
  [DVariable (field "size" false Storage_Instance Public None);
   DFunction (method 4%nat "size" someBody false)].

Definition coerceFn (id : FnId) (sc : StorageClass) (params : list ParameterDefn)
    : FunctionDefn :=
  {| fnId := id; fnName := idCoerce; fnIsMacro := false; fnStorageClass := sc;
     fnVisibility := Public; fnParentProperty := None; fnParams := params;
     fnBlocks := someBody; fnDeclaredCtor := false; fnDeclaredSingular := false;
     fnSynthetic := false; fnIsFinal := false; fnIsUndefined := false; fnIsOverride := false;
     fnIsExtern := false; fnIsIntrinsic := false; fnHasUnboundTypeParams := false;
     fnReturnTypeDefined := true; fnReturnsNonVoid := true; fnSignatureOk := true |}.

(** [struct S { static def coerce(y: String) -> S; def coerce(x: Int) -> S;
    static def coerce(x: Int) -> S; static def coerce() -> S }], the
    functions numbered 3, 2, 1 and 4. *)
Definition orderedCoerceMembers : list Defn :=
  [DFunction (coerceFn 3%nat Storage_Static [mkParameterDefn "y" None]);
   DFunction (coerceFn 2%nat Storage_Instance [mkParameterDefn "x" None]);
   DFunction (coerceFn 1%nat Storage_Static [mkParameterDefn "x" None]);
   DFunction (coerceFn 4%nat Storage_Static [])].

Definition constructFn (id : FnId) : FunctionDefn :=
  {| fnId := id; fnName := idConstruct; fnIsMacro := false;
     fnStorageClass := Storage_Instance;
     fnVisibility := Public; fnParentProperty := None; fnParams := [];
     fnBlocks := someBody; fnDeclaredCtor := false; fnDeclaredSingular := false;
     fnSynthetic := false; fnIsFinal := false; fnIsUndefined := false; fnIsOverride := false;
     fnIsExtern := false; fnIsIntrinsic := false; fnHasUnboundTypeParams := false;
     fnReturnTypeDefined := false; fnReturnsNonVoid := false; fnSignatureOk := true |}.

(** A class whose super type has not been prepared for construction and
    cannot be. *)
Definition failingSuperEnv : Env :=
  {| target := plainType Class; targetId := 0%nat; typeObject := 1%nat;
     typeView := fun _ => viewOf Class [];
     createMembersFromAST := true; resolveAttributes := true; superConstruction := false;
     methodDiagnostics := []; ancestorClasses := [];
     findBaseImplementationOf := fun _ _ => None;
     canOverride := fun _ _ => false; hasSameSignature := fun _ _ => false;
     newFunctionId := 1000%nat;
     voidType := mkTypeRefView true true;
     paramType := fun _ => mkTypeRefView true true |}.

(** [final class F], [class A : F, B, S] with a second class [B] and a
    struct [S]. *)
Definition manyBasesEnv : Env :=
  plainEnv
    {| typeClass := Class; hasAST := true; isTemplate := false; isTemplateMember := false;
       isPartialInstantiation := false; isFinal := false; isAbstract := false;
       isSingular := true; isSynthetic := false; isObject := false;
       astBases := [mkASTBase 1 (Composite 20%nat true) true;
                    mkASTBase 2 (Composite 21%nat true) true;
                    mkASTBase 3 (Composite 22%nat true) true] |}
    (fun t => if Nat.eqb t 20
              then {| tvTypeClass := Class; tvIsSingular := true; tvIsFinal := true;
                      tvPasses := noPasses; tvBases := []; tvInstanceMethods := [];
                      tvInstanceFieldCountRecursive := 0; tvDefaultConstructor := None |}
              else if Nat.eqb t 21 then viewOf Class [] else viewOf Struct []).

(** The target [C : B, I2] with ancestors [B : A, I1], [A], [I1], [I2 : I1]:
    [B] is the first base of the target, [A] the one of [B], and [I1] the
    one of [I2]. *)
Definition diamondEnv : Env :=
  overrideEnv (fun t => if Nat.eqb t 11 then
                          {| tvTypeClass := Class; tvIsSingular := true; tvIsFinal := false;
                             tvPasses := noPasses; tvBases := [10%nat; 30%nat];
                             tvInstanceMethods := []; tvInstanceFieldCountRecursive := 0;
                             tvDefaultConstructor := None |}
                        else if Nat.eqb t 31 then
                          {| tvTypeClass := Interface; tvIsSingular := true; tvIsFinal := false;
                             tvPasses := noPasses; tvBases := [30%nat];
                             tvInstanceMethods := []; tvInstanceFieldCountRecursive := 0;
                             tvDefaultConstructor := None |}
                        else viewOf Interface [])
    [11%nat; 10%nat; 30%nat; 31%nat] (fun _ _ => false).

(** A class whose attributes cannot be resolved. *)
Definition failingAttributesEnv : Env :=
  {| target := plainType Class; targetId := 0%nat; typeObject := 1%nat;
     typeView := fun _ => viewOf Class [];
     createMembersFromAST := true; resolveAttributes := false; superConstruction := true;
     methodDiagnostics := []; ancestorClasses := [];
     findBaseImplementationOf := fun _ _ => None;
     canOverride := fun _ _ => false; hasSameSignature := fun _ _ => false;
     newFunctionId := 1000%nat;
     voidType := mkTypeRefView true true;
     paramType := fun _ => mkTypeRefView true true |}.

(** Type references as optional numbers, the even ones singular, compared
    by identity. *)
Definition sampleDefined (t : option nat) : bool := isSome t.

Definition sampleSingular (t : option nat) : bool :=
  match t with Some n => Nat.even n | None => false end.

Definition sampleRefEqual (a b : option nat) : bool :=
  match a, b with
  | Some x, Some y => Nat.eqb x y
  | None, None => true
  | _, _ => false
  end.

Definition sampleFunctionType : FunctionType (option nat) :=
  mkFunctionType false (Some 2%nat) (Some (mkTypedParameter (Some "self"%string) (Some 4%nat)))
    [mkTypedParameter (Some "x"%string) (Some 6%nat);
     mkTypedParameter (Some "y"%string) (Some 3%nat);
     mkTypedParameter (Some "x"%string) None].

(** Member types as numbers: 0 is Void, 1 is Null, the other even ones
    are reference types; no aliases, no subtypes, the members kept in the
    order in which they come. *)
Definition sampleUnion (addr : N) (members : list nat) : UnionType nat :=
  UnionType_new (fun t => t) Nat.eqb (fun _ _ => false)
    (Nat.eqb 0) (Nat.eqb 1) Nat.even (fun ts => ts) addr members.

Definition sampleKind : nat -> MemberKind :=
  memberKind (fun t => t) (Nat.eqb 0) (Nat.eqb 1) Nat.even.

(** * Properties *)

(** ** The registry *)

Lemma passIndex_inj p q : passIndex p = passIndex q -> p = q.
Proof. destruct p, q; simpl; intros H; try reflexivity; discriminate H. Qed.

Lemma Pass_eqb_true p q : Pass_eqb p q = true <-> p = q.
Proof.
  unfold Pass_eqb. rewrite N.eqb_eq. split.
  - apply passIndex_inj.
  - intros ->. reflexivity.
Qed.

Lemma Pass_eqb_refl p : Pass_eqb p p = true.
Proof. apply Pass_eqb_true. reflexivity. Qed.

Lemma contains_empty q : PassSet.contains PassSet.empty q = false.
Proof. unfold PassSet.contains, PassSet.empty. apply N.bits_0. Qed.

Lemma contains_add p s q :
  PassSet.contains (PassSet.add p s) q = Pass_eqb p q || PassSet.contains s q.
Proof. unfold PassSet.contains, PassSet.add, Pass_eqb. apply N.setbit_eqb. Qed.

Lemma contains_remove p s q :
  PassSet.contains (PassSet.remove p s) q = PassSet.contains s q && negb (Pass_eqb p q).
Proof. unfold PassSet.contains, PassSet.remove, Pass_eqb. apply N.clearbit_eqb. Qed.

Lemma contains_removeAll s t q :
  PassSet.contains (PassSet.removeAll s t) q
  = PassSet.contains s q && negb (PassSet.contains t q).
Proof. unfold PassSet.contains, PassSet.removeAll. apply N.ldiff_spec. Qed.

Lemma contains_addAll s t q :
  PassSet.contains (PassSet.addAll s t) q = PassSet.contains s q || PassSet.contains t q.
Proof. unfold PassSet.contains, PassSet.addAll. apply N.lor_spec. Qed.

Lemma isEmpty_contains s q : PassSet.isEmpty s = true -> PassSet.contains s q = false.
Proof.
  unfold PassSet.isEmpty. rewrite N.eqb_eq. intros ->. apply contains_empty.
Qed.

Lemma contains_of_list ps q :
  PassSet.contains (PassSet.of_list ps) q = existsb (fun p => Pass_eqb p q) ps.
Proof.
  induction ps as [|p ps IH].
  - apply contains_empty.
  - change (PassSet.of_list (p :: ps)) with (PassSet.add p (PassSet.of_list ps)).
    rewrite contains_add, IH. reflexivity.
Qed.

Lemma begin_cases p m :
  (isFinished m p = true /\ PassMgr_begin p m = AlreadyFinished)
  \/ (isFinished m p = false /\ isRunning m p = true /\ PassMgr_begin p m = ReEntered)
  \/ (isFinished m p = false /\ isRunning m p = false
      /\ PassMgr_begin p m = Begun (mkPassMgr (PassSet.add p (running m)) (finished m))).
Proof.
  unfold PassMgr_begin.
  destruct (isFinished m p); [left; split; reflexivity|].
  destruct (isRunning m p); right; [left|right]; repeat split.
Qed.

Lemma ranPass_begin_finish p m :
  noneRunning m ->
  ranPass p m (PassMgr_finish p (mkPassMgr (PassSet.add p (running m)) (finished m))).
Proof.
  intros Hnr. split.
  - intros q. unfold isRunning, PassMgr_finish. simpl.
    rewrite contains_remove, contains_add.
    specialize (Hnr q). unfold isRunning in Hnr. rewrite Hnr.
    destruct (Pass_eqb p q); reflexivity.
  - intros q. unfold isFinished, PassMgr_finish. simpl. apply contains_add.
Qed.

Lemma ranPass_already p m : noneRunning m -> isFinished m p = true -> ranPass p m m.
Proof.
  intros Hnr Hfin. split; [exact Hnr|].
  intros q. destruct (Pass_eqb p q) eqn:E; [|reflexivity].
  apply Pass_eqb_true in E. subst q. exact Hfin.
Qed.

(** ** Reasoning about computations *)

Lemma bind_Done {A B} (c : M A) (k : A -> M B) s b s' :
  bind c k s = Done b s' -> exists a s1, c s = Done a s1 /\ k a s1 = Done b s'.
Proof.
  unfold bind. destruct (c s) as [a s1|why s1]; [eauto|discriminate].
Qed.

Lemma ret_Done {A} (a b : A) s s' : ret a s = Done b s' -> a = b /\ s = s'.
Proof. unfold ret. intros H. injection H as -> ->. split; reflexivity. Qed.

Lemma get_Done {A} (f : State -> A) s a s' : get f s = Done a s' -> a = f s /\ s' = s.
Proof. unfold get. intros H. injection H as <- <-. split; reflexivity. Qed.

Lemma modify_Done f s u s' : modify f s = Done u s' -> s' = f s.
Proof. unfold modify. intros H. injection H as _ <-. reflexivity. Qed.

(** Take one statement off a computation known to return: [mstep H as a s1 H1]
    names its result, the state it leaves and the equation that says so. *)
Tactic Notation "mstep" hyp(H) "as" ident(a) ident(s1) ident(H1) :=
  apply bind_Done in H; destruct H as (a & s1 & H1 & H).

Ltac mret H :=
  let E := fresh "E" in
  apply ret_Done in H; destruct H as [E H]; subst.


Section Preserves.
Context {X : Type} (proj : State -> X).

Lemma preserves_ret {A} (a : A) : preserves proj (ret a).
Proof. intros s b s' H. apply ret_Done in H as [_ <-]. reflexivity. Qed.

Lemma preserves_DFAIL {A} why : preserves proj (@DFAIL A why).
Proof. intros s b s' H. discriminate H. Qed.

Lemma preserves_bind {A B} (c : M A) (k : A -> M B) :
  preserves proj c -> (forall a, preserves proj (k a)) -> preserves proj (bind c k).
Proof.
  intros Hc Hk s b s' H. mstep H as a s1 H1.
  rewrite (Hk _ _ _ _ H). eapply Hc; eassumption.
Qed.

Lemma preserves_get {A} (f : State -> A) : preserves proj (get f).
Proof. intros s a s' H. apply get_Done in H as [_ ->]. reflexivity. Qed.

Lemma preserves_modify f : (forall s, proj (f s) = proj s) -> preserves proj (modify f).
Proof. intros Hf s u s' H. apply modify_Done in H as ->. apply Hf. Qed.

Lemma preserves_when b k : preserves proj k -> preserves proj (when b k).
Proof. intros Hk. destruct b; [exact Hk|apply preserves_ret]. Qed.

Lemma preserves_forEach {A} (l : list A) body :
  (forall x, preserves proj (body x)) -> preserves proj (forEach l body).
Proof.
  intros Hb. induction l as [|x l IH]; simpl.
  - apply preserves_ret.
  - apply preserves_bind; [apply Hb|intros _; exact IH].
Qed.

Lemma preserves_mapM {A B} (f : A -> M B) l :
  (forall x, preserves proj (f x)) -> preserves proj (mapM f l).
Proof.
  intros Hf. induction l as [|x l IH]; simpl.
  - apply preserves_ret.
  - apply preserves_bind; [apply Hf|intros y].
    apply preserves_bind; [exact IH|intros ys; apply preserves_ret].
Qed.
End Preserves.

(** Decompose a computation into the statements it is made of. *)
Ltac frame_step :=
  lazymatch goal with
  | |- preserves _ (bind _ _) => apply preserves_bind; [|intros ?]
  | |- preserves _ (ret _) => apply preserves_ret
  | |- preserves _ (DFAIL _) => apply preserves_DFAIL
  | |- preserves _ (get _) => apply preserves_get
  | |- preserves _ (when _ _) => apply preserves_when
  | |- preserves _ (forEach _ _) => apply preserves_forEach; intros ?
  | |- preserves _ (mapM _ _) => apply preserves_mapM; intros ?
  | |- preserves _ (modify _) => apply preserves_modify; intros ?; reflexivity
  | |- preserves _ (emit _ _) => apply preserves_modify; intros ?; reflexivity
  | |- preserves _ (addSymbol _) => apply preserves_modify; intros ?; reflexivity
  | |- preserves _ (updateFn _ _) => apply preserves_modify; intros ?; reflexivity
  | |- preserves _ (if ?b then _ else _) => destruct b
  | |- preserves _ (match ?x with _ => _ end) => destruct x
  | |- preserves _ (let '(_, _) := ?x in _) => destruct x
  end.

Ltac frame := repeat frame_step.

(** ** Only [begin] and [finish] touch the registry *)

Section PassesFrame.
Variable env : Env.

Lemma checkEntries_passes l b : preserves passes (checkEntries l b).
Proof.
  revert b. induction l as [|x l IH]; intros b; simpl.
  - frame.
  - unfold checkEntry. frame; apply IH.
Qed.

Lemma resolveBases_passes b l pb : preserves passes (resolveBases env b l pb).
Proof.
  revert pb. induction l as [|x l IH]; intros pb; simpl.
  - frame.
  - unfold classifyBase. frame; try apply IH.
Qed.

Lemma analyzeBaseClassesImpl_passes : preserves passes (analyzeBaseClassesImpl env).
Proof.
  unfold analyzeBaseClassesImpl. frame; try apply resolveBases_passes.
Qed.

Lemma layoutFields_passes ms n r : preserves passes (layoutFields env ms n r).
Proof.
  revert n r. induction ms as [|d ms IH]; intros n r; simpl.
  - frame.
  - frame; try apply IH.
Qed.

Lemma collectInitializers_passes ms rp op body :
  preserves passes (collectInitializers env ms rp op body).
Proof.
  revert rp op body. induction ms as [|d ms IH]; intros rp op body; simpl.
  - frame.
  - frame; try apply IH.
Qed.

Lemma createDefaultConstructor_passes : preserves passes (createDefaultConstructor env).
Proof.
  unfold createDefaultConstructor. frame; try apply collectInitializers_passes.
Qed.

Lemma analyzeDeclaredConstructors_passes l b :
  preserves passes (analyzeDeclaredConstructors env l b).
Proof.
  revert b. induction l as [|d l IH]; intros b; simpl.
  - frame.
  - unfold addCtorTrait, addSingularTrait. frame; try apply IH.
Qed.

Lemma ensureUniqueSignatures_passes l : preserves passes (ensureUniqueSignatures env l).
Proof. induction l as [|m l IH]; simpl; frame. exact IH. Qed.

Lemma overrideSlots_passes name ovs canHide i table :
  preserves passes (overrideSlots env name ovs canHide i table).
Proof.
  revert i. induction table as [|m table IH]; intros i; simpl.
  - frame.
  - unfold setDispatchIndex, insertOverridden. frame; try apply IH.
Qed.

Lemma overrideAccessorSlots_passes name prop accs canHide i table :
  preserves passes (overrideAccessorSlots env name prop accs canHide i table).
Proof.
  revert i. induction table as [|m table IH]; intros i; simpl.
  - frame.
  - unfold setDispatchIndex, insertOverridden. frame; try apply IH.
Qed.

Lemma overrideInTables_passes stp :
  (forall t b, preserves passes (stp t b)) -> preserves passes (overrideInTables stp).
Proof. intros H. unfold overrideInTables. frame; apply H. Qed.

Lemma collectOverrides_passes entry ms gs ss prop :
  preserves passes (collectOverrides entry ms gs ss prop).
Proof.
  revert ms gs ss prop. induction entry as [|d entry IH]; intros ms gs ss prop; simpl.
  - frame.
  - frame; try apply IH.
Qed.

Lemma overrideMembers_passes : preserves passes (overrideMembers env).
Proof.
  unfold overrideMembers, overrideEntry. frame;
    try apply collectOverrides_passes; try apply ensureUniqueSignatures_passes;
    apply overrideInTables_passes; intros t b;
    unfold overrideMethods, overridePropertyAccessors; frame;
    try apply overrideSlots_passes; apply overrideAccessorSlots_passes.
Qed.

Lemma addNewMethods_passes : preserves passes addNewMethods.
Proof.
  unfold addNewMethods, addNewMethod, addAccessor, appendMethod, setDispatchIndex. frame.
Qed.

Lemma checkInterfaceTables_passes l : preserves passes (checkInterfaceTables l).
Proof. induction l as [|it l IH]; simpl; unfold listMethods; frame. exact IH. Qed.

Lemma checkForRequiredMethods_passes : preserves passes (checkForRequiredMethods env).
Proof.
  unfold checkForRequiredMethods, listMethods. frame; apply checkInterfaceTables_passes.
Qed.
End PassesFrame.

(** ** The passes on a registry at rest *)

Lemma beginPass_Done p quiet s b s1 :
  beginPass p quiet s = Done b s1 ->
  (b = true /\ isFinished (passes s) p = false /\ isRunning (passes s) p = false
   /\ s1 = setPasses (mkPassMgr (PassSet.add p (running (passes s))) (finished (passes s))) s)
  \/ (b = false /\ passes s1 = passes s
      /\ (isFinished (passes s) p = true \/ isRunning (passes s) p = true)).
Proof.
  unfold beginPass. intros H. mstep H as m s0 Hm. apply get_Done in Hm as [-> ->].
  destruct (begin_cases p (passes s)) as [(Hf & E)|[(Hf & Hr & E)|(Hf & Hr & E)]];
    rewrite E in H.
  - mret H. right. auto.
  - mstep H as u s2 Hu. mret H. right. split; [reflexivity|]. split; [|auto].
    assert (Hp : preserves passes (when (negb quiet) (emit SevFatal (MsgInfiniteRecursion p))))
      by frame.
    exact (Hp _ _ _ Hu).
  - mstep H as u s2 Hu. mret H. apply modify_Done in Hu as ->. left. auto.
Qed.

Lemma finishPass_Done p s u s' :
  finishPass p s = Done u s' -> passes s' = PassMgr_finish p (passes s).
Proof. intros H. apply modify_Done in H as ->. reflexivity. Qed.

(** The registry after a pass that began, ran a body that leaves the
    registry alone, and finished. *)
Lemma ranPass_through p s s2 s' :
  noneRunning (passes s) ->
  passes s2 = mkPassMgr (PassSet.add p (running (passes s))) (finished (passes s)) ->
  passes s' = PassMgr_finish p (passes s2) ->
  ranPass p (passes s) (passes s').
Proof.
  intros Hnr E2 E'. rewrite E', E2. apply ranPass_begin_finish. exact Hnr.
Qed.

(** The registry after a pass that [begin] refused. *)
Lemma ranPass_refused p s s' :
  noneRunning (passes s) ->
  passes s' = passes s ->
  isFinished (passes s) p = true \/ isRunning (passes s) p = true ->
  ranPass p (passes s) (passes s').
Proof.
  intros Hnr E [Hf|Hr].
  - rewrite E. apply ranPass_already; assumption.
  - rewrite Hnr in Hr. discriminate Hr.
Qed.

(** Walk through the statements of a computation known to return, down to
    its [finishPass], recording that each leaves the registry alone. *)
Create HintDb frame.

Ltac preserved :=
  lazymatch goal with
  | |- ?c ?s = Done ?a ?s1 -> passes ?s1 = passes ?s =>
      let Hc := fresh in
      assert (Hc : preserves passes c) by (frame; auto with frame);
      apply Hc
  end.

Ltac walk H :=
  repeat
    (lazymatch type of H with
     | bind (finishPass _) _ _ = _ => fail
     | bind _ _ _ = Done _ _ =>
         let a := fresh "a" in
         let s1 := fresh "s" in
         let Ha := fresh "Ha" in
         let Hp := fresh "Hp" in
         apply bind_Done in H; destruct H as (a & s1 & Ha & H);
         lazymatch type of Ha with
         | _ ?s0 = Done _ _ => assert (Hp : passes s1 = passes s0) by (revert Ha; preserved)
         end
     | (if ?c then _ else _) _ = _ => destruct c eqn:?
     | (match ?x with _ => _ end) _ = _ => destruct x eqn:?
     end).

Ltac finished H :=
  lazymatch type of H with
  | bind (finishPass _) _ _ = _ =>
      let u := fresh "u" in
      let s1 := fresh "s" in
      let Hu := fresh "Hu" in
      apply bind_Done in H; destruct H as (u & s1 & Hu & H);
      apply finishPass_Done in Hu; apply ret_Done in H as [? ?]; subst;
      eapply ranPass_through; [eassumption| |eassumption]; simpl in *; congruence
  end.

Tactic Notation "begun" hyp(H) :=
  let b := fresh "begun" in
  let s1 := fresh "s" in
  let Hb := fresh "Hb" in
  let Hf := fresh "Hfin" in
  let Hr := fresh "Hrun" in
  let Hp := fresh "Hpass" in
  let Hc := fresh "Hwhy" in
  apply bind_Done in H; destruct H as (b & s1 & Hb & H);
  apply beginPass_Done in Hb as [(-> & Hf & Hr & ->)|(-> & Hp & Hc)];
  [|apply ret_Done in H as [? ?]; subst; eapply ranPass_refused; eauto].

Section PassesRun.
Variable env : Env.

Hint Resolve checkEntries_passes resolveBases_passes analyzeBaseClassesImpl_passes
  layoutFields_passes collectInitializers_passes createDefaultConstructor_passes
  analyzeDeclaredConstructors_passes overrideMembers_passes addNewMethods_passes
  checkForRequiredMethods_passes : frame.

Lemma checkNameConflicts_ran s b s' :
  noneRunning (passes s) -> checkNameConflicts s = Done b s' ->
  ranPass NamingConflictPass (passes s) (passes s').
Proof.
  intros Hnr H. unfold checkNameConflicts in H. begun H. walk H. finished H.
Qed.

Lemma analyzeBaseClasses_ran s b s' :
  noneRunning (passes s) -> analyzeBaseClasses env s = Done b s' ->
  ranPass BaseTypesPass (passes s) (passes s').
Proof.
  intros Hnr H. unfold analyzeBaseClasses in H.
  apply bind_Done in H as (m & s0 & Hm & H). apply get_Done in Hm as [-> ->].
  rewrite Hnr in H. begun H. simpl in H. walk H. finished H.
Qed.

Lemma analyzeConverters_ran s b s' :
  noneRunning (passes s) -> analyzeConverters env s = Done b s' ->
  ranPass ConverterPass (passes s) (passes s').
Proof.
  intros Hnr H. unfold analyzeConverters in H. begun H.
  unfold addCoercer, addSingularTrait in H. walk H. finished H.
Qed.

Lemma analyzeMemberTypes_ran s b s' :
  noneRunning (passes s) -> analyzeMemberTypes s = Done b s' ->
  ranPass MemberTypePass (passes s) (passes s').
Proof.
  intros Hnr H. unfold analyzeMemberTypes in H. begun H. finished H.
Qed.

Lemma analyzeFields_ran s b s' :
  noneRunning (passes s) -> analyzeFields env s = Done b s' ->
  ranPass FieldPass (passes s) (passes s').
Proof.
  intros Hnr H. unfold analyzeFields in H.
  apply bind_Done in H as (r & s0 & Hr & H). apply ret_Done in H as [_ <-].
  unfold analyzeFieldsCounting in Hr. begun Hr. walk Hr. finished Hr.
Qed.

Lemma analyzeConstructors_ran s s' :
  noneRunning (passes s) -> analyzeConstructors env s = Done true s' ->
  ranPass ConstructorPass (passes s) (passes s').
Proof.
  intros Hnr H. unfold analyzeConstructors in H. begun H.
  walk H; try finished H.
  apply ret_Done in H as [? ?]. discriminate.
Qed.

Lemma analyzeMethods_ran s b s' :
  noneRunning (passes s) -> analyzeMethods env s = Done b s' ->
  ranPass MethodPass (passes s) (passes s').
Proof.
  intros Hnr H. unfold analyzeMethods in H. begun H. walk H. finished H.
Qed.

Lemma analyzeOverloading_ran s b s' :
  noneRunning (passes s) -> analyzeOverloading env s = Done b s' ->
  ranPass OverloadingPass (passes s) (passes s').
Proof.
  intros Hnr H. unfold analyzeOverloading in H. begun H.
  unfold copyBaseClassMethods, createInterfaceTables, createInterfaceTable in H.
  walk H. finished H.
Qed.

Lemma analyzeFieldTypes_ran s b s' :
  noneRunning (passes s) -> analyzeFieldTypes s = Done b s' ->
  ranPass FieldTypePass (passes s) (passes s').
Proof.
  intros Hnr H. unfold analyzeFieldTypes in H. begun H. finished H.
Qed.

Lemma analyzeCompletely_ran s b s' :
  noneRunning (passes s) -> analyzeCompletely s = Done b s' ->
  ranPass CompletionPass (passes s) (passes s').
Proof.
  intros Hnr H. unfold analyzeCompletely in H. begun H. finished H.
Qed.


Lemma step_ran passesToRun p c k s s' :
  (forall s s', noneRunning (passes s) -> c s = Done true s' ->
                ranPass p (passes s) (passes s')) ->
  noneRunning (passes s) ->
  step passesToRun p c k s = Done true s' ->
  exists s1, afterStep passesToRun p s s1 /\ k s1 = Done true s'.
Proof.
  intros Hc Hnr H. unfold step in H. unfold afterStep.
  destruct (PassSet.contains passesToRun p).
  - apply bind_Done in H as (ok & s1 & Hok & H). destruct ok.
    + exists s1. destruct (Hc _ _ Hnr Hok) as [Hnr1 Hfin1]. auto.
    + apply ret_Done in H as [? ?]. discriminate.
  - exists s. auto.
Qed.

Lemma guarded_ran passesToRun p body k s s' :
  noneRunning (passes s) ->
  guarded passesToRun p body k s = Done true s' ->
  exists s1, afterStep passesToRun p s s1 /\ k s1 = Done true s'.
Proof.
  intros Hnr H. unfold guarded in H. unfold afterStep.
  destruct (PassSet.contains passesToRun p); [|exists s; auto].
  apply bind_Done in H as (begun & s1 & Hb & H).
  apply beginPass_Done in Hb as [(-> & Hf & Hr & ->)|(-> & Hp & Hc)].
  - destruct body.
    + apply bind_Done in H as (u & s2 & Hu & H). apply finishPass_Done in Hu.
      exists s2. split; [|exact H]. simpl in Hu.
      rewrite Hu. apply ranPass_begin_finish. exact Hnr.
    + apply ret_Done in H as [? ?]. discriminate.
  - exists s1. split; [|exact H].
    rewrite Hp. simpl. apply ranPass_refused; auto.
Qed.
End PassesRun.


(** Once the pass is known, all but one of the statements drop out. *)
Ltac only_pass :=
  cbv [Pass_eqb passIndex N.eqb Pos.eqb];
  rewrite ?andb_false_r, ?andb_true_r, ?orb_false_l, ?orb_false_r;
  repeat match goal with
         | |- context [PassSet.contains ?set ?p] => destruct (PassSet.contains set p)
         | |- context [isFinished ?m ?p] => destruct (isFinished m p)
         end; reflexivity.

Ltac next_pass H lem :=
  let s1 := fresh "s" in
  let Hnr := fresh "Hnr" in
  let Hfin := fresh "Hfin" in
  first [ apply guarded_ran in H as (s1 & (Hnr & Hfin) & H); [|assumption]
        | apply step_ran in H as (s1 & (Hnr & Hfin) & H);
          [|intros; eapply lem; eassumption|assumption] ].

Lemma runPasses_success env passesToRun s s' :
  noneRunning (passes s) ->
  runPasses env passesToRun s = Done true s' ->
  noneRunning (passes s')
  /\ forall q, isFinished (passes s') q
               = (PassSet.contains passesToRun q && runsOn (target env) q)
                 || isFinished (passes s) q.
Proof.
  intros Hnr H. unfold runPasses in H.
  apply bind_Done in H as (fin & s0 & Hget & H). apply get_Done in Hget as [-> ->].
  set (todo := PassSet.removeAll passesToRun (finished (passes s))) in *.
  assert (Htodo : forall q, PassSet.contains todo q
                            = PassSet.contains passesToRun q && negb (isFinished (passes s) q))
    by (intros q; apply contains_removeAll).
  unfold runsOn.
  destruct (PassSet.isEmpty todo) eqn:Hempty.
  { apply ret_Done in H as [_ <-]. split; [exact Hnr|]. intros q.
    pose proof (isEmpty_contains _ q Hempty) as Hq. rewrite Htodo in Hq.
    destruct (PassSet.contains passesToRun q), (isFinished (passes s) q),
      (isTemplate (target env)), (isTemplateMember (target env)),
      (Pass_eqb q ScopeCreationPass), (Pass_eqb q BaseTypesPass);
      simpl in *; congruence. }
  destruct (isTemplate (target env)).
  { next_pass H analyzeBaseClasses_ran. next_pass H analyzeBaseClasses_ran.
    apply ret_Done in H as [_ <-]. split; [assumption|].
    intros q. rewrite Hfin0, Hfin, !Htodo.
    destruct q; only_pass. }
  destruct (isTemplateMember (target env)).
  { apply ret_Done in H as [_ <-]. split; [exact Hnr|]. intros q.
    rewrite andb_false_r. reflexivity. }
  next_pass H checkNameConflicts_ran.
  next_pass H checkNameConflicts_ran.
  next_pass H checkNameConflicts_ran.
  next_pass H analyzeBaseClasses_ran.
  next_pass H analyzeMemberTypes_ran.
  next_pass H analyzeFields_ran.
  next_pass H analyzeConverters_ran.
  next_pass H analyzeConstructors_ran.
  next_pass H analyzeMethods_ran.
  next_pass H analyzeOverloading_ran.
  next_pass H analyzeFieldTypes_ran.
  next_pass H analyzeCompletely_ran.
  apply ret_Done in H as [_ <-]. split; [assumption|].
  intros q.
  repeat match goal with Hf : forall q, isFinished _ q = _ |- _ => rewrite Hf; clear Hf end.
  rewrite !Htodo.
  destruct q; only_pass.
Qed.

(** ** Pass order *)

Lemma requiredBy_first_two p q :
  Pass_eqb p ScopeCreationPass || Pass_eqb p BaseTypesPass = true ->
  requiredBy p q = true ->
  Pass_eqb q ScopeCreationPass || Pass_eqb q BaseTypesPass = true.
Proof. destruct p, q; vm_compute; congruence. Qed.

Lemma requiredBy_in_set p q set :
  In set taskPassSets -> requiredBy p q = true ->
  PassSet.contains set p = true -> PassSet.contains set q = true.
Proof.
  intros Hin Hreq Hp. unfold requiredBy in Hreq. rewrite forallb_forall in Hreq.
  specialize (Hreq set Hin). rewrite Hp in Hreq. exact Hreq.
Qed.

Lemma passSetOf_in task set : passSetOf task = Some set -> In set taskPassSets.
Proof.
  destruct task; simpl; intros H; inversion H; subst; unfold taskPassSets; simpl; tauto.
Qed.

Lemma analyze_closed env task s s' :
  noneRunning (passes s) -> closedUnderTasks (passes s) ->
  analyze env task s = Done true s' ->
  noneRunning (passes s') /\ closedUnderTasks (passes s').
Proof.
  intros Hnr Hcl H. unfold analyze in H.
  destruct (passSetOf task) as [set|] eqn:Hset.
  - apply passSetOf_in in Hset.
    destruct (runPasses_success _ _ _ _ Hnr H) as [Hnr' Hfin]. split; [exact Hnr'|].
    intros p q Hp Hreq. rewrite Hfin in Hp. rewrite Hfin.
    apply orb_true_iff in Hp as [Hp|Hp].
    + apply andb_true_iff in Hp as [Hp Hon].
      rewrite (requiredBy_in_set _ _ _ Hset Hreq Hp). simpl.
      unfold runsOn in *. destruct (isTemplate (target env)).
      * rewrite (requiredBy_first_two _ _ Hon Hreq). reflexivity.
      * rewrite Hon. reflexivity.
    + rewrite (Hcl _ _ Hp Hreq). apply orb_true_r.
  - apply ret_Done in H as [_ <-]. auto.
Qed.

Lemma analyzeAll_closed calls : forall s s',
  noneRunning (passes s) -> closedUnderTasks (passes s) ->
  analyzeAll calls s = Some s' ->
  noneRunning (passes s') /\ closedUnderTasks (passes s').
Proof.
  induction calls as [|[env task] calls IH]; intros s s' Hnr Hcl H; simpl in H.
  - injection H as <-. auto.
  - destruct (analyze env task s) as [[] s1|] eqn:E; try discriminate.
    destruct (analyze_closed _ _ _ _ Hnr Hcl E) as [Hnr1 Hcl1]. eauto.
Qed.

Lemma newState_at_rest ms :
  noneRunning (passes (newState ms)) /\ closedUnderTasks (passes (newState ms)).
Proof.
  split.
  - intros q. apply contains_empty.
  - intros p q Hp. exfalso. revert Hp.
    change (passes (newState ms)) with noPasses. unfold isFinished, noPasses.
    cbn [finished]. rewrite contains_empty. discriminate.
Qed.

(** C3, as the specification states it, fails: preparing a fresh interface
    without bases or members for type generation finishes the FieldType pass
    and leaves the Converter pass, which precedes it, unfinished. *)
Lemma pass_order_counterexample :
  exists s,
    analyzeAll [(emptyInterfaceEnv, Task_PrepTypeGeneration)] (newState []) = Some s
    /\ isFinished (passes s) FieldTypePass = true
    /\ precedes ConverterPass FieldTypePass = true
    /\ isFinished (passes s) ConverterPass = false
    /\ ~ passOrder (passes s).
Proof.
  eexists. split; [vm_compute; reflexivity|].
  split; [reflexivity|]. split; [reflexivity|]. split; [reflexivity|].
  intros Horder. specialize (Horder FieldTypePass ConverterPass eq_refl eq_refl).
  discriminate Horder.
Qed.

(** C3 (amended): after any series of successful [analyze] calls on a
    composite type whose registry started empty, every finished pass [p] has
    all the passes finished that each task asking for [p] asks for as well;
    among these are always ScopeCreation and BaseTypes. *)
Theorem pass_order_by_task calls ms s' :
  analyzeAll calls (newState ms) = Some s' ->
  forall p, isFinished (passes s') p = true ->
    (forall q, requiredBy p q = true -> isFinished (passes s') q = true)
    /\ isFinished (passes s') ScopeCreationPass = true
    /\ isFinished (passes s') BaseTypesPass = true.
Proof.
  intros H p Hp.
  destruct (newState_at_rest ms) as [Hnr Hcl].
  destruct (analyzeAll_closed _ _ _ Hnr Hcl H) as [_ Hcl'].
  split; [intros q; apply Hcl'; exact Hp|].
  split; apply (Hcl' p); try exact Hp; destruct p; reflexivity.
Qed.

Lemma pass_order_by_task_witness :
  let calls := [(emptyInterfaceEnv, Task_PrepTypeGeneration);
                (emptyInterfaceEnv, Task_PrepConstruction)] in
  exists s', analyzeAll calls (newState []) = Some s'
    /\ isFinished (passes s') FieldTypePass = true
    /\ isFinished (passes s') FieldPass = true
    /\ isFinished (passes s') ScopeCreationPass = true.
Proof.
  intros calls.
  destruct (analyzeAll calls (newState [])) as [s'|] eqn:E; [|vm_compute in E; discriminate E].
  exists s'. split; [reflexivity|].
  assert (Hp : isFinished (passes s') FieldTypePass = true).
  { vm_compute in E. injection E as <-. reflexivity. }
  split; [exact Hp|].
  destruct (pass_order_by_task calls [] s' E FieldTypePass Hp) as (Hq & Hscope & _).
  split; [apply Hq; reflexivity|exact Hscope].
Defined.

(** ** The passes of code generation *)

(** C4, as the specification states it, fails: on a fresh interface without
    bases or members the request succeeds and the FieldType pass is not
    finished. *)
Lemma codegen_counterexample :
  exists s,
    analyze emptyInterfaceEnv Task_PrepCodeGeneration (newState []) = Done true s
    /\ isFinished (passes s) FieldTypePass = false.
Proof. eexists. split; [vm_compute; reflexivity|reflexivity]. Qed.

(** C4 (amended): on a composite type that is neither a template nor the
    member of a template and has no pass in progress, a successful
    [analyze(Task_PrepCodeGeneration)] leaves every pass but FieldType
    finished; FieldType is not run, it is finished afterwards only if it was
    before. *)
Theorem codegen_passes env s s' :
  isTemplate (target env) = false ->
  isTemplateMember (target env) = false ->
  noneRunning (passes s) ->
  analyze env Task_PrepCodeGeneration s = Done true s' ->
  (forall q, q <> FieldTypePass -> isFinished (passes s') q = true)
  /\ isFinished (passes s') FieldTypePass = isFinished (passes s) FieldTypePass.
Proof.
  intros Ht Hm Hnr H. unfold analyze in H. simpl passSetOf in H.
  destruct (runPasses_success _ _ _ _ Hnr H) as [_ Hfin].
  unfold runsOn in Hfin. rewrite Ht, Hm in Hfin. split.
  - intros q Hq. rewrite Hfin. destruct q; try reflexivity. congruence.
  - rewrite Hfin. reflexivity.
Qed.

Lemma codegen_passes_witness :
  exists s',
    analyze emptyInterfaceEnv Task_PrepCodeGeneration (newState []) = Done true s'
    /\ (forall q, q <> FieldTypePass -> isFinished (passes s') q = true)
    /\ isFinished (passes s') FieldTypePass = false.
Proof.
  destruct (analyze emptyInterfaceEnv Task_PrepCodeGeneration (newState []))
    as [[] s'|] eqn:E; try (vm_compute in E; discriminate E).
  exists s'. split; [reflexivity|].
  assert (Hnr : noneRunning (passes (newState []))) by (intros q; apply contains_empty).
  exact (codegen_passes emptyInterfaceEnv (newState []) s' eq_refl eq_refl Hnr E).
Defined.

(** ** Circular inheritance *)

(** C9: when the BaseTypes pass is requested on a type on which it is in
    progress, [analyzeBaseClasses] reports the circular inheritance and
    returns failure; it does not enter the loop over the bases, and leaves the
    registry and the base list as they are. *)
Theorem circular_inheritance env s :
  isRunning (passes s) BaseTypesPass = true ->
  analyzeBaseClasses env s
  = Done false (setDiag (diag s ++ [(SevError, MsgCircularInheritance)]) s).
Proof.
  intros Hrun. unfold analyzeBaseClasses, bind, get. rewrite Hrun. reflexivity.
Qed.

Lemma circular_inheritance_witness :
  isRunning (passes baseTypesInProgress) BaseTypesPass = true
  /\ analyzeBaseClasses (structWithProtocolEnv Struct) baseTypesInProgress
     = Done false
         (setDiag (diag baseTypesInProgress ++ [(SevError, MsgCircularInheritance)])
            baseTypesInProgress).
Proof.
  split; [reflexivity|]. apply circular_inheritance. reflexivity.
Defined.

Section BaseTypes.
Variable env : Env.

Lemma classifyBase_result dtype kind pb node s b s1 :
  dtype = Struct \/ dtype = Interface ->
  classifyBase dtype kind pb node s = Done b s1 ->
  b = acceptsBase dtype kind && negb (isSome pb) /\ bases s1 = bases s.
Proof.
  intros Hd H.
  assert (Hp : preserves bases (classifyBase dtype kind pb node))
    by (unfold classifyBase; frame).
  split; [|exact (Hp _ _ _ H)].
  destruct Hd as [-> | ->]; destruct kind, pb; simpl in H;
    unfold bind, emit, modify, ret in H; simpl in H; inversion H; reflexivity.
Qed.

Lemma resolveBases_split ft astBases : forall pb s r s',
  typeClass (target env) = Struct \/ typeClass (target env) = Interface ->
  resolveBases env ft astBases pb s = Done (Some r) s' ->
  exists ids,
    Forall2 compositeBase ids astBases
    /\ let accepted t := acceptsBase (typeClass (target env)) (tvTypeClass (typeView env t)) in
       match pb with
       | Some _ => r = pb /\ bases s' = bases s ++ ids
       | None => r = fst (splitPrimary accepted ids)
                 /\ bases s' = bases s ++ snd (splitPrimary accepted ids)
       end.
Proof.
  induction astBases as [|b rest IH]; intros pb s r s' Hk H; simpl in H.
  - apply ret_Done in H as [E <-]. injection E as <-. exists []. split; [constructor|].
    simpl. destruct pb; rewrite app_nil_r; auto.
  - destruct (resolved b) as [|hd|t [|]] eqn:Hres;
      try (unfold bind, emit, modify, ret in H; simpl in H; discriminate H).
    destruct (negb (tvIsSingular (typeView env t)) && negb ft);
      [unfold bind, emit, modify, ret in H; simpl in H; discriminate H|].
    mstep H as u s1 Hu.
    assert (Hb1 : bases s1 = bases s).
    { revert Hu. apply (preserves_when bases). frame. }
    destruct (negb (baseLookupOk b)); [apply ret_Done in H as [? ?]; discriminate|].
    mstep H as isPrimary s2 Hc.
    apply classifyBase_result in Hc as [-> Hb2]; [|exact Hk].
    mstep H as u2 s3 Hu2.
    assert (Hb3 : bases s3 = bases s2).
    { revert Hu2. apply (preserves_when bases). frame. }
    simpl.
    destruct (acceptsBase (typeClass (target env)) (tvTypeClass (typeView env t))) eqn:Hacc;
      destruct pb as [p|]; simpl in H.
    + mstep H as u3 s4 Hu3. apply modify_Done in Hu3.
      destruct (IH _ _ _ _ Hk H) as (ids & Hall & Hr & Hbs). exists (t :: ids).
      split; [constructor; assumption|]. split; [exact Hr|].
      rewrite Hbs. subst s4. simpl. rewrite Hb3, Hb2, Hb1, <- app_assoc. reflexivity.
    + destruct (IH _ _ _ _ Hk H) as (ids & Hall & Hr & Hbs). exists (t :: ids).
      split; [constructor; assumption|]. simpl. rewrite Hacc. simpl.
      split; [exact Hr|]. rewrite Hbs. congruence.
    + mstep H as u3 s4 Hu3. apply modify_Done in Hu3.
      destruct (IH _ _ _ _ Hk H) as (ids & Hall & Hr & Hbs). exists (t :: ids).
      split; [constructor; assumption|]. split; [exact Hr|].
      rewrite Hbs. subst s4. simpl. rewrite Hb3, Hb2, Hb1, <- app_assoc. reflexivity.
    + mstep H as u3 s4 Hu3. apply modify_Done in Hu3.
      destruct (IH _ _ _ _ Hk H) as (ids & Hall & Hr & Hbs). exists (t :: ids).
      split; [constructor; assumption|]. simpl. rewrite Hacc.
      destruct (splitPrimary _ ids) as [p others] eqn:Hsp. simpl in *.
      split; [exact Hr|]. rewrite Hbs. subst s4. simpl.
      rewrite Hb3, Hb2, Hb1, <- app_assoc. reflexivity.
Qed.

Lemma splitPrimary_accepted accepted ids p :
  fst (splitPrimary accepted ids) = Some p -> accepted p = true.
Proof.
  induction ids as [|t ids IH]; simpl; [discriminate|].
  destruct (accepted t) eqn:E.
  - simpl. intros H. injection H as <-. exact E.
  - destruct (splitPrimary accepted ids). simpl in *. exact IH.
Qed.

Lemma splitPrimary_at accepted pre t post :
  forallb (fun x => negb (accepted x)) pre = true -> accepted t = true ->
  splitPrimary accepted (pre ++ t :: post) = (Some t, pre ++ post).
Proof.
  intros Hpre Ht. induction pre as [|x pre IH]; simpl in *.
  - rewrite Ht. reflexivity.
  - apply andb_true_iff in Hpre as [Hx Hpre]. apply negb_true_iff in Hx.
    rewrite Hx, (IH Hpre). reflexivity.
Qed.

Lemma splitPrimary_later accepted pre t post :
  existsb accepted pre = true -> In t (snd (splitPrimary accepted (pre ++ t :: post))).
Proof.
  induction pre as [|x pre IH]; simpl; [discriminate|].
  destruct (accepted x) eqn:E; simpl.
  - intros _. apply in_or_app. right. left. reflexivity.
  - intros H. specialize (IH H).
    destruct (splitPrimary accepted (pre ++ t :: post)). simpl in *. right. exact IH.
Qed.

(** C5 (amended): for a struct (an interface), the first base of struct or
    protocol kind (of interface or protocol kind) becomes the primary base,
    so that a protocol-kind base is the primary base when no base of an
    accepted kind comes before it; every other base, a later protocol among
    them, is recorded as a secondary base after the primary one. *)
Theorem primary_base_of_struct_or_interface s s' :
  typeClass (target env) = Struct \/ typeClass (target env) = Interface ->
  hasAST (target env) = true ->
  bases s = [] ->
  analyzeBaseClassesImpl env s = Done true s' ->
  let accepted t := acceptsBase (typeClass (target env)) (tvTypeClass (typeView env t)) in
  exists ids,
    Forall2 compositeBase ids (astBases (target env))
    /\ super s' = fst (splitPrimary accepted ids)
    /\ bases s' = match super s' with
                  | Some p => p :: snd (splitPrimary accepted ids)
                  | None => snd (splitPrimary accepted ids)
                  end
    /\ (forall p, super s' = Some p -> accepted p = true)
    /\ (forall pre t post, ids = pre ++ t :: post ->
          tvTypeClass (typeView env t) = Protocol ->
          (forallb (fun x => negb (accepted x)) pre = true -> super s' = Some t)
          /\ (existsb accepted pre = true ->
              In t (snd (splitPrimary accepted ids)) /\ In t (bases s'))).
Proof.
  intros Hk Hast Hbs H accepted. unfold analyzeBaseClassesImpl in H.
  rewrite Hast in H. simpl in H.
  mstep H as u s1 Hu.
  assert (Hb1 : bases s1 = bases s).
  { revert Hu. apply (preserves_when bases). frame. }
  mstep H as r s2 Hr. destruct r as [r|]; [|apply ret_Done in H as [? ?]; discriminate].
  destruct (resolveBases_split _ _ _ _ _ _ Hk Hr) as (ids & Hall & -> & Hb2).
  fold accepted in Hb2, H |- *.
  assert (Hclass : TypeClass_eqb (typeClass (target env)) Class = false)
    by (destruct Hk as [-> | ->]; reflexivity).
  rewrite Hclass in H. simpl in H.
  mstep H as pb s3 Hpb. apply ret_Done in Hpb as [<- <-].
  mstep H as u3 s4 Hsup. apply modify_Done in Hsup.
  mstep H as u4 s5 Hins. mstep H as u5 s6 Hsym. apply ret_Done in H as [_ <-].
  assert (Hs6 : super s6 = super s5 /\ bases s6 = bases s5).
  { split; revert Hsym;
      [apply (preserves_when super)|apply (preserves_when bases)]; frame. }
  destruct Hs6 as [Hs6 Hb6].
  assert (Hsuper : super s6 = fst (splitPrimary accepted ids)
          /\ bases s6 = match fst (splitPrimary accepted ids) with
                        | Some p => p :: snd (splitPrimary accepted ids)
                        | None => snd (splitPrimary accepted ids)
                        end).
  { rewrite Hs6, Hb6. subst s4.
    destruct (fst (splitPrimary accepted ids)) as [p|].
    - apply modify_Done in Hins. subst s5. simpl. rewrite Hb2, Hb1, Hbs. auto.
    - apply ret_Done in Hins as [_ <-]. simpl. rewrite Hb2, Hb1, Hbs. auto. }
  destruct Hsuper as [Hsuper Hbases].
  exists ids. split; [exact Hall|]. split; [exact Hsuper|].
  split; [rewrite Hsuper; exact Hbases|].
  split; [intros p Hp; rewrite Hsuper in Hp; exact (splitPrimary_accepted _ _ _ Hp)|].
  intros pre t post -> Hprot.
  assert (Ht : accepted t = true).
  { unfold accepted. rewrite Hprot. destruct Hk as [-> | ->]; reflexivity. }
  split.
  - intros Hpre. rewrite Hsuper, (splitPrimary_at _ _ _ _ Hpre Ht). reflexivity.
  - intros Hpre. pose proof (splitPrimary_later accepted pre t post Hpre) as Hin.
    split; [exact Hin|]. rewrite Hbases.
    destruct (fst (splitPrimary accepted (pre ++ t :: post))); [right|]; exact Hin.
Qed.
End BaseTypes.

(** C5, as the specification states it, fails: a struct declared with a
    protocol and then a struct as bases gets the protocol as its primary base
    and the struct as a secondary base; likewise an interface declared with a
    protocol and then an interface. *)
Lemma protocol_primary_counterexample :
  (exists s,
     analyzeBaseClasses (structWithProtocolEnv Struct) (newState []) = Done true s
     /\ tvTypeClass (typeView (structWithProtocolEnv Struct) 20%nat) = Protocol
     /\ tvTypeClass (typeView (structWithProtocolEnv Struct) 21%nat) = Struct
     /\ super s = Some 20%nat
     /\ bases s = [20%nat; 21%nat])
  /\ (exists s,
        analyzeBaseClasses (structWithProtocolEnv Interface) (newState []) = Done true s
        /\ tvTypeClass (typeView (structWithProtocolEnv Interface) 20%nat) = Protocol
        /\ tvTypeClass (typeView (structWithProtocolEnv Interface) 21%nat) = Interface
        /\ super s = Some 20%nat
        /\ bases s = [20%nat; 21%nat]).
Proof.
  split; eexists; (split; [vm_compute; reflexivity|]); repeat split; reflexivity.
Qed.

Lemma primary_base_of_struct_or_interface_witness :
  exists s',
    analyzeBaseClassesImpl (structWithProtocolEnv Struct) (newState []) = Done true s'
    /\ super s' = Some 20%nat
    /\ bases s' = [20%nat; 21%nat].
Proof.
  destruct (analyzeBaseClassesImpl (structWithProtocolEnv Struct) (newState []))
    as [[] s'|] eqn:E; try (vm_compute in E; discriminate E).
  exists s'. split; [reflexivity|].
  destruct (primary_base_of_struct_or_interface (structWithProtocolEnv Struct)
              (newState []) s' (or_introl eq_refl) eq_refl eq_refl E)
    as (ids & Hids & Hsuper & Hbases & _).
  assert (ids = [20%nat; 21%nat]) as ->.
  { cbn in Hids. inversion Hids as [|t1 b1 l1 l1' H1 Hrest]; subst.
    inversion Hrest as [|t2 b2 l2 l2' H2 Hrest']; subst.
    inversion Hrest'; subst.
    unfold compositeBase in H1, H2. simpl in H1, H2.
    injection H1 as <-. injection H2 as <-. reflexivity. }
  rewrite Hbases, Hsuper. split; reflexivity.
Defined.



Section Fields.
Variable env : Env.


End Fields.


Lemma bind_run {A B} (c : M A) (k : A -> M B) s a s1 :
  c s = Done a s1 -> bind c k s = k a s1.
Proof. intros H. unfold bind. rewrite H. reflexivity. Qed.

Lemma setDiag_same s : setDiag (diag s) s = s.
Proof. destruct s; reflexivity. Qed.

Lemma forEach_emit {A} sev (f : A -> Message) l : forall s,
  forEach l (fun o => emit sev (f o)) s
  = Done tt (setDiag (diag s ++ map (fun o => (sev, f o)) l) s).
Proof.
  induction l as [|x l IH]; intros s; simpl.
  - rewrite app_nil_r, setDiag_same. reflexivity.
  - unfold bind, emit at 1, modify. rewrite IH. simpl. rewrite <- app_assoc. reflexivity.
Qed.

Lemma no_warning_among_infos {A} (f : A -> Message) l :
  List.filter isHiddenWarning (map (fun o => (SevInfo, f o)) l) = [].
Proof. induction l as [|x l IH]; simpl; auto. Qed.

Section Hiding.
Variable env : Env.

Lemma overrideSlots_hidden name overrides canHide table : forall i s,
  exists table' s' new,
    overrideSlots env name overrides canHide i table s = Done table' s'
    /\ diag s' = diag s ++ new
    /\ List.filter isHiddenWarning new
       = if canHide
         then map (fun m => (SevWarn, MsgHidden (fnId m)))
                (List.filter (fun m => Name_eqb (fnName m) name
                                  && negb (isSome (findOverride env m overrides))) table)
         else [].
Proof.
  induction table as [|m table IH]; intros i s.
  - exists [], s, []. simpl. rewrite app_nil_r. destruct canHide; auto.
  - cbn [overrideSlots List.filter].
    assert (Hslot : exists slot s1 new1,
               (if Name_eqb (fnName m) name
                then match findOverride env m overrides with
                     | Some newMethod =>
                         st <- get (fun s => fnStateOf s newMethod) ;;
                         when (canHide && (dispatchIndex st <? 0))
                           (setDispatchIndex newMethod i) ;;
                         when (hasBody m && negb (fnIsOverride newMethod))
                           (emit SevError (MsgShouldDeclareOverride (fnId newMethod))) ;;
                         insertOverridden newMethod m ;;
                         ret newMethod
                     | None =>
                         when canHide
                           (emit SevWarn (MsgHidden (fnId m)) ;;
                            forEach overrides (fun o => emit SevInfo (MsgHiddenBy (fnId o)))) ;;
                         ret m
                     end
                else ret m) s = Done slot s1
               /\ diag s1 = diag s ++ new1
               /\ List.filter isHiddenWarning new1
                  = if canHide && (Name_eqb (fnName m) name
                                   && negb (isSome (findOverride env m overrides)))
                    then [(SevWarn, MsgHidden (fnId m))] else []).
    { destruct (Name_eqb (fnName m) name);
        [|exists m, s, []; rewrite app_nil_r, andb_false_r; auto].
      destruct (findOverride env m overrides) as [n|]; simpl.
      - rewrite andb_false_r.
        unfold bind, get, when, setDispatchIndex, insertOverridden, updateFn, modify,
          emit, ret.
        destruct (canHide && _), (hasBody m && _); simpl;
          eexists _, _, _; (split; [reflexivity|]); simpl;
          first [ split; [symmetry; apply app_nil_r|reflexivity]
                | split; [reflexivity|reflexivity] ].
      - rewrite andb_true_r. destruct canHide; simpl.
        + unfold bind, emit at 1, modify. rewrite forEach_emit. simpl.
          eexists _, _, _. split; [reflexivity|]. simpl. rewrite <- app_assoc.
          split; [reflexivity|]. simpl. f_equal.
          apply no_warning_among_infos.
        + exists m, s, []. rewrite app_nil_r. auto. }
    destruct Hslot as (slot & s1 & new1 & Hrun1 & Hd1 & Hw1).
    destruct (IH (i + 1) s1) as (table' & s' & new & Hrun & Hd & Hw).
    exists (slot :: table'), s', (new1 ++ new).
    unfold bind at 1. rewrite Hrun1. unfold bind. rewrite Hrun.
    split; [reflexivity|]. split; [rewrite Hd, Hd1, app_assoc; reflexivity|].
    rewrite List.filter_app, Hw1, Hw.
    destruct canHide; simpl; [|reflexivity].
    destruct (Name_eqb (fnName m) name && negb (isSome (findOverride env m overrides)));
      reflexivity.
Qed.

Lemma overrideMethods_hidden table overrides canHide s :
  exists table' s' new,
    overrideMethods env table overrides canHide s = Done table' s'
    /\ diag s' = diag s ++ new
    /\ List.filter isHiddenWarning new
       = if canHide
         then map (fun m => (SevWarn, MsgHidden (fnId m)))
                (unmatchedSlots env overrides table)
         else [].
Proof.
  unfold overrideMethods, unmatchedSlots. destruct overrides as [|front rest].
  - exists table, s, []. rewrite app_nil_r. destruct canHide; auto.
  - apply overrideSlots_hidden.
Qed.

Lemma overrideInterfaces_hidden overrides ifaceList : forall s,
  exists ifaceList' s' new,
    mapM (fun it =>
            ms <- overrideMethods env (methods it) overrides false ;;
            ret (mkInterfaceTable (interfaceType it) ms)) ifaceList s
    = Done ifaceList' s'
    /\ diag s' = diag s ++ new
    /\ List.filter isHiddenWarning new = [].
Proof.
  induction ifaceList as [|it l IH]; intros s.
  - exists [], s, []. rewrite app_nil_r. auto.
  - destruct (overrideMethods_hidden (methods it) overrides false s)
      as (t' & s1 & new1 & Hrun1 & Hd1 & Hw1).
    destruct (IH s1) as (l' & s' & new & Hrun & Hd & Hw).
    exists (mkInterfaceTable (interfaceType it) t' :: l'), s', (new1 ++ new).
    cbn [mapM].
    erewrite bind_run; [|erewrite bind_run; [reflexivity|exact Hrun1]].
    erewrite bind_run; [|exact Hrun].
    split; [reflexivity|]. split; [rewrite Hd, Hd1, app_assoc; reflexivity|].
    rewrite List.filter_app, Hw1, Hw. reflexivity.
Qed.

(** C8 (amended): in the override step on the instance method table
    ([canHide] true) the warning that a definition is hidden is emitted for
    exactly the slots whose occupant has the name of the declared methods
    and is override-compatible with none of them, whether the occupant has
    a body or not; on the tables of the interfaces ([canHide] false) it is
    never emitted. *)
Theorem hidden_warnings table overrides canHide s :
  (exists table' s' new,
     overrideMethods env table overrides canHide s = Done table' s'
     /\ diag s' = diag s ++ new
     /\ List.filter isHiddenWarning new
        = if canHide
          then map (fun m => (SevWarn, MsgHidden (fnId m)))
                 (unmatchedSlots env overrides table)
          else [])
  /\ (exists s' new,
        overrideInTables (fun table canHide => overrideMethods env table overrides canHide) s
        = Done tt s'
        /\ diag s' = diag s ++ new
        /\ List.filter isHiddenWarning new
           = map (fun m => (SevWarn, MsgHidden (fnId m)))
               (unmatchedSlots env overrides (instanceMethods s))).
Proof.
  split; [apply overrideMethods_hidden|].
  destruct (overrideMethods_hidden (instanceMethods s) overrides true s)
    as (t' & s1 & new1 & Hrun1 & Hd1 & Hw1).
  destruct (overrideInterfaces_hidden overrides (interfaces (setInstanceMethods t' s1))
              (setInstanceMethods t' s1))
    as (l' & s2 & new2 & Hrun2 & Hd2 & Hw2).
  exists (setInterfaces l' s2), (new1 ++ new2).
  unfold overrideInTables.
  erewrite bind_run; [|reflexivity]. erewrite bind_run; [|exact Hrun1].
  erewrite bind_run; [|reflexivity]. erewrite bind_run; [|reflexivity].
  erewrite bind_run; [|exact Hrun2].
  split; [reflexivity|]. split; [simpl; rewrite Hd2; simpl; rewrite Hd1, app_assoc; reflexivity|].
  rewrite List.filter_app, Hw1, Hw2, app_nil_r. reflexivity.
Qed.
End Hiding.

(** C8, as the specification states it, fails: a method [foo] of the target
    that cannot override the abstract [foo] in slot 0 draws the warning
    although the occupant of the slot has no body. *)
Lemma hidden_warning_counterexample :
  exists s,
    overrideMethods emptyInterfaceEnv [abstractFoo] [newFoo] true (newState [])
    = Done [abstractFoo] s
    /\ diag s = [(SevWarn, MsgHidden (fnId abstractFoo)); (SevInfo, MsgHiddenBy (fnId newFoo))]
    /\ Name_eqb (fnName newFoo) (fnName abstractFoo) = true
    /\ findOverride emptyInterfaceEnv abstractFoo [newFoo] = None
    /\ hasBody abstractFoo = false.
Proof. eexists. split; [vm_compute; reflexivity|]. repeat split; reflexivity. Qed.

Lemma no_interface_report_among_methods ms :
  List.filter isInterfaceReport (missingMethods ms) = [].
Proof. induction ms as [|f ms IH]; simpl; auto. Qed.

Lemma interfaceReport_once itab : (length (List.filter isInterfaceReport (interfaceReport itab)) <= 1)%nat.
Proof.
  induction itab as [|it rest IH]; simpl; [lia|].
  destruct (List.filter isUnimplemented (methods it)) as [|f fs]; [exact IH|].
  cbn [List.filter isInterfaceReport]. rewrite no_interface_report_among_methods. simpl.
  destruct (List.filter isInterfaceReport (missingMethods [f])) eqn:E; simpl; lia.
Qed.

Lemma checkInterfaceTables_report itab s :
  checkInterfaceTables itab s = Done tt (setDiag (diag s ++ interfaceReport itab) s).
Proof.
  induction itab as [|it rest IH]; simpl.
  - rewrite app_nil_r, setDiag_same. reflexivity.
  - destruct (List.filter isUnimplemented (methods it)) as [|f fs]; [exact IH|].
    unfold bind, emit at 1, modify, listMethods. rewrite forEach_emit. simpl.
    rewrite <- app_assoc. reflexivity.
Qed.

Section Completeness.
Variable env : Env.

Lemma checkForRequiredMethods_report s :
  isAbstract (target env) = false ->
  checkForRequiredMethods env s
  = Done tt (setDiag (diag s ++
               match List.filter isUnimplemented (instanceMethods s) with
               | [] => interfaceReport (interfaces s)
               | abstractMethods => vtableReport (target env) abstractMethods
               end) s).
Proof.
  intros Habs. unfold checkForRequiredMethods. rewrite Habs.
  erewrite bind_run; [|reflexivity].
  destruct (List.filter isUnimplemented (instanceMethods s)) as [|f fs].
  - erewrite bind_run; [|reflexivity]. apply checkInterfaceTables_report.
  - unfold vtableReport.
    destruct (typeClass (target env)); simpl;
      try (rewrite app_nil_r, setDiag_same; reflexivity);
      unfold bind, emit at 1, modify, listMethods; rewrite forEach_emit; simpl;
      rewrite <- app_assoc; reflexivity.
Qed.

(** C10: on a type that is not abstract and has an unimplemented method in
    its instance method table, the check reports that table (for a class or
    a struct) or nothing (for an interface or a protocol) and stops: no
    interface table is reported; and in every case at most one interface
    table is reported, the first one with an unimplemented method. *)
Theorem required_methods_stop s :
  isAbstract (target env) = false ->
  List.filter isUnimplemented (instanceMethods s) <> [] ->
  exists report,
    checkForRequiredMethods env s = Done tt (setDiag (diag s ++ report) s)
    /\ report = vtableReport (target env) (List.filter isUnimplemented (instanceMethods s))
    /\ List.filter isInterfaceReport report = []
    /\ (forall s0, exists report0,
          checkForRequiredMethods env s0 = Done tt (setDiag (diag s0 ++ report0) s0)
          /\ (length (List.filter isInterfaceReport report0) <= 1)%nat).
Proof.
  intros Habs Hne. eexists. split; [apply checkForRequiredMethods_report; exact Habs|].
  destruct (List.filter isUnimplemented (instanceMethods s)) as [|f fs] eqn:E;
    [congruence|].
  split; [reflexivity|]. split.
  - unfold vtableReport. destruct (typeClass (target env)); try reflexivity;
      cbn [List.filter isInterfaceReport]; apply no_interface_report_among_methods.
  - intros s0. eexists. split; [apply checkForRequiredMethods_report; exact Habs|].
    destruct (List.filter isUnimplemented (instanceMethods s0)) as [|g gs].
    + apply interfaceReport_once.
    + unfold vtableReport. destruct (typeClass (target env)); simpl;
        try rewrite no_interface_report_among_methods; simpl; lia.
Qed.
End Completeness.

Lemma required_methods_stop_witness :
  isAbstract (target incompleteEnv) = false
  /\ List.filter isUnimplemented (instanceMethods incompleteState) = [abstractFoo]
  /\ checkForRequiredMethods incompleteEnv incompleteState
     = Done tt (setDiag [(SevError, MsgLacksDefinitions);
                         (SevInfo, MsgMissingMethod (fnId abstractFoo))] incompleteState).
Proof.
  split; [reflexivity|]. split; [reflexivity|].
  destruct (required_methods_stop incompleteEnv incompleteState eq_refl)
    as (report & Hrun & -> & _); [discriminate|].
  exact Hrun.
Defined.

Lemma lookupMember_app n ms ms' :
  lookupMember n (ms ++ ms') = lookupMember n ms ++ lookupMember n ms'.
Proof. unfold lookupMember. apply List.filter_app. Qed.

Lemma filter_none {A} (f : A -> bool) l :
  forallb (fun x => negb (f x)) l = true -> List.filter f l = [].
Proof.
  induction l as [|x l IH]; simpl; [reflexivity|].
  intros H. apply andb_true_iff in H as [Hx Hl]. apply negb_true_iff in Hx.
  rewrite Hx. apply IH. exact Hl.
Qed.

Section Constructors.
Variable env : Env.

Lemma collectInitializers_result ms : forall rp op body s,
  forallb (fun d => negb (unimplementedInitializer (target env) d)) ms = true ->
  collectInitializers env ms rp op body s
  = Done (rp ++ requiredParameters ms, op ++ optionalParameters ms,
          body ++ fieldAssignments ms) s.
Proof.
  unfold requiredParameters, optionalParameters, fieldAssignments.
  induction ms as [|d ms IH]; intros rp op body s Hok.
  - simpl. rewrite !app_nil_r. reflexivity.
  - cbn [forallb] in Hok. apply andb_true_iff in Hok as [Hd Hok].
    apply negb_true_iff in Hd.
    destruct d as [v|f|p|nm sc sg|nm]; try (simpl; apply IH; exact Hok).
    cbn [collectInitializers constructorFields constructorField].
    unfold unimplementedInitializer, hasDefault in Hd.
    destruct (StorageClass_eqb (varStorageClass v) Storage_Instance); simpl in *;
      [|apply IH; exact Hok].
    destruct (varIsLet v); simpl in *.
    { rewrite Hd. apply IH; exact Hok. }
    destruct (varTypeIsNArray v); simpl in *; [apply IH; exact Hok|].
    destruct (Visibility_eqb (varVisibility v) Public); simpl in *.
    + unfold hasDefault. destruct (isSome (defaultValueOf v)); simpl;
        rewrite IH by exact Hok; rewrite <- !app_assoc; reflexivity.
    + destruct (isSome (defaultValueOf v)); simpl in *; [apply IH; exact Hok|].
      destruct (isObject (target env)); simpl in *; [apply IH; exact Hok|discriminate].
Qed.

Lemma analyzeDeclaredConstructors_none ctors s :
  forallb (fun d => negb (isFunctionDefn d)) ctors = true ->
  exists s1,
    analyzeDeclaredConstructors env ctors false s = Done false s1
    /\ passes s1 = passes s /\ members s1 = members s /\ super s1 = super s
    /\ diag s1 = diag s ++ notMethodReport ctors.
Proof.
  destruct ctors as [|d rest]; intros H.
  - exists s. simpl. rewrite app_nil_r. auto.
  - destruct d as [v|f|p|nm sc sg|nm]; simpl in H; try discriminate;
      eexists; (split; [reflexivity|]); auto.
Qed.

Lemma constructorTypeReport_run params st :
  when (negb (FunctionType_isSingular trDefined trSingular (constructorType env params)))
    (emit SevFatal MsgConstructorTypeNotSingular ;;
     forEach (whyNotSingular trDefined trSingular (constructorType env params))
       (fun note => emit SevInfo (MsgWhyNotSingular note))) st
  = Done tt (setDiag (diag st ++ constructorTypeReport env params) st).
Proof.
  unfold constructorTypeReport.
  destruct (FunctionType_isSingular trDefined trSingular (constructorType env params)); simpl.
  - rewrite app_nil_r, setDiag_same. reflexivity.
  - unfold bind, emit at 1, modify. rewrite forEach_emit. simpl.
    rewrite <- app_assoc. reflexivity.
Qed.

(** C6 (amended): for a singular class or struct without constructor
    function and without static [create] function, whose super type (if any)
    has a default constructor, and whose members hit none of the
    unimplemented initializations, the Constructor pass adds exactly one
    constructor.  Its parameters come from the public instance variables that
    are not native arrays: those with a default value (an initializer, or
    else a constant null value of their type) as optional parameters, the
    others as required parameters, all required ones before all optional
    ones.  The pass reports a member named [construct] that is no function
    and a constructor type that is not singular, and nothing else. *)
Theorem default_constructor s :
  isClassOrStruct (typeClass (target env)) = true ->
  isSingular (target env) = true ->
  isFinished (passes s) ConstructorPass = false ->
  isRunning (passes s) ConstructorPass = false ->
  forallb (fun d => negb (isFunctionDefn d)) (lookupMember idConstruct (members s)) = true ->
  existsb isStaticFunction (lookupMember idCreate (members s)) = false ->
  superConstructible env (super s) = true ->
  forallb (fun d => negb (unimplementedInitializer (target env) d)) (members s) = true ->
  let required := requiredParameters (members s) in
  let optional := optionalParameters (members s) in
  let ctor := defaultConstructorDefn env (required ++ optional) (fieldAssignments (members s)) in
  exists s',
    analyzeConstructors env s = Done true s'
    /\ isFinished (passes s') ConstructorPass = true
    /\ members s' = members s ++ [DFunction ctor]
    /\ List.filter isFunctionDefn (lookupMember idConstruct (members s')) = [DFunction ctor]
    /\ fnParams ctor = required ++ optional
    /\ (forall p, In p required -> paramInitValue p = None)
    /\ (forall p, In p optional -> paramInitValue p <> None)
    /\ (forall v, In v (constructorFields (members s)) ->
          (hasDefault v = true -> In (parameterOf v) optional)
          /\ (hasDefault v = false -> In (parameterOf v) required))
    /\ diag s' = diag s ++ notMethodReport (lookupMember idConstruct (members s))
                        ++ constructorTypeReport env (required ++ optional).
Proof.
  intros Hkind Hsing Hfin Hrun Hctors Hcreate Hsuper Hinit required optional ctor.
  set (s1 := setPasses (mkPassMgr (PassSet.add ConstructorPass (running (passes s)))
                                  (finished (passes s))) s).
  assert (Hbegin : beginPass ConstructorPass false s = Done true s1).
  { unfold beginPass, bind, get, PassMgr_begin. rewrite Hfin, Hrun. reflexivity. }
  destruct (analyzeDeclaredConstructors_none (lookupMember idConstruct (members s1)) s1 Hctors)
    as (s2 & Hdecl & Hp2 & Hm2 & Hsup2 & Hd2).
  set (s3 := if negb (isSynthetic (target env))
             then setModuleSymbols (moduleSymbols s2 ++ [SymFunction (fnId ctor)]) s2
             else s2).
  set (s4 := setDiag (diag s3 ++ constructorTypeReport env (required ++ optional)) s3).
  exists (setPasses (PassMgr_finish ConstructorPass (passes s4))
            (setMembers (members s4 ++ [DFunction ctor]) s4)).
  assert (Hm3 : members s3 = members s)
    by (unfold s3; destruct (negb _); simpl; rewrite Hm2; reflexivity).
  assert (Hp3 : passes s3 = passes s1)
    by (unfold s3; destruct (negb _); simpl; rewrite Hp2; reflexivity).
  assert (Hd3 : diag s3 = diag s2) by (unfold s3; destruct (negb _); reflexivity).
  assert (Hcreate_run :
            createDefaultConstructor env s2
            = Done true (setMembers (members s4 ++ [DFunction ctor]) s4)).
  { unfold createDefaultConstructor. erewrite bind_run; [|reflexivity].
    rewrite Hsup2. change (super s1) with (super s).
    unfold superConstructible in Hsuper.
    assert (Hdef : match super s with
                   | Some sp => negb (isSome (tvDefaultConstructor (typeView env sp)))
                   | None => false
                   end = false).
    { destruct (super s); [|reflexivity].
      apply andb_true_iff in Hsuper as [_ ->]. reflexivity. }
    rewrite Hdef. erewrite bind_run; [|reflexivity].
    rewrite Hm2. change (members s1) with (members s).
    erewrite bind_run; [|apply collectInitializers_result; exact Hinit].
    cbn beta iota. fold required optional. cbn [app]. fold ctor.
    assert (Hsym : when (isSingular (target env) && negb (isSynthetic (target env)))
                     (addSymbol (SymFunction (fnId ctor))) s2 = Done tt s3).
    { unfold s3. rewrite Hsing. simpl. destruct (negb (isSynthetic (target env))); reflexivity. }
    erewrite bind_run; [|exact Hsym].
    assert (Hdecl_sing : fnDeclaredSingular ctor = true) by exact Hsing.
    rewrite Hdecl_sing. cbn [negb].
    erewrite bind_run; [|apply constructorTypeReport_run].
    fold s4. reflexivity. }
  split.
  - unfold analyzeConstructors. erewrite bind_run; [|exact Hbegin].
    cbn iota. rewrite Hkind. erewrite bind_run; [|reflexivity].
    change (super s1) with (super s).
    assert (Hchk : match super s with
                   | Some sp =>
                       negb (isFinished (tvPasses (typeView env sp)) ConstructorPass)
                       && negb (isRunning (tvPasses (typeView env sp)) ConstructorPass)
                       && negb (superConstruction env)
                   | None => false
                   end = false).
    { unfold superConstructible in Hsuper. destruct (super s); [|reflexivity].
      apply andb_true_iff in Hsuper as [Hs _].
      apply orb_true_iff in Hs as [Hs| ->];
        [apply orb_true_iff in Hs as [-> | ->]|];
        simpl; rewrite ?andb_false_r; reflexivity. }
    rewrite Hchk. erewrite bind_run; [|reflexivity].
    erewrite bind_run; [|exact Hdecl].
    erewrite bind_run; [|reflexivity].
    rewrite Hm2. change (members s1) with (members s). rewrite Hcreate. cbn [orb negb].
    erewrite bind_run; [|exact Hcreate_run].
    reflexivity.
  - split; [unfold isFinished; simpl; rewrite contains_add, Pass_eqb_refl; reflexivity|].
    split; [simpl; rewrite Hm3; reflexivity|].
    split.
    { simpl. rewrite Hm3, lookupMember_app, List.filter_app.
      rewrite (filter_none _ _ Hctors). reflexivity. }
    split; [reflexivity|].
    unfold required, optional, requiredParameters, optionalParameters.
    split; [|split; [|split]].
    + intros p Hp. apply in_map_iff in Hp as (v & <- & Hv).
      apply List.filter_In in Hv as [_ Hv]. unfold hasDefault in Hv. simpl.
      destruct (defaultValueOf v); [discriminate|reflexivity].
    + intros p Hp. apply in_map_iff in Hp as (v & <- & Hv).
      apply List.filter_In in Hv as [_ Hv]. unfold hasDefault in Hv. simpl.
      destruct (defaultValueOf v); [discriminate|discriminate].
    + intros v Hv. split; intros Hd; apply in_map; apply List.filter_In;
        (split; [exact Hv|rewrite Hd; reflexivity]).
    + simpl. rewrite Hd3, Hd2. change (diag s1) with (diag s).
      change (members s1) with (members s). rewrite <- app_assoc. reflexivity.
Qed.
End Constructors.

(** C6, as the specification states it, fails.  Under a super type without
    default constructor the pass finishes without synthesizing a constructor;
    a public field without initializer whose type has a constant null value
    becomes an optional parameter, not a required one; and on a type that is
    not singular the analyzer stops at an assertion before the constructor
    is added. *)
Lemma default_constructor_counterexample :
  (exists s,
     analyzeConstructors orphanEnv derivedState = Done true s
     /\ isFinished (passes s) ConstructorPass = true
     /\ members s = members derivedState
     /\ List.filter isFunctionDefn (lookupMember idConstruct (members s)) = []
     /\ diag s = [(SevFatal, MsgNoSuperDefaultConstructor)])
  /\ (exists s ctor,
        analyzeConstructors orphanEnv (newState classP) = Done true s
        /\ members s = classP ++ [DFunction ctor]
        /\ varInitValue (intField "x" Public None) = None
        /\ fnParams ctor = [mkParameterDefn "x" (Some (ConstantExpr 0));
                            mkParameterDefn "y" (Some (ConstantExpr 3))])
  /\ (exists why s,
        isSingular (target partialEnv) = false
        /\ analyzeConstructors partialEnv (newState classP) = Aborted why s
        /\ members s = classP).
Proof.
  split; [|split].
  - eexists. split; [vm_compute; reflexivity|]. repeat split; reflexivity.
  - eexists. eexists. split; [vm_compute; reflexivity|]. repeat split; reflexivity.
  - eexists. eexists. split; [reflexivity|]. split; [vm_compute; reflexivity|reflexivity].
Qed.

Lemma default_constructor_witness :
  exists s' ctor,
    analyzeConstructors orphanEnv (newState classR) = Done true s'
    /\ members s' = classR ++ [DFunction ctor]
    /\ fnParams ctor = [mkParameterDefn "x" None;
                        mkParameterDefn "y" (Some (ConstantExpr 3))]
    /\ diag s' = [].
Proof.
  destruct (default_constructor orphanEnv (newState classR)
              eq_refl eq_refl eq_refl eq_refl eq_refl eq_refl eq_refl eq_refl)
    as (s' & Hrun & _ & Hmembers & _ & Hparams & _ & _ & _ & Hdiag).
  exists s'. eexists. split; [exact Hrun|]. split; [exact Hmembers|].
  split; [exact Hparams|exact Hdiag].
Defined.

Lemma overriddenGrows_refl s : overriddenGrows s s.
Proof. intros g. set_solver. Qed.

Lemma overriddenGrows_trans s1 s2 s3 :
  overriddenGrows s1 s2 -> overriddenGrows s2 s3 -> overriddenGrows s1 s3.
Proof. intros H12 H23 g. specialize (H12 g). specialize (H23 g). set_solver. Qed.

Lemma overriddenGrows_functions s s' : functions s' = functions s -> overriddenGrows s s'.
Proof. intros E g. unfold overriddenBy, fnStateOf. rewrite E. set_solver. Qed.

Lemma overrides_grows s s' f m : overriddenGrows s s' -> overrides s f m -> overrides s' f m.
Proof.
  intros Hg H. induction H as [f m H|f g m H _ IH].
  - apply overrides_direct. apply (Hg f). exact H.
  - eapply overrides_chain; [apply (Hg f); exact H|exact IH].
Qed.

Lemma fnStateOf_updateFn s f u g :
  fnStateOf (setFunctions (<[fnId f := u (fnStateOf s f)]> (functions s)) s) g
  = if decide (fnId g = fnId f) then u (fnStateOf s g) else fnStateOf s g.
Proof.
  unfold fnStateOf. simpl. destruct (decide (fnId g = fnId f)) as [E|E].
  - rewrite E, lookup_insert_eq. reflexivity.
  - rewrite lookup_insert_ne by congruence. reflexivity.
Qed.

Lemma updateFn_grows f u s x s' :
  (forall st, overriddenMethods st ⊆ overriddenMethods (u st)) ->
  updateFn f u s = Done x s' ->
  overriddenGrows s s' /\ fnStateOf s' f = u (fnStateOf s f).
Proof.
  intros Hu H. unfold updateFn, modify in H. injection H as _ <-. split.
  - intros g. unfold overriddenBy. rewrite fnStateOf_updateFn.
    destruct (decide _); [apply Hu|reflexivity].
  - rewrite fnStateOf_updateFn. destruct (decide _); [reflexivity|congruence].
Qed.

Lemma setDispatchIndex_grows f i s u s' :
  setDispatchIndex f i s = Done u s' -> overriddenGrows s s'.
Proof.
  intros H. apply updateFn_grows in H as [H _]; [exact H|]. intros st. reflexivity.
Qed.

Lemma insertOverridden_grows f m s u s' :
  insertOverridden f m s = Done u s' ->
  overriddenGrows s s' /\ fnId m ∈ overriddenBy s' f.
Proof.
  intros H. apply updateFn_grows in H as [H E]; [|intros st; simpl; set_solver].
  split; [exact H|]. unfold overriddenBy. rewrite E. simpl. set_solver.
Qed.

Lemma when_grows b k s u s' :
  (forall s u s', k s = Done u s' -> overriddenGrows s s') ->
  when b k s = Done u s' -> overriddenGrows s s'.
Proof.
  intros Hk H. destruct b; [eapply Hk; exact H|].
  apply ret_Done in H as [_ <-]. apply overriddenGrows_refl.
Qed.

Lemma preserves_grows {A} (c : M A) s a s' :
  preserves functions c -> c s = Done a s' -> overriddenGrows s s'.
Proof. intros Hc H. apply overriddenGrows_functions. exact (Hc _ _ _ H). Qed.

(** ** Names, the symbol table and filters *)

Lemma Name_eqb_eq a b : Name_eqb a b = true <-> a = b.
Proof. apply String.eqb_eq. Qed.

Lemma DefnType_eqb_eq a b : DefnType_eqb a b = true <-> a = b.
Proof. destruct a, b; simpl; split; intros H; try reflexivity; discriminate H. Qed.

Lemma addToTable_names d t :
  map fst (addToTable d t)
  = if existsb (fun e => Name_eqb (fst e) (defnName d)) t then map fst t
    else map fst t ++ [defnName d].
Proof.
  induction t as [|[n ds] t IH]; simpl; [reflexivity|].
  destruct (Name_eqb n (defnName d)); simpl; [reflexivity|].
  rewrite IH. destruct (existsb _ t); reflexivity.
Qed.

Lemma addToTable_entries d t n ds :
  In (n, ds) (addToTable d t) ->
  In (n, ds) t
  \/ (n = defnName d /\ (ds = [d] \/ exists ds0, In (n, ds0) t /\ ds = ds0 ++ [d])).
Proof.
  induction t as [|[m ms] t IH]; simpl.
  - intros [E|[]]. injection E as <- <-. right. auto.
  - destruct (Name_eqb m (defnName d)) eqn:E.
    + intros [H|H].
      * injection H as <- <-. apply Name_eqb_eq in E. right. split; [exact E|].
        right. exists ms. auto.
      * left. right. exact H.
    + intros [H|H]; [left; left; exact H|].
      destruct (IH H) as [Hin|(-> & [->|(ds0 & Hin & ->)])].
      * left. right. exact Hin.
      * right. auto.
      * right. split; [reflexivity|]. right. exists ds0. auto.
Qed.

Lemma addToTable_wellFormed d t : wellFormedTable t -> wellFormedTable (addToTable d t).
Proof.
  intros [He Hn]. split.
  - intros n ds Hin.
    destruct (addToTable_entries _ _ _ _ Hin) as [H|(-> & [->|(ds0 & H & ->)])].
    + apply He. exact H.
    + split; [discriminate|]. intros d' [<-|[]]. reflexivity.
    + destruct (He _ _ H) as [Hne Hall]. split.
      * destruct ds0; discriminate.
      * intros d' Hd'. apply in_app_or in Hd' as [Hd'|[<-|[]]]; auto.
  - rewrite addToTable_names.
    destruct (existsb _ t) eqn:E; [exact Hn|].
    apply NoDup_app. split; [apply Hn|]. split; [|apply NoDup_singleton].
    intros x Hx Hx'. apply list_elem_of_singleton in Hx'. subst x.
    apply list_elem_of_In, in_map_iff in Hx as ([m ms] & Hm & Hin). simpl in Hm. subst m.
    assert (Hex : existsb (fun e => Name_eqb (fst e) (defnName d)) t = true).
    { apply existsb_exists. exists (defnName d, ms). split; [exact Hin|].
      apply Name_eqb_eq. reflexivity. }
    congruence.
Qed.

Lemma addToTable_keeps d t n ds x :
  In (n, ds) t -> In x ds -> exists ds', In (n, ds') (addToTable d t) /\ In x ds'.
Proof.
  induction t as [|[m ms] t IH]; simpl; [intros []|].
  intros [E|Hin] Hx.
  - injection E as -> ->. destruct (Name_eqb n (defnName d)).
    + exists (ds ++ [d]). split; [left; reflexivity|]. apply in_or_app. auto.
    + exists ds. split; [left; reflexivity|exact Hx].
  - destruct (Name_eqb m (defnName d)).
    + exists ds. split; [right; exact Hin|exact Hx].
    + destruct (IH Hin Hx) as (ds' & Hin' & Hx'). exists ds'. split; [right; exact Hin'|exact Hx'].
Qed.

Lemma addToTable_adds d t : exists ds, In (defnName d, ds) (addToTable d t) /\ In d ds.
Proof.
  induction t as [|[m ms] t IH]; simpl.
  - exists [d]. split; left; reflexivity.
  - destruct (Name_eqb m (defnName d)) eqn:E.
    + apply Name_eqb_eq in E. subst m. exists (ms ++ [d]). split; [left; reflexivity|].
      apply in_or_app. right. left. reflexivity.
    + destruct IH as (ds & Hin & Hd). exists ds. split; [right; exact Hin|exact Hd].
Qed.

Lemma symbolTable_wellFormed ms : wellFormedTable (symbolTable ms).
Proof.
  unfold symbolTable.
  assert (Hgen : forall t, wellFormedTable t ->
                           wellFormedTable (fold_left (fun t d => addToTable d t) ms t)).
  { induction ms as [|d ms IH]; intros t Ht; simpl; [exact Ht|].
    apply IH, addToTable_wellFormed, Ht. }
  apply Hgen. split; [intros n ds []|constructor].
Qed.

Lemma removeType_filter (P : TypeId -> bool) t acc :
  List.filter P (removeType t acc) = List.filter (fun x => negb (Nat.eqb t x) && P x) acc.
Proof.
  unfold removeType. induction acc as [|x acc IH]; simpl; [reflexivity|].
  rewrite (Nat.eqb_sym x t). destruct (Nat.eqb t x); simpl; rewrite IH; reflexivity.
Qed.

Lemma filter_same {A} (P Q : A -> bool) l :
  (forall x, P x = Q x) -> List.filter P l = List.filter Q l.
Proof.
  intros H. induction l as [|x l IH]; simpl; [reflexivity|]. rewrite H, IH. reflexivity.
Qed.

Lemma filter_all {A} (l : list A) : List.filter (fun _ => true) l = l.
Proof. induction l as [|x l IH]; simpl; [|rewrite IH]; reflexivity. Qed.

(** Removing the first base of every type of a list, one type after the
    other, leaves the types that are the first base of none of them. *)
Lemma remove_first_parents env own parents : forall acc,
  fold_left (fun acc base =>
               match basesAsSeen env own base with
               | baseBase :: _ => removeType baseBase acc
               | [] => acc
               end) parents acc
  = List.filter (fun t => negb (existsb (fun a => firstBaseOf env own a t) parents)) acc.
Proof.
  induction parents as [|a parents IH]; intros acc; simpl.
  - symmetry. apply filter_all.
  - rewrite IH. unfold firstBaseOf at 2.
    destruct (basesAsSeen env own a) as [|baseBase rest].
    + reflexivity.
    + rewrite removeType_filter. apply filter_same. intros x.
      rewrite negb_orb. reflexivity.
Qed.

Section Tables.
Variable env : Env.

Lemma find_override_In m candidates n :
  findOverride env m candidates = Some n -> In n candidates /\ canOverride env n m = true.
Proof. unfold findOverride. intros H. apply find_some in H. exact H. Qed.

Lemma tableStep_weaken (meets meets' : FunctionDefn -> FunctionDefn -> Prop)
    table s table' s' :
  (forall n o, meets n o -> meets' n o) ->
  tableStep env meets table s table' s' -> tableStep env meets' table s table' s'.
Proof.
  intros Himp (Hlen & Hg & Hslots). split; [exact Hlen|]. split; [exact Hg|].
  intros k o Hk. destruct (Hslots k o Hk) as (n & Hn & [Heq|(Hin & Hcan & Hm)]);
    exists n; (split; [exact Hn|]); [left; exact Heq|right].
  repeat split; auto.
Qed.

(** One slot of [overrideMethods]. *)
Lemma override_slot_step name candidates canHide i m s slot s1 :
  (if Name_eqb (fnName m) name
   then match findOverride env m candidates with
        | Some newMethod =>
            st <- get (fun s => fnStateOf s newMethod) ;;
            when (canHide && (dispatchIndex st <? 0)) (setDispatchIndex newMethod i) ;;
            when (hasBody m && negb (fnIsOverride newMethod))
              (emit SevError (MsgShouldDeclareOverride (fnId newMethod))) ;;
            insertOverridden newMethod m ;;
            ret newMethod
        | None =>
            when canHide
              (emit SevWarn (MsgHidden (fnId m)) ;;
               forEach candidates (fun o => emit SevInfo (MsgHiddenBy (fnId o)))) ;;
            ret m
        end
   else ret m) s = Done slot s1 ->
  overriddenGrows s s1
  /\ (slot = m \/ ((In slot candidates /\ fnName m = name)
                   /\ canOverride env slot m = true
                   /\ fnId m ∈ overriddenBy s1 slot)).
Proof.
  intros H. destruct (Name_eqb (fnName m) name) eqn:Hname.
  2:{ apply ret_Done in H as [<- <-]. split; [apply overriddenGrows_refl|auto]. }
  apply Name_eqb_eq in Hname.
  destruct (findOverride env m candidates) as [n|] eqn:Hfind.
  - apply find_override_In in Hfind as [Hin Hcan].
    mstep H as st s2 Hst. apply get_Done in Hst as [-> ->].
    mstep H as u1 s3 H1. mstep H as u2 s4 H2. mstep H as u3 s5 H3.
    apply ret_Done in H as [<- <-].
    apply (when_grows _ _ _ _ _ (setDispatchIndex_grows n i)) in H1.
    assert (H2' : overriddenGrows s3 s4).
    { revert H2. apply preserves_grows. frame. }
    apply insertOverridden_grows in H3 as [H3 Hm].
    split; [eauto using overriddenGrows_trans|]. right. auto.
  - mstep H as u s2 Hu. apply ret_Done in H as [<- <-].
    split; [|auto]. revert Hu. apply preserves_grows. frame.
Qed.

Lemma overrideSlots_step name candidates canHide table : forall i s table' s',
  overrideSlots env name candidates canHide i table s = Done table' s' ->
  tableStep env (fun n o => In n candidates /\ fnName o = name) table s table' s'.
Proof.
  induction table as [|m rest IH]; intros i s table' s' H; simpl in H.
  - apply ret_Done in H as [<- <-]. split; [reflexivity|].
    split; [apply overriddenGrows_refl|]. intros k o Hk. destruct k; discriminate Hk.
  - mstep H as slot s1 Hslot. mstep H as rest' s2 Hrest.
    apply ret_Done in H as [<- <-].
    apply override_slot_step in Hslot as [Hg1 Hslot].
    apply IH in Hrest as (Hlen & Hg2 & Hslots).
    split; [simpl; congruence|]. split; [eauto using overriddenGrows_trans|].
    intros [|k] o Hk; simpl in Hk.
    + injection Hk as <-. exists slot. split; [reflexivity|].
      destruct Hslot as [->|(Hin & Hcan & Hm)]; [auto|].
      right. split; [exact Hin|]. split; [exact Hcan|]. apply (Hg2 slot). exact Hm.
    + apply Hslots. exact Hk.
Qed.

Lemma overrideMethods_step table candidates canHide s table' s' :
  overrideMethods env table candidates canHide s = Done table' s' ->
  tableStep env (fun n o => In n candidates
                            /\ exists front, head candidates = Some front
                                             /\ fnName o = fnName front)
    table s table' s'.
Proof.
  unfold overrideMethods. destruct candidates as [|front rest].
  - intros H. apply ret_Done in H as [<- <-]. split; [reflexivity|].
    split; [apply overriddenGrows_refl|]. intros k o Hk. eauto.
  - intros H. apply overrideSlots_step in H. revert H. apply tableStep_weaken.
    intros n o [Hin Hname]. split; [exact Hin|]. exists front. auto.
Qed.

(** One slot of [overridePropertyAccessors]. *)
Lemma overrideAccessorSlots_step name prop candidates canHide table : forall i s table' s',
  overrideAccessorSlots env name prop candidates canHide i table s = Done table' s' ->
  tableStep env (fun n o => In n candidates /\ fnParentProperty o = Some (propName prop))
    table s table' s'.
Proof.
  induction table as [|m rest IH]; intros i s table' s' H; simpl in H.
  - apply ret_Done in H as [<- <-]. split; [reflexivity|].
    split; [apply overriddenGrows_refl|]. intros k o Hk. destruct k; discriminate Hk.
  - mstep H as slot s1 Hslot. mstep H as rest' s2 Hrest.
    apply ret_Done in H as [<- <-].
    assert (Hs : overriddenGrows s s1
                 /\ (slot = m \/ ((In slot candidates
                                   /\ fnParentProperty m = Some (propName prop))
                                  /\ canOverride env slot m = true
                                  /\ fnId m ∈ overriddenBy s1 slot))).
    { destruct (fnParentProperty m) as [p|];
        [|apply ret_Done in Hslot as [<- <-]; split; [apply overriddenGrows_refl|auto]].
      destruct (Name_eqb (fnName m) name && Name_eqb p (propName prop)) eqn:Hname;
        [|apply ret_Done in Hslot as [<- <-]; split; [apply overriddenGrows_refl|auto]].
      apply andb_true_iff in Hname as [_ Hname]. apply Name_eqb_eq in Hname. subst p.
      destruct (findOverride env m candidates) as [n|] eqn:Hfind.
      - apply find_override_In in Hfind as [Hin Hcan].
        mstep Hslot as st s2' Hst. apply get_Done in Hst as [-> ->].
        mstep Hslot as u1 s3 H1. mstep Hslot as u3 s5 H3.
        apply ret_Done in Hslot as [<- <-].
        apply (when_grows _ _ _ _ _ (setDispatchIndex_grows n i)) in H1.
        apply insertOverridden_grows in H3 as [H3 Hm].
        split; [eauto using overriddenGrows_trans|]. right. auto.
      - mstep Hslot as u s2' Hu. mstep Hslot as u' s3 Hu'.
        apply ret_Done in Hslot as [<- <-]. split; [|auto].
        apply overriddenGrows_trans with s2'; [revert Hu|revert Hu'];
          apply preserves_grows; frame. }
    destruct Hs as [Hg1 Hs].
    apply IH in Hrest as (Hlen & Hg2 & Hslots).
    split; [simpl; congruence|]. split; [eauto using overriddenGrows_trans|].
    intros [|k] o Hk; simpl in Hk.
    + injection Hk as <-. exists slot. split; [reflexivity|].
      destruct Hs as [->|(Hin & Hcan & Hm)]; [auto|].
      right. split; [exact Hin|]. split; [exact Hcan|]. apply (Hg2 slot). exact Hm.
    + apply Hslots. exact Hk.
Qed.

Lemma overridePropertyAccessors_step table prop candidates canHide s table' s' :
  overridePropertyAccessors env table prop candidates canHide s = Done table' s' ->
  tableStep env (fun n o => In n candidates /\ fnParentProperty o = Some (propName prop))
    table s table' s'.
Proof.
  unfold overridePropertyAccessors. destruct candidates as [|front rest].
  - intros H. apply ret_Done in H as [<- <-]. split; [reflexivity|].
    split; [apply overriddenGrows_refl|]. intros k o Hk. eauto.
  - apply overrideAccessorSlots_step.
Qed.

Lemma overrideSlots_tables name candidates canHide i table :
  preserves tablesOf (overrideSlots env name candidates canHide i table).
Proof.
  revert i. induction table as [|m table IH]; intros i; simpl.
  - frame.
  - unfold setDispatchIndex, insertOverridden. frame; try apply IH.
Qed.

Lemma overrideAccessorSlots_tables name prop candidates canHide i table :
  preserves tablesOf (overrideAccessorSlots env name prop candidates canHide i table).
Proof.
  revert i. induction table as [|m table IH]; intros i; simpl.
  - frame.
  - unfold setDispatchIndex, insertOverridden. frame; try apply IH.
Qed.

Section Invariant.
Variable meets : FunctionDefn -> FunctionDefn -> Prop.
Variable I : list FunctionDefn -> list InterfaceTable -> State -> Prop.
Hypothesis HI : TableInvariant env meets I.

Lemma overrideInterfaces_inv stp vt post : forall pre s post' s',
  overrideStep env meets stp ->
  mapM (fun it => ms <- stp (methods it) false ;;
                  ret (mkInterfaceTable (interfaceType it) ms)) post s
  = Done post' s' ->
  I vt (pre ++ post) s ->
  I vt (pre ++ post') s' /\ tablesOf s' = tablesOf s.
Proof.
  induction post as [|it post IH]; intros pre s post' s' Hstp H Hinv; simpl in H.
  - apply ret_Done in H as [<- <-]. auto.
  - mstep H as it' s1 Hit. mstep H as rest' s2 Hrest. apply ret_Done in H as [<- <-].
    mstep Hit as t' s1' Ht. apply ret_Done in Hit as [<- <-].
    destruct (Hstp (methods it) false) as [Hframe Hstep].
    pose proof (Hframe _ _ _ Ht) as Hf1. apply Hstep in Ht.
    apply (inv_itable _ _ _ HI _ _ _ _ _ _ _ Ht) in Hinv.
    replace (pre ++ mkInterfaceTable (interfaceType it) t' :: post)
      with ((pre ++ [mkInterfaceTable (interfaceType it) t']) ++ post) in Hinv
      by (rewrite <- app_assoc; reflexivity).
    destruct (IH _ _ _ _ Hstp Hrest Hinv) as [Hinv' Hf2].
    rewrite <- app_assoc in Hinv'. split; [exact Hinv'|congruence].
Qed.

Lemma overrideInTables_inv stp s u s' :
  overrideStep env meets stp ->
  overrideInTables stp s = Done u s' ->
  I (instanceMethods s) (interfaces s) s ->
  I (instanceMethods s') (interfaces s') s'.
Proof.
  intros Hstp H Hinv. unfold overrideInTables in H.
  mstep H as table s1 Hget. apply get_Done in Hget as [-> ->].
  mstep H as table' s2 Ht. mstep H as u1 s3 Hset. apply modify_Done in Hset.
  mstep H as ifaceList s4 Hget. apply get_Done in Hget as [-> ->].
  mstep H as ifaceList' s5 Hmap. apply modify_Done in H. subst s' s3.
  destruct (Hstp (instanceMethods s) true) as [Hframe Hstep].
  pose proof (Hframe _ _ _ Ht) as Hf1. apply Hstep in Ht.
  apply (inv_vtable _ _ _ HI _ (interfaces s) _ _ _ Ht) in Hinv.
  assert (Hi2 : interfaces s2 = interfaces s) by (injection Hf1; auto).
  assert (Hinv2 : I table' ([] ++ interfaces (setInstanceMethods table' s2))
                    (setInstanceMethods table' s2)).
  { simpl. rewrite Hi2.
    eapply (inv_grows _ _ _ HI); [|exact Hinv].
    apply overriddenGrows_functions. reflexivity. }
  destruct (overrideInterfaces_inv _ _ _ _ _ _ _ Hstp Hmap Hinv2) as [Hinv5 Hf5].
  simpl in Hinv5 |- *.
  assert (Hm5 : instanceMethods s5 = table') by (injection Hf5; auto).
  rewrite Hm5. eapply (inv_grows _ _ _ HI); [|exact Hinv5].
  apply overriddenGrows_functions. reflexivity.
Qed.

Lemma inv_frame {A} (c : M A) s a s' :
  preserves tablesAndFunctions c ->
  c s = Done a s' ->
  I (instanceMethods s) (interfaces s) s ->
  I (instanceMethods s') (interfaces s') s'.
Proof.
  intros Hc H Hinv. apply Hc in H. injection H as Hm Hi Hf. rewrite Hm, Hi.
  eapply (inv_grows _ _ _ HI); [|exact Hinv]. apply overriddenGrows_functions. exact Hf.
Qed.

Lemma overrideMethods_overrideStep candidates :
  (forall front n o, head candidates = Some front -> In n candidates ->
                     fnName o = fnName front -> meets n o) ->
  overrideStep env meets (fun table canHide => overrideMethods env table candidates canHide).
Proof.
  intros Hmeets t b. split.
  - unfold overrideMethods. destruct candidates; [frame|apply overrideSlots_tables].
  - intros s t' s' H. apply overrideMethods_step in H. revert H. apply tableStep_weaken.
    intros n o (Hin & front & Hfront & Hname). eapply Hmeets; eassumption.
Qed.

Lemma overridePropertyAccessors_overrideStep prop candidates :
  (forall n o, In n candidates -> fnParentProperty o = Some (propName prop) -> meets n o) ->
  overrideStep env meets (fun table canHide =>
                  overridePropertyAccessors env table prop candidates canHide).
Proof.
  intros Hmeets t b. split.
  - unfold overridePropertyAccessors.
    destruct candidates; [frame|apply overrideAccessorSlots_tables].
  - intros s t' s' H. apply overridePropertyAccessors_step in H. revert H.
    apply tableStep_weaken. intros n o [Hin Hparent]. apply Hmeets; assumption.
Qed.

Lemma ensureUniqueSignatures_frame l :
  preserves tablesAndFunctions (ensureUniqueSignatures env l).
Proof. induction l as [|m l IH]; simpl; frame. exact IH. Qed.

(** Where the methods, getters and setters of an entry and its property come
    from. *)
Lemma collectOverrides_from entry : forall ms gs ss prop s r s',
  collectOverrides entry ms gs ss prop s = Done r s' ->
  tablesAndFunctions s' = tablesAndFunctions s
  /\ (forall f, In f (fst (fst (fst r))) -> In f ms \/ In (DFunction f) entry)
  /\ (forall g, In g (snd (fst (fst r))) ->
        In g gs \/ exists p, In (DProperty p) entry /\ getter p = Some g)
  /\ (forall g, In g (snd (fst r)) ->
        In g ss \/ exists p, In (DProperty p) entry /\ setter p = Some g)
  /\ (forall p, snd r = Some p -> prop = Some p \/ In (DProperty p) entry).
Proof.
  induction entry as [|d entry IH]; intros ms gs ss prop s r s' H; simpl in H.
  - apply ret_Done in H as [<- <-]. simpl. repeat split; auto.
  - assert (Hlater : forall ms1 gs1 ss1 prop1 s1,
               collectOverrides entry ms1 gs1 ss1 prop1 s1 = Done r s' ->
               tablesAndFunctions s1 = tablesAndFunctions s ->
               (forall f, In f ms1 -> In f ms \/ In (DFunction f) (d :: entry)) ->
               (forall g, In g gs1 ->
                  In g gs \/ exists p, In (DProperty p) (d :: entry) /\ getter p = Some g) ->
               (forall g, In g ss1 ->
                  In g ss \/ exists p, In (DProperty p) (d :: entry) /\ setter p = Some g) ->
               (forall p, prop1 = Some p -> prop = Some p \/ In (DProperty p) (d :: entry)) ->
               tablesAndFunctions s' = tablesAndFunctions s
               /\ (forall f, In f (fst (fst (fst r))) ->
                     In f ms \/ In (DFunction f) (d :: entry))
               /\ (forall g, In g (snd (fst (fst r))) ->
                     In g gs \/ exists p, In (DProperty p) (d :: entry) /\ getter p = Some g)
               /\ (forall g, In g (snd (fst r)) ->
                     In g ss \/ exists p, In (DProperty p) (d :: entry) /\ setter p = Some g)
               /\ (forall p, snd r = Some p ->
                     prop = Some p \/ In (DProperty p) (d :: entry))).
    { intros ms1 gs1 ss1 prop1 s1 H1 Hf1 Hm1 Hg1 Hs1 Hp1.
      apply IH in H1 as (Hf & Hm & Hg & Hs & Hp).
      split; [congruence|]. split; [|split; [|split]].
      - intros f Hin. destruct (Hm f Hin) as [H0|H0]; [apply Hm1; exact H0|].
        right. right. exact H0.
      - intros g Hin. destruct (Hg g Hin) as [H0|(p & Hp0 & Hg0)]; [apply Hg1; exact H0|].
        right. exists p. split; [right; exact Hp0|exact Hg0].
      - intros g Hin. destruct (Hs g Hin) as [H0|(p & Hp0 & Hg0)]; [apply Hs1; exact H0|].
        right. exists p. split; [right; exact Hp0|exact Hg0].
      - intros p Hin. destruct (Hp p Hin) as [H0|H0]; [apply Hp1; exact H0|].
        right. right. exact H0. }
    destruct d as [v|f|p|nm sc sg|nm];
      try (apply (Hlater _ _ _ _ _ H); auto; fail).
    + mstep H as st s1 Hst. apply get_Done in Hst as [-> ->].
      assert (Hcases : exists ms1 s1,
                 collectOverrides entry ms1 gs ss prop s1 = Done r s'
                 /\ tablesAndFunctions s1 = tablesAndFunctions s
                 /\ incl ms1 (ms ++ [f])).
      { destruct (isSingularIn s f).
        - mstep H as u s1 Hu. apply modify_Done in Hu. subst s1.
          destruct (_ && _); eexists _, _; (split; [exact H|]); split;
            try reflexivity; [apply incl_refl|apply incl_appl, incl_refl].
        - eexists _, _. split; [exact H|]. split; [reflexivity|].
          apply incl_appl, incl_refl. }
      destruct Hcases as (ms1 & s1 & H1 & Hf1 & Hincl1).
      apply (Hlater _ _ _ _ _ H1); auto.
      intros x Hx. apply Hincl1 in Hx. apply in_app_or in Hx as [Hx|[<-|[]]]; [auto|].
      right. left. reflexivity.
    + assert (Hcases : exists gs1 ss1,
                 collectOverrides entry ms gs1 ss1 (Some p) s = Done r s'
                 /\ incl gs1 (gs ++ match getter p with Some g => [g] | None => [] end)
                 /\ incl ss1 (ss ++ match setter p with Some g => [g] | None => [] end)).
      { destruct (_ && _).
        - destruct (negb (propTypePassFinished p)); [discriminate H|].
          eexists _, _. split; [exact H|]. split; apply incl_refl.
        - eexists _, _. split; [exact H|]. split; apply incl_appl, incl_refl. }
      destruct Hcases as (gs1 & ss1 & H1 & Hg1 & Hs1).
      apply (Hlater _ _ _ _ _ H1); auto.
      * intros g Hg. apply Hg1 in Hg. apply in_app_or in Hg as [Hg|Hg]; [auto|].
        right. exists p. split; [left; reflexivity|].
        destruct (getter p) as [g0|]; [destruct Hg as [<-|[]]; reflexivity|destruct Hg].
      * intros g Hg. apply Hs1 in Hg. apply in_app_or in Hg as [Hg|Hg]; [auto|].
        right. exists p. split; [left; reflexivity|].
        destruct (setter p) as [g0|]; [destruct Hg as [<-|[]]; reflexivity|destruct Hg].
      * intros p0 E. injection E as <-. right. left. reflexivity.
Qed.

Lemma overrideEntry_inv entry s u s' :
  (forall d, In d (snd entry) -> defnName d = fst entry) ->
  (forall f o, In (DFunction f) (snd entry) -> fnName o = fnName f -> meets f o) ->
  (forall p g o, In (DProperty p) (snd entry) -> getter p = Some g \/ setter p = Some g ->
                 fnParentProperty o = Some (propName p) -> meets g o) ->
  overrideEntry env entry s = Done u s' ->
  I (instanceMethods s) (interfaces s) s ->
  I (instanceMethods s') (interfaces s') s'.
Proof.
  intros Hname Hfun Hacc H Hinv. unfold overrideEntry in H.
  mstep H as r s1 Hr. destruct r as [[[ms getters] setters] prop].
  apply collectOverrides_from in Hr as (Hf1 & Hms & Hgs & Hss & Hprop).
  simpl in Hms, Hgs, Hss, Hprop.
  assert (Hinv1 : I (instanceMethods s1) (interfaces s1) s1).
  { injection Hf1 as Hm Hi Hf. rewrite Hm, Hi.
    eapply (inv_grows _ _ _ HI); [|exact Hinv]. apply overriddenGrows_functions. exact Hf. }
  assert (Hpass : forall stp cands c st u st',
             overrideStep env meets stp ->
             when c (ensureUniqueSignatures env cands ;; overrideInTables stp) st
             = Done u st' ->
             I (instanceMethods st) (interfaces st) st ->
             I (instanceMethods st') (interfaces st') st').
  { intros stp cands c st u0 st' Hstp Hrun Hi. destruct c; simpl in Hrun.
    - mstep Hrun as u1 st1 Hu1.
      apply (inv_frame _ _ _ _ (ensureUniqueSignatures_frame cands) Hu1) in Hi.
      eapply overrideInTables_inv; eassumption.
    - apply ret_Done in Hrun as [_ <-]. exact Hi. }
  assert (Hmethod : forall f, In f ms -> In (DFunction f) (snd entry) /\ fnName f = fst entry).
  { intros f Hin. destruct (Hms f Hin) as [[]|Hd]. split; [exact Hd|].
    apply (Hname (DFunction f) Hd). }
  mstep H as u1 s2 Hmethods.
  apply (Hpass _ ms) in Hmethods; [| |exact Hinv1].
  2:{ apply overrideMethods_overrideStep. intros front n o Hfront Hn Ho.
      assert (Hfr : In front ms) by (destruct ms; [discriminate|injection Hfront as <-; left; reflexivity]).
      destruct (Hmethod front Hfr) as [_ Hfn]. destruct (Hmethod n Hn) as [Hdn Hnn].
      apply Hfun; [exact Hdn|congruence]. }
  destruct prop as [prop|]; [|apply ret_Done in H as [_ <-]; exact Hmethods].
  assert (Hpn : propName prop = fst entry).
  { destruct (Hprop prop eq_refl) as [E|Hd]; [discriminate E|].
    apply (Hname (DProperty prop) Hd). }
  mstep H as u2 s3 Hgetters.
  apply (Hpass _ getters) in Hgetters; [| |exact Hmethods].
  2:{ apply overridePropertyAccessors_overrideStep. intros n o Hn Ho.
      destruct (Hgs n Hn) as [[]|(p & Hp & Hg)].
      apply (Hacc p n o Hp); [left; exact Hg|].
      rewrite Ho. f_equal. rewrite Hpn. symmetry. apply (Hname (DProperty p) Hp). }
  apply (Hpass _ setters) in H; [exact H| |exact Hgetters].
  apply overridePropertyAccessors_overrideStep. intros n o Hn Ho.
  destruct (Hss n Hn) as [[]|(p & Hp & Hg)].
  apply (Hacc p n o Hp); [right; exact Hg|].
  rewrite Ho. f_equal. rewrite Hpn. symmetry. apply (Hname (DProperty p) Hp).
Qed.

Lemma forEach_entries_inv entries : forall s u s',
  (forall entry d, In entry entries -> In d (snd entry) -> defnName d = fst entry) ->
  (forall entry f o, In entry entries -> In (DFunction f) (snd entry) ->
                     fnName o = fnName f -> meets f o) ->
  (forall entry p g o, In entry entries -> In (DProperty p) (snd entry) ->
                       getter p = Some g \/ setter p = Some g ->
                       fnParentProperty o = Some (propName p) -> meets g o) ->
  forEach entries (overrideEntry env) s = Done u s' ->
  I (instanceMethods s) (interfaces s) s ->
  I (instanceMethods s') (interfaces s') s'.
Proof.
  induction entries as [|entry rest IH]; intros s u s' Hname Hfun Hacc H Hinv; simpl in H.
  - apply ret_Done in H as [_ <-]. exact Hinv.
  - mstep H as u1 s1 H1.
    apply overrideEntry_inv in H1;
      [|intros d; apply Hname; left; reflexivity
       |intros f o; apply Hfun; left; reflexivity
       |intros p g o; apply Hacc; left; reflexivity
       |exact Hinv].
    eapply IH; [| | |exact H|exact H1].
    + intros e d He. apply Hname. right. exact He.
    + intros e f o He. apply Hfun. right. exact He.
    + intros e p g o He. apply Hacc. right. exact He.
Qed.
End Invariant.
End Tables.

(** ** The symbol table holds the members *)

Lemma addToTable_In d t entry x :
  In entry (addToTable d t) -> In x (snd entry) ->
  x = d \/ exists entry0, In entry0 t /\ In x (snd entry0).
Proof.
  induction t as [|[n ds] t IH]; simpl; intros He Hx.
  - destruct He as [<-|[]]. simpl in Hx. destruct Hx as [<-|[]]. auto.
  - destruct (Name_eqb n (defnName d)).
    + destruct He as [<-|He].
      * simpl in Hx. apply in_app_or in Hx as [Hx|[<-|[]]]; [|auto].
        right. exists (n, ds). auto.
      * right. exists entry. auto.
    + destruct He as [<-|He].
      * right. exists (n, ds). auto.
      * destruct (IH He Hx) as [->|(e0 & He0 & Hx0)]; [auto|]. right. exists e0. auto.
Qed.

Lemma symbolTable_In ms entry x :
  In entry (symbolTable ms) -> In x (snd entry) -> In x ms.
Proof.
  unfold symbolTable.
  assert (Hgen : forall t,
             In entry (fold_left (fun t d => addToTable d t) ms t) -> In x (snd entry) ->
             In x ms \/ exists entry0, In entry0 t /\ In x (snd entry0)).
  { induction ms as [|d ms IH]; intros t He Hx; simpl in He.
    - right. exists entry. auto.
    - destruct (IH _ He Hx) as [Hin|(e0 & He0 & Hx0)]; [left; right; exact Hin|].
      destruct (addToTable_In _ _ _ _ He0 Hx0) as [->|Hold]; [left; left; reflexivity|].
      right. exact Hold. }
  intros He Hx. destruct (Hgen [] He Hx) as [Hin|(e0 & [] & _)]. exact Hin.
Qed.

Lemma mayReplace_own ms n o : mayReplace ms n o -> In n (ownFunctions ms).
Proof.
  intros [[Hin _]|(p & Hin & Hacc & _)]; apply in_flat_map.
  - exists (DFunction n). split; [exact Hin|left; reflexivity].
  - exists (DProperty p). split; [exact Hin|]. simpl.
    destruct Hacc as [->| ->]; [left; reflexivity|].
    apply in_or_app. right. left. reflexivity.
Qed.

Section OverrideMembers.
Variable env : Env.
Variable I : list FunctionDefn -> list InterfaceTable -> State -> Prop.

Lemma overrideMembers_inv s u s' :
  TableInvariant env (mayReplace (members s)) I ->
  overrideMembers env s = Done u s' ->
  I (instanceMethods s) (interfaces s) s ->
  I (instanceMethods s') (interfaces s') s'.
Proof.
  intros HI H Hinv. unfold overrideMembers in H.
  mstep H as clMembers s1 Hget. apply get_Done in Hget as [-> ->].
  eapply forEach_entries_inv; [exact HI| | | |exact H|exact Hinv].
  - intros [n ds] d He Hd. destruct (symbolTable_wellFormed (members s)) as [Hwf _].
    apply (Hwf n ds He). exact Hd.
  - intros entry f o He Hf Hname. left. split; [|congruence].
    eapply symbolTable_In; eassumption.
  - intros entry p g o He Hp Hacc Hparent. right. exists p.
    split; [eapply symbolTable_In; eassumption|]. auto.
Qed.
End OverrideMembers.

(** ** New methods go to the end of the table *)

Lemma extendsTables_refl s : extendsTables s s.
Proof.
  split; [exists []; rewrite app_nil_r; reflexivity|].
  split; [reflexivity|apply overriddenGrows_refl].
Qed.

Lemma extendsTables_trans s1 s2 s3 :
  extendsTables s1 s2 -> extendsTables s2 s3 -> extendsTables s1 s3.
Proof.
  intros ((e1 & H1) & Hi1 & Hg1) ((e2 & H2) & Hi2 & Hg2). split.
  - exists (e1 ++ e2). rewrite H2, H1, app_assoc. reflexivity.
  - split; [congruence|eauto using overriddenGrows_trans].
Qed.

Lemma extendsTables_frame {A} (c : M A) s a s' :
  preserves tablesAndFunctions c -> c s = Done a s' -> extendsTables s s'.
Proof.
  intros Hc H. apply Hc in H. injection H as Hm Hi Hf. split.
  - exists []. rewrite app_nil_r. exact Hm.
  - split; [exact Hi|apply overriddenGrows_functions; exact Hf].
Qed.

Lemma appendMethod_extends fn s u s' : appendMethod fn s = Done u s' -> extendsTables s s'.
Proof.
  intros H. unfold appendMethod in H.
  mstep H as n s1 Hn. apply get_Done in Hn as [-> ->].
  mstep H as u1 s2 Hd. apply modify_Done in H. subst s'.
  pose proof (setDispatchIndex_grows _ _ _ _ _ Hd) as Hg.
  assert (Ht : tablesOf s2 = tablesOf s).
  { revert Hd. assert (Hp : preserves tablesOf (setDispatchIndex fn (Z.of_nat (length (instanceMethods s)))))
      by (unfold setDispatchIndex; frame). apply Hp. }
  injection Ht as Hm Hi. split; [exists [fn]; simpl; rewrite Hm; reflexivity|].
  split; [exact Hi|]. eapply overriddenGrows_trans; [exact Hg|].
  apply overriddenGrows_functions. reflexivity.
Qed.

Lemma when_extends b k s u s' :
  (forall s u s', k s = Done u s' -> extendsTables s s') ->
  when b k s = Done u s' -> extendsTables s s'.
Proof.
  intros Hk H. destruct b; [eapply Hk; exact H|].
  apply ret_Done in H as [_ <-]. apply extendsTables_refl.
Qed.

Lemma addAccessor_extends a s u s' : addAccessor a s = Done u s' -> extendsTables s s'.
Proof.
  intros H. destruct a as [fn|]; simpl in H.
  - mstep H as st s1 Hst. apply get_Done in Hst as [-> ->].
    revert H. apply when_extends. apply appendMethod_extends.
  - apply ret_Done in H as [_ <-]. apply extendsTables_refl.
Qed.

Lemma addNewMethod_extends d s u s' : addNewMethod d s = Done u s' -> extendsTables s s'.
Proof.
  intros H. unfold addNewMethod in H.
  mstep H as st s1 Hst. apply get_Done in Hst as [-> ->].
  destruct d as [v|fn|p|nm sc sg|nm];
    try (apply ret_Done in H as [_ <-]; apply extendsTables_refl).
  - destruct (_ && _ && _); [|apply ret_Done in H as [_ <-]; apply extendsTables_refl].
    mstep H as u1 s1 H1.
    assert (E1 : extendsTables s s1) by (revert H1; apply extendsTables_frame; frame).
    apply extendsTables_trans with s1; [exact E1|].
    revert H. apply when_extends. apply appendMethod_extends.
  - destruct (_ && _); [|apply ret_Done in H as [_ <-]; apply extendsTables_refl].
    mstep H as u1 s1 H1. apply addAccessor_extends in H1. apply addAccessor_extends in H.
    eapply extendsTables_trans; eassumption.
Qed.

Lemma addNewMethods_extends s u s' : addNewMethods s = Done u s' -> extendsTables s s'.
Proof.
  unfold addNewMethods. intros H. mstep H as ms s1 Hms. apply get_Done in Hms as [-> ->].
  assert (Hall : forall l s0 u0 s0', forEach l addNewMethod s0 = Done u0 s0' ->
                                     extendsTables s0 s0').
  { induction l as [|d l IH]; intros s0 u0 s0' H0; simpl in H0.
    - apply ret_Done in H0 as [_ <-]. apply extendsTables_refl.
    - mstep H0 as u1 s1 H1. apply addNewMethod_extends in H1.
      eapply extendsTables_trans; [exact H1|]. eapply IH. exact H0. }
  eapply Hall. exact H.
Qed.

(** ** The method table after the Overloading pass *)

Lemma implementsSlot_grows s s' f m :
  overriddenGrows s s' -> implementsSlot s f m -> implementsSlot s' f m.
Proof.
  intros Hg [->|H]; [left; reflexivity|right; eapply overrides_grows; eassumption].
Qed.

Lemma implementsTable_grows s s' t r :
  overriddenGrows s s' -> implementsTable s t r -> implementsTable s' t r.
Proof.
  intros Hg [Hlen H]. split; [exact Hlen|]. intros j m Hj.
  destruct (H j m Hj) as (f & Hf & Himp). exists f. split; [exact Hf|].
  eapply implementsSlot_grows; eassumption.
Qed.

Lemma implementsTable_step env meets t s t' s' r :
  tableStep env meets t s t' s' -> implementsTable s t r -> implementsTable s' t' r.
Proof.
  intros (Hlen & Hg & Hslots) [Hlen0 H]. split; [congruence|]. intros j m Hj.
  destruct (H j m Hj) as (o & Ho & Himp).
  destruct (Hslots j o Ho) as (n & Hn & [->|(_ & _ & Hover)]).
  - exists o. split; [exact Hn|]. eapply implementsSlot_grows; eassumption.
  - exists n. split; [exact Hn|]. right.
    destruct (implementsSlot_grows _ _ _ _ Hg Himp) as [Heq|Hchain].
    + subst o. apply overrides_direct. exact Hover.
    + eapply overrides_chain; eassumption.
Qed.

Lemma itableInvariant_ok env meets : TableInvariant env meets (itableInvariant env).
Proof.
  split.
  - intros vt its s s' Hg H. unfold itableInvariant in *.
    eapply Forall_impl; [exact H|]. intros it. apply implementsTable_grows. exact Hg.
  - intros vt its s vt' s' (_ & Hg & _) H. unfold itableInvariant in *.
    eapply Forall_impl; [exact H|]. intros it. apply implementsTable_grows. exact Hg.
  - intros vt pre it post s t' s' Hstep H. unfold itableInvariant in *.
    pose proof Hstep as (_ & Hg & _).
    apply Forall_app in H as [Hpre H]. apply Forall_cons_iff in H as [Hit Hpost].
    apply Forall_app. split.
    + eapply Forall_impl; [exact Hpre|]. intros x. apply implementsTable_grows. exact Hg.
    + apply Forall_cons_iff. split.
      * simpl. eapply implementsTable_step; eassumption.
      * eapply Forall_impl; [exact Hpost|]. intros x. apply implementsTable_grows. exact Hg.
Qed.

Lemma vtableInvariant_ok env ms base :
  noOverrideAmong env ms ->
  TableInvariant env (mayReplace ms) (vtableInvariant (ownFunctions ms) base).
Proof.
  intros Hno. set (own := ownFunctions ms).
  assert (Hgrow : forall vt its s s', overriddenGrows s s' ->
            vtableInvariant own base vt its s -> forall its', vtableInvariant own base vt its' s').
  { intros vt its s s' Hg [Hlen H] its'. split; [exact Hlen|]. intros k m Hk.
    destruct (H k m Hk) as (f & Hf & [Heq|[Hin Hm]]); exists f; (split; [exact Hf|]);
      [left; exact Heq|right]. split; [exact Hin|apply (Hg f); exact Hm]. }
  split.
  - intros vt its s s' Hg H. eapply Hgrow; eassumption.
  - intros vt its s vt' s' (Hlen & Hg & Hslots) [Hlen0 H]. split; [congruence|].
    intros k m Hk. destruct (H k m Hk) as (o & Ho & Hcase).
    destruct (Hslots k o Ho) as (n & Hn & [Heq|(Hmeet & Hcan & Hover)]).
    + subst n. exists o. split; [exact Hn|].
      destruct Hcase as [Heq|[Hino Hm]]; [left; exact Heq|].
      right. split; [exact Hino|apply (Hg o); exact Hm].
    + exists n. split; [exact Hn|]. destruct Hcase as [Heq|[Hino Hm]].
      * subst o. right. split; [exact (mayReplace_own _ _ _ Hmeet)|exact Hover].
      * (* the occupant is a method of the type: only itself can replace it *)
        pose proof (Hno n o Hino Hmeet Hcan) as E. subst n.
        right. split; [exact Hino|apply (Hg o); exact Hm].
  - intros vt pre it post s t' s' (_ & Hg & _) H. eapply Hgrow; eassumption.
Qed.

Section Overloading.
Variable env : Env.

Lemma checkInterfaceTables_frame l : preserves tablesFunctionsMembers (checkInterfaceTables l).
Proof. induction l as [|it l IH]; simpl; unfold listMethods; frame. exact IH. Qed.

Lemma checkForRequiredMethods_frame :
  preserves tablesFunctionsMembers (checkForRequiredMethods env).
Proof.
  unfold checkForRequiredMethods, listMethods. frame; apply checkInterfaceTables_frame.
Qed.

Lemma createTables_loop itypes : forall s u s',
  forEach itypes (createInterfaceTable env) s = Done u s' ->
  instanceMethods s' = instanceMethods s /\ functions s' = functions s
  /\ members s' = members s
  /\ (Forall (initialTable env) (interfaces s) -> Forall (initialTable env) (interfaces s')).
Proof.
  induction itypes as [|itype rest IH]; intros s u s' H; simpl in H.
  - apply ret_Done in H as [_ <-]. auto.
  - mstep H as u1 s1 H1. unfold createInterfaceTable in H1.
    destruct (negb (TypeClass_eqb (tvTypeClass (typeView env itype)) Interface));
      [discriminate H1|].
    mstep H1 as st s2 Hst. apply get_Done in Hst as [-> ->].
    destruct (findBaseImplementationOf env s itype) as [pi|] eqn:E.
    + destruct (negb (_ =? _)%nat); [discriminate H1|].
      apply modify_Done in H1. subst s1.
      apply IH in H as (Hm & Hf & Hmem & Hinit). simpl in *.
      split; [exact Hm|]. split; [exact Hf|]. split; [exact Hmem|].
      intros Hall. apply Hinit. apply Forall_app. split; [exact Hall|].
      apply Forall_cons_iff. split; [|constructor]. left. exists s, pi. auto.
    + apply modify_Done in H1. subst s1.
      apply IH in H as (Hm & Hf & Hmem & Hinit). simpl in *.
      split; [exact Hm|]. split; [exact Hf|]. split; [exact Hmem|].
      intros Hall. apply Hinit. apply Forall_app. split; [exact Hall|].
      apply Forall_cons_iff. split; [|constructor]. right. reflexivity.
Qed.

(** The loop of [createInterfaceTables] runs over the ancestors that are the
    first base of no type of the hierarchy. *)
Lemma createInterfaceTables_unfold s :
  createInterfaceTables env s
  = forEach (interfaceTypesOf env (bases s)) (createInterfaceTable env) s.
Proof.
  unfold createInterfaceTables. erewrite bind_run; [|reflexivity].
  change (fun t : TypeId => if Nat.eqb t (targetId env) then bases s
                            else tvBases (typeView env t))
    with (basesAsSeen env (bases s)).
  rewrite (remove_first_parents env (bases s)). reflexivity.
Qed.

Lemma createInterfaceTables_initial s u s' :
  createInterfaceTables env s = Done u s' ->
  instanceMethods s' = instanceMethods s /\ functions s' = functions s
  /\ members s' = members s
  /\ (Forall (initialTable env) (interfaces s) -> Forall (initialTable env) (interfaces s')).
Proof. rewrite createInterfaceTables_unfold. apply createTables_loop. Qed.

(** The loop returns when its assertions hold: the types are interfaces and
    the tables of the bases have the size of their method tables. *)
Lemma createTables_total itypes : forall s,
  (forall t, In t itypes -> tvTypeClass (typeView env t) = Interface) ->
  (forall st t parentImpl, In t itypes ->
     findBaseImplementationOf env st t = Some parentImpl ->
     length (methods parentImpl) = length (tvInstanceMethods (typeView env t))) ->
  exists s' new,
    forEach itypes (createInterfaceTable env) s = Done tt s'
    /\ interfaces s' = interfaces s ++ new
    /\ map interfaceType new = itypes
    /\ Forall (initialTable env) new
    /\ besideInterfaces s' = besideInterfaces s.
Proof.
  induction itypes as [|itype rest IH]; intros s Hkind Hfit.
  - exists s, []. simpl. rewrite app_nil_r. auto.
  - cbn [forEach].
    set (table := match findBaseImplementationOf env s itype with
                  | Some parentImpl => methods parentImpl
                  | None => tvInstanceMethods (typeView env itype)
                  end).
    set (s1 := setInterfaces (interfaces s ++ [mkInterfaceTable itype table]) s).
    assert (Hone : createInterfaceTable env itype s = Done tt s1).
    { unfold createInterfaceTable. rewrite (Hkind itype (or_introl eq_refl)). cbn [TypeClass_eqb negb].
      erewrite bind_run; [|reflexivity]. unfold s1, table.
      destruct (findBaseImplementationOf env s itype) as [pi|] eqn:F; [|reflexivity].
      rewrite (Hfit s itype pi (or_introl eq_refl) F), Nat.eqb_refl. reflexivity. }
    destruct (IH s1) as (s' & new & E & Hi & Hm & Hall & Hb).
    { intros t Ht. apply Hkind. right. exact Ht. }
    { intros st t pi Ht. apply Hfit. right. exact Ht. }
    exists s', (mkInterfaceTable itype table :: new).
    split; [rewrite (bind_run _ _ _ _ _ Hone); exact E|].
    split; [rewrite Hi; unfold s1; simpl; rewrite <- app_assoc; reflexivity|].
    split; [simpl; rewrite Hm; reflexivity|].
    split; [|rewrite Hb; reflexivity].
    constructor; [|exact Hall]. unfold initialTable, table. simpl.
    destruct (findBaseImplementationOf env s itype) as [pi|] eqn:F; [left|right; reflexivity].
    exists s, pi. auto.
Qed.

(** The loop stops at an assertion when one of the types is no interface. *)
Lemma createTables_abort itypes : forall s,
  forallb (fun t => TypeClass_eqb (tvTypeClass (typeView env t)) Interface) itypes = false ->
  exists why s', forEach itypes (createInterfaceTable env) s = Aborted why s'.
Proof.
  induction itypes as [|itype rest IH]; intros s Hbad; [discriminate Hbad|].
  cbn [forallb] in Hbad. cbn [forEach]. unfold bind at 1, createInterfaceTable at 1.
  destruct (TypeClass_eqb (tvTypeClass (typeView env itype)) Interface); cbn [negb].
  - simpl in Hbad. unfold bind at 1, get at 1.
    destruct (findBaseImplementationOf env s itype) as [pi|].
    + destruct (negb (_ =? _)%nat); [eexists _, _; reflexivity|].
      unfold modify. apply IH. exact Hbad.
    + unfold modify. apply IH. exact Hbad.
  - eexists _, _. reflexivity.
Qed.

(** The statements of the pass, one after the other. *)
Lemma analyzeOverloading_steps s s' :
  isFinished (passes s) OverloadingPass = false ->
  isRunning (passes s) OverloadingPass = false ->
  analyzeOverloading env s = Done true s' ->
  exists s1 s2 s3 s4,
    copyBaseClassMethods env
      (setPasses (mkPassMgr (PassSet.add OverloadingPass (running (passes s)))
                            (finished (passes s))) s) = Done tt s1
    /\ createInterfaceTables env s1 = Done tt s2
    /\ overrideMembers env s2 = Done tt s3
    /\ addNewMethods s3 = Done tt s4
    /\ tablesFunctionsMembers s' = tablesFunctionsMembers s4
    /\ isFinished (passes s') OverloadingPass = true.
Proof.
  intros Hfin Hrun H. unfold analyzeOverloading in H.
  mstep H as begun s0 Hb.
  apply beginPass_Done in Hb as [(-> & _ & _ & ->)|(-> & _ & [Hc|Hc])].
  - mstep H as u1 s1 H1. mstep H as u2 s2 H2. mstep H as u3 s3 H3.
    mstep H as u4 s4 H4. mstep H as u5 s5 H5. mstep H as u6 s6 H6.
    apply ret_Done in H as [_ <-]. destruct u1, u2, u3, u4.
    exists s1, s2, s3, s4. repeat (split; [assumption|]).
    apply checkForRequiredMethods_frame in H5.
    apply modify_Done in H6. subst s6. split; [simpl; exact H5|].
    unfold isFinished. simpl. rewrite contains_add, Pass_eqb_refl. reflexivity.
  - congruence.
  - congruence.
Qed.

Lemma copyBaseClassMethods_run s :
  superClassSingular env s = true ->
  copyBaseClassMethods env s
  = Done tt match superClassOf env (super s) (bases s) with
            | Some sc =>
                setInstanceMethods (instanceMethods s ++ tvInstanceMethods (typeView env sc)) s
            | None => s
            end.
Proof.
  unfold superClassSingular, copyBaseClassMethods. intros Hsing.
  erewrite bind_run; [|reflexivity]. erewrite bind_run; [|reflexivity].
  destruct (superClassOf env (super s) (bases s)) as [sc|]; [|reflexivity].
  rewrite Hsing. reflexivity.
Qed.

Lemma copyBaseClassMethods_super s b u s1 :
  super s = Some b ->
  copyBaseClassMethods env s = Done u s1 ->
  s1 = setInstanceMethods (instanceMethods s ++ tvInstanceMethods (typeView env b)) s.
Proof.
  intros Hsup H. unfold copyBaseClassMethods in H.
  mstep H as sup s0 Hs. apply get_Done in Hs as [-> ->].
  mstep H as bs s0 Hs. apply get_Done in Hs as [-> ->].
  unfold superClassOf in H. rewrite Hsup in H.
  destruct (negb (tvIsSingular (typeView env b))); [discriminate H|].
  apply modify_Done in H. exact H.
Qed.

Lemma copyBaseClassMethods_frame :
  preserves (fun s => (interfaces s, functions s, members s, bases s, super s))
    (copyBaseClassMethods env).
Proof. unfold copyBaseClassMethods. frame. Qed.

Lemma ensureUniqueSignatures_members l : preserves members (ensureUniqueSignatures env l).
Proof. induction l as [|m l IH]; simpl; frame. exact IH. Qed.

Lemma overrideSlots_members name ovs canHide i table :
  preserves members (overrideSlots env name ovs canHide i table).
Proof.
  revert i. induction table as [|m table IH]; intros i; simpl.
  - frame.
  - unfold setDispatchIndex, insertOverridden. frame; try apply IH.
Qed.

Lemma overrideAccessorSlots_members name prop accs canHide i table :
  preserves members (overrideAccessorSlots env name prop accs canHide i table).
Proof.
  revert i. induction table as [|m table IH]; intros i; simpl.
  - frame.
  - unfold setDispatchIndex, insertOverridden. frame; try apply IH.
Qed.

Lemma collectOverrides_members entry ms gs ss prop :
  preserves members (collectOverrides entry ms gs ss prop).
Proof.
  revert ms gs ss prop. induction entry as [|d entry IH]; intros ms gs ss prop; simpl.
  - frame.
  - frame; try apply IH.
Qed.

Lemma overrideMembers_members : preserves members (overrideMembers env).
Proof.
  unfold overrideMembers, overrideEntry, overrideInTables. frame;
    try apply collectOverrides_members; try apply ensureUniqueSignatures_members;
    unfold overrideMethods, overridePropertyAccessors; frame;
    try apply overrideSlots_members; apply overrideAccessorSlots_members.
Qed.

(** The method table of a type against the table of its primary base, after
    a run of the pass; [s3] is the state in which the new methods are added. *)
Lemma vtable_slots_of_run s s' b :
  super s = Some b ->
  instanceMethods s = [] ->
  isFinished (passes s) OverloadingPass = false ->
  isRunning (passes s) OverloadingPass = false ->
  noOverrideAmong env (members s) ->
  analyzeOverloading env s = Done true s' ->
  let base := tvInstanceMethods (typeView env b) in
  isFinished (passes s') OverloadingPass = true
  /\ (length base <= length (instanceMethods s'))%nat
  /\ (forall i, (i < length base)%nat -> inheritedOrOverridden s' base i)
  /\ exists s3 s4,
       addNewMethods s3 = Done tt s4
       /\ length (instanceMethods s3) = length base
       /\ members s3 = members s
       /\ instanceMethods s' = instanceMethods s4
       /\ functions s' = functions s4.
Proof.
  intros Hsup Hempty Hfin Hrun Hno H base.
  destruct (analyzeOverloading_steps _ _ Hfin Hrun H)
    as (s1 & s2 & s3 & s4 & H1 & H2 & H3 & H4 & Hend & Hdone).
  apply (copyBaseClassMethods_super _ b) in H1; [|exact Hsup].
  apply createInterfaceTables_initial in H2 as (Hm2 & Hf2 & Hmem2 & _).
  assert (Hbase1 : instanceMethods s1 = base)
    by (subst s1; simpl; rewrite Hempty; reflexivity).
  assert (Hmem1 : members s1 = members s) by (subst s1; reflexivity).
  assert (Hmems2 : members s2 = members s) by congruence.
  assert (Hinv2 : vtableInvariant (ownFunctions (members s2)) base
                    (instanceMethods s2) (interfaces s2) s2).
  { split; [congruence|]. intros k m Hk. exists m. split; [congruence|left; reflexivity]. }
  assert (HI : TableInvariant env (mayReplace (members s2))
                 (vtableInvariant (ownFunctions (members s2)) base))
    by (apply vtableInvariant_ok; rewrite Hmems2; exact Hno).
  pose proof (overrideMembers_members _ _ _ H3) as Hmem3.
  apply (overrideMembers_inv env _ _ _ _ HI H3) in Hinv2.
  destruct Hinv2 as [Hlen3 Hslots3].
  destruct (addNewMethods_extends _ _ _ H4) as ((extra & Hm4) & _ & Hg4).
  injection Hend as Hm' _ Hf' _.
  split; [exact Hdone|]. split; [rewrite Hm', Hm4, length_app; lia|]. split.
  - intros i Hi. destruct (lookup_lt_is_Some_2 base i Hi) as [m Hbm].
    destruct (Hslots3 i m Hbm) as (f & Hf & Hcase).
    exists f, m. split.
    + rewrite Hm', Hm4. rewrite lookup_app_l; [exact Hf|]. rewrite Hlen3. exact Hi.
    + split; [exact Hbm|]. destruct Hcase as [Heq|[_ Hover]]; [left; exact Heq|right].
      unfold overriddenBy, fnStateOf. rewrite Hf'. apply (Hg4 f). exact Hover.
  - exists s3, s4. split; [exact H4|]. split; [exact Hlen3|].
    split; [congruence|]. split; [exact Hm'|exact Hf'].
Qed.

(** The interface tables keep their interfaces through the override steps. *)
Lemma interfaceTypes_kept meets (itypes : list TypeId) :
  TableInvariant env meets (fun _ its _ => map interfaceType its = itypes).
Proof.
  split; [auto|auto|].
  intros vt pre it post s t' s' _ H. rewrite <- H, !map_app. reflexivity.
Qed.
End Overloading.

(** C1, as the specification states it, fails.  A method that the type adds
    takes a slot behind the table of the primary base, where that table has
    no method to inherit or override.  And within the table of the base, a
    slot replaced twice holds a method that records the intermediate occupant
    as overridden, not the method of the base. *)
Lemma vtable_slots_counterexample :
  (exists s,
     analyzeOverloading extendingEnv (derivedFrom [DFunction newBar]) = Done true s
     /\ instanceMethods s = [baseFoo; newBar]
     /\ tvInstanceMethods (typeView extendingEnv 5%nat) = [baseFoo]
     /\ (1 < length (instanceMethods s))%nat
     /\ ~ inheritedOrOverridden s (tvInstanceMethods (typeView extendingEnv 5%nat)) 1)
  /\ (exists s,
        analyzeOverloading getterEnv
          (derivedFrom [DProperty propertyP; DFunction getMethod]) = Done true s
        /\ instanceMethods s = [getMethod]
        /\ tvInstanceMethods (typeView getterEnv 5%nat) = [baseGetter]
        /\ overriddenBy s getMethod = {[fnId newGetter]}
        /\ ~ inheritedOrOverridden s (tvInstanceMethods (typeView getterEnv 5%nat)) 0).
Proof.
  split.
  - eexists. split; [vm_compute; reflexivity|].
    split; [reflexivity|]. split; [reflexivity|]. split; [simpl; lia|].
    intros (f & m & _ & Hm & _). discriminate Hm.
  - eexists. split; [vm_compute; reflexivity|].
    split; [reflexivity|]. split; [reflexivity|].
    split.
    + unfold overriddenBy, fnStateOf. simpl. vm_compute. reflexivity.
    + intros (f & m & Hf & Hm & Hcase). simpl in Hf, Hm.
      injection Hf as <-. injection Hm as <-.
      destruct Hcase as [Heq|Hin]; [discriminate Heq|].
      revert Hin. unfold overriddenBy, fnStateOf. vm_compute. intros Hin.
      set_solver.
Qed.

(** ** Computations that always return *)

Lemma returns_ret {A} (a : A) : returns (ret a).
Proof. intros s. exists a, s. reflexivity. Qed.

Lemma returns_bind {A B} (c : M A) (k : A -> M B) :
  returns c -> (forall a, returns (k a)) -> returns (bind c k).
Proof.
  intros Hc Hk s. destruct (Hc s) as (a & s1 & E). destruct (Hk a s1) as (b & s2 & E2).
  exists b, s2. rewrite (bind_run _ _ _ _ _ E). exact E2.
Qed.

Lemma returns_get {A} (f : State -> A) : returns (get f).
Proof. intros s. exists (f s), s. reflexivity. Qed.

Lemma returns_modify f : returns (modify f).
Proof. intros s. exists tt, (f s). reflexivity. Qed.

Lemma returns_when b k : returns k -> returns (when b k).
Proof. intros Hk. destruct b; [exact Hk|apply returns_ret]. Qed.

Lemma returns_forEach {A} (l : list A) body :
  (forall x, returns (body x)) -> returns (forEach l body).
Proof.
  intros Hb. induction l as [|x l IH]; simpl.
  - apply returns_ret.
  - apply returns_bind; [apply Hb|intros _; exact IH].
Qed.

Lemma returns_mapM {A B} (f : A -> M B) l : (forall x, returns (f x)) -> returns (mapM f l).
Proof.
  intros Hf. induction l as [|x l IH]; simpl.
  - apply returns_ret.
  - apply returns_bind; [apply Hf|intros y].
    apply returns_bind; [exact IH|intros ys; apply returns_ret].
Qed.

Ltac returning_step :=
  lazymatch goal with
  | |- returns (bind _ _) => apply returns_bind; [|intros ?]
  | |- returns (ret _) => apply returns_ret
  | |- returns (get _) => apply returns_get
  | |- returns (when _ _) => apply returns_when
  | |- returns (forEach _ _) => apply returns_forEach; intros ?
  | |- returns (mapM _ _) => apply returns_mapM; intros ?
  | |- returns (modify _) => apply returns_modify
  | |- returns (emit _ _) => apply returns_modify
  | |- returns (addSymbol _) => apply returns_modify
  | |- returns (updateFn _ _) => apply returns_modify
  | |- returns (finishPass _) => apply returns_modify
  | |- returns (if ?b then _ else _) => destruct b
  | |- returns (match ?x with _ => _ end) => destruct x
  | |- returns (let '(_, _) := ?x in _) => destruct x
  end.

Ltac returning := repeat returning_step.

Section OverloadingReturns.
Variable env : Env.

Lemma overrideSlots_returns name ovs canHide table : forall i,
  returns (overrideSlots env name ovs canHide i table).
Proof.
  induction table as [|m table IH]; intros i; simpl.
  - returning.
  - unfold setDispatchIndex, insertOverridden. returning; apply IH.
Qed.

Lemma overrideAccessorSlots_returns name prop accs canHide table : forall i,
  returns (overrideAccessorSlots env name prop accs canHide i table).
Proof.
  induction table as [|m table IH]; intros i; simpl.
  - returning.
  - unfold setDispatchIndex, insertOverridden. returning; apply IH.
Qed.

Lemma ensureUniqueSignatures_returns l : returns (ensureUniqueSignatures env l).
Proof. induction l as [|m l IH]; simpl; returning. exact IH. Qed.

Lemma returns_forEach_In {A} (l : list A) body :
  (forall x, In x l -> returns (body x)) -> returns (forEach l body).
Proof.
  intros Hb. induction l as [|x l IH]; simpl.
  - apply returns_ret.
  - apply returns_bind; [apply Hb; left; reflexivity|intros _].
    apply IH. intros y Hy. apply Hb. right. exact Hy.
Qed.

Lemma collectOverrides_returns entry :
  propertiesTyped entry = true ->
  forall ms gs ss prop, returns (collectOverrides entry ms gs ss prop).
Proof.
  unfold propertiesTyped.
  induction entry as [|d entry IH]; intros Htyped ms gs ss prop; simpl.
  - returning.
  - cbn [forallb] in Htyped. apply andb_true_iff in Htyped as [Hd Htyped].
    destruct d as [v|f|p|nm sc sg|nm]; try (apply IH; exact Htyped).
    + returning; apply IH; exact Htyped.
    + destruct (StorageClass_eqb (propStorageClass p) Storage_Instance && propIsSingular p);
        simpl in Hd; [|apply IH; exact Htyped].
      rewrite Hd. simpl. apply IH. exact Htyped.
Qed.

Lemma overrideEntry_returns entry :
  propertiesTyped (snd entry) = true -> returns (overrideEntry env entry).
Proof.
  intros Htyped. unfold overrideEntry. returning;
    try (apply collectOverrides_returns; exact Htyped);
    try apply ensureUniqueSignatures_returns;
    unfold overrideInTables, overrideMethods, overridePropertyAccessors; returning;
    try apply overrideSlots_returns; apply overrideAccessorSlots_returns.
Qed.

Lemma overrideMembers_returns s :
  propertiesTyped (members s) = true -> exists u s', overrideMembers env s = Done u s'.
Proof.
  intros Htyped. unfold overrideMembers. erewrite bind_run; [|reflexivity].
  apply returns_forEach_In. intros entry He. apply overrideEntry_returns.
  unfold propertiesTyped in *. rewrite forallb_forall in Htyped |- *.
  intros d Hd. apply Htyped. eapply symbolTable_In; eassumption.
Qed.

Lemma checkInterfaceTables_returns l : returns (checkInterfaceTables l).
Proof. induction l as [|it l IH]; simpl; unfold listMethods; returning. exact IH. Qed.

(** The pass returns when its assertions hold: the type whose methods are
    copied is singular, the types that get a table are interfaces, the
    tables of the bases have the size of their method tables, and the types
    of the instance properties have been analyzed. *)
Lemma analyzeOverloading_runs s :
  isFinished (passes s) OverloadingPass = false ->
  isRunning (passes s) OverloadingPass = false ->
  superClassSingular env s = true ->
  interfacesOnly env (bases s) = true ->
  parentTablesFit env (bases s) ->
  propertiesTyped (members s) = true ->
  exists s', analyzeOverloading env s = Done true s'.
Proof.
  intros Hfin Hrun Hsing Hkinds Hfit Htyped.
  set (s0 := setPasses (mkPassMgr (PassSet.add OverloadingPass (running (passes s)))
                                  (finished (passes s))) s).
  assert (Hbegin : beginPass OverloadingPass false s = Done true s0).
  { unfold beginPass, bind, get, PassMgr_begin. rewrite Hfin, Hrun. reflexivity. }
  pose proof (copyBaseClassMethods_run env s0 Hsing) as Hcopy.
  set (s1 := match superClassOf env (super s0) (bases s0) with
             | Some sc =>
                 setInstanceMethods
                   (instanceMethods s0 ++ tvInstanceMethods (typeView env sc)) s0
             | None => s0
             end) in Hcopy.
  assert (Hb1 : bases s1 = bases s)
    by (unfold s1; destruct (superClassOf env (super s0) (bases s0)); reflexivity).
  assert (Hm1 : members s1 = members s)
    by (unfold s1; destruct (superClassOf env (super s0) (bases s0)); reflexivity).
  destruct (createTables_total env (interfaceTypesOf env (bases s)) s1)
    as (s2 & new & Hcreate & _ & _ & _ & Hbeside).
  { intros t Ht. unfold interfacesOnly in Hkinds. rewrite forallb_forall in Hkinds.
    specialize (Hkinds t Ht). destruct (tvTypeClass (typeView env t)); try discriminate.
    reflexivity. }
  { intros st t pi Ht. apply Hfit. exact Ht. }
  assert (Hm2 : members s2 = members s).
  { injection Hbeside as _ _ _ Hm _ _ _ _ _ _ _. congruence. }
  destruct (overrideMembers_returns s2) as ([] & s3 & Hover);
    [rewrite Hm2; exact Htyped|].
  assert (Hrest : returns (addNewMethods ;; checkForRequiredMethods env ;;
                           finishPass OverloadingPass)).
  { unfold addNewMethods, addNewMethod, addAccessor, appendMethod, setDispatchIndex,
      checkForRequiredMethods, listMethods.
    returning; apply checkInterfaceTables_returns. }
  destruct (Hrest s3) as (u & s4 & E). exists s4.
  unfold analyzeOverloading. rewrite (bind_run _ _ _ _ _ Hbegin). cbn iota.
  rewrite (bind_run _ _ _ _ _ Hcopy).
  erewrite bind_run; [|rewrite createInterfaceTables_unfold, Hb1; exact Hcreate].
  rewrite (bind_run _ _ _ _ _ Hover).
  revert E. unfold bind.
  destruct (addNewMethods s3) as [? s6|]; [|discriminate].
  destruct (checkForRequiredMethods env s6) as [? s7|]; [|discriminate].
  unfold finishPass, modify, ret. intros E. injection E as _ <-. reflexivity.
Qed.
End OverloadingReturns.

(** ** The interface tables after the Overloading pass *)

(** C2: the Overloading pass on a type without interface table yet returns
    when its assertions hold (the type whose methods it copies is singular,
    the ancestors that get a table are interfaces, and the types of the
    instance properties have been analyzed), and leaves one table for each
    such interface.  When the tables of the bases that new tables
    start from are implementations of their interfaces, each table has the
    size of the method table of its interface and holds in each slot the
    method of the interface itself or a method that overrides it. *)
Theorem itable_slots env s :
  interfaces s = [] ->
  isFinished (passes s) OverloadingPass = false ->
  isRunning (passes s) OverloadingPass = false ->
  superClassSingular env s = true ->
  interfacesOnly env (bases s) = true ->
  propertiesTyped (members s) = true ->
  (forall st itype parentImpl,
      In itype (interfaceTypesOf env (bases s)) ->
      findBaseImplementationOf env st itype = Some parentImpl ->
      implementsTable s (methods parentImpl) (tvInstanceMethods (typeView env itype))) ->
  exists s',
    analyzeOverloading env s = Done true s'
    /\ isFinished (passes s') OverloadingPass = true
    /\ map interfaceType (interfaces s') = interfaceTypesOf env (bases s)
    /\ forall it, In it (interfaces s') ->
         let reference := tvInstanceMethods (typeView env (interfaceType it)) in
         length (methods it) = length reference
         /\ forall j m, reference !! j = Some m ->
              exists f, methods it !! j = Some f /\ (f = m \/ overrides s' f m).
Proof.
  intros Hempty Hfin Hrun Hsing Hkinds Htyped Hparent.
  assert (Hfit : parentTablesFit env (bases s)).
  { intros st itype pi Hin Hfind. destruct (Hparent st itype pi Hin Hfind) as [Hlen _].
    exact Hlen. }
  destruct (analyzeOverloading_runs env s Hfin Hrun Hsing Hkinds Hfit Htyped) as (s' & H).
  exists s'. split; [exact H|].
  destruct (analyzeOverloading_steps _ _ _ Hfin Hrun H)
    as (s1 & s2 & s3 & s4 & H1 & H2 & H3 & H4 & Hend & Hdone).
  split; [exact Hdone|].
  apply copyBaseClassMethods_frame in H1. injection H1 as Hi1 Hf1 _ Hb1 _.
  simpl in Hi1, Hf1, Hb1.
  destruct (createTables_total env (interfaceTypesOf env (bases s)) s1)
    as (s2' & new & Hcreate & Hi2 & Htypes & Hinit & Hbeside).
  { intros t Ht. unfold interfacesOnly in Hkinds. rewrite forallb_forall in Hkinds.
    specialize (Hkinds t Ht). destruct (tvTypeClass (typeView env t)); try discriminate.
    reflexivity. }
  { intros st t pi Ht. apply Hfit. exact Ht. }
  rewrite createInterfaceTables_unfold, Hb1, Hcreate in H2. injection H2 as ->.
  rewrite Hi1, Hempty in Hi2. simpl in Hi2.
  assert (Hf2 : functions s2 = functions s).
  { injection Hbeside as _ _ _ _ _ _ _ _ Hf _ _. congruence. }
  assert (Hg2 : overriddenGrows s s2) by (apply overriddenGrows_functions; exact Hf2).
  assert (Hinv2 : itableInvariant env (instanceMethods s2) (interfaces s2) s2).
  { unfold itableInvariant. rewrite Hi2. rewrite Forall_forall in Hinit |- *.
    intros it Hit. assert (Htype : In (interfaceType it) (interfaceTypesOf env (bases s))).
    { rewrite <- Htypes. apply in_map. apply list_elem_of_In. exact Hit. }
    destruct (Hinit it Hit) as [(st & pi & Hfind & Hmeth)|Hown].
    - rewrite Hmeth. eapply implementsTable_grows; [exact Hg2|].
      eapply Hparent; eassumption.
    - rewrite Hown. split; [reflexivity|]. intros j m Hj. exists m. split; [exact Hj|].
      left. reflexivity. }
  pose proof (overrideMembers_inv env _ _ _ _
                (interfaceTypes_kept env _ (interfaceTypesOf env (bases s))) H3) as Hkept.
  rewrite Hi2 in Hkept. specialize (Hkept Htypes).
  apply (overrideMembers_inv env _ _ _ _ (itableInvariant_ok env _) H3) in Hinv2.
  destruct (addNewMethods_extends _ _ _ H4) as (_ & Hi4 & Hg4).
  injection Hend as _ Hi' Hf' _.
  split; [rewrite Hi', Hi4; exact Hkept|].
  intros it Hit reference. rewrite Hi', Hi4 in Hit.
  unfold itableInvariant in Hinv2. rewrite Forall_forall in Hinv2.
  assert (Hit' : it ∈ interfaces s3) by (apply list_elem_of_In; exact Hit).
  destruct (Hinv2 it Hit') as [Hlen Hslots]. split; [exact Hlen|].
  intros j m Hj. destruct (Hslots j m Hj) as (f & Hf & Himp). exists f. split; [exact Hf|].
  assert (Hg' : overriddenGrows s3 s').
  { eapply overriddenGrows_trans; [exact Hg4|]. apply overriddenGrows_functions. exact Hf'. }
  exact (implementsSlot_grows _ _ _ _ Hg' Himp).
Qed.

(** The class [C] of the sample starts the table of [I] from the table of
    its base [B]; [C.m] takes the slot of [B.m], which overrides [I.m]. *)
Lemma itable_slots_witness :
  exists s',
    analyzeOverloading inheritingEnv inheritingState = Done true s'
    /\ interfaces s' = [mkInterfaceTable 30%nat [implC]]
    /\ overrides s' implC interfaceM.
Proof.
  assert (Hparent : forall st itype parentImpl,
             In itype (interfaceTypesOf inheritingEnv (bases inheritingState)) ->
             findBaseImplementationOf inheritingEnv st itype = Some parentImpl ->
             implementsTable inheritingState (methods parentImpl)
               (tvInstanceMethods (typeView inheritingEnv itype))).
  { intros st itype parentImpl [<-|[]] Hfind. injection Hfind as <-.
    split; [reflexivity|]. intros [|j] m Hj; [|discriminate Hj]. injection Hj as <-.
    exists implB. split; [reflexivity|]. right. apply overrides_direct.
    unfold overriddenBy, fnStateOf. vm_compute. set_solver. }
  destruct (itable_slots inheritingEnv inheritingState
              eq_refl eq_refl eq_refl eq_refl eq_refl eq_refl Hparent)
    as (s' & Hrun & _ & _ & Hslots).
  exists s'. split; [exact Hrun|].
  pose proof Hrun as Hrun'. vm_compute in Hrun'. injection Hrun' as <-.
  split; [reflexivity|].
  destruct (Hslots (mkInterfaceTable 30%nat [implC]) (or_introl eq_refl))
    as [_ Hslot].
  destruct (Hslot 0%nat interfaceM eq_refl) as (f & Hf & [Heq|Hover]).
  - injection Hf as <-. discriminate Heq.
  - injection Hf as <-. exact Hover.
Defined.

(** The table of [I] in [C] holds [C.m], which overrides [I.m]. *)
Lemma interface_implementation_example :
  exists s',
    analyzeOverloading implementingEnv (newState [DFunction implM]) = Done true s'
    /\ interfaces s' = [mkInterfaceTable 30%nat [implM]]
    /\ instanceMethods s' = [implM]
    /\ overrides s' implM interfaceM
    /\ diag s' = [].
Proof.
  eexists. split; [vm_compute; reflexivity|].
  split; [reflexivity|]. split; [reflexivity|]. split; [|reflexivity].
  apply overrides_direct. unfold overriddenBy, fnStateOf. vm_compute. set_solver.
Qed.

(** ** Repeated requests *)

Lemma step_skip passesToRun p c k :
  PassSet.contains passesToRun p = false -> step passesToRun p c k = k.
Proof. intros H. unfold step. rewrite H. reflexivity. Qed.

Lemma guarded_skip passesToRun p body k :
  PassSet.contains passesToRun p = false -> guarded passesToRun p body k = k.
Proof. intros H. unfold guarded. rewrite H. reflexivity. Qed.

(** When every pass that [runPasses] would run for the set is finished, the
    call returns at once or walks past every statement. *)
Lemma runPasses_nothing_to_do env set s :
  (forall q, PassSet.contains set q = true -> runsOn (target env) q = true ->
             isFinished (passes s) q = true) ->
  runPasses env set s = Done true s.
Proof.
  intros Hdone. unfold runPasses, bind at 1, get.
  set (todo := PassSet.removeAll set (finished (passes s))).
  assert (Htodo : forall q, runsOn (target env) q = true -> PassSet.contains todo q = false).
  { intros q Hon. unfold todo. rewrite contains_removeAll.
    destruct (PassSet.contains set q) eqn:E; [|reflexivity].
    fold (isFinished (passes s) q). rewrite (Hdone q E Hon). reflexivity. }
  destruct (PassSet.isEmpty todo); [reflexivity|].
  unfold runsOn in Htodo.
  destruct (isTemplate (target env)).
  { rewrite step_skip, guarded_skip by (apply Htodo; reflexivity). reflexivity. }
  destruct (isTemplateMember (target env)); [reflexivity|].
  rewrite !guarded_skip, !step_skip by (apply Htodo; reflexivity). reflexivity.
Qed.

(** X1: after a successful request, a request for a task that asks for no
    pass the first one did not ask for returns true and changes nothing; in
    particular the same request again. *)
Theorem analyze_again env task task' s s' :
  noneRunning (passes s) ->
  analyze env task s = Done true s' ->
  (forall q, asksFor task' q = true -> asksFor task q = true) ->
  analyze env task' s' = Done true s'.
Proof.
  intros Hnr H Hsub. unfold analyze in *. unfold asksFor in Hsub.
  destruct (passSetOf task') as [set'|]; [|reflexivity].
  apply runPasses_nothing_to_do. intros q Hq Hon.
  specialize (Hsub q Hq).
  destruct (passSetOf task) as [set|]; [|discriminate Hsub].
  destruct (runPasses_success _ _ _ _ Hnr H) as [_ Hfin].
  rewrite Hfin, Hsub, Hon. reflexivity.
Qed.

Lemma analyze_again_witness :
  exists s',
    analyze emptyInterfaceEnv Task_PrepCodeGeneration (newState []) = Done true s'
    /\ analyze emptyInterfaceEnv Task_PrepEvaluation s' = Done true s'.
Proof.
  destruct (analyze emptyInterfaceEnv Task_PrepCodeGeneration (newState []))
    as [[] s'|] eqn:E; try (vm_compute in E; discriminate E).
  exists s'. split; [reflexivity|].
  apply (analyze_again emptyInterfaceEnv Task_PrepCodeGeneration Task_PrepEvaluation
           (newState []) s').
  - intros q. apply contains_empty.
  - exact E.
  - intros q. destruct q; vm_compute; congruence.
Defined.

(** ** Templates and their members *)

Lemma resolveBases_results env ft l : forall pb,
  preserves analysisResults (resolveBases env ft l pb).
Proof.
  induction l as [|x l IH]; intros pb; simpl.
  - frame.
  - unfold classifyBase. frame; try apply IH.
Qed.

Lemma analyzeBaseClasses_results env : preserves analysisResults (analyzeBaseClasses env).
Proof.
  unfold analyzeBaseClasses, analyzeBaseClassesImpl, beginPass, finishPass.
  frame; try apply resolveBases_results.
Qed.

Lemma finished_after_begin_finish p m q :
  q <> p ->
  isFinished (PassMgr_finish p (mkPassMgr (PassSet.add p (running m)) (finished m))) q
  = isFinished m q.
Proof.
  intros Hq. unfold isFinished, PassMgr_finish. simpl. rewrite contains_add.
  destruct (Pass_eqb p q) eqn:E; [|reflexivity].
  apply Pass_eqb_true in E. congruence.
Qed.

(** Whatever its result, the pass touches no bit of the registry but its own. *)
Lemma analyzeBaseClasses_others env s b s' :
  analyzeBaseClasses env s = Done b s' ->
  forall q, q <> BaseTypesPass -> isFinished (passes s') q = isFinished (passes s) q.
Proof.
  intros H q Hq. unfold analyzeBaseClasses in H.
  mstep H as m s0 Hm. apply get_Done in Hm as [-> ->].
  destruct (isRunning (passes s) BaseTypesPass).
  - assert (Hp : preserves passes (emit SevError MsgCircularInheritance ;; ret false)) by frame.
    rewrite (Hp _ _ _ H). reflexivity.
  - mstep H as begun s1 Hb.
    apply beginPass_Done in Hb as [(-> & Hf & Hr & ->)|(-> & Hp & Hc)]; simpl in H.
    + mstep H as result s2 Hi. mstep H as u s3 Hu. apply ret_Done in H as [_ <-].
      apply finishPass_Done in Hu. rewrite Hu.
      rewrite (analyzeBaseClassesImpl_passes env _ _ _ Hi). simpl.
      apply finished_after_begin_finish. exact Hq.
    + apply ret_Done in H as [_ <-]. rewrite Hp. reflexivity.
Qed.

Lemma guarded_others passesToRun p body s b s' :
  guarded passesToRun p body (ret true) s = Done b s' ->
  analysisResults s' = analysisResults s
  /\ forall q, q <> p -> isFinished (passes s') q = isFinished (passes s) q.
Proof.
  intros H. unfold guarded in H.
  destruct (PassSet.contains passesToRun p);
    [|apply ret_Done in H as [_ <-]; split; reflexivity].
  mstep H as begun s1 Hb.
  assert (Hr1 : analysisResults s1 = analysisResults s).
  { revert Hb. apply preserves_bind; [frame|]. intros m. unfold beginPass. frame. }
  apply beginPass_Done in Hb as [(-> & Hf & Hr & ->)|(-> & Hp & Hc)].
  - destruct body.
    + mstep H as u s2 Hu. apply ret_Done in H as [_ <-].
      apply modify_Done in Hu as ->. split; [reflexivity|].
      intros q Hq. simpl. apply finished_after_begin_finish. exact Hq.
    + apply ret_Done in H as [_ <-]. split; [reflexivity|].
      intros q Hq. unfold isFinished. reflexivity.
  - apply ret_Done in H as [_ <-]. split; [exact Hr1|]. intros q _. rewrite Hp. reflexivity.
Qed.

(** X2: the analysis of a template runs the base type resolution and the
    scope creation only: whatever the task and the result, it builds no field
    list, method table, interface table or converter list, and leaves every
    other pass as it was.  The analysis of the member of a template returns
    true and changes nothing at all. *)
Theorem templates_are_skipped env task s b s' :
  isTemplate (target env) = true \/ isTemplateMember (target env) = true ->
  analyze env task s = Done b s' ->
  analysisResults s' = analysisResults s
  /\ (forall q, q <> ScopeCreationPass -> q <> BaseTypesPass ->
        isFinished (passes s') q = isFinished (passes s) q)
  /\ (isTemplate (target env) = false -> b = true /\ s' = s).
Proof.
  intros Hk H. unfold analyze in H.
  destruct (passSetOf task) as [set|];
    [|apply ret_Done in H as [<- <-]; repeat split; reflexivity].
  unfold runPasses in H. mstep H as fin s0 Hget. apply get_Done in Hget as [-> ->].
  destruct (PassSet.isEmpty _);
    [apply ret_Done in H as [<- <-]; repeat split; reflexivity|].
  destruct (isTemplate (target env)) eqn:Ht.
  - unfold step in H.
    destruct (PassSet.contains _ BaseTypesPass).
    + mstep H as ok s1 Hok.
      pose proof (analyzeBaseClasses_results env _ _ _ Hok) as Hr1.
      pose proof (analyzeBaseClasses_others env _ _ _ Hok) as Hp1.
      destruct ok.
      * apply guarded_others in H as [Hr2 Hp2].
        split; [congruence|]. split; [|discriminate].
        intros q Hq1 Hq2. rewrite Hp2, Hp1 by assumption. reflexivity.
      * apply ret_Done in H as [_ <-].
        split; [exact Hr1|]. split; [|discriminate].
        intros q Hq1 Hq2. apply Hp1. exact Hq2.
    + apply guarded_others in H as [Hr2 Hp2].
      split; [exact Hr2|]. split; [|discriminate].
      intros q Hq1 Hq2. apply Hp2. exact Hq1.
  - destruct Hk as [Hk|Hk]; [discriminate|]. rewrite Hk in H.
    apply ret_Done in H as [<- <-]. repeat split; reflexivity.
Qed.

Lemma templates_are_skipped_witness :
  exists s',
    analyze templateEnv Task_PrepCodeGeneration (newState [DFunction newFoo]) = Done true s'
    /\ analysisResults s' = analysisResults (newState [DFunction newFoo])
    /\ isFinished (passes s') OverloadingPass = false.
Proof.
  destruct (analyze templateEnv Task_PrepCodeGeneration (newState [DFunction newFoo]))
    as [[] s'|] eqn:E; try (vm_compute in E; discriminate E).
  exists s'. split; [reflexivity|].
  destruct (templates_are_skipped templateEnv Task_PrepCodeGeneration
              (newState [DFunction newFoo]) true s' (or_introl eq_refl) E)
    as (Hr & Hp & _).
  split; [exact Hr|]. rewrite Hp by discriminate. reflexivity.
Defined.

(** ** A failed base type resolution *)

Lemma resolveBases_super env ft l : forall pb, preserves super (resolveBases env ft l pb).
Proof.
  induction l as [|x l IH]; intros pb; simpl.
  - frame.
  - unfold classifyBase. frame; try apply IH.
Qed.

Lemma analyzeBaseClassesImpl_failed env s s' :
  analyzeBaseClassesImpl env s = Done false s' -> super s' = super s.
Proof.
  intros H. unfold analyzeBaseClassesImpl in H.
  destruct (negb (hasAST (target env))); [apply ret_Done in H as [? _]; discriminate|].
  mstep H as u s1 Hu.
  assert (H1 : super s1 = super s) by (revert Hu; apply (preserves_when super); frame).
  mstep H as r s2 Hr.
  pose proof (resolveBases_super env _ _ _ _ _ _ Hr) as H2.
  destruct r as [pb|].
  - exfalso. revert H. unfold bind.
    repeat match goal with
           | |- context [match ?c ?x with Done _ _ => _ | Aborted _ _ => _ end] =>
               destruct (c x)
           end; intros H; try discriminate H.
  - apply ret_Done in H as [_ <-]. congruence.
Qed.

Lemma beginPass_at_rest p quiet s b s1 :
  noneRunning (passes s) ->
  beginPass p quiet s = Done b s1 ->
  (b = true /\ isFinished (passes s) p = false
   /\ s1 = setPasses (mkPassMgr (PassSet.add p (running (passes s))) (finished (passes s))) s)
  \/ (b = false /\ isFinished (passes s) p = true /\ s1 = s).
Proof.
  intros Hnr H. unfold beginPass in H. mstep H as m s0 Hm. apply get_Done in Hm as [-> ->].
  destruct (begin_cases p (passes s)) as [(Hf & E)|[(Hf & Hr & E)|(Hf & Hr & E)]];
    rewrite E in H.
  - apply ret_Done in H as [<- <-]. right. auto.
  - rewrite Hnr in Hr. discriminate Hr.
  - mstep H as u s2 Hu. apply ret_Done in H as [<- <-].
    apply modify_Done in Hu as ->. left. auto.
Qed.

Lemma analyzeBaseClasses_failed env s s' :
  isRunning (passes s) BaseTypesPass = false ->
  analyzeBaseClasses env s = Done false s' -> super s' = super s.
Proof.
  intros Hr H. unfold analyzeBaseClasses in H.
  mstep H as m s0 Hm. apply get_Done in Hm as [-> ->]. rewrite Hr in H.
  mstep H as begun s1 Hb.
  assert (H1 : super s1 = super s).
  { assert (Hp : preserves super (beginPass BaseTypesPass false))
      by (unfold beginPass; frame).
    exact (Hp _ _ _ Hb). }
  destruct begun; simpl in H; [|apply ret_Done in H as [? _]; discriminate].
  mstep H as result s2 Hi. mstep H as u s3 Hu. apply ret_Done in H as [-> <-].
  apply modify_Done in Hu as ->. simpl.
  rewrite (analyzeBaseClassesImpl_failed _ _ _ Hi). exact H1.
Qed.

(** X3: when preparing a type for comparison fails in the base type
    resolution, the BaseTypes pass is finished all the same and no super type
    is set; the failure is not recorded, so that the same request made again
    returns true without doing anything. *)
Theorem base_failure_forgotten env s s' :
  isTemplate (target env) = false ->
  isTemplateMember (target env) = false ->
  createMembersFromAST env = true ->
  noneRunning (passes s) ->
  analyze env Task_PrepTypeComparison s = Done false s' ->
  isFinished (passes s') ScopeCreationPass = true
  /\ isFinished (passes s') BaseTypesPass = true
  /\ super s' = super s
  /\ analyze env Task_PrepTypeComparison s' = Done true s'.
Proof.
  intros Ht Hm Hcm Hnr H.
  assert (Hfin : isFinished (passes s') ScopeCreationPass = true
                 /\ isFinished (passes s') BaseTypesPass = true
                 /\ super s' = super s).
  { unfold analyze in H. simpl passSetOf in H. unfold runPasses in H.
    mstep H as fin s0 Hget. apply get_Done in Hget as [-> ->].
    set (todo := PassSet.removeAll PASS_SET_RESOLVE_TYPE (finished (passes s))) in *.
    assert (Hout : forall q, PassSet.contains PASS_SET_RESOLVE_TYPE q = false ->
                             PassSet.contains todo q = false).
    { intros q Hq. unfold todo. rewrite contains_removeAll, Hq. reflexivity. }
    destruct (PassSet.isEmpty todo); [apply ret_Done in H as [? _]; discriminate|].
    rewrite Ht, Hm, Hcm in H.
    rewrite (guarded_skip todo AttributePass) in H by (apply Hout; reflexivity).
    rewrite (step_skip todo NamingConflictPass), (step_skip todo MemberTypePass),
      (step_skip todo FieldPass), (step_skip todo ConverterPass),
      (step_skip todo ConstructorPass), (step_skip todo MethodPass),
      (step_skip todo OverloadingPass), (step_skip todo FieldTypePass),
      (step_skip todo CompletionPass) in H by (apply Hout; reflexivity).
    unfold guarded in H.
    assert (Hscope : exists s1,
               noneRunning (passes s1) /\ super s1 = super s
               /\ isFinished (passes s1) ScopeCreationPass = true
               /\ step todo BaseTypesPass (analyzeBaseClasses env) (ret true) s1
                  = Done false s').
    { destruct (PassSet.contains todo ScopeCreationPass) eqn:Hc.
      - mstep H as begun s1 Hb.
        apply (beginPass_at_rest _ _ _ _ _ Hnr) in Hb as [(-> & Hf & ->)|(-> & Hf & ->)].
        + mstep H as u s2 Hu. apply modify_Done in Hu as ->.
          eexists. split; [|split; [|split; [|exact H]]].
          * apply ranPass_begin_finish. exact Hnr.
          * reflexivity.
          * simpl. unfold isFinished, PassMgr_finish. simpl. rewrite contains_add.
            reflexivity.
        + exists s. auto.
      - exists s. split; [exact Hnr|]. split; [reflexivity|]. split; [|exact H].
        unfold todo in Hc. rewrite contains_removeAll in Hc.
        change (PassSet.contains PASS_SET_RESOLVE_TYPE ScopeCreationPass) with true in Hc.
        simpl in Hc. apply negb_false_iff in Hc. exact Hc. }
    destruct Hscope as (s1 & Hnr1 & Hs1 & Hf1 & H1). unfold step in H1.
    destruct (PassSet.contains todo BaseTypesPass);
      [|apply ret_Done in H1 as [? _]; discriminate].
    mstep H1 as ok s2 Hok.
    destruct ok; apply ret_Done in H1 as [E <-]; [discriminate|].
    destruct (analyzeBaseClasses_ran env _ _ _ Hnr1 Hok) as [_ Hran].
    rewrite !Hran, Hf1. split; [apply orb_true_r|]. split; [reflexivity|].
    rewrite <- Hs1. apply (analyzeBaseClasses_failed env); [apply Hnr1|exact Hok]. }
  destruct Hfin as (Hf1 & Hf2 & Hs). repeat split; try assumption.
  unfold analyze. simpl passSetOf. apply runPasses_nothing_to_do.
  intros q Hq _. destruct q; try (vm_compute in Hq; discriminate Hq); assumption.
Qed.

Lemma base_failure_forgotten_witness :
  exists s',
    analyze unresolvedBaseEnv Task_PrepTypeComparison (newState []) = Done false s'
    /\ isFinished (passes s') BaseTypesPass = true
    /\ super s' = None
    /\ analyze unresolvedBaseEnv Task_PrepTypeComparison s' = Done true s'.
Proof.
  destruct (analyze unresolvedBaseEnv Task_PrepTypeComparison (newState []))
    as [[] s'|] eqn:E; try (vm_compute in E; discriminate E).
  exists s'. split; [reflexivity|].
  assert (Hnr : noneRunning (passes (newState []))) by (intros q; apply contains_empty).
  destruct (base_failure_forgotten unresolvedBaseEnv (newState []) s'
              eq_refl eq_refl eq_refl Hnr E) as (_ & Hf & Hs & Hagain).
  split; [exact Hf|]. split; [exact Hs|exact Hagain].
Defined.

(** ** Naming conflicts *)

Lemma symbolTable_holds ms d :
  In d ms -> exists ds, In (defnName d, ds) (symbolTable ms) /\ In d ds.
Proof.
  unfold symbolTable.
  assert (Hkeep : forall l t n ds x, In (n, ds) t -> In x ds ->
            exists ds', In (n, ds') (fold_left (fun t d => addToTable d t) l t) /\ In x ds').
  { induction l as [|e l IH]; intros t n ds x Hin Hx; simpl; [eauto|].
    destruct (addToTable_keeps e t n ds x Hin Hx) as (ds' & Hin' & Hx'). eauto. }
  assert (Hgen : forall l t, In d l ->
            exists ds, In (defnName d, ds) (fold_left (fun t d => addToTable d t) l t)
                       /\ In d ds).
  { induction l as [|e l IH]; intros t Hd; simpl; [destruct Hd|].
    destruct Hd as [->|Hd]; [|apply IH; exact Hd].
    destruct (addToTable_adds d t) as (ds & Hin & Hx). eauto. }
  apply Hgen.
Qed.

Lemma table_entry_unique (t : SymbolTable) n ds ds' :
  NoDup (map fst t) -> In (n, ds) t -> In (n, ds') t -> ds = ds'.
Proof.
  induction t as [|[m ms] t IH]; simpl; [intros _ []|].
  intros Hn H1 H2. apply NoDup_cons in Hn as [Hnotin Hn'].
  rewrite list_elem_of_In in Hnotin.
  destruct H1 as [E1|H1], H2 as [E2|H2].
  - congruence.
  - injection E1 as -> ->. exfalso. apply Hnotin. apply in_map_iff. exists (n, ds'). auto.
  - injection E2 as -> ->. exfalso. apply Hnotin. apply in_map_iff. exists (n, ds). auto.
  - apply IH; assumption.
Qed.

Lemma find_kind front ds :
  find (fun de => negb (DefnType_eqb (defnType de) (defnType front))) ds = None
  <-> forallb (fun de => DefnType_eqb (defnType de) (defnType front)) ds = true.
Proof.
  induction ds as [|d ds IH]; simpl; [tauto|].
  destruct (DefnType_eqb (defnType d) (defnType front)); simpl; [exact IH|].
  split; discriminate.
Qed.

Lemma conflictNames_app l l' : conflictNames (l ++ l') = conflictNames l ++ conflictNames l'.
Proof.
  induction l as [|[sev m] l IH]; simpl; [reflexivity|].
  destruct sev, m; simpl; rewrite ?IH; reflexivity.
Qed.

Lemma checkEntry_result entry s :
  (forall d, In d (snd entry) -> defnName d = fst entry) ->
  exists new,
    checkEntry entry s = Done (sameKind entry) (setDiag (diag s ++ new) s)
    /\ conflictNames new = (if sameKind entry then [] else [fst entry])
    /\ (sameKind entry = true -> new = []).
Proof.
  intros Hnames. unfold checkEntry, sameKind.
  destruct (snd entry) as [|front rest] eqn:E.
  - exists []. rewrite app_nil_r, setDiag_same. auto.
  - destruct (find _ (front :: rest)) as [de|] eqn:F.
    + exists [(SevError, MsgNameConflict (defnName de));
              (SevInfo, MsgEarlierDefinition (defnName front))].
      assert (Hall : forallb (fun de => DefnType_eqb (defnType de) (defnType front))
                       (front :: rest) = false).
      { destruct (forallb _ (front :: rest)) eqn:A; [|reflexivity].
        apply find_kind in A. congruence. }
      rewrite Hall. split.
      { unfold bind, emit, modify, ret. simpl. rewrite <- app_assoc. reflexivity. }
      split; [|discriminate]. simpl.
      apply find_some in F as [Hin _]. rewrite (Hnames de Hin). reflexivity.
    + exists []. apply find_kind in F. rewrite F, app_nil_r, setDiag_same. auto.
Qed.

Lemma checkEntries_result symbols : forall success s,
  (forall n ds, In (n, ds) symbols -> forall d, In d ds -> defnName d = n) ->
  exists new,
    checkEntries symbols success s
    = Done (success && forallb sameKind symbols) (setDiag (diag s ++ new) s)
    /\ conflictNames new = map fst (List.filter (fun e => negb (sameKind e)) symbols)
    /\ (forallb sameKind symbols = true -> new = []).
Proof.
  induction symbols as [|entry rest IH]; intros success s Hnames; simpl.
  - exists []. rewrite andb_true_r, app_nil_r, setDiag_same. auto.
  - destruct (checkEntry_result entry s) as (new1 & E1 & Hc1 & Hn1).
    { intros d Hd. destruct entry as [n ds]. apply (Hnames n ds); [left; reflexivity|exact Hd]. }
    destruct (IH (success && sameKind entry) (setDiag (diag s ++ new1) s)) as (new2 & E2 & Hc2 & Hn2).
    { intros n ds Hin. apply Hnames. right. exact Hin. }
    exists (new1 ++ new2). split.
    { rewrite (bind_run _ _ _ _ _ E1), E2. simpl. rewrite app_assoc, andb_assoc. reflexivity. }
    split.
    + rewrite conflictNames_app, Hc1, Hc2. destruct (sameKind entry); reflexivity.
    + intros H. apply andb_true_iff in H as [Ha Hb]. rewrite Hn1, Hn2 by assumption.
      reflexivity.
Qed.

Lemma NoDup_names_filter (t : SymbolTable) f :
  NoDup (map fst t) -> NoDup (map fst (List.filter f t)).
Proof.
  induction t as [|e t IH]; simpl; [auto|].
  intros Hn. apply NoDup_cons in Hn as [Hnotin Hn'].
  destruct (f e); simpl; [|apply IH; exact Hn'].
  apply NoDup_cons. split; [|apply IH; exact Hn'].
  intros Hin. apply Hnotin.
  apply list_elem_of_In, in_map_iff in Hin as (e' & He' & Hin').
  apply List.filter_In in Hin' as [Hin' _].
  apply list_elem_of_In, in_map_iff. exists e'. auto.
Qed.

Lemma sameKind_kindsAgree ms :
  forallb sameKind (symbolTable ms) = true <-> kindsAgree ms.
Proof.
  destruct (symbolTable_wellFormed ms) as [He Hn]. split.
  - intros Hall d1 d2 H1 H2 Hname.
    destruct (symbolTable_holds ms d1 H1) as (ds1 & Hin1 & Hd1).
    destruct (symbolTable_holds ms d2 H2) as (ds2 & Hin2 & Hd2).
    rewrite Hname in Hin1.
    pose proof (table_entry_unique _ _ _ _ Hn Hin1 Hin2) as ->.
    rewrite forallb_forall in Hall. specialize (Hall _ Hin2).
    unfold sameKind in Hall. simpl in Hall.
    destruct ds2 as [|front rest]; [destruct Hd1|].
    rewrite forallb_forall in Hall.
    pose proof (Hall d1 Hd1) as A1. pose proof (Hall d2 Hd2) as A2.
    apply DefnType_eqb_eq in A1, A2. congruence.
  - intros Hagree. apply forallb_forall. intros [n ds] Hin.
    unfold sameKind. simpl. destruct (He _ _ Hin) as [_ Hall].
    destruct ds as [|front rest]; [reflexivity|].
    apply forallb_forall. intros de Hde. apply DefnType_eqb_eq.
    assert (Hfront : In front (front :: rest)) by (left; reflexivity).
    apply Hagree.
    + apply (symbolTable_In ms (n, front :: rest)); [exact Hin|exact Hde].
    + apply (symbolTable_In ms (n, front :: rest)); [exact Hin|exact Hfront].
    + rewrite (Hall de Hde). symmetry. apply Hall. exact Hfront.
Qed.

Lemma conflicting_entries ms n :
  In n (map fst (List.filter (fun e => negb (sameKind e)) (symbolTable ms)))
  <-> inConflict ms n.
Proof.
  destruct (symbolTable_wellFormed ms) as [He Hn]. split.
  - intros Hin. apply in_map_iff in Hin as ([m ds] & Hm & Hin). simpl in Hm. subst m.
    apply List.filter_In in Hin as [Hin Hk]. apply negb_true_iff in Hk.
    destruct (He _ _ Hin) as [_ Hall].
    unfold sameKind in Hk. simpl in Hk.
    assert (Hex : exists front de, In front ds /\ In de ds
                                   /\ defnType de <> defnType front).
    { destruct ds as [|front rest]; [discriminate|]. exists front.
      assert (Hgen : forall l,
                 forallb (fun de => DefnType_eqb (defnType de) (defnType front)) l = false ->
                 exists de, In de l /\ defnType de <> defnType front).
      { induction l as [|d l IH]; simpl; [discriminate|].
        destruct (DefnType_eqb (defnType d) (defnType front)) eqn:A; simpl.
        - intros Hl. destruct (IH Hl) as (de & Hde & Hne).
          exists de. split; [right; exact Hde|exact Hne].
        - intros _. exists d. split; [left; reflexivity|]. intros Heq.
          apply DefnType_eqb_eq in Heq. congruence. }
      destruct (Hgen _ Hk) as (de & Hde & Hne). exists de.
      split; [left; reflexivity|]. split; assumption. }
    destruct Hex as (front & de & Hfront & Hde & Hne).
    exists de, front.
    split; [apply (symbolTable_In ms (n, ds)); assumption|].
    split; [apply (symbolTable_In ms (n, ds)); assumption|].
    split; [apply Hall; exact Hde|]. split; [apply Hall; exact Hfront|exact Hne].
  - intros (d1 & d2 & H1 & H2 & N1 & N2 & Hne).
    destruct (symbolTable_holds ms d1 H1) as (ds1 & Hin1 & Hd1).
    destruct (symbolTable_holds ms d2 H2) as (ds2 & Hin2 & Hd2).
    rewrite N1 in Hin1. rewrite N2 in Hin2.
    pose proof (table_entry_unique _ _ _ _ Hn Hin1 Hin2) as ->.
    apply in_map_iff. exists (n, ds2). split; [reflexivity|].
    apply List.filter_In. split; [exact Hin2|]. apply negb_true_iff.
    destruct (sameKind (n, ds2)) eqn:K; [|reflexivity]. exfalso. apply Hne.
    unfold sameKind in K. simpl in K. destruct ds2 as [|front rest]; [destruct Hd1|].
    rewrite forallb_forall in K.
    pose proof (K d1 Hd1) as A1. pose proof (K d2 Hd2) as A2.
    apply DefnType_eqb_eq in A1, A2. congruence.
Qed.

(** What the check does once it has begun. *)
Lemma checkNameConflicts_begun s :
  isFinished (passes s) NamingConflictPass = false ->
  isRunning (passes s) NamingConflictPass = false ->
  exists new,
    checkNameConflicts s
    = Done (forallb sameKind (symbolTable (members s)))
        (setDiag (diag s ++ new)
           (setPasses (PassMgr_finish NamingConflictPass
                         (mkPassMgr (PassSet.add NamingConflictPass (running (passes s)))
                                    (finished (passes s)))) s))
    /\ conflictNames new
       = map fst (List.filter (fun e => negb (sameKind e)) (symbolTable (members s)))
    /\ (forallb sameKind (symbolTable (members s)) = true -> new = []).
Proof.
  intros Hf Hr.
  set (s1 := setPasses (mkPassMgr (PassSet.add NamingConflictPass (running (passes s)))
                                  (finished (passes s))) s).
  assert (Hbegin : beginPass NamingConflictPass false s = Done true s1).
  { unfold beginPass, bind, get, PassMgr_begin. rewrite Hf, Hr. reflexivity. }
  destruct (checkEntries_result (symbolTable (members s)) true s1) as (new & E & Hc & Hn).
  { intros n ds Hin. apply (symbolTable_wellFormed (members s)). exact Hin. }
  exists new. split; [|split; assumption].
  unfold checkNameConflicts. rewrite (bind_run _ _ _ _ _ Hbegin).
  erewrite bind_run; [|reflexivity]. change (members s1) with (members s).
  rewrite (bind_run _ _ _ _ _ E). reflexivity.
Qed.

(** X4: the naming conflict check returns true exactly when the members
    that share a name are all of one kind, and then reports nothing.  A name
    is reported when two of its members differ in kind, and only once however
    many of them do; the pass is finished whether or not there are conflicts. *)
Theorem name_conflicts s :
  isFinished (passes s) NamingConflictPass = false ->
  isRunning (passes s) NamingConflictPass = false ->
  exists b s' new,
    checkNameConflicts s = Done b s'
    /\ isFinished (passes s') NamingConflictPass = true
    /\ members s' = members s
    /\ diag s' = diag s ++ new
    /\ (b = true <-> kindsAgree (members s))
    /\ (b = true -> new = [])
    /\ NoDup (conflictNames new)
    /\ (forall n, In n (conflictNames new) <-> inConflict (members s) n).
Proof.
  intros Hf Hr. destruct (checkNameConflicts_begun s Hf Hr) as (new & E & Hc & Hn).
  eexists _, _, new. split; [exact E|].
  split; [unfold isFinished, PassMgr_finish; simpl; rewrite contains_add; reflexivity|].
  split; [reflexivity|]. split; [reflexivity|].
  split; [apply sameKind_kindsAgree|]. split; [exact Hn|].
  rewrite Hc. split.
  - apply NoDup_names_filter. apply (symbolTable_wellFormed (members s)).
  - intros n. apply conflicting_entries.
Qed.

Lemma name_conflicts_witness :
  exists s' new,
    checkNameConflicts (newState clashingMembers) = Done false s'
    /\ isFinished (passes s') NamingConflictPass = true
    /\ diag s' = new
    /\ conflictNames new = ["size"%string].
Proof.
  destruct (name_conflicts (newState clashingMembers) eq_refl eq_refl)
    as (b & s' & new & E & Hfin & _ & Hd & _).
  vm_compute in E. injection E as <- <-.
  eexists _, _. split; [reflexivity|]. split; [reflexivity|]. split; reflexivity.
Defined.

(** ** A naming conflict ends the request *)

Lemma guarded_step passesToRun p body (k : M bool) s b s' :
  noneRunning (passes s) ->
  guarded passesToRun p body k s = Done b s' ->
  (b = false /\ analysisResults s' = analysisResults s
   /\ typeRelations s' = typeRelations s
   /\ forall q, q <> p -> isFinished (passes s') q = isFinished (passes s) q)
  \/ exists s1,
       k s1 = Done b s' /\ noneRunning (passes s1)
       /\ members s1 = members s
       /\ analysisResults s1 = analysisResults s
       /\ typeRelations s1 = typeRelations s
       /\ forall q, q <> p -> isFinished (passes s1) q = isFinished (passes s) q.
Proof.
  intros Hnr H. unfold guarded in H.
  destruct (PassSet.contains passesToRun p); [|right; exists s; auto 10].
  mstep H as begun s1 Hb.
  apply (beginPass_at_rest _ _ _ _ _ Hnr) in Hb as [(-> & Hf & ->)|(-> & Hf & ->)];
    [|right; exists s; auto 10].
  destruct body.
  - mstep H as u s2 Hu. apply modify_Done in Hu as ->. right.
    eexists. split; [exact H|]. split; [apply ranPass_begin_finish; exact Hnr|].
    split; [reflexivity|]. split; [reflexivity|]. split; [reflexivity|].
    intros q Hq. simpl. apply finished_after_begin_finish. exact Hq.
  - apply ret_Done in H as [<- <-]. left. split; [reflexivity|].
    split; [reflexivity|]. split; [reflexivity|]. intros q Hq. reflexivity.
Qed.

(** X5: on a type with two members of one name and of different kinds, a
    request that asks for the naming conflict check never succeeds, and it
    ends at that check: the base types are not resolved, no later pass
    begins, and nothing is built on the type. *)
Theorem name_conflict_ends_request env task s b s' :
  isTemplate (target env) = false ->
  isTemplateMember (target env) = false ->
  noneRunning (passes s) ->
  asksFor task NamingConflictPass = true ->
  isFinished (passes s) NamingConflictPass = false ->
  ~ kindsAgree (members s) ->
  analyze env task s = Done b s' ->
  b = false
  /\ typeRelations s' = typeRelations s
  /\ analysisResults s' = analysisResults s
  /\ forall q, q <> ScopeCreationPass -> q <> AttributePass -> q <> NamingConflictPass ->
       isFinished (passes s') q = isFinished (passes s) q.
Proof.
  intros Ht Hm Hnr Hask Hf Hbad H. unfold analyze in H. unfold asksFor in Hask.
  destruct (passSetOf task) as [set|]; [|discriminate Hask].
  unfold runPasses in H. mstep H as fin s0 Hget. apply get_Done in Hget as [-> ->].
  set (todo := PassSet.removeAll set (finished (passes s))) in *.
  assert (Htodo : PassSet.contains todo NamingConflictPass = true).
  { unfold todo. rewrite contains_removeAll, Hask. fold (isFinished (passes s) NamingConflictPass).
    rewrite Hf. reflexivity. }
  destruct (PassSet.isEmpty todo) eqn:Hempty.
  { rewrite (isEmpty_contains _ NamingConflictPass Hempty) in Htodo. discriminate Htodo. }
  rewrite Ht, Hm in H.
  apply (guarded_step _ _ _ _ _ _ _ Hnr) in H
    as [(-> & Hr1 & Hs1 & Hp1)|(s1 & H & Hnr1 & Hm1 & Hr1 & Hs1 & Hp1)].
  { split; [reflexivity|]. split; [exact Hs1|]. split; [exact Hr1|].
    intros q Hq _ _. apply Hp1. exact Hq. }
  apply (guarded_step _ _ _ _ _ _ _ Hnr1) in H
    as [(-> & Hr2 & Hs2 & Hp2)|(s2 & H & Hnr2 & Hm2 & Hr2 & Hs2 & Hp2)].
  { split; [reflexivity|]. split; [congruence|]. split; [congruence|].
    intros q Hq1 Hq2 _. rewrite Hp2, Hp1 by assumption. reflexivity. }
  unfold step at 1 in H. rewrite Htodo in H. mstep H as ok s3 Hok.
  assert (Hf2 : isFinished (passes s2) NamingConflictPass = false).
  { rewrite Hp2, Hp1 by discriminate. exact Hf. }
  destruct (checkNameConflicts_begun s2 Hf2 (Hnr2 _)) as (new & E & _ & _).
  rewrite E in Hok. injection Hok as <- <-.
  assert (Hno : forallb sameKind (symbolTable (members s2)) = false).
  { destruct (forallb sameKind (symbolTable (members s2))) eqn:A; [|reflexivity].
    exfalso. apply Hbad. rewrite <- Hm1, <- Hm2. apply sameKind_kindsAgree. exact A. }
  rewrite Hno in H. apply ret_Done in H as [<- <-].
  split; [reflexivity|]. split; [unfold typeRelations in *; simpl; congruence|].
  split; [unfold analysisResults in *; simpl; congruence|].
  intros q Hq1 Hq2 Hq3. simpl. rewrite finished_after_begin_finish by assumption.
  rewrite Hp2, Hp1 by assumption. reflexivity.
Qed.

Lemma name_conflict_ends_request_witness :
  exists s',
    analyze (plainEnv (plainType Class) (fun _ => viewOf Class []))
      Task_PrepConstruction (newState clashingMembers) = Done false s'
    /\ super s' = None
    /\ isFinished (passes s') BaseTypesPass = false
    /\ isFinished (passes s') ConstructorPass = false.
Proof.
  set (env := plainEnv (plainType Class) (fun _ => viewOf Class [])).
  destruct (analyze env Task_PrepConstruction (newState clashingMembers))
    as [b s'|] eqn:E; [|vm_compute in E; discriminate E].
  assert (Hnr : noneRunning (passes (newState clashingMembers)))
    by (intros q; apply contains_empty).
  assert (Hbad : ~ kindsAgree (members (newState clashingMembers))).
  { intros Hagree.
    specialize (Hagree (DVariable (field "size" false Storage_Instance Public None))
                  (DFunction (method 4%nat "size" someBody false))).
    simpl in Hagree. discriminate Hagree; auto. }
  destruct (name_conflict_ends_request env Task_PrepConstruction
              (newState clashingMembers) b s' eq_refl eq_refl Hnr eq_refl eq_refl Hbad E)
    as (-> & Hs & _ & Hp).
  exists s'. split; [reflexivity|].
  split; [injection Hs as Hs _; exact Hs|].
  split; rewrite Hp by discriminate; reflexivity.
Defined.

(** ** Converters *)

Lemma begin_run p quiet s :
  isFinished (passes s) p = false -> isRunning (passes s) p = false ->
  beginPass p quiet s
  = Done true (setPasses (mkPassMgr (PassSet.add p (running (passes s)))
                                    (finished (passes s))) s).
Proof.
  intros Hf Hr. unfold beginPass, bind, get, PassMgr_begin. rewrite Hf, Hr. reflexivity.
Qed.

Lemma finished_own p m : isFinished (PassMgr_finish p m) p = true.
Proof.
  unfold isFinished, PassMgr_finish. simpl. rewrite contains_add, Pass_eqb_refl. reflexivity.
Qed.

Lemma isSingularIn_updateFn s f u g :
  (forall st, addedSingular st = true -> addedSingular (u st) = true) ->
  isSingularIn s g = true ->
  isSingularIn (setFunctions (<[fnId f := u (fnStateOf s f)]> (functions s)) s) g = true.
Proof.
  intros Hu. unfold isSingularIn. rewrite fnStateOf_updateFn.
  destruct (fnDeclaredSingular g); [reflexivity|]. simpl.
  destruct (decide _); [apply Hu|auto].
Qed.

Lemma coercersAmong_In ds f :
  In f (coercersAmong ds) <-> In (DFunction f) ds /\ isCoercer f = true.
Proof.
  induction ds as [|d ds IH]; simpl; [tauto|].
  destruct d as [v|g|p|nm sc sg|nm]; try (rewrite IH; split; [tauto|];
    intros [[E|H] Hc]; [discriminate E|tauto]).
  destruct (isCoercer g) eqn:E; simpl; rewrite IH; split.
  - intros [<-|[H Hc]]; auto.
  - intros [[Heq|H] Hc]; [injection Heq as <-; auto|auto].
  - tauto.
  - intros [[Heq|H] Hc]; [injection Heq as <-; congruence|auto].
Qed.

Section Converters.
Variable env : Env.

Lemma addCoercers_result ds : forall s,
exists s',
  forEach ds (addCoercer env) s = Done tt s'
  /\ coercers s' = coercers s ++ coercersAmong ds
  /\ members s' = members s
  /\ passes s' = passes s
  /\ diag s' = diag s
  /\ (forall g, isSingularIn s g = true -> isSingularIn s' g = true)
  /\ (forall f, In f (coercersAmong ds) ->
        fnHasUnboundTypeParams f = false -> isSingular (target env) = true ->
        isSingularIn s' f = true).
Proof.
induction ds as [|d ds IH]; intros s.
- exists s. simpl. rewrite app_nil_r. repeat split; auto.
- destruct d as [v|fn|p|nm sc sg|nm];
    try (destruct (IH s) as (s' & E & H); exists s'; split; [exact E|exact H]).
  cbn [forEach addCoercer coercersAmong]. fold (isCoercer fn).
  destruct (isCoercer fn) eqn:Hc.
  + set (mark := negb (fnHasUnboundTypeParams fn) && isSingular (target env)).
    set (s1 := if mark
               then setFunctions
                      (<[fnId fn := mkFnState (dispatchIndex (fnStateOf s fn))
                                      (overriddenMethods (fnStateOf s fn))
                                      (addedCtor (fnStateOf s fn)) true]> (functions s)) s
               else s).
    set (s2 := setCoercers (coercers s1 ++ [fn]) s1).
    assert (Hstep : bind (when mark (addSingularTrait fn))
                      (fun _ => modify (fun s => setCoercers (coercers s ++ [fn]) s)) s
                    = Done tt s2).
    { unfold s2, s1. destruct mark; reflexivity. }
    assert (Hkeep : forall g, isSingularIn s g = true -> isSingularIn s2 g = true).
    { intros g Hg. unfold s2, s1. destruct mark; [|exact Hg].
      change (isSingularIn
                (setFunctions
                   (<[fnId fn := (fun x => mkFnState (dispatchIndex x) (overriddenMethods x)
                                             (addedCtor x) true) (fnStateOf s fn)]>
                      (functions s)) s) g = true).
      apply isSingularIn_updateFn; auto. }
    destruct (IH s2) as (s' & E & Hco & Hm & Hp & Hd & Hs & Hnew).
    exists s'. split; [rewrite (bind_run _ _ _ _ _ Hstep); exact E|].
    assert (Hfrom : coercers s2 = coercers s ++ [fn] /\ members s2 = members s
                    /\ passes s2 = passes s /\ diag s2 = diag s)
      by (unfold s2, s1; destruct mark; auto).
    destruct Hfrom as (C2 & M2 & P2 & D2).
    split; [rewrite Hco, C2, <- app_assoc; reflexivity|].
    split; [congruence|]. split; [congruence|]. split; [congruence|].
    split; [intros g Hg; apply Hs, Hkeep, Hg|].
    intros f [<-|Hf] Hu Hsing; [|apply Hnew; assumption].
    apply Hs. unfold s2, s1, mark. rewrite Hu, Hsing. simpl.
    unfold isSingularIn, fnStateOf. simpl. rewrite lookup_insert_eq. simpl.
    apply orb_true_r.
  + destruct (IH s) as (s' & E & H). exists s'. split; [|exact H].
    rewrite (bind_run _ _ _ _ _ (eq_refl : ret tt s = Done tt s)). exact E.
Qed.

(** X6: the Converter pass of a class or a struct appends to the converters
  of the type exactly its own functions named [coerce] that are static,
  take one parameter, return a value and have a valid signature, each once
  and in the order of their declaration; an instance method of that name is
  left out, and an interface or a protocol gets no converter.  The pass
  reports nothing and returns true. *)
Theorem converters s :
isFinished (passes s) ConverterPass = false ->
isRunning (passes s) ConverterPass = false ->
let added := if isClassOrStruct (typeClass (target env))
             then coercersAmong (lookupMember idCoerce (members s))
             else [] in
exists s',
  analyzeConverters env s = Done true s'
  /\ isFinished (passes s') ConverterPass = true
  /\ coercers s' = coercers s ++ added
  /\ members s' = members s
  /\ diag s' = diag s
  /\ (forall f, In f added <->
        isClassOrStruct (typeClass (target env)) = true
        /\ In (DFunction f) (members s) /\ fnName f = idCoerce
        /\ fnStorageClass f = Storage_Static /\ length (fnParams f) = 1%nat
        /\ fnReturnsNonVoid f = true /\ fnSignatureOk f = true)
  /\ (forall f, In f added -> fnHasUnboundTypeParams f = false ->
        isSingular (target env) = true -> isSingularIn s' f = true).
Proof.
intros Hf Hr added. unfold analyzeConverters.
rewrite (bind_run _ _ _ _ _ (begin_run _ _ _ Hf Hr)).
set (s1 := setPasses _ s). unfold added. clear added.
destruct (isClassOrStruct (typeClass (target env))) eqn:Hk.
- destruct (addCoercers_result (lookupMember idCoerce (members s)) s1)
    as (s2 & E & Hco & Hm & Hp & Hd & Hs & Hnew).
  exists (setPasses (PassMgr_finish ConverterPass (passes s2)) s2).
  split.
  { cbn [when]. unfold bind at 2. unfold bind at 1. unfold get at 1.
    change (members s1) with (members s). rewrite E. reflexivity. }
  split; [apply finished_own|]. split; [exact Hco|]. split; [exact Hm|].
  split; [exact Hd|]. split.
  + intros f. rewrite coercersAmong_In. unfold lookupMember, isCoercer.
    rewrite List.filter_In. simpl.
    rewrite !andb_true_iff, Nat.eqb_eq, Name_eqb_eq.
    destruct (fnStorageClass f); simpl; intuition congruence.
  + intros f Hin Hu Hsing. apply (Hnew f Hin Hu Hsing).
- exists (setPasses (PassMgr_finish ConverterPass (passes s1)) s1).
  split; [reflexivity|]. split; [apply finished_own|].
  split; [simpl; rewrite app_nil_r; reflexivity|].
  split; [reflexivity|]. split; [reflexivity|]. split.
  + intros f. split; [intros []|]. intros (Hc & _). discriminate Hc.
  + intros f [].
Qed.
End Converters.

(** Of the three functions named [coerce] of the sample, declared in the
    order 3, 1, 2, the two static ones become converters, in that order. *)
Lemma converters_witness :
  exists s',
    analyzeConverters (plainEnv (plainType Struct) (fun _ => viewOf Class []))
      (newState orderedCoerceMembers) = Done true s'
    /\ coercers s' = [coerceFn 3%nat Storage_Static [mkParameterDefn "y" None];
                      coerceFn 1%nat Storage_Static [mkParameterDefn "x" None]].
Proof.
  destruct (converters (plainEnv (plainType Struct) (fun _ => viewOf Class []))
              (newState orderedCoerceMembers) eq_refl eq_refl)
    as (s' & E & _ & Hco & _).
  exists s'. split; [exact E|exact Hco].
Defined.

(** ** Declared constructors *)

Lemma isCtorIn_updateFn s f u g :
  (forall st, addedCtor st = true -> addedCtor (u st) = true) ->
  isCtorIn s g = true ->
  isCtorIn (setFunctions (<[fnId f := u (fnStateOf s f)]> (functions s)) s) g = true.
Proof.
  intros Hu. unfold isCtorIn. rewrite fnStateOf_updateFn.
  destruct (fnDeclaredCtor g); [reflexivity|]. simpl.
  destruct (decide _); [apply Hu|auto].
Qed.

Section DeclaredConstructors.
Variable env : Env.

Lemma analyzeDeclaredConstructors_total ctors : forall b s,
exists b' s',
  analyzeDeclaredConstructors env ctors b s = Done b' s'
  /\ besideFunctions s' = besideFunctions s
  /\ (forall g, isCtorIn s g = true -> isCtorIn s' g = true)
  /\ (b = true -> b' = true)
  /\ (forall f rest, ctors = DFunction f :: rest -> b' = true /\ isCtorIn s' f = true).
Proof.
induction ctors as [|d ctors IH]; intros b s.
- exists b, s. split; [reflexivity|]. split; [reflexivity|]. split; [auto|].
  split; [auto|]. intros f rest E. discriminate E.
- destruct d as [v|ctor|p|nm sc sg|nm];
    try (eexists _, _; split; [reflexivity|]; split; [reflexivity|];
         split; [auto|]; split; [auto|]; intros f rest E; discriminate E).
  cbn [analyzeDeclaredConstructors].
  set (s1 := setFunctions
               (<[fnId ctor := (fun x => mkFnState (dispatchIndex x) (overriddenMethods x)
                                           true (addedSingular x)) (fnStateOf s ctor)]>
                  (functions s)) s).
  assert (Hmark : addCtorTrait ctor s = Done tt s1) by reflexivity.
  assert (Hown : isCtorIn s1 ctor = true).
  { unfold s1, isCtorIn, fnStateOf. simpl. rewrite lookup_insert_eq. simpl.
    apply orb_true_r. }
  assert (Hkeep1 : forall g, isCtorIn s g = true -> isCtorIn s1 g = true).
  { intros g Hg.
    apply (isCtorIn_updateFn s ctor
             (fun x => mkFnState (dispatchIndex x) (overriddenMethods x) true
                         (addedSingular x))); auto. }
  rewrite (bind_run _ _ _ _ _ Hmark).
  assert (Hhead : forall b' s' (f : FunctionDefn) (rest : list Defn),
             DFunction ctor :: ctors = DFunction f :: rest ->
             b' = true -> (forall g, isCtorIn s1 g = true -> isCtorIn s' g = true) ->
             b' = true /\ isCtorIn s' f = true).
  { intros b' s' f0 rest E Hb Hk. injection E as E1 E2. subst f0. auto. }
  destruct (negb (fnSignatureOk ctor)).
  { destruct (IH true s1) as (b' & s' & E & Hb & Hk & Ht & _).
    exists b', s'. split; [exact E|]. split; [exact Hb|].
    split; [auto|]. split; [auto|]. intros f rest Eq. eapply Hhead; eauto. }
  destruct (fnReturnTypeDefined ctor && fnReturnsNonVoid ctor).
  { eexists _, _. split; [reflexivity|]. split; [reflexivity|].
    split; [exact Hkeep1|]. split; [auto|]. intros f rest Eq.
    eapply Hhead; eauto. }
  destruct (negb (StorageClass_eqb (fnStorageClass ctor) Storage_Instance)).
  { eexists _, _. split; [reflexivity|]. split; [reflexivity|].
    split; [exact Hkeep1|]. split; [auto|]. intros f rest Eq.
    eapply Hhead; eauto. }
  set (mark := negb (fnHasUnboundTypeParams ctor) && isSingular (target env)).
  set (s2 := if mark
             then setFunctions
                    (<[fnId ctor := (fun x => mkFnState (dispatchIndex x)
                                                (overriddenMethods x) (addedCtor x) true)
                                      (fnStateOf s1 ctor)]> (functions s1)) s1
             else s1).
  assert (Hsing : when mark (addSingularTrait ctor) s1 = Done tt s2)
    by (unfold s2; destruct mark; reflexivity).
  assert (Hkeep2 : forall g, isCtorIn s1 g = true -> isCtorIn s2 g = true).
  { intros g Hg. unfold s2. destruct mark; [|exact Hg].
    apply (isCtorIn_updateFn s1 ctor
             (fun x => mkFnState (dispatchIndex x) (overriddenMethods x) (addedCtor x) true));
      auto. }
  assert (Hb2 : besideFunctions s2 = besideFunctions s)
    by (unfold s2; destruct mark; reflexivity).
  rewrite (bind_run _ _ _ _ _ Hsing).
  destruct (IH true s2) as (b' & s' & E & Hb & Hk & Ht & _).
  exists b', s'. split; [exact E|]. split; [congruence|].
  split; [auto|]. split; [auto|]. intros f rest Eq. eapply Hhead; eauto.
Qed.

(** X7: when a class or a struct declares a constructor (its first member
  named [construct] is a function, or it has a static function named
  [create]), the Constructor pass synthesizes no default constructor: the
  members and the symbols of the module are as before, the first function
  named [construct] carries the constructor trait, and the pass is finished
  and returns true. *)
Theorem declared_constructor_kept s :
isClassOrStruct (typeClass (target env)) = true ->
isFinished (passes s) ConstructorPass = false ->
isRunning (passes s) ConstructorPass = false ->
superConstructionFails env (super s) = false ->
declaresConstructor (members s) = true ->
exists s',
  analyzeConstructors env s = Done true s'
  /\ isFinished (passes s') ConstructorPass = true
  /\ members s' = members s
  /\ moduleSymbols s' = moduleSymbols s
  /\ (forall f rest, lookupMember idConstruct (members s) = DFunction f :: rest ->
        isCtorIn s' f = true).
Proof.
intros Hk Hf Hr Hsup Hdecl. unfold analyzeConstructors.
rewrite (bind_run _ _ _ _ _ (begin_run _ _ _ Hf Hr)). rewrite Hk.
set (s1 := setPasses _ s).
erewrite bind_run; [|reflexivity]. change (super s1) with (super s).
unfold superConstructionFails in Hsup. rewrite Hsup.
erewrite bind_run; [|reflexivity]. change (members s1) with (members s).
destruct (analyzeDeclaredConstructors_total (lookupMember idConstruct (members s)) false s1)
  as (has & s2 & E & Hb & Hkeep & _ & Hhead).
rewrite (bind_run _ _ _ _ _ E).
erewrite bind_run; [|reflexivity].
assert (Hm2 : members s2 = members s) by (injection Hb as _ _ Hm _; exact Hm).
rewrite Hm2.
assert (Hhas : has || existsb isStaticFunction (lookupMember idCreate (members s)) = true).
{ unfold declaresConstructor in Hdecl. apply orb_true_iff in Hdecl as [Hd|Hd].
  - destruct (lookupMember idConstruct (members s)) as [|[v|f|p|nm sc sg|nm] rest] eqn:L;
      try discriminate Hd.
    destruct (Hhead f rest eq_refl) as [-> _]. reflexivity.
  - rewrite Hd. apply orb_true_r. }
rewrite Hhas. simpl.
exists (setPasses (PassMgr_finish ConstructorPass (passes s2)) s2).
split; [reflexivity|]. split; [apply finished_own|]. split; [exact Hm2|].
split; [injection Hb as _ _ _ Hsym; exact Hsym|].
intros f rest L. destruct (Hhead f rest L) as [_ Hc]. exact Hc.
Qed.

(** X8: when the Constructor pass of the super type has neither been run
  nor begun and running it fails, the pass returns false and stays marked
  as in progress.  The next request for it then meets a pass in progress: it
  reports the re-entry and returns true, although no constructor has been
  looked at and none has been synthesized. *)
Theorem constructor_pass_left_running s sp :
isClassOrStruct (typeClass (target env)) = true ->
isFinished (passes s) ConstructorPass = false ->
isRunning (passes s) ConstructorPass = false ->
super s = Some sp ->
superConstructionFails env (super s) = true ->
exists s1,
  analyzeConstructors env s = Done false s1
  /\ isRunning (passes s1) ConstructorPass = true
  /\ isFinished (passes s1) ConstructorPass = false
  /\ members s1 = members s /\ diag s1 = diag s /\ functions s1 = functions s
  /\ analyzeConstructors env s1
     = Done true (setDiag (diag s ++ [(SevFatal, MsgInfiniteRecursion ConstructorPass)]) s1).
Proof.
intros Hk Hf Hr Hs Hfail.
exists (setPasses (mkPassMgr (PassSet.add ConstructorPass (running (passes s)))
                             (finished (passes s))) s).
assert (Hrun : isRunning (mkPassMgr (PassSet.add ConstructorPass (running (passes s)))
                                    (finished (passes s))) ConstructorPass = true).
{ unfold isRunning. simpl. rewrite contains_add, Pass_eqb_refl. reflexivity. }
split.
{ unfold analyzeConstructors. rewrite (bind_run _ _ _ _ _ (begin_run _ _ _ Hf Hr)).
  rewrite Hk. erewrite bind_run; [|reflexivity]. cbn [super setPasses].
  unfold superConstructionFails in Hfail. rewrite Hfail. reflexivity. }
split; [exact Hrun|]. split; [exact Hf|].
split; [reflexivity|]. split; [reflexivity|]. split; [reflexivity|].
unfold analyzeConstructors, beginPass, bind at 1 2, get, PassMgr_begin.
cbn [passes setPasses]. unfold isFinished at 1. cbn [finished].
fold (isFinished (passes s) ConstructorPass). rewrite Hf, Hrun. reflexivity.
Qed.

Lemma createDefaultConstructor_refused s sp :
super s = Some sp ->
tvDefaultConstructor (typeView env sp) = None ->
createDefaultConstructor env s
= Done false (setDiag (diag s ++ [(SevFatal, MsgNoSuperDefaultConstructor)]) s).
Proof.
intros Hs Hnone. unfold createDefaultConstructor, bind at 1, get. rewrite Hs, Hnone.
reflexivity.
Qed.

(** X9: when a class or a struct declares no constructor and its super type
  has no default constructor, the Constructor pass reports that no default
  constructor can be created and adds none; it is finished all the same and
  returns true. *)
Theorem no_default_constructor_without_super_one s sp :
isClassOrStruct (typeClass (target env)) = true ->
isFinished (passes s) ConstructorPass = false ->
isRunning (passes s) ConstructorPass = false ->
super s = Some sp ->
superConstructionFails env (super s) = false ->
tvDefaultConstructor (typeView env sp) = None ->
declaresConstructor (members s) = false ->
exists s',
  analyzeConstructors env s = Done true s'
  /\ isFinished (passes s') ConstructorPass = true
  /\ members s' = members s
  /\ moduleSymbols s' = moduleSymbols s
  /\ exists pre, diag s' = diag s ++ pre ++ [(SevFatal, MsgNoSuperDefaultConstructor)].
Proof.
intros Hk Hf Hr Hs Hsup Hnone Hdecl. unfold analyzeConstructors.
rewrite (bind_run _ _ _ _ _ (begin_run _ _ _ Hf Hr)). rewrite Hk.
set (s1 := setPasses _ s).
erewrite bind_run; [|reflexivity]. change (super s1) with (super s).
unfold superConstructionFails in Hsup. rewrite Hsup.
erewrite bind_run; [|reflexivity]. change (members s1) with (members s).
unfold declaresConstructor in Hdecl. apply orb_false_iff in Hdecl as [Hd1 Hd2].
assert (Hloop : exists s2 pre,
           analyzeDeclaredConstructors env (lookupMember idConstruct (members s)) false s1
           = Done false s2
           /\ s2 = setDiag (diag s1 ++ pre) s1).
{ destruct (lookupMember idConstruct (members s)) as [|[v|f|p|nm sc sg|nm] rest];
    try discriminate Hd1;
    [exists s1, []; rewrite app_nil_r, setDiag_same; split; reflexivity|..];
    eexists _, [_]; split; reflexivity. }
destruct Hloop as (s2 & pre & E & ->).
rewrite (bind_run _ _ _ _ _ E). erewrite bind_run; [|reflexivity].
cbn [members setDiag]. change (members s1) with (members s). rewrite Hd2. simpl.
erewrite bind_run; [|apply (createDefaultConstructor_refused _ sp); [exact Hs|exact Hnone]].
eexists. split; [reflexivity|]. split; [apply finished_own|].
split; [reflexivity|]. split; [reflexivity|]. exists pre. simpl.
rewrite <- app_assoc. reflexivity.
Qed.
End DeclaredConstructors.

Lemma declared_constructor_kept_witness :
  exists s',
    analyzeConstructors orphanEnv (newState [DFunction (constructFn 9%nat)]) = Done true s'
    /\ members s' = [DFunction (constructFn 9%nat)]
    /\ isCtorIn s' (constructFn 9%nat) = true.
Proof.
  destruct (declared_constructor_kept orphanEnv (newState [DFunction (constructFn 9%nat)])
              eq_refl eq_refl eq_refl eq_refl eq_refl)
    as (s' & E & _ & Hm & _ & Hc).
  exists s'. split; [exact E|]. split; [exact Hm|].
  apply (Hc (constructFn 9%nat) []). reflexivity.
Defined.

Lemma constructor_pass_left_running_witness :
  exists s1,
    analyzeConstructors failingSuperEnv (setSuper (Some 5%nat) (newState [])) = Done false s1
    /\ isRunning (passes s1) ConstructorPass = true
    /\ analyzeConstructors failingSuperEnv s1
       = Done true (setDiag [(SevFatal, MsgInfiniteRecursion ConstructorPass)] s1).
Proof.
  destruct (constructor_pass_left_running failingSuperEnv (setSuper (Some 5%nat) (newState []))
              5%nat eq_refl eq_refl eq_refl eq_refl eq_refl)
    as (s1 & E & Hrun & _ & _ & _ & _ & Hagain).
  exists s1. split; [exact E|]. split; [exact Hrun|exact Hagain].
Defined.

Lemma no_default_constructor_without_super_one_witness :
  exists s',
    analyzeConstructors orphanEnv derivedState = Done true s'
    /\ members s' = members derivedState
    /\ exists pre, diag s' = pre ++ [(SevFatal, MsgNoSuperDefaultConstructor)].
Proof.
  destruct (no_default_constructor_without_super_one orphanEnv derivedState 5%nat
              eq_refl eq_refl eq_refl eq_refl eq_refl eq_refl eq_refl)
    as (s' & E & _ & Hm & _ & pre & Hd).
  exists s'. split; [exact E|]. split; [exact Hm|]. exists pre. exact Hd.
Defined.

(** ** Methods of one signature *)

Lemma signatureClashes_In env ms mi mj :
  In (mi, mj) (signatureClashes env ms)
  <-> exists i j, (i < j)%nat /\ ms !! i = Some mi /\ ms !! j = Some mj
                  /\ hasSameSignature env mi mj = true.
Proof.
  induction ms as [|m ms IH]; simpl.
  - split; [intros []|]. intros (i & j & _ & Hi & _). discriminate Hi.
  - rewrite in_app_iff, in_map_iff, IH. split.
    + intros [(x & E & Hx)|(i & j & Hij & Hi & Hj & Hs)].
      * injection E as <- <-. apply List.filter_In in Hx as [Hx Hs].
        apply list_elem_of_In, list_elem_of_lookup in Hx as (k & Hk).
        exists 0%nat, (S k). split; [lia|]. auto.
      * exists (S i), (S j). split; [lia|]. auto.
    + intros (i & j & Hij & Hi & Hj & Hs).
      destruct j as [|j]; [lia|]. simpl in Hj.
      destruct i as [|i]; simpl in Hi.
      * injection Hi as <-. left. exists mj. split; [reflexivity|].
        apply List.filter_In. split; [|exact Hs].
        apply list_elem_of_In, list_elem_of_lookup. eauto.
      * right. exists i, j. split; [lia|]. auto.
Qed.

Lemma inner_loop_report env mi rest s :
  forEach rest (fun mj =>
    when (hasSameSignature env mi mj)
      (emit SevError (MsgSignatureConflict (fnId mj)) ;;
       emit SevInfo (MsgFromHere (fnId mi)))) s
  = Done tt (setDiag (diag s ++ flat_map clashReport
                                  (map (fun mj => (mi, mj))
                                     (List.filter (hasSameSignature env mi) rest))) s).
Proof.
  revert s. induction rest as [|mj rest IH]; intros s; simpl.
  - rewrite app_nil_r, setDiag_same. reflexivity.
  - destruct (hasSameSignature env mi mj); simpl.
    + unfold bind at 1. unfold bind at 1. unfold emit at 1 2, modify. rewrite IH.
      unfold setDiag. simpl. rewrite <- !app_assoc. reflexivity.
    + unfold bind at 1. simpl. apply IH.
Qed.

(** X10: the check for duplicate signatures reports every pair of an
    earlier and a later method of the list that have the same signature, the
    later one as the error and the earlier one as the place it comes from; it
    reports nothing exactly when no two methods of the list have the same
    signature, and it changes nothing but the diagnostics. *)
Theorem unique_signatures env ms s :
  exists report,
    ensureUniqueSignatures env ms s = Done tt (setDiag (diag s ++ report) s)
    /\ report = flat_map clashReport (signatureClashes env ms)
    /\ (forall mi mj, In (mi, mj) (signatureClashes env ms)
          <-> exists i j, (i < j)%nat /\ ms !! i = Some mi /\ ms !! j = Some mj
                          /\ hasSameSignature env mi mj = true)
    /\ (report = []
        <-> forall i j mi mj, (i < j)%nat -> ms !! i = Some mi -> ms !! j = Some mj ->
                              hasSameSignature env mi mj = false).
Proof.
  exists (flat_map clashReport (signatureClashes env ms)).
  split; [|split; [reflexivity|split; [apply signatureClashes_In|]]].
  - revert s. induction ms as [|mi rest IH]; intros s; simpl.
    + rewrite app_nil_r, setDiag_same. reflexivity.
    + rewrite (bind_run _ _ _ _ _ (inner_loop_report env mi rest s)), IH.
      unfold setDiag. simpl. rewrite flat_map_app, app_assoc. reflexivity.
  - split.
    + intros Hnil i j mi mj Hij Hi Hj.
      destruct (hasSameSignature env mi mj) eqn:E; [|reflexivity]. exfalso.
      assert (Hin : In (mi, mj) (signatureClashes env ms))
        by (apply signatureClashes_In; eauto 10).
      destruct (signatureClashes env ms) as [|c l]; [destruct Hin|discriminate Hnil].
    + intros Hnone. destruct (signatureClashes env ms) as [|[mi mj] l] eqn:E; [reflexivity|].
      assert (Hin : In (mi, mj) (signatureClashes env ms)) by (rewrite E; left; reflexivity).
      apply signatureClashes_In in Hin as (i & j & Hij & Hi & Hj & Hs).
      rewrite (Hnone i j mi mj Hij Hi Hj) in Hs. discriminate Hs.
Qed.

(** ** The slots after an override step *)

Lemma no_override_error_among_infos {A} (f : A -> Message) l :
  List.filter isOverrideError (map (fun o => (SevInfo, f o)) l) = [].
Proof. induction l as [|x l IH]; simpl; auto. Qed.

Lemma no_accessor_warning_among_infos {A} (f : A -> Message) l :
  List.filter isAccessorWarning (map (fun o => (SevInfo, f o)) l) = [].
Proof. induction l as [|x l IH]; simpl; auto. Qed.

Section Slots.
Variable env : Env.

Lemma overrideSlots_slots name overrides canHide table : forall i s,
exists s' new,
  overrideSlots env name overrides canHide i table s
  = Done (map (fun m => if Name_eqb (fnName m) name
                        then match findOverride env m overrides with
                             | Some newMethod => newMethod
                             | None => m
                             end
                        else m) table) s'
  /\ diag s' = diag s ++ new
  /\ List.filter isOverrideError new
     = map (fun n => (SevError, MsgShouldDeclareOverride (fnId n)))
         (flat_map (fun m =>
                      if Name_eqb (fnName m) name
                      then match findOverride env m overrides with
                           | Some newMethod =>
                               if hasBody m && negb (fnIsOverride newMethod)
                               then [newMethod] else []
                           | None => []
                           end
                      else []) table).
Proof.
induction table as [|m table IH]; intros i s.
- exists s, []. simpl. rewrite app_nil_r. auto.
- cbn [overrideSlots map flat_map].
  assert (Hslot : exists s1 new1,
             (if Name_eqb (fnName m) name
              then match findOverride env m overrides with
                   | Some newMethod =>
                       st <- get (fun s => fnStateOf s newMethod) ;;
                       when (canHide && (dispatchIndex st <? 0))
                         (setDispatchIndex newMethod i) ;;
                       when (hasBody m && negb (fnIsOverride newMethod))
                         (emit SevError (MsgShouldDeclareOverride (fnId newMethod))) ;;
                       insertOverridden newMethod m ;;
                       ret newMethod
                   | None =>
                       when canHide
                         (emit SevWarn (MsgHidden (fnId m)) ;;
                          forEach overrides (fun o => emit SevInfo (MsgHiddenBy (fnId o)))) ;;
                       ret m
                   end
              else ret m) s
             = Done (if Name_eqb (fnName m) name
                     then match findOverride env m overrides with
                          | Some newMethod => newMethod
                          | None => m
                          end
                     else m) s1
             /\ diag s1 = diag s ++ new1
             /\ List.filter isOverrideError new1
                = map (fun n => (SevError, MsgShouldDeclareOverride (fnId n)))
                    (if Name_eqb (fnName m) name
                     then match findOverride env m overrides with
                          | Some newMethod =>
                              if hasBody m && negb (fnIsOverride newMethod)
                              then [newMethod] else []
                          | None => []
                          end
                     else [])).
  { destruct (Name_eqb (fnName m) name);
      [|exists s, []; rewrite app_nil_r; auto].
    destruct (findOverride env m overrides) as [n|]; simpl.
    - unfold bind, get, when, setDispatchIndex, insertOverridden, updateFn, modify,
        emit, ret.
      destruct (canHide && _), (hasBody m && _); simpl;
        eexists _, _; (split; [reflexivity|]); simpl;
        first [ split; [symmetry; apply app_nil_r|reflexivity]
              | split; [reflexivity|reflexivity] ].
    - destruct canHide; simpl.
      + unfold bind, emit at 1, modify. rewrite forEach_emit. simpl.
        eexists _, _. split; [reflexivity|]. simpl. rewrite <- app_assoc.
        split; [reflexivity|]. simpl. apply no_override_error_among_infos.
      + exists s, []. rewrite app_nil_r. auto. }
  destruct Hslot as (s1 & new1 & Hrun1 & Hd1 & Hw1).
  destruct (IH (i + 1) s1) as (s' & new & Hrun & Hd & Hw).
  exists s', (new1 ++ new).
  unfold bind at 1. rewrite Hrun1. unfold bind. rewrite Hrun.
  split; [reflexivity|]. split; [rewrite Hd, Hd1, app_assoc; reflexivity|].
  rewrite List.filter_app, Hw1, Hw, <- map_app. reflexivity.
Qed.

(** X11: the override step with the methods of one name treats every slot
  of the table on its own: a slot whose occupant carries the name receives
  the first of the methods that can override the occupant, and every other
  slot keeps its occupant.  The slot is replaced whether or not the new
  method is declared with [override]; that this is missing is reported
  exactly for the replaced slots whose old occupant has a body. *)
Theorem override_step_slots table overrides canHide s :
exists s' new,
  overrideMethods env table overrides canHide s
  = Done (map (slotAfter env overrides) table) s'
  /\ diag s' = diag s ++ new
  /\ List.filter isOverrideError new
     = map (fun n => (SevError, MsgShouldDeclareOverride (fnId n)))
         (undeclaredOverrides env overrides table).
Proof.
unfold overrideMethods, undeclaredOverrides.
destruct overrides as [|front rest].
- exists s, []. simpl. rewrite app_nil_r, map_id. auto.
- destruct (overrideSlots_slots (fnName front) (front :: rest) canHide table 0 s)
    as (s' & new & E & Hd & Hw).
  exists s', new. split; [|split; assumption]. rewrite E. reflexivity.
Qed.

Lemma overrideAccessorSlots_slots name prop accessors canHide table : forall i s,
exists s' new,
  overrideAccessorSlots env name prop accessors canHide i table s
  = Done (map (fun m => match fnParentProperty m with
                        | Some p =>
                            if Name_eqb (fnName m) name && Name_eqb p (propName prop)
                            then match findOverride env m accessors with
                                 | Some newAccessor => newAccessor
                                 | None => m
                                 end
                            else m
                        | None => m
                        end) table) s'
  /\ diag s' = diag s ++ new
  /\ List.filter isOverrideError new = []
  /\ List.filter isAccessorWarning new
     = map (fun m => (SevWarn, MsgInvalidAccessorOverride (fnId m)))
         (List.filter (fun m =>
                         match fnParentProperty m with
                         | Some p =>
                             Name_eqb (fnName m) name && Name_eqb p (propName prop)
                             && negb (isSome (findOverride env m accessors))
                         | None => false
                         end) table).
Proof.
induction table as [|m table IH]; intros i s.
- exists s, []. simpl. rewrite app_nil_r. auto.
- cbn [overrideAccessorSlots map List.filter].
  assert (Hslot : exists s1 new1,
             (match fnParentProperty m with
              | Some p =>
                  if Name_eqb (fnName m) name && Name_eqb p (propName prop) then
                    match findOverride env m accessors with
                    | Some newAccessor =>
                        st <- get (fun s => fnStateOf s newAccessor) ;;
                        when (canHide && (dispatchIndex st <? 0))
                          (setDispatchIndex newAccessor i) ;;
                        insertOverridden newAccessor m ;;
                        ret newAccessor
                    | None =>
                        emit SevWarn (MsgInvalidAccessorOverride (fnId m)) ;;
                        forEach accessors (fun o => emit SevInfo (MsgHiddenBy (fnId o))) ;;
                        ret m
                    end
                  else ret m
              | None => ret m
              end) s
             = Done (match fnParentProperty m with
                     | Some p =>
                         if Name_eqb (fnName m) name && Name_eqb p (propName prop)
                         then match findOverride env m accessors with
                              | Some newAccessor => newAccessor
                              | None => m
                              end
                         else m
                     | None => m
                     end) s1
             /\ diag s1 = diag s ++ new1
             /\ List.filter isOverrideError new1 = []
             /\ List.filter isAccessorWarning new1
                = if match fnParentProperty m with
                     | Some p =>
                         Name_eqb (fnName m) name && Name_eqb p (propName prop)
                         && negb (isSome (findOverride env m accessors))
                     | None => false
                     end
                  then [(SevWarn, MsgInvalidAccessorOverride (fnId m))] else []).
  { destruct (fnParentProperty m) as [p|]; [|exists s, []; rewrite app_nil_r; auto].
    destruct (Name_eqb (fnName m) name && Name_eqb p (propName prop));
      [|exists s, []; rewrite app_nil_r; auto].
    destruct (findOverride env m accessors) as [n|]; simpl.
    - unfold bind, get, when, setDispatchIndex, insertOverridden, updateFn, modify, ret.
      destruct (canHide && _); simpl;
        eexists _, []; (split; [reflexivity|]); simpl;
        rewrite app_nil_r; auto.
    - unfold bind, emit at 1, modify. rewrite forEach_emit. simpl.
      eexists _, _. split; [reflexivity|]. simpl. rewrite <- app_assoc.
      split; [reflexivity|]. simpl.
      rewrite no_override_error_among_infos, no_accessor_warning_among_infos. auto. }
  destruct Hslot as (s1 & new1 & Hrun1 & Hd1 & He1 & Hw1).
  destruct (IH (i + 1) s1) as (s' & new & Hrun & Hd & He & Hw).
  exists s', (new1 ++ new).
  unfold bind at 1. rewrite Hrun1. unfold bind. rewrite Hrun.
  split; [reflexivity|]. split; [rewrite Hd, Hd1, app_assoc; reflexivity|].
  rewrite !List.filter_app, He1, He, Hw1, Hw. split; [reflexivity|].
  destruct (fnParentProperty m) as [p|]; [|reflexivity].
  destruct (Name_eqb (fnName m) name && Name_eqb p (propName prop)
            && negb (isSome (findOverride env m accessors))); reflexivity.
Qed.

(** X12: the override step with the accessors of a property replaces the
  slots that hold an accessor of that name of a property of that name by
  the first compatible one of the new accessors and keeps every other slot.
  Unlike the step for methods, it warns about the slots it cannot replace
  on the interface tables as well as on the method table ([canHide] makes
  no difference), and it never asks for [override]. *)
Theorem accessor_step_slots table prop accessors canHide s :
exists s' new,
  overridePropertyAccessors env table prop accessors canHide s
  = Done (map (accessorSlotAfter env prop accessors) table) s'
  /\ diag s' = diag s ++ new
  /\ List.filter isOverrideError new = []
  /\ List.filter isAccessorWarning new
     = map (fun m => (SevWarn, MsgInvalidAccessorOverride (fnId m)))
         (unmatchedAccessors env prop accessors table).
Proof.
unfold overridePropertyAccessors, unmatchedAccessors.
destruct accessors as [|front rest].
- exists s, []. simpl. rewrite app_nil_r. split; [|auto].
  assert (Hsame : map (accessorSlotAfter env prop []) table = table)
    by (induction table as [|x l IH]; simpl; [|rewrite IH]; reflexivity).
  rewrite Hsame. reflexivity.
- destruct (overrideAccessorSlots_slots (fnName front) prop (front :: rest) canHide table 0 s)
    as (s' & new & E & Hd & He & Hw).
  exists s', new. split; [|split; [|split]; assumption]. rewrite E. reflexivity.
Qed.
End Slots.

(** ** The bases of a class *)

Section ClassBases.
Variable env : Env.

Lemma classifyBase_class kind pb node s b s1 :
classifyBase Class kind pb node s = Done b s1 ->
b = TypeClass_eqb kind Class && negb (isSome pb)
/\ s1 = setDiag (diag s
                 ++ (if TypeClass_eqb kind Class
                     then if isSome pb then [(SevError, MsgSingleConcreteSupertype)] else []
                     else if negb (TypeClass_eqb kind Interface)
                          then [(SevError, MsgClassInheritsClassOrInterface)] else [])) s.
Proof.
intros H. destruct kind, pb; simpl in H;
  unfold bind, emit, modify, ret in H; simpl in H; injection H as <- <-;
  simpl; rewrite ?app_nil_r, ?setDiag_same; auto.
Qed.

Lemma resolveBases_class ft astBases : forall pb s r s',
typeClass (target env) = Class ->
resolveBases env ft astBases pb s = Done (Some r) s' ->
exists ids new,
  Forall2 compositeBase ids astBases
  /\ diag s' = diag s ++ new
  /\ length (List.filter isFinalBaseError new)
     = length (List.filter (fun t => tvIsFinal (typeView env t)) ids)
  /\ length (List.filter isForeignBaseError new)
     = length (List.filter (isForeignKind env) ids)
  /\ match pb with
     | Some _ =>
         r = pb /\ bases s' = bases s ++ ids
         /\ length (List.filter isSingleSupertypeError new)
            = length (List.filter (isClassKind env) ids)
     | None =>
         r = fst (splitPrimary (isClassKind env) ids)
         /\ bases s' = bases s ++ snd (splitPrimary (isClassKind env) ids)
         /\ length (List.filter isSingleSupertypeError new)
            = length (List.filter (isClassKind env) (snd (splitPrimary (isClassKind env) ids)))
     end.
Proof.
induction astBases as [|b rest IH]; intros pb s r s' Hk H; simpl in H.
- apply ret_Done in H as [E <-]. injection E as <-. exists [], [].
  split; [constructor|]. simpl. rewrite !app_nil_r. destruct pb; auto 10.
- destruct (resolved b) as [|hd|t [|]] eqn:Hres;
    try (unfold bind, emit, modify, ret in H; simpl in H; discriminate H).
  destruct (negb (tvIsSingular (typeView env t)) && negb ft);
    [unfold bind, emit, modify, ret in H; simpl in H; discriminate H|].
  mstep H as u s1 Hu.
  assert (Hs1 : s1 = setDiag (diag s ++ (if tvIsFinal (typeView env t)
                                         then [(SevError, MsgBaseIsFinal (astNode b))]
                                         else [])) s).
  { destruct (tvIsFinal (typeView env t)); simpl in Hu.
    - apply modify_Done in Hu. exact Hu.
    - apply ret_Done in Hu as [_ <-]. rewrite app_nil_r, setDiag_same. reflexivity. }
  destruct (negb (baseLookupOk b)); [apply ret_Done in H as [? ?]; discriminate|].
  mstep H as isPrimary s2 Hc. rewrite Hk in Hc.
  apply classifyBase_class in Hc as [-> Hs2].
  mstep H as u2 s3 Hu2.
  assert (Hs3 : bases s3 = bases s2 /\ diag s3 = diag s2).
  { split; revert Hu2; [apply (preserves_when bases)|apply (preserves_when diag)]; frame. }
  destruct Hs3 as [Hb3 Hd3].
  fold (isClassKind env t) in Hs2, H.
  set (finalPart := if tvIsFinal (typeView env t)
                    then [(SevError, MsgBaseIsFinal (astNode b))] else []) in *.
  set (classPart := if isClassKind env t
                    then if isSome pb then [(SevError, MsgSingleConcreteSupertype)] else []
                    else if negb (TypeClass_eqb (tvTypeClass (typeView env t)) Interface)
                         then [(SevError, MsgClassInheritsClassOrInterface)] else []) in *.
  assert (Hd3' : diag s3 = diag s ++ finalPart ++ classPart).
  { rewrite Hd3. subst s2 s1. simpl. rewrite <- app_assoc. reflexivity. }
  assert (Hb3' : bases s3 = bases s) by (rewrite Hb3; subst s2 s1; reflexivity).
  assert (Hfinal : length (List.filter isFinalBaseError
                             (finalPart ++ classPart))
                   = if tvIsFinal (typeView env t) then 1%nat else 0%nat).
  { unfold finalPart, classPart.
    destruct (tvIsFinal (typeView env t)), (isClassKind env t), (isSome pb),
      (negb (TypeClass_eqb (tvTypeClass (typeView env t)) Interface)); reflexivity. }
  assert (Hforeign : length (List.filter isForeignBaseError
                               (finalPart ++ classPart))
                     = if isForeignKind env t then 1%nat else 0%nat).
  { unfold finalPart, classPart, isForeignKind. fold (isClassKind env t).
    destruct (tvIsFinal (typeView env t)), (isClassKind env t), (isSome pb),
      (negb (TypeClass_eqb (tvTypeClass (typeView env t)) Interface)); reflexivity. }
  assert (Hsingle : length (List.filter isSingleSupertypeError
                              (finalPart ++ classPart))
                    = if isClassKind env t && isSome pb then 1%nat else 0%nat).
  { unfold finalPart, classPart.
    destruct (tvIsFinal (typeView env t)), (isClassKind env t), (isSome pb),
      (negb (TypeClass_eqb (tvTypeClass (typeView env t)) Interface)); reflexivity. }
  clearbody finalPart classPart.
  assert (Hrest : exists pb' s4,
             resolveBases env ft rest pb' s4 = Done (Some r) s'
             /\ diag s4 = diag s ++ finalPart ++ classPart
             /\ ((isClassKind env t && negb (isSome pb) = true
                  /\ pb' = Some t /\ bases s4 = bases s)
                 \/ (isClassKind env t && negb (isSome pb) = false
                     /\ pb' = pb /\ bases s4 = bases s ++ [t]))).
  { destruct (isClassKind env t && negb (isSome pb)) eqn:Hprim.
    - exists (Some t), s3. split; [exact H|]. split; [exact Hd3'|]. left. auto.
    - mstep H as u3 s4 Hu3. apply modify_Done in Hu3. exists pb, s4.
      split; [exact H|]. subst s4. simpl. split; [exact Hd3'|]. right.
      rewrite Hb3'. auto. }
  destruct Hrest as (pb' & s4 & Hrun & Hd4 & Hcase).
  destruct (IH _ _ _ _ Hk Hrun) as (ids & new & Hall & Hd & Hfin & Hfor & Hmatch).
  exists (t :: ids), ((finalPart ++ classPart) ++ new).
  split; [constructor; assumption|].
  split; [rewrite Hd, Hd4, <- !app_assoc; reflexivity|].
  unfold Diagnostic in *.
  rewrite !(List.filter_app _ (finalPart ++ classPart) new), !length_app,
    Hfinal, Hforeign, Hsingle, Hfin, Hfor.
  cbn [List.filter].
  split; [destruct (tvIsFinal (typeView env t)); reflexivity|].
  split; [destruct (isForeignKind env t); reflexivity|].
  destruct Hcase as [(Hprim & -> & Hb4)|(Hprim & -> & Hb4)].
  + apply andb_true_iff in Hprim as [Hclass Hnone].
    destruct pb as [p|]; [discriminate Hnone|].
    destruct Hmatch as (Hr & Hbs & Hsing).
    cbn [splitPrimary]. rewrite Hclass. simpl.
    split; [exact Hr|]. split; [rewrite Hbs, Hb4; reflexivity|]. exact Hsing.
  + destruct pb as [p|].
    * destruct Hmatch as (Hr & Hbs & Hsing).
      split; [exact Hr|]. split; [rewrite Hbs, Hb4, <- app_assoc; reflexivity|].
      rewrite Hsing. simpl. destruct (isClassKind env t); reflexivity.
    * rewrite andb_true_r in Hprim. rewrite Hprim in *.
      destruct Hmatch as (Hr & Hbs & Hsing).
      cbn [splitPrimary]. rewrite Hprim.
      destruct (splitPrimary (isClassKind env) ids) as [p others] eqn:Hsp. simpl in *.
      rewrite Hprim.
      split; [exact Hr|]. split; [rewrite Hbs, Hb4, <- app_assoc; reflexivity|].
      exact Hsing.
Qed.

(** X13: for a class, the first base of class kind becomes the super type;
  when there is none, [Object] does, unless the class is [Object] itself.
  Every other base follows the super type in the list of bases, whatever
  its kind.  A further base of class kind, a base that is neither a class
  nor an interface, and a base that is final are each reported, but none of
  them makes the resolution fail or keeps the base out of the list. *)
Theorem primary_base_of_class s s' :
typeClass (target env) = Class ->
hasAST (target env) = true ->
bases s = [] ->
analyzeBaseClassesImpl env s = Done true s' ->
exists ids new,
  Forall2 compositeBase ids (astBases (target env))
  /\ let primary := fst (splitPrimary (isClassKind env) ids) in
     let others := snd (splitPrimary (isClassKind env) ids) in
     super s' = match primary with
                | Some c => Some c
                | None => if isObject (target env) then None else Some (typeObject env)
                end
     /\ bases s' = match super s' with
                   | Some p => p :: others
                   | None => others
                   end
     /\ (primary = None -> isObject (target env) = false ->
         In (SymType (typeObject env)) (moduleSymbols s'))
     /\ diag s' = diag s ++ new
     /\ length (List.filter isSingleSupertypeError new)
        = length (List.filter (isClassKind env) others)
     /\ length (List.filter isForeignBaseError new)
        = length (List.filter (isForeignKind env) ids)
     /\ length (List.filter isFinalBaseError new)
        = length (List.filter (fun t => tvIsFinal (typeView env t)) ids).
Proof.
intros Hk Hast Hbs H. unfold analyzeBaseClassesImpl in H.
rewrite Hast, Hk in H. simpl in H.
mstep H as u s1 Hu.
assert (Hs1 : s1 = s).
{ destruct (isFinal (target env)); simpl in Hu; apply ret_Done in Hu as [_ <-]; reflexivity. }
subst s1.
mstep H as r s2 Hr. destruct r as [r|]; [|apply ret_Done in H as [? ?]; discriminate].
destruct (resolveBases_class _ _ _ _ _ _ Hk Hr)
  as (ids & new & Hall & Hd & Hfin & Hfor & -> & Hb2 & Hsing).
exists ids, new. split; [exact Hall|]. cbn zeta.
destruct (fst (splitPrimary (isClassKind env) ids)) as [c|] eqn:Hprim; simpl in H.
- mstep H as pb s3 Hpb. apply ret_Done in Hpb as [<- <-].
  mstep H as u3 s4 Hsup. apply modify_Done in Hsup as ->.
  mstep H as u4 s5 Hins. apply modify_Done in Hins as ->.
  mstep H as u5 s6 Hsym. apply ret_Done in Hsym as [_ <-].
  apply ret_Done in H as [_ <-]. simpl.
  split; [reflexivity|]. split; [rewrite Hb2, Hbs; reflexivity|].
  split; [discriminate|]. auto.
- destruct (isObject (target env)) eqn:Hobj; simpl in H.
  + mstep H as pb s3 Hpb. apply ret_Done in Hpb as [<- <-].
    mstep H as u3 s4 Hsup. apply modify_Done in Hsup as ->.
    mstep H as u4 s5 Hins. apply ret_Done in Hins as [_ <-].
    mstep H as u5 s6 Hsym. apply ret_Done in Hsym as [_ <-].
    apply ret_Done in H as [_ <-]. simpl.
    split; [reflexivity|]. split; [rewrite Hb2, Hbs; reflexivity|].
    split; [discriminate|]. auto.
  + mstep H as pb s3 Hpb. mstep Hpb as u2 s2' Hadd. apply modify_Done in Hadd as ->.
    apply ret_Done in Hpb as [<- <-].
    mstep H as u3 s4 Hsup. apply modify_Done in Hsup as ->.
    mstep H as u4 s5 Hins. apply modify_Done in Hins as ->.
    mstep H as u5 s6 Hsym. apply ret_Done in Hsym as [_ <-].
    apply ret_Done in H as [_ <-]. simpl.
    split; [reflexivity|]. split; [rewrite Hb2, Hbs; reflexivity|].
    split; [intros _ _; apply in_or_app; right; left; reflexivity|]. auto.
Qed.
End ClassBases.

Lemma primary_base_of_class_witness :
  exists s' new,
    analyzeBaseClassesImpl manyBasesEnv (newState []) = Done true s'
    /\ super s' = Some 20%nat
    /\ bases s' = [20%nat; 21%nat; 22%nat]
    /\ diag s' = new
    /\ length (List.filter isSingleSupertypeError new) = 1%nat
    /\ length (List.filter isForeignBaseError new) = 1%nat
    /\ length (List.filter isFinalBaseError new) = 1%nat.
Proof.
  destruct (analyzeBaseClassesImpl manyBasesEnv (newState [])) as [[] s'|] eqn:E;
    try (vm_compute in E; discriminate E).
  destruct (primary_base_of_class manyBasesEnv (newState []) s' eq_refl eq_refl eq_refl E)
    as (ids & new & Hall & Hs & Hb & _ & Hd & H1 & H2 & H3).
  assert (Hids : ids = [20%nat; 21%nat; 22%nat]).
  { unfold compositeBase in Hall. cbn in Hall.
    inversion Hall as [|a b l l' Ha Hl]; subst. inversion Hl as [|a2 b2 l2 l2' Ha2 Hl2]; subst.
    inversion Hl2 as [|a3 b3 l3 l3' Ha3 Hl3]; subst. inversion Hl3; subst.
    cbn in Ha, Ha2, Ha3. injection Ha as <-. injection Ha2 as <-. injection Ha3 as <-.
    reflexivity. }
  subst ids. exists s', new.
  split; [reflexivity|]. split; [exact Hs|]. split; [rewrite Hb, Hs; reflexivity|].
  split; [exact Hd|]. split; [exact H1|]. split; [exact H2|exact H3].
Defined.


(** ** Static fields *)

Section StaticFields.
Variable env : Env.



End StaticFields.


(** ** The interfaces that get a table *)

Section InterfaceTables.
Variable env : Env.

(** X15: the interface tables are created for the ancestors of the type,
  in their order, that are not the first base of the type or of one of its
  ancestors; such a first base gets no table of its own.  When all of these
  are interfaces, and the table of a base that implements one of them has
  the size of its method table, each new table starts from that table of the
  base or from the method table of the interface, the tables already there
  stay in front, and nothing else of the type changes.  When one of them is
  no interface, the analyzer stops at an assertion. *)
Theorem interface_tables_created s :
parentTablesFit env (bases s) ->
(interfacesOnly env (bases s) = true ->
 exists s' new,
  createInterfaceTables env s = Done tt s'
  /\ interfaces s' = interfaces s ++ new
  /\ map interfaceType new = interfaceTypesOf env (bases s)
  /\ (forall t, In t (map interfaceType new) <->
        In t (ancestorClasses env)
        /\ forall a, a = targetId env \/ In a (ancestorClasses env) ->
                     head (basesAsSeen env (bases s) a) <> Some t)
  /\ Forall (initialTable env) new
  /\ besideInterfaces s' = besideInterfaces s)
/\ (interfacesOnly env (bases s) = false ->
    exists why s', createInterfaceTables env s = Aborted why s').
Proof.
intros Hfit. split.
2:{ intros Hbad. rewrite createInterfaceTables_unfold. apply createTables_abort. exact Hbad. }
intros Hkinds.
destruct (createTables_total env (interfaceTypesOf env (bases s)) s)
  as (s' & new & E & Hi & Hm & Hall & Hb).
{ intros t Ht. unfold interfacesOnly in Hkinds. rewrite forallb_forall in Hkinds.
  specialize (Hkinds t Ht). destruct (tvTypeClass (typeView env t)); try discriminate.
  reflexivity. }
{ intros st t pi Ht. apply Hfit. exact Ht. }
exists s', new. split; [rewrite createInterfaceTables_unfold; exact E|].
split; [exact Hi|]. split; [exact Hm|]. split; [|auto].
intros t. rewrite Hm. unfold interfaceTypesOf. rewrite List.filter_In, negb_true_iff.
unfold isFirstParent.
assert (Hins : forall a, In a (insertType (targetId env) (ancestorClasses env))
                         <-> a = targetId env \/ In a (ancestorClasses env)).
{ intros a. unfold insertType.
  destruct (existsb (Nat.eqb (targetId env)) (ancestorClasses env)) eqn:Ex.
  - apply existsb_exists in Ex as (x & Hx & Heq). apply Nat.eqb_eq in Heq. subst x.
    split; [auto|]. intros [->|H]; assumption.
  - rewrite in_app_iff. simpl. split; [intros [H|[<-|[]]]; auto|].
    intros [->|H]; auto. }
split.
- intros [Hin Hnone]. split; [exact Hin|]. intros a Ha Hhead.
  assert (Hex : existsb (fun a => firstBaseOf env (bases s) a t)
                  (insertType (targetId env) (ancestorClasses env)) = true).
  { apply existsb_exists. exists a. split; [apply Hins; exact Ha|].
    unfold firstBaseOf. destruct (basesAsSeen env (bases s) a) as [|b rest];
      [discriminate Hhead|]. simpl in Hhead. injection Hhead as ->. apply Nat.eqb_refl. }
  congruence.
- intros [Hin Hnone]. split; [exact Hin|].
  destruct (existsb _ _) eqn:Ex; [|reflexivity]. exfalso.
  apply existsb_exists in Ex as (a & Ha & Hfirst). apply Hins in Ha.
  apply (Hnone a Ha). unfold firstBaseOf in Hfirst.
  destruct (basesAsSeen env (bases s) a) as [|b rest]; [discriminate Hfirst|].
  apply Nat.eqb_eq in Hfirst. subst b. reflexivity.
Qed.
End InterfaceTables.

(** The class [C] of the sample gets one table, for [I], which starts from
    the table of its base [B]; and the interface [J] with a protocol among
    its ancestors gets none: the analyzer stops. *)
Lemma interface_tables_created_witness :
  (exists s',
     createInterfaceTables inheritingEnv inheritingState = Done tt s'
     /\ interfaces s' = [mkInterfaceTable 30%nat [implB]])
  /\ (exists why s',
        createInterfaceTables protocolAncestorEnv (setBases [31%nat; 40%nat] (newState []))
        = Aborted why s').
Proof.
  assert (Hfit : parentTablesFit inheritingEnv (bases inheritingState)).
  { intros st itype parentImpl [<-|[]] Hfind. injection Hfind as <-. reflexivity. }
  assert (Hfit' : parentTablesFit protocolAncestorEnv
                    (bases (setBases [31%nat; 40%nat] (newState [])))).
  { intros st itype parentImpl _ Hfind. discriminate Hfind. }
  split.
  - destruct (interface_tables_created inheritingEnv inheritingState Hfit)
      as [Hdone _].
    destruct (Hdone eq_refl) as (s' & new & E & Hi & _).
    exists s'. split; [exact E|].
    pose proof E as E'. vm_compute in E'. injection E' as <-. reflexivity.
  - destruct (interface_tables_created protocolAncestorEnv
                (setBases [31%nat; 40%nat] (newState [])) Hfit') as [_ Habort].
    exact (Habort eq_refl).
Defined.

(** The tables of the sample: [I2] alone gets one. *)
Lemma interface_tables_example :
  exists s',
    createInterfaceTables diamondEnv (setBases [11%nat; 31%nat] (newState [])) = Done tt s'
    /\ map interfaceType (interfaces s') = [31%nat].
Proof. eexists. split; [vm_compute; reflexivity|reflexivity]. Qed.

(** ** A pass that is asked for while it runs *)

(** X16: when one of the passes that has a function of its own is asked
    for while it is in progress, its body is not run again: the function
    returns true and leaves the type as it is.  The re-entry is reported as a
    fatal error, except by the FieldType and the Completion pass, which begin
    quietly and report nothing. *)
Theorem pass_reentered env p c s :
  passFunction env p = Some c ->
  isFinished (passes s) p = false ->
  isRunning (passes s) p = true ->
  c s = Done true (if beginsQuietly p then s
                   else setDiag (diag s ++ [(SevFatal, MsgInfiniteRecursion p)]) s).
Proof.
  intros Hc Hf Hr.
  assert (Hbegin : forall quiet,
             beginPass p quiet s
             = Done false (if quiet then s
                           else setDiag (diag s ++ [(SevFatal, MsgInfiniteRecursion p)]) s)).
  { intros quiet. unfold beginPass, bind at 1, get, PassMgr_begin. rewrite Hf, Hr.
    destruct quiet; reflexivity. }
  destruct p; simpl in Hc; try discriminate Hc; injection Hc as <-;
    unfold checkNameConflicts, analyzeConverters, analyzeConstructors, analyzeMemberTypes,
      analyzeFields, analyzeFieldsCounting, analyzeFieldTypes, analyzeMethods,
      analyzeOverloading, analyzeCompletely;
    try rewrite (bind_run _ _ _ _ _ (Hbegin _)); try reflexivity.
  assert (Hcount : analyzeFieldsCounting env s
                   = Done (true, None)
                       (setDiag (diag s ++ [(SevFatal, MsgInfiniteRecursion FieldPass)]) s)).
  { unfold analyzeFieldsCounting. rewrite (bind_run _ _ _ _ _ (Hbegin false)). reflexivity. }
  fold (analyzeFieldsCounting env). rewrite (bind_run _ _ _ _ _ Hcount). reflexivity.
Qed.

Lemma pass_reentered_witness :
  analyzeOverloading emptyInterfaceEnv
    (setPasses (mkPassMgr (PassSet.of_list [OverloadingPass]) PassSet.empty) (newState []))
  = Done true
      (setDiag [(SevFatal, MsgInfiniteRecursion OverloadingPass)]
         (setPasses (mkPassMgr (PassSet.of_list [OverloadingPass]) PassSet.empty)
            (newState []))).
Proof.
  exact (pass_reentered emptyInterfaceEnv OverloadingPass _
           (setPasses (mkPassMgr (PassSet.of_list [OverloadingPass]) PassSet.empty)
              (newState []))
           eq_refl eq_refl eq_refl).
Defined.

(** ** New methods and their dispatch indices *)

Lemma fnStateOf_same_id s f g : fnId f = fnId g -> fnStateOf s f = fnStateOf s g.
Proof. unfold fnStateOf. intros ->. reflexivity. Qed.

Lemma methodsAppended_refl s : methodsAppended s s [].
Proof.
  split; [rewrite app_nil_r; reflexivity|]. split; [reflexivity|].
  split; [auto|]. split; [intros i f H; discriminate H|auto].
Qed.

Lemma methodsAppended_traits s0 cur added g :
  methodsAppended s0 cur added ->
  isCtorIn cur g = isCtorIn s0 g /\ isSingularIn cur g = isSingularIn s0 g
  /\ overriddenMethods (fnStateOf cur g) = overriddenMethods (fnStateOf s0 g).
Proof.
  intros (_ & _ & H3 & _). destruct (H3 g) as (Ho & Hc & Hs).
  unfold isCtorIn, isSingularIn. rewrite Hc, Hs. auto.
Qed.

Lemma methodsAppended_diag s0 cur added d :
  methodsAppended s0 cur added -> methodsAppended s0 (setDiag d cur) added.
Proof. intros H. exact H. Qed.

(** A function without slot has no namesake among the appended ones. *)
Lemma no_slot_not_added s0 cur added fn :
  methodsAppended s0 cur added ->
  dispatchIndex (fnStateOf cur fn) < 0 ->
  forall f, In f added -> fnId f <> fnId fn.
Proof.
  intros (_ & _ & _ & H4 & _) Hneg f Hin Heq.
  apply list_elem_of_In, list_elem_of_lookup in Hin as (i & Hi).
  destruct (H4 i f Hi) as (Hidx & _).
  rewrite (fnStateOf_same_id cur f fn Heq) in Hidx. lia.
Qed.

Lemma append_keeps s0 cur added fn :
  methodsAppended s0 cur added ->
  fnIsFinal fn = false ->
  dispatchIndex (fnStateOf cur fn) < 0 ->
  exists cur',
    appendMethod fn cur = Done tt cur'
    /\ methodsAppended s0 cur' (added ++ [fn])
    /\ diag cur' = diag cur.
Proof.
  intros Hinv Hfinal Hneg.
  pose proof (no_slot_not_added _ _ _ _ Hinv Hneg) as Hfresh.
  destruct Hinv as (H1 & H2 & H3 & H4 & H5).
  set (u := fun x : FnState => mkFnState (Z.of_nat (length (instanceMethods cur)))
                                 (overriddenMethods x) (addedCtor x) (addedSingular x)).
  set (cur1 := setFunctions (<[fnId fn := u (fnStateOf cur fn)]> (functions cur)) cur).
  exists (setInstanceMethods (instanceMethods cur1 ++ [fn]) cur1).
  split; [reflexivity|]. split; [|reflexivity].
  assert (Hst : forall g, fnStateOf (setInstanceMethods (instanceMethods cur1 ++ [fn]) cur1) g
                          = if decide (fnId g = fnId fn) then u (fnStateOf cur g)
                            else fnStateOf cur g).
  { intros g. apply (fnStateOf_updateFn cur fn u g). }
  split; [simpl; rewrite H1, <- app_assoc; reflexivity|].
  split; [exact H2|].
  split.
  { intros g. rewrite Hst. destruct (decide _); [simpl|]; apply H3. }
  split.
  - intros i f Hi. rewrite Hst.
    destruct (decide (i < length added)%nat) as [Hlt|Hge].
    + rewrite lookup_app_l in Hi by exact Hlt.
      destruct (H4 i f Hi) as (Hidx & Hold & Hfin).
      destruct (decide (fnId f = fnId fn)) as [E|_].
      * exfalso. apply (Hfresh f); [|exact E].
        apply list_elem_of_In, list_elem_of_lookup. eauto.
      * auto.
    + rewrite lookup_app_r in Hi by lia.
      destruct (i - length added)%nat as [|k] eqn:Hk; [|destruct k; discriminate Hi].
      injection Hi as <-. rewrite decide_True by reflexivity. simpl.
      split; [rewrite H1, length_app; f_equal; lia|].
      split; [|exact Hfinal].
      rewrite <- (H5 fn Hfresh). exact Hneg.
  - intros g Hg. rewrite Hst.
    destruct (decide (fnId g = fnId fn)) as [E|_].
    + exfalso. apply (Hg fn); [apply in_or_app; right; left; reflexivity|]. congruence.
    + apply H5. intros f Hf. apply Hg. apply in_or_app. left. exact Hf.
Qed.

(** One guarded [appendMethod]. *)
Lemma append_when s0 cur added cond fn :
  methodsAppended s0 cur added ->
  (cond = true -> fnIsFinal fn = false /\ dispatchIndex (fnStateOf cur fn) < 0) ->
  exists cur',
    when cond (appendMethod fn) cur = Done tt cur'
    /\ methodsAppended s0 cur' (added ++ if cond then [fn] else [])
    /\ diag cur' = diag cur
    /\ (cond = true -> 0 <= dispatchIndex (fnStateOf cur' fn)).
Proof.
  intros Hinv Hcond. destruct cond.
  - destruct (Hcond eq_refl) as [Hfinal Hneg].
    destruct (append_keeps _ _ _ _ Hinv Hfinal Hneg) as (cur' & E & Hinv' & Hd).
    exists cur'. split; [exact E|]. split; [exact Hinv'|]. split; [exact Hd|].
    intros _. destruct Hinv' as (_ & _ & _ & H4 & _).
    destruct (H4 (length added) fn) as (Hidx & _).
    { rewrite lookup_app_r by lia. rewrite Nat.sub_diag. reflexivity. }
    rewrite Hidx. lia.
  - exists cur. rewrite app_nil_r. split; [reflexivity|]. split; [exact Hinv|].
    split; [reflexivity|]. discriminate.
Qed.

(** A slot once given is kept. *)
Lemma slot_kept s0 cur added cur' added' g :
  methodsAppended s0 cur added ->
  methodsAppended s0 cur' (added ++ added') ->
  0 <= dispatchIndex (fnStateOf cur g) ->
  0 <= dispatchIndex (fnStateOf cur' g).
Proof.
  intros Hinv Hinv' Hpos.
  destruct Hinv as (_ & _ & _ & H4 & H5). destruct Hinv' as (_ & _ & _ & H4' & H5').
  destruct (existsb (fun f => Nat.eqb (fnId f) (fnId g)) (added ++ added')) eqn:Ex.
  - apply existsb_exists in Ex as (f & Hin & Heq). apply Nat.eqb_eq in Heq.
    apply list_elem_of_In, list_elem_of_lookup in Hin as (i & Hi).
    destruct (H4' i f Hi) as (Hidx & _).
    rewrite <- (fnStateOf_same_id cur' f g Heq), Hidx. lia.
  - assert (Hnone : forall f, In f (added ++ added') -> fnId f <> fnId g).
    { intros f Hin Heq.
      assert (Hex : existsb (fun f => Nat.eqb (fnId f) (fnId g)) (added ++ added') = true).
      { apply existsb_exists. exists f. split; [exact Hin|]. apply Nat.eqb_eq. exact Heq. }
      congruence. }
    rewrite (H5' g Hnone), <- (H5 g); [exact Hpos|].
    intros f Hin. apply Hnone. apply in_or_app. left. exact Hin.
Qed.

Lemma addAccessor_keeps s0 cur added accessor :
  methodsAppended s0 cur added ->
  exists cur' extra,
    addAccessor accessor cur = Done tt cur'
    /\ methodsAppended s0 cur' (added ++ extra)
    /\ diag cur' = diag cur
    /\ incl extra (match accessor with Some a => [a] | None => [] end)
    /\ (forall a, accessor = Some a -> fnIsFinal a = false ->
          0 <= dispatchIndex (fnStateOf cur' a)).
Proof.
  intros Hinv. destruct accessor as [fn|].
  - cbn [addAccessor].
    destruct (append_when s0 cur added
                (negb (fnIsFinal fn) && (dispatchIndex (fnStateOf cur fn) <? 0)) fn Hinv)
      as (cur' & E & Hinv' & Hd & Hpos).
    { intros Hc. apply andb_true_iff in Hc as [Hf Hn].
      apply negb_true_iff in Hf. apply Z.ltb_lt in Hn. auto. }
    exists cur'. eexists. split; [erewrite bind_run; [exact E|reflexivity]|].
    split; [exact Hinv'|]. split; [exact Hd|]. split.
    + match goal with
      | |- incl (if ?c then _ else _) _ => destruct c; [apply incl_refl|intros x []]
      end.
    + intros a Ha Hfinal. injection Ha as <-. rewrite Hfinal in *. simpl in *.
      destruct (dispatchIndex (fnStateOf cur fn) <? 0) eqn:Hn.
      * apply Hpos. reflexivity.
      * apply Z.ltb_ge in Hn. rewrite app_nil_r in Hinv'.
        apply (slot_kept s0 cur added cur' [] fn Hinv); [rewrite app_nil_r; exact Hinv'|exact Hn].
  - exists cur, []. rewrite app_nil_r. split; [reflexivity|]. split; [exact Hinv|].
    split; [reflexivity|]. split; [apply incl_refl|]. intros a Ha. discriminate Ha.
Qed.

Lemma addNewMethods_loop s0 l : forall cur added,
  methodsAppended s0 cur added ->
  exists s' extra,
    forEach l addNewMethod cur = Done tt s'
    /\ methodsAppended s0 s' (added ++ extra)
    /\ diag s' = diag cur ++ map (fun f => (SevError, MsgUndefWithoutBase (fnId f)))
                               (strayUndefs s0 l)
    /\ incl extra (ownFunctions l)
    /\ (forall fn, In (DFunction fn) l -> isDispatched s0 fn = true ->
          0 <= dispatchIndex (fnStateOf s' fn))
    /\ (forall p a, In (DProperty p) l ->
          StorageClass_eqb (propStorageClass p) Storage_Instance && propIsSingular p = true ->
          getter p = Some a \/ setter p = Some a -> fnIsFinal a = false ->
          0 <= dispatchIndex (fnStateOf s' a)).
Proof.
  induction l as [|d l IH]; intros cur added Hinv.
  - exists cur, []. simpl. rewrite !app_nil_r. split; [reflexivity|].
    split; [exact Hinv|]. split; [reflexivity|]. split; [apply incl_refl|].
    split; [intros fn []|intros p a []].
  - assert (Hone : exists cur1 extra1,
               addNewMethod d cur = Done tt cur1
               /\ methodsAppended s0 cur1 (added ++ extra1)
               /\ diag cur1 = diag cur
                              ++ map (fun f => (SevError, MsgUndefWithoutBase (fnId f)))
                                   (strayUndefs s0 [d])
               /\ incl extra1 (functionsOf d)
               /\ (forall fn, d = DFunction fn -> isDispatched s0 fn = true ->
                     0 <= dispatchIndex (fnStateOf cur1 fn))
               /\ (forall p a, d = DProperty p ->
                     StorageClass_eqb (propStorageClass p) Storage_Instance
                     && propIsSingular p = true ->
                     getter p = Some a \/ setter p = Some a -> fnIsFinal a = false ->
                     0 <= dispatchIndex (fnStateOf cur1 a))).
    { destruct d as [v|fn|p|nm sc sg|nm];
        try (exists cur, []; simpl; rewrite !app_nil_r;
             split; [reflexivity|]; split; [exact Hinv|]; split; [reflexivity|];
             split; [intros x []|]; split; [intros fn E; discriminate E|
                                            intros p a E; discriminate E]).
      - destruct (methodsAppended_traits s0 cur added fn Hinv) as (Hc & Hs & Ho).
        unfold addNewMethod. erewrite bind_run; [|reflexivity].
        cbn [strayUndefs]. unfold isStrayUndef, isDispatched, isOwnMethod.
        rewrite Hc, Hs, Ho.
        destruct (StorageClass_eqb (fnStorageClass fn) Storage_Instance && isSingularIn s0 fn
                  && negb (fnIsMacro fn)) eqn:Hown.
        + cbn [andb].
          set (stray := fnIsUndefined fn
                        && bool_decide (overriddenMethods (fnStateOf s0 fn) = ∅)
                        && (negb (isCtorIn s0 fn) || negb (isNil (fnParams fn)))).
          set (cur0 := setDiag (diag cur
                                ++ (if stray
                                    then [(SevError, MsgUndefWithoutBase (fnId fn))]
                                    else [])) cur).
          assert (Hemit : when stray (emit SevError (MsgUndefWithoutBase (fnId fn))) cur
                          = Done tt cur0).
          { unfold cur0. destruct stray; [reflexivity|].
            rewrite app_nil_r, setDiag_same. reflexivity. }
          destruct (append_when s0 cur0 added
                      (negb (isCtorIn s0 fn) && negb (fnIsFinal fn)
                       && (dispatchIndex (fnStateOf cur fn) <? 0)) fn)
            as (cur1 & E & Hinv1 & Hd1 & Hpos).
          { exact Hinv. }
          { intros Hcond. apply andb_true_iff in Hcond as [Hcond Hn].
            apply andb_true_iff in Hcond as [_ Hf]. apply negb_true_iff in Hf.
            apply Z.ltb_lt in Hn. split; [exact Hf|exact Hn]. }
          exists cur1. eexists. split; [rewrite (bind_run _ _ _ _ _ Hemit); exact E|].
          split; [exact Hinv1|].
          split; [rewrite Hd1; unfold cur0; simpl; destruct stray; reflexivity|].
          split; [match goal with
                  | |- incl (if ?c then _ else _) _ =>
                      destruct c; [apply incl_refl|intros x []]
                  end|].
          split; [|intros p a Ed; discriminate Ed].
          intros fn' Ed Hdisp. injection Ed as <-.
          apply andb_true_iff in Hdisp as [Hdisp Hfin].
          apply andb_true_iff in Hdisp as [_ Hct]. rewrite Hct, Hfin in *. simpl in *.
          destruct (dispatchIndex (fnStateOf cur fn) <? 0) eqn:Hn.
          * apply Hpos. reflexivity.
          * apply Z.ltb_ge in Hn. rewrite app_nil_r in Hinv1.
            apply (slot_kept s0 cur added cur1 [] fn Hinv);
              [rewrite app_nil_r; exact Hinv1|exact Hn].
        + exists cur, []. simpl. rewrite !app_nil_r. split; [reflexivity|].
          split; [exact Hinv|]. split; [reflexivity|]. split; [intros x []|].
          split; [|intros p a Ed; discriminate Ed].
          intros fn' Ed Hd. injection Ed as <-. rewrite Hown in Hd. discriminate Hd.
      - unfold addNewMethod. erewrite bind_run; [|reflexivity].
        cbn [strayUndefs map]. rewrite app_nil_r.
        destruct (StorageClass_eqb (propStorageClass p) Storage_Instance && propIsSingular p)
          eqn:Hp.
        + destruct (addAccessor_keeps s0 cur added (getter p) Hinv)
            as (cur1 & extra1 & E1 & Hinv1 & Hd1 & Hin1 & Hpos1).
          destruct (addAccessor_keeps s0 cur1 (added ++ extra1) (setter p) Hinv1)
            as (cur2 & extra2 & E2 & Hinv2 & Hd2 & Hin2 & Hpos2).
          exists cur2, (extra1 ++ extra2).
          split; [rewrite (bind_run _ _ _ _ _ E1); exact E2|].
          split; [rewrite app_assoc; exact Hinv2|]. split; [congruence|].
          split.
          { unfold functionsOf. apply incl_app; intros x Hx; apply in_or_app;
              [left; apply Hin1|right; apply Hin2]; exact Hx. }
          split; [intros fn Ed; discriminate Ed|].
          intros p' a Ed _ Hacc Hfinal. injection Ed as <-. destruct Hacc as [Hg|Hs].
          * apply (slot_kept s0 cur1 (added ++ extra1) cur2 extra2 a Hinv1 Hinv2).
            apply Hpos1; assumption.
          * apply Hpos2; assumption.
        + exists cur, []. rewrite app_nil_r. split; [reflexivity|].
          split; [exact Hinv|]. split; [reflexivity|]. split; [intros x []|].
          split; [intros fn Ed; discriminate Ed|].
          intros p' a Ed Hp'. injection Ed as <-. congruence. }
    destruct Hone as (cur1 & extra1 & E1 & Hinv1 & Hd1 & Hin1 & Hfn1 & Hp1).
    destruct (IH cur1 (added ++ extra1) Hinv1)
      as (s' & extra & E & Hinv' & Hd & Hin & Hfn & Hp).
    exists s', (extra1 ++ extra).
    split; [cbn [forEach]; rewrite (bind_run _ _ _ _ _ E1); exact E|].
    split; [rewrite app_assoc; exact Hinv'|].
    split.
    { rewrite Hd, Hd1, <- app_assoc, <- map_app. f_equal. f_equal.
      destruct d as [v|fn|p|nm sc sg|nm]; try reflexivity.
      cbn [strayUndefs]. destruct (isStrayUndef s0 fn); reflexivity. }
    split.
    { unfold ownFunctions. cbn [flat_map]. apply incl_app; intros x Hx; apply in_or_app;
        [left; apply Hin1|right; apply Hin]; exact Hx. }
    split.
    + intros fn [->|Hl] Hdisp; [|apply Hfn; assumption].
      apply (slot_kept s0 cur1 (added ++ extra1) s' extra fn Hinv1 Hinv').
      apply Hfn1; [reflexivity|exact Hdisp].
    + intros p a [->|Hl] Hsing Hacc Hfinal; [|eapply Hp; eassumption].
      apply (slot_kept s0 cur1 (added ++ extra1) s' extra a Hinv1 Hinv').
      eapply Hp1; [reflexivity|eassumption..].
Qed.

(** X17: [addNewMethods] appends methods at the end of the method table and
    touches no slot that is there.  Every method it appends is a function or
    an accessor of the type that is not final and had no slot, it is appended
    once, and its dispatch index is the slot it is appended at; methods that
    had a slot keep their index.  Afterwards every instance method of the
    type that is neither final nor a constructor, and every accessor of its
    instance properties that is not final, has a slot.  A method declared
    [undef] that overrides nothing is reported, unless it is a constructor
    without parameters. *)
Theorem new_methods_appended s :
  exists s' added,
    addNewMethods s = Done tt s'
    /\ instanceMethods s' = instanceMethods s ++ added
    /\ besideMethods s' = besideMethods s
    /\ incl added (ownFunctions (members s))
    /\ (forall i f, added !! i = Some f ->
          dispatchIndex (fnStateOf s' f) = Z.of_nat (length (instanceMethods s) + i)
          /\ dispatchIndex (fnStateOf s f) < 0
          /\ fnIsFinal f = false)
    /\ (forall i j f g, added !! i = Some f -> added !! j = Some g -> fnId f = fnId g -> i = j)
    /\ (forall g, 0 <= dispatchIndex (fnStateOf s g) -> fnStateOf s' g = fnStateOf s g)
    /\ (forall fn, In (DFunction fn) (members s) -> isDispatched s fn = true ->
          0 <= dispatchIndex (fnStateOf s' fn))
    /\ (forall p a, In (DProperty p) (members s) ->
          StorageClass_eqb (propStorageClass p) Storage_Instance && propIsSingular p = true ->
          getter p = Some a \/ setter p = Some a -> fnIsFinal a = false ->
          0 <= dispatchIndex (fnStateOf s' a))
    /\ diag s' = diag s ++ map (fun f => (SevError, MsgUndefWithoutBase (fnId f)))
                             (strayUndefs s (members s)).
Proof.
  destruct (addNewMethods_loop s (members s) s [] (methodsAppended_refl s))
    as (s' & added & E & Hinv & Hd & Hin & Hfn & Hp).
  simpl in Hinv. exists s', added.
  split; [unfold addNewMethods; erewrite bind_run; [exact E|reflexivity]|].
  pose proof Hinv as (H1 & H2 & H3 & H4 & H5).
  split; [exact H1|]. split; [exact H2|]. split; [exact Hin|]. split; [exact H4|].
  split.
  { intros i j f g Hi Hj Heq.
    destruct (H4 i f Hi) as (Hif & _). destruct (H4 j g Hj) as (Hjg & _).
    rewrite (fnStateOf_same_id s' f g Heq) in Hif. lia. }
  split.
  { intros g Hpos.
    assert (Hnone : forall f, In f added -> fnId f <> fnId g).
    { intros f Hf Heq. apply list_elem_of_In, list_elem_of_lookup in Hf as (i & Hi).
      destruct (H4 i f Hi) as (_ & Hneg & _).
      rewrite (fnStateOf_same_id s f g Heq) in Hneg. lia. }
    destruct (H3 g) as (Ho & Hc & Hs). pose proof (H5 g Hnone) as Hi.
    destruct (fnStateOf s' g), (fnStateOf s g). simpl in *. congruence. }
  split; [exact Hfn|]. split; [exact Hp|exact Hd].
Qed.

(** [A] adds [bar] behind the inherited [foo]; the overriding [foo] has
    its slot already and is not appended. *)
Lemma new_methods_example :
  exists s',
    analyzeOverloading overridingEnv (derivedFrom [DFunction overFoo; DFunction newBar])
    = Done true s'
    /\ instanceMethods s' = [overFoo; newBar]
    /\ dispatchIndex (fnStateOf s' overFoo) = 0
    /\ dispatchIndex (fnStateOf s' newBar) = 1.
Proof.
  eexists. split; [vm_compute; reflexivity|].
  split; [reflexivity|]. split; vm_compute; reflexivity.
Qed.

(** ** The method table after the Overloading pass *)

(** C1 (amended): the Overloading pass on a type with primary base [B] and a
    method table still empty returns when its assertions hold ([B] is
    singular, the ancestors that get an interface table are interfaces, the
    tables of the bases have the size of their method tables, and the types
    of the instance properties have been analyzed).  When no
    method of the type can override another method of the type that it can
    come upon in a slot, the method table it leaves begins with the slots of
    the table of [B], each of which holds the method of [B] itself or a
    method whose set of overridden methods contains it; the slots behind them
    hold the methods that the type adds, each a method of its own that is not
    final, with its slot as dispatch index. *)
Theorem vtable_slots env s b :
  super s = Some b ->
  instanceMethods s = [] ->
  isFinished (passes s) OverloadingPass = false ->
  isRunning (passes s) OverloadingPass = false ->
  tvIsSingular (typeView env b) = true ->
  interfacesOnly env (bases s) = true ->
  parentTablesFit env (bases s) ->
  propertiesTyped (members s) = true ->
  noOverrideAmong env (members s) ->
  let base := tvInstanceMethods (typeView env b) in
  exists s' added,
    analyzeOverloading env s = Done true s'
    /\ isFinished (passes s') OverloadingPass = true
    /\ length (instanceMethods s') = (length base + length added)%nat
    /\ (forall i, (i < length base)%nat -> inheritedOrOverridden s' base i)
    /\ (forall i f, added !! i = Some f ->
          instanceMethods s' !! (length base + i)%nat = Some f
          /\ In f (ownFunctions (members s))
          /\ fnIsFinal f = false
          /\ dispatchIndex (fnStateOf s' f) = Z.of_nat (length base + i)).
Proof.
  intros Hsup Hempty Hfin Hrun Hsing Hkinds Hfit Htyped Hno base. subst base.
  assert (Hsuper : superClassSingular env s = true).
  { unfold superClassSingular, superClassOf. rewrite Hsup. exact Hsing. }
  destruct (analyzeOverloading_runs env s Hfin Hrun Hsuper Hkinds Hfit Htyped) as (s' & H).
  destruct (vtable_slots_of_run env s s' b Hsup Hempty Hfin Hrun Hno H)
    as (Hdone & _ & Hslots & s3 & s4 & H4 & Hlen3 & Hmem3 & Hm' & Hf').
  destruct (addNewMethods_loop s3 (members s3) s3 [] (methodsAppended_refl s3))
    as (s4' & added & E & Hinv & _ & Hin & _).
  assert (E4 : addNewMethods s3 = Done tt s4')
    by (unfold addNewMethods; erewrite bind_run; [exact E|reflexivity]).
  rewrite E4 in H4. injection H4 as ->.
  destruct Hinv as (Hm4 & _ & _ & Hadded & _). simpl in Hm4.
  exists s', added. split; [exact H|]. split; [exact Hdone|].
  split; [rewrite Hm', Hm4, length_app, Hlen3; reflexivity|].
  split; [exact Hslots|].
  intros i f Hi. destruct (Hadded i f Hi) as (Hidx & _ & Hfinal).
  split.
  { rewrite Hm', Hm4, lookup_app_r by (rewrite Hlen3; lia).
    rewrite Hlen3.
    replace (length (tvInstanceMethods (typeView env b)) + i
             - length (tvInstanceMethods (typeView env b)))%nat with i by lia.
    exact Hi. }
  split.
  { rewrite <- Hmem3. apply Hin. apply list_elem_of_In. apply list_elem_of_lookup.
    exists i. exact Hi. }
  split; [exact Hfinal|].
  unfold fnStateOf. rewrite Hf'. fold (fnStateOf s4 f). rewrite Hidx, Hlen3. reflexivity.
Qed.

(** Where a method can override the methods of its name: the class [A] of
    the sample puts its [foo] into the slot of the [foo] of [B] and adds its
    [bar] behind. *)
Lemma vtable_slots_witness :
  exists s',
    analyzeOverloading overridingAndAddingEnv
      (derivedFrom [DFunction overFoo; DFunction newBar]) = Done true s'
    /\ instanceMethods s' = [overFoo; newBar]
    /\ inheritedOrOverridden s' [baseFoo] 0
    /\ dispatchIndex (fnStateOf s' newBar) = 1.
Proof.
  assert (Hfit : parentTablesFit overridingAndAddingEnv
                   (bases (derivedFrom [DFunction overFoo; DFunction newBar]))).
  { intros st itype parentImpl _ Hfind. discriminate Hfind. }
  assert (Hno : noOverrideAmong overridingAndAddingEnv
                  (members (derivedFrom [DFunction overFoo; DFunction newBar]))).
  { intros n o Ho [[Hn Hname]|(p & [Hp|[Hp|[]]] & _)]; [|discriminate Hp|discriminate Hp].
    intros _. simpl in Hn, Ho.
    destruct Hn as [Hn|[Hn|[]]]; injection Hn as <-;
      destruct Ho as [<-|[<-|[]]]; try reflexivity; discriminate Hname. }
  destruct (vtable_slots overridingAndAddingEnv
              (derivedFrom [DFunction overFoo; DFunction newBar]) 5%nat
              eq_refl eq_refl eq_refl eq_refl eq_refl eq_refl Hfit eq_refl Hno)
    as (s' & added & Hrun & _ & _ & Hslots & Hadded).
  exists s'. split; [exact Hrun|].
  pose proof Hrun as Hrun'. vm_compute in Hrun'. injection Hrun' as <-.
  split; [reflexivity|]. split; [apply (Hslots 0%nat); simpl; lia|].
  vm_compute. reflexivity.
Defined.

(** ** The passes a failed request leaves in progress *)

Lemma running_after_begin p m q :
  noneRunning m ->
  isRunning (mkPassMgr (PassSet.add p (running m)) (finished m)) q = true -> q = p.
Proof.
  intros Hnr. unfold isRunning. simpl. rewrite contains_add.
  specialize (Hnr q). unfold isRunning in Hnr. rewrite Hnr, orb_false_r.
  intros H. apply Pass_eqb_true in H. congruence.
Qed.

Section LeftRunning.
Variable env : Env.

Lemma analyzeConstructors_any s b s' :
noneRunning (passes s) -> analyzeConstructors env s = Done b s' ->
noneRunning (passes s') \/ (b = false /\ onlyRunning ConstructorPass (passes s')).
Proof.
intros Hnr H. destruct b.
- left. apply (analyzeConstructors_ran env _ _ Hnr H).
- right. split; [reflexivity|]. unfold analyzeConstructors in H.
  mstep H as begun s1 Hb.
  apply (beginPass_at_rest _ _ _ _ _ Hnr) in Hb as [(-> & Hf & ->)|(-> & Hf & ->)];
    [|apply ret_Done in H as [? _]; discriminate].
  destruct (isClassOrStruct (typeClass (target env))).
  + mstep H as sup s2 Hsup. apply get_Done in Hsup as [-> ->].
    match type of H with
    | (if ?c then _ else _) _ = _ => destruct c
    end.
    * apply ret_Done in H as [_ <-]. intros q. apply running_after_begin. exact Hnr.
    * exfalso. revert H. unfold bind.
      repeat match goal with
             | |- context [match ?c ?x with Done _ _ => _ | Aborted _ _ => _ end] =>
                 destruct (c x)
             end; intros H; try discriminate H.
  + mstep H as u s2 Hu. apply ret_Done in H as [? _]. discriminate.
Qed.

Lemma step_any passesToRun p c (k : M bool) s b s' :
(forall s b s', noneRunning (passes s) -> c s = Done b s' ->
                noneRunning (passes s') \/ (b = false /\ onlyRunning p (passes s'))) ->
noneRunning (passes s) ->
step passesToRun p c k s = Done b s' ->
(exists s1, noneRunning (passes s1) /\ k s1 = Done b s')
\/ (b = false /\ (noneRunning (passes s') \/ onlyRunning p (passes s'))).
Proof.
intros Hc Hnr H. unfold step in H.
destruct (PassSet.contains passesToRun p); [|left; exists s; auto].
mstep H as ok s1 Hok. destruct (Hc _ _ _ Hnr Hok) as [Hnr1|[-> Hon]].
- destruct ok; [left; exists s1; auto|].
  apply ret_Done in H as [<- <-]. right. auto.
- apply ret_Done in H as [<- <-]. right. auto.
Qed.

Lemma step_plain passesToRun p c (k : M bool) s b s' :
(forall s b s', noneRunning (passes s) -> c s = Done b s' -> noneRunning (passes s')) ->
noneRunning (passes s) ->
step passesToRun p c k s = Done b s' ->
(exists s1, noneRunning (passes s1) /\ k s1 = Done b s')
\/ (b = false /\ noneRunning (passes s')).
Proof.
intros Hc Hnr H. unfold step in H.
destruct (PassSet.contains passesToRun p); [|left; exists s; auto].
mstep H as ok s1 Hok. pose proof (Hc _ _ _ Hnr Hok) as Hnr1.
destruct ok; [left; exists s1; auto|].
apply ret_Done in H as [<- <-]. right. auto.
Qed.

Lemma guarded_any passesToRun p body (k : M bool) s b s' :
noneRunning (passes s) ->
guarded passesToRun p body k s = Done b s' ->
(exists s1, noneRunning (passes s1) /\ k s1 = Done b s')
\/ (b = false /\ onlyRunning p (passes s')).
Proof.
intros Hnr H. unfold guarded in H.
destruct (PassSet.contains passesToRun p); [|left; exists s; auto].
mstep H as begun s1 Hb.
apply (beginPass_at_rest _ _ _ _ _ Hnr) in Hb as [(-> & Hf & ->)|(-> & Hf & ->)];
  [|left; exists s; auto].
destruct body.
- mstep H as u s2 Hu. apply modify_Done in Hu as ->. left.
  eexists. split; [|exact H]. apply ranPass_begin_finish. exact Hnr.
- apply ret_Done in H as [<- <-]. right. split; [reflexivity|].
  intros q. apply running_after_begin. exact Hnr.
Qed.

(** One statement of [runPasses] whose pass function keeps the registry at
  rest whatever it returns. *)
Ltac plain_pass H lem :=
let s1 := fresh "s" in
let Hnr := fresh "Hnr" in
let Hn := fresh "Hn" in
apply step_plain in H as [(s1 & Hnr & H)|(-> & Hn)];
[ | left; exact Hn
  | let Ha := fresh in let Hb := fresh in
    intros ? ? ? Ha Hb; apply (lem _ _ _ Ha Hb)
  | assumption ].

Ltac guarded_pass H p :=
let s1 := fresh "s" in
let Hnr := fresh "Hnr" in
let Hon := fresh "Hon" in
apply guarded_any in H as [(s1 & Hnr & H)|(-> & Hon)];
[ | right; split; [reflexivity|]; exists p; split; [reflexivity|exact Hon]
  | assumption ].

(** X18: a request on a type with no pass in progress leaves none in
  progress when it succeeds.  When it fails, at most one pass stays in
  progress, and it can only be ScopeCreation, Attribute or Constructor:
  every other pass is finished before its failure is returned. *)
Theorem passes_left_running task s b s' :
noneRunning (passes s) ->
analyze env task s = Done b s' ->
(b = true -> noneRunning (passes s'))
/\ exists p, canStayRunning p = true /\ onlyRunning p (passes s').
Proof.
intros Hnr H.
assert (Hmain : noneRunning (passes s')
                \/ (b = false /\ exists p, canStayRunning p = true
                                           /\ onlyRunning p (passes s'))).
{ unfold analyze in H. destruct (passSetOf task) as [set|];
    [|apply ret_Done in H as [_ <-]; auto].
  unfold runPasses in H. mstep H as fin s0 Hget. apply get_Done in Hget as [-> ->].
  destruct (PassSet.isEmpty _); [apply ret_Done in H as [_ <-]; auto|].
  destruct (isTemplate (target env)).
  { plain_pass H (analyzeBaseClasses_ran env).
    guarded_pass H ScopeCreationPass.
    apply ret_Done in H as [_ <-]. auto. }
  destruct (isTemplateMember (target env)); [apply ret_Done in H as [_ <-]; auto|].
  guarded_pass H ScopeCreationPass.
  guarded_pass H AttributePass.
  plain_pass H checkNameConflicts_ran.
  plain_pass H (analyzeBaseClasses_ran env).
  plain_pass H analyzeMemberTypes_ran.
  plain_pass H (analyzeFields_ran env).
  plain_pass H (analyzeConverters_ran env).
  apply step_any in H as [(s7 & Hnr7 & H)|(-> & [Hn|Hon])];
    [ | left; exact Hn
      | right; split; [reflexivity|]; exists ConstructorPass; split; [reflexivity|exact Hon]
      | apply analyzeConstructors_any
      | assumption ].
  plain_pass H (analyzeMethods_ran env).
  plain_pass H (analyzeOverloading_ran env).
  plain_pass H analyzeFieldTypes_ran.
  plain_pass H analyzeCompletely_ran.
  apply ret_Done in H as [_ <-]. auto. }
destruct Hmain as [Hn|(-> & p & Hp & Hon)].
- split; [auto|]. exists ConstructorPass. split; [reflexivity|].
  intros q Hq. rewrite Hn in Hq. discriminate Hq.
- split; [discriminate|]. exists p. auto.
Qed.
End LeftRunning.

Lemma passes_left_running_witness :
  exists s',
    analyze failingAttributesEnv Task_PrepMemberLookup (newState []) = Done false s'
    /\ isRunning (passes s') AttributePass = true
    /\ exists p, canStayRunning p = true /\ onlyRunning p (passes s').
Proof.
  destruct (analyze failingAttributesEnv Task_PrepMemberLookup (newState []))
    as [[] s'|] eqn:E; try (vm_compute in E; discriminate E).
  exists s'. split; [reflexivity|].
  assert (Hnr : noneRunning (passes (newState []))) by (intros q; apply contains_empty).
  destruct (passes_left_running failingAttributesEnv Task_PrepMemberLookup (newState [])
              false s' Hnr E) as [_ Hp].
  split; [|exact Hp]. vm_compute in E. injection E as <-. reflexivity.
Defined.

(** ** When the check for required methods is silent *)

Lemma interfaceReport_nil itab :
  interfaceReport itab = []
  <-> forall it, In it itab -> List.filter isUnimplemented (methods it) = [].
Proof.
  induction itab as [|it rest IH]; simpl.
  - split; [intros _ it []|reflexivity].
  - destruct (List.filter isUnimplemented (methods it)) as [|f fs] eqn:E.
    + rewrite IH. split.
      * intros H it' [<-|Hin]; [exact E|apply H; exact Hin].
      * intros H it' Hin. apply H. right. exact Hin.
    + split; [discriminate|]. intros H. specialize (H it (or_introl eq_refl)).
      congruence.
Qed.

(** X19: the check for required methods reports nothing in three cases
    only: the type is abstract; or its method table holds a method without
    implementation but the type is an interface or a protocol, for which the
    check then ends without a look at the interface tables; or neither the
    method table nor any interface table holds a method without
    implementation.  A method counts as implemented when it has a body or is
    extern, intrinsic or declared [undef]. *)
Theorem required_methods_silent env s :
  exists report,
    checkForRequiredMethods env s = Done tt (setDiag (diag s ++ report) s)
    /\ (report = []
        <-> isAbstract (target env) = true
            \/ (List.filter isUnimplemented (instanceMethods s) <> []
                /\ isClassOrStruct (typeClass (target env)) = false)
            \/ (List.filter isUnimplemented (instanceMethods s) = []
                /\ forall it, In it (interfaces s) ->
                     List.filter isUnimplemented (methods it) = []))
    /\ (forall f, isUnimplemented f = false
          <-> hasBody f = true \/ fnIsExtern f = true \/ fnIsIntrinsic f = true
              \/ fnIsUndefined f = true).
Proof.
  assert (Himpl : forall f, isUnimplemented f = false
            <-> hasBody f = true \/ fnIsExtern f = true \/ fnIsIntrinsic f = true
                \/ fnIsUndefined f = true).
  { intros f. unfold isUnimplemented.
    destruct (hasBody f), (fnIsExtern f), (fnIsIntrinsic f), (fnIsUndefined f); simpl;
      intuition congruence. }
  destruct (isAbstract (target env)) eqn:Habs.
  - exists []. split; [|split; [tauto|exact Himpl]].
    unfold checkForRequiredMethods. rewrite Habs, app_nil_r, setDiag_same. reflexivity.
  - eexists. split; [apply checkForRequiredMethods_report; exact Habs|].
    split; [|exact Himpl].
    destruct (List.filter isUnimplemented (instanceMethods s)) as [|f fs] eqn:E.
    + rewrite interfaceReport_nil. split.
      * intros H. right. right. auto.
      * intros [H|[[H _]|[_ H]]]; [discriminate H|congruence|exact H].
    + unfold vtableReport, isClassOrStruct. destruct (typeClass (target env)); split;
        try discriminate; try (intros _; right; left; split; [discriminate|reflexivity]);
        try reflexivity;
        intros [H|[[_ H]|[H _]]]; discriminate H.
Qed.

(** ** Function types *)

Section FunctionTypeProperties.
Context {TypeRef : Type}.
Variable isDefined : TypeRef -> bool.
Variable refIsSingular : TypeRef -> bool.
Variable refIsEqual : TypeRef -> TypeRef -> bool.

Lemma parameter_notes (ps : list (TypedParameter TypeRef)) :
(paramsSingular isDefined refIsSingular ps = true
 <-> flat_map (fun param =>
                 if negb (isDefined (tpType param))
                 then [NoteParameterUnspecified (tpName param)]
                 else if negb (refIsSingular (tpType param))
                      then [NoteParameterNonSingular (tpName param)]
                      else []) ps = [])
/\ length (flat_map (fun param =>
                 if negb (isDefined (tpType param))
                 then [NoteParameterUnspecified (tpName param)]
                 else if negb (refIsSingular (tpType param))
                      then [NoteParameterNonSingular (tpName param)]
                      else []) ps)
   = length (List.filter (needsNote isDefined refIsSingular) ps).
Proof.
induction ps as [|p ps [IH1 IH2]]; simpl; [split; [tauto|reflexivity]|].
unfold needsNote at 1.
destruct (isDefined (tpType p)), (refIsSingular (tpType p)); simpl;
  rewrite ?IH2; (split; [|reflexivity]); try exact IH1; split; discriminate.
Qed.

(** X20: a function type is singular exactly when [whyNotSingular] has
  nothing to say about it, so the report that the type of a default
  constructor is not singular is always followed by a reason.  There is
  one note for the return type, one for [self] and one for each parameter
  whose type is unspecified or not singular. *)
Theorem singular_or_reason (ft : FunctionType TypeRef) :
(FunctionType_isSingular isDefined refIsSingular ft = true
 <-> whyNotSingular isDefined refIsSingular ft = [])
/\ length (whyNotSingular isDefined refIsSingular ft)
   = ((if isDefined (returnType_ ft) && refIsSingular (returnType_ ft) then 0 else 1)
      + (match selfParam_ ft with
         | Some self => if isDefined (tpType self) && refIsSingular (tpType self)
                        then 0 else 1
         | None => 0
         end)
      + length (List.filter (needsNote isDefined refIsSingular) (params_ ft)))%nat.
Proof.
unfold FunctionType_isSingular, whyNotSingular.
destruct (parameter_notes (params_ ft)) as [Hiff Hlen]. rewrite !length_app, Hlen.
destruct (isDefined (returnType_ ft)), (refIsSingular (returnType_ ft)); simpl;
  try (split; [split; discriminate|reflexivity]).
all: destruct (selfParam_ ft) as [self|]; simpl.
all: try (destruct (isDefined (tpType self)), (refIsSingular (tpType self)); simpl).
all: try (split; [split; discriminate|reflexivity]).
all: split; [exact Hiff|reflexivity].
Qed.

Lemma paramsEqual_refl ps :
(forall a, refIsEqual a a = true) -> paramsEqual refIsEqual ps ps = true.
Proof. intros Hr. induction ps as [|p ps IH]; simpl; [reflexivity|]. rewrite Hr. exact IH. Qed.

Lemma paramsEqual_sym ps : forall qs,
(forall a b, refIsEqual a b = refIsEqual b a) ->
paramsEqual refIsEqual ps qs = paramsEqual refIsEqual qs ps.
Proof.
induction ps as [|p ps IH]; intros [|q qs] Hs; simpl; try reflexivity.
rewrite (Hs (tpType p) (tpType q)), (IH qs Hs). reflexivity.
Qed.

Lemma paramsEqual_trans ps : forall qs rs,
(forall a b c, refIsEqual a b = true -> refIsEqual b c = true -> refIsEqual a c = true) ->
length ps = length qs ->
paramsEqual refIsEqual ps qs = true -> paramsEqual refIsEqual qs rs = true ->
paramsEqual refIsEqual ps rs = true.
Proof.
induction ps as [|p ps IH]; intros [|q qs] [|r rs] Ht Hlen H1 H2; simpl in *;
  try reflexivity; try discriminate.
destruct (refIsEqual (tpType p) (tpType q)) eqn:E1; [|discriminate].
destruct (refIsEqual (tpType q) (tpType r)) eqn:E2; [|discriminate].
rewrite (Ht _ _ _ E1 E2). simpl. apply (IH qs rs Ht); [lia|assumption..].
Qed.

(** X21: where the comparison of type references is an equivalence, so is
  the comparison of function types whose return types are defined; two
  types that compare equal have the same number of parameters and are both
  static or both not.  The comparison does not look at [self]. *)
Theorem function_type_equality (a b c : FunctionType TypeRef) :
refEquivalence refIsEqual ->
isDefined (returnType_ a) = true ->
isDefined (returnType_ b) = true ->
isDefined (returnType_ c) = true ->
FunctionType_isEqual isDefined refIsEqual a a = Some true
/\ FunctionType_isEqual isDefined refIsEqual a b
   = FunctionType_isEqual isDefined refIsEqual b a
/\ (FunctionType_isEqual isDefined refIsEqual a b = Some true ->
    FunctionType_isEqual isDefined refIsEqual b c = Some true ->
    FunctionType_isEqual isDefined refIsEqual a c = Some true)
/\ (FunctionType_isEqual isDefined refIsEqual a b = Some true ->
    length (params_ a) = length (params_ b) /\ isStatic_ a = isStatic_ b)
/\ (forall self self',
    FunctionType_isEqual isDefined refIsEqual
      (mkFunctionType (isStatic_ a) (returnType_ a) self (params_ a))
      (mkFunctionType (isStatic_ b) (returnType_ b) self' (params_ b))
    = FunctionType_isEqual isDefined refIsEqual a b).
Proof.
intros [Hr Hs Ht] Da Db Dc. unfold FunctionType_isEqual. simpl.
rewrite Da, Db, Dc. simpl.
split.
{ rewrite Nat.eqb_refl, Bool.eqb_reflx, Hr. simpl. rewrite paramsEqual_refl by exact Hr.
  reflexivity. }
split.
{ rewrite (Nat.eqb_sym (length (params_ a))), (Hs (returnType_ a)).
  assert (Hsw : Bool.eqb (isStatic_ a) (isStatic_ b) = Bool.eqb (isStatic_ b) (isStatic_ a))
    by (destruct (isStatic_ a), (isStatic_ b); reflexivity).
  rewrite Hsw, (paramsEqual_sym (params_ a) (params_ b) Hs). reflexivity. }
split.
{ destruct (length (params_ b) =? length (params_ a))%nat eqn:L1; [|discriminate].
  destruct (Bool.eqb (isStatic_ b) (isStatic_ a)) eqn:S1; [|discriminate].
  destruct (refIsEqual (returnType_ b) (returnType_ a)) eqn:R1; [|discriminate].
  destruct (length (params_ c) =? length (params_ b))%nat eqn:L2; [|discriminate].
  destruct (Bool.eqb (isStatic_ c) (isStatic_ b)) eqn:S2; [|discriminate].
  destruct (refIsEqual (returnType_ c) (returnType_ b)) eqn:R2; [|discriminate].
  simpl. intros P1 P2. injection P1 as P1. injection P2 as P2.
  apply Nat.eqb_eq in L1, L2. apply Bool.eqb_prop in S1, S2.
  assert (L3 : (length (params_ c) =? length (params_ a))%nat = true)
    by (apply Nat.eqb_eq; congruence).
  rewrite L3, S2, S1, Bool.eqb_reflx, (Ht _ _ _ R2 R1). simpl.
  rewrite (paramsEqual_trans (params_ a) (params_ b) (params_ c) Ht);
    [reflexivity|lia|assumption..]. }
split; [|reflexivity].
destruct (length (params_ b) =? length (params_ a))%nat eqn:L; [|discriminate].
apply Nat.eqb_eq in L.
destruct (Bool.eqb (isStatic_ b) (isStatic_ a)) eqn:S; [|discriminate].
apply Bool.eqb_prop in S. auto.
Qed.
End FunctionTypeProperties.

Lemma sampleRefEqual_equivalence : refEquivalence sampleRefEqual.
Proof.
  split.
  - intros [x|]; simpl; [apply Nat.eqb_refl|reflexivity].
  - intros [x|] [y|]; simpl; try reflexivity. apply Nat.eqb_sym.
  - intros [x|] [y|] [z|]; simpl; try discriminate; try reflexivity.
    rewrite !Nat.eqb_eq. congruence.
Qed.

Lemma function_type_equality_witness :
  FunctionType_isEqual sampleDefined sampleRefEqual sampleFunctionType sampleFunctionType
  = Some true
  /\ FunctionType_isEqual sampleDefined sampleRefEqual
       (mkFunctionType false (Some 2%nat) None (params_ sampleFunctionType))
       sampleFunctionType
     = Some true.
Proof.
  destruct (function_type_equality sampleDefined sampleRefEqual
              sampleFunctionType sampleFunctionType sampleFunctionType
              sampleRefEqual_equivalence eq_refl eq_refl eq_refl)
    as (Hrefl & _ & _ & _ & Hself).
  split; [exact Hrefl|].
  rewrite <- Hrefl. apply (Hself None (selfParam_ sampleFunctionType)).
Defined.

(** The notes for the sample: the second parameter is not singular and the
    third has no type; the first of two parameters of one name is found. *)
Lemma singular_or_reason_example :
  FunctionType_isSingular sampleDefined sampleSingular sampleFunctionType = false
  /\ whyNotSingular sampleDefined sampleSingular sampleFunctionType
     = [NoteParameterNonSingular (Some "y"%string);
        NoteParameterUnspecified (Some "x"%string)]
  /\ paramNameIndex sampleFunctionType "x" = 0
  /\ paramNameIndex sampleFunctionType "z" = -1.
Proof. repeat split. Qed.

(** ** Union types *)

Lemma sizeWrap_small x : 0 <= x < 2 ^ 64 -> sizeWrap x = x.
Proof. intros H. unfold sizeWrap. apply Z.mod_small. exact H. Qed.

Lemma sizeWrap_add_l x y : sizeWrap (sizeWrap x + y) = sizeWrap (x + y).
Proof. unfold sizeWrap. rewrite Zplus_mod_idemp_l. reflexivity. Qed.

Lemma sizeWrap_idem x : sizeWrap (sizeWrap x) = sizeWrap x.
Proof. unfold sizeWrap. apply Zmod_mod. Qed.

Section UnionTypeProperties.
Context {Ty : Type}.
Variable dealias : Ty -> Ty.
Variable tyIsEqual : Ty -> Ty -> bool.
Variable tyIsSubtype : Ty -> Ty -> bool.
Variable isVoidInstance isNullInstance isReferenceType : Ty -> bool.
Variable sortTypes : list Ty -> list Ty.

Lemma typeIndexFrom_neg type ms : forall i, 0 <= i ->
(typeIndexFrom tyIsEqual i type ms <? 0) = true
<-> forall m, In m ms -> tyIsEqual type m = false.
Proof.
induction ms as [|m ms IH]; intros i Hi; simpl.
- split; [intros _ m []|reflexivity].
- destruct (tyIsEqual type m) eqn:E.
  + split.
    * intros H. apply Z.ltb_lt in H. lia.
    * intros H. rewrite (H m) in E by (left; reflexivity). discriminate.
  + rewrite (IH (i + 1)) by lia. split.
    * intros H m' [<-|Hin]; [exact E|exact (H m' Hin)].
    * intros H m' Hin. apply H. right. exact Hin.
Qed.

Lemma typeIndexFrom_found type ms : forall i, 0 <= i ->
0 <= typeIndexFrom tyIsEqual i type ms ->
exists m, nth_error ms (Z.to_nat (typeIndexFrom tyIsEqual i type ms - i)) = Some m
          /\ tyIsEqual type m = true
          /\ forall k m', (k < Z.to_nat (typeIndexFrom tyIsEqual i type ms - i))%nat ->
                          nth_error ms k = Some m' -> tyIsEqual type m' = false.
Proof.
induction ms as [|m ms IH]; intros i Hi; simpl.
- lia.
- destruct (tyIsEqual type m) eqn:E.
  + intros _. exists m. rewrite Z.sub_diag. simpl. split; [reflexivity|].
    split; [exact E|]. intros k m' Hk. lia.
  + intros Hr. destruct (IH (i + 1) ltac:(lia) Hr) as (m0 & Hn & He & Hbefore).
    assert (Hge : i + 1 <= typeIndexFrom tyIsEqual (i + 1) type ms).
    { clear -Hr Hi. revert i Hi Hr. induction ms as [|x xs IHx]; intros i Hi; simpl.
      - lia.
      - destruct (tyIsEqual type x); [lia|]. intros Hr.
        specialize (IHx (i + 1) ltac:(lia) Hr). lia. }
    replace (Z.to_nat (typeIndexFrom tyIsEqual (i + 1) type ms - i))
      with (S (Z.to_nat (typeIndexFrom tyIsEqual (i + 1) type ms - (i + 1)))) by lia.
    exists m0. simpl. split; [exact Hn|]. split; [exact He|].
    intros [|k] m' Hk Hm'; simpl in Hm'.
    * injection Hm' as <-. exact E.
    * apply (Hbefore k m'); [lia|exact Hm'].
Qed.

Lemma allIndexed_covers (self : UnionType Ty) (ts : list Ty) :
allIndexed dealias tyIsEqual self ts = true
<-> hasRefTypesOnly self = true
    \/ forall t, In t ts ->
         exists m, In m (members_ self) /\ tyIsEqual (dealias t) m = true.
Proof.
unfold hasRefTypesOnly.
induction ts as [|t ts IH]; simpl.
- split; [intros _; right; intros t []|reflexivity].
- unfold getTypeIndex at 1.
  destruct ((numValueTypes_ self =? 0) && negb (hasVoidType_ self)) eqn:R.
  + simpl. rewrite IH. split; intros _; left; reflexivity.
  + destruct (typeIndexFrom tyIsEqual 0 (dealias t) (members_ self) <? 0) eqn:N.
    * split; [discriminate|]. intros [H|H]; [discriminate|].
      destruct (H t (or_introl eq_refl)) as (m & Hin & He).
      pose proof (proj1 (typeIndexFrom_neg (dealias t) (members_ self) 0 ltac:(lia)) N)
        as N'.
      rewrite (N' m Hin) in He. discriminate.
    * rewrite IH. split.
      -- intros [H|H]; [discriminate|]. right. intros t' [<-|Hin]; [|exact (H t' Hin)].
         destruct (existsb (tyIsEqual (dealias t)) (members_ self)) eqn:X.
         ++ apply existsb_exists in X. exact X.
         ++ assert (Hneg : (typeIndexFrom tyIsEqual 0 (dealias t) (members_ self) <? 0)
                           = true).
            { apply typeIndexFrom_neg; [lia|]. intros m Hin.
              destruct (tyIsEqual (dealias t) m) eqn:E; [|reflexivity].
              assert (existsb (tyIsEqual (dealias t)) (members_ self) = true)
                by (apply existsb_exists; exists m; auto).
              congruence. }
            congruence.
      -- intros [H|H]; [discriminate|]. right. intros t' Hin. apply H. right. exact Hin.
Qed.

(** X22: a union that has reference types only gives every type the index
  0, whether it is a member or not; otherwise the index of a type is -1
  when no member is equal to the dealiased type and the position of the
  first such member when there is one.  So two unions are equal when they
  are one object or each has, for every member of the other, an index;
  two unions of reference types are equal whatever their members. *)
Theorem union_equality (this u : UnionType Ty) :
(UnionType_isEqual dealias tyIsEqual this u = true
 <-> unionAddr u = unionAddr this
     \/ (covers dealias tyIsEqual this u /\ covers dealias tyIsEqual u this))
/\ (hasRefTypesOnly this = true -> hasRefTypesOnly u = true ->
    UnionType_isEqual dealias tyIsEqual this u = true)
/\ (forall t, hasRefTypesOnly this = true -> getTypeIndex dealias tyIsEqual this t = 0)
/\ (forall t, hasRefTypesOnly this = false ->
      (getTypeIndex dealias tyIsEqual this t = -1
       /\ forall m, In m (members_ this) -> tyIsEqual (dealias t) m = false)
      \/ (0 <= getTypeIndex dealias tyIsEqual this t
          /\ exists m,
               nth_error (members_ this)
                 (Z.to_nat (getTypeIndex dealias tyIsEqual this t)) = Some m
               /\ tyIsEqual (dealias t) m = true
               /\ forall k m',
                    (k < Z.to_nat (getTypeIndex dealias tyIsEqual this t))%nat ->
                    nth_error (members_ this) k = Some m' ->
                    tyIsEqual (dealias t) m' = false)).
Proof.
assert (Hchar : UnionType_isEqual dealias tyIsEqual this u = true
                <-> unionAddr u = unionAddr this
                    \/ (covers dealias tyIsEqual this u /\ covers dealias tyIsEqual u this)).
{ unfold UnionType_isEqual, covers.
  destruct (N.eqb (unionAddr u) (unionAddr this)) eqn:A.
  - apply N.eqb_eq in A. split; [intros _; left; exact A|reflexivity].
  - apply N.eqb_neq in A.
    destruct (allIndexed dealias tyIsEqual this (members_ u)) eqn:I1; simpl.
    + destruct (allIndexed dealias tyIsEqual u (members_ this)) eqn:I2; simpl.
      * apply allIndexed_covers in I1, I2. split; [intros _; right; split; assumption|].
        reflexivity.
      * split; [discriminate|]. intros [H|[_ H]]; [contradiction|].
        apply allIndexed_covers in H. congruence.
    + split; [discriminate|]. intros [H|[H _]]; [contradiction|].
      apply allIndexed_covers in H. congruence. }
split; [exact Hchar|]. split.
{ intros R1 R2. apply Hchar. right. split; left; assumption. }
split.
{ intros t R. unfold getTypeIndex. unfold hasRefTypesOnly in R. rewrite R. reflexivity. }
intros t R. unfold getTypeIndex. unfold hasRefTypesOnly in R. rewrite R.
destruct (typeIndexFrom tyIsEqual 0 (dealias t) (members_ this) <? 0) eqn:N.
- left.
  pose proof (proj1 (typeIndexFrom_neg (dealias t) (members_ this) 0 ltac:(lia)) N) as N'.
  split; [|exact N'].
  clear -N'. revert N'. generalize 0. induction (members_ this) as [|m ms IH]; intros i H.
  + reflexivity.
  + simpl. rewrite (H m (or_introl eq_refl)). apply IH. intros m' Hin. apply H.
    right. exact Hin.
- right. apply Z.ltb_ge in N. split; [exact N|].
  destruct (typeIndexFrom_found (dealias t) (members_ this) 0 ltac:(lia) N)
    as (m & Hn & He & Hb).
  rewrite Z.sub_0_r in Hn, Hb. exists m. auto.
Qed.

Lemma countMember_frame (u : UnionType Ty) (t : Ty) :
unionAddr (countMember dealias isVoidInstance isNullInstance isReferenceType u t)
= unionAddr u.
Proof.
unfold countMember.
destruct (isVoidInstance (dealias t)), (isNullInstance (dealias t)),
  (isReferenceType (dealias t)); reflexivity.
Qed.

Lemma countKind_cons (kindOf : Ty -> MemberKind) k t ts :
countKind kindOf k (t :: ts) = countKind kindOf k [t] + countKind kindOf k ts.
Proof. unfold countKind. simpl. destruct (MemberKind_eqb (kindOf t) k); simpl; lia. Qed.

Lemma counters_of_loop (ts : list Ty) : forall (u0 : UnionType Ty) nv nr,
numValueTypes_ u0 = sizeWrap nv ->
numReferenceTypes_ u0 = sizeWrap nr ->
let kindOf := memberKind dealias isVoidInstance isNullInstance isReferenceType in
let u := fold_left (countMember dealias isVoidInstance isNullInstance isReferenceType)
           ts u0 in
numValueTypes_ u = sizeWrap (nv + countKind kindOf ValueMember ts)
/\ numReferenceTypes_ u = sizeWrap (nr + countKind kindOf ReferenceMember ts)
/\ hasVoidType_ u
   = hasVoidType_ u0 || existsb (fun t => MemberKind_eqb (kindOf t) VoidMember) ts
/\ hasNullType_ u
   = hasNullType_ u0 || existsb (fun t => MemberKind_eqb (kindOf t) NullMember) ts
/\ unionAddr u = unionAddr u0.
Proof.
induction ts as [|t ts IH]; intros u0 nv nr Hv Hr kindOf; simpl.
- unfold countKind. simpl. rewrite !Z.add_0_r, !orb_false_r. auto.
- set (u1 := countMember dealias isVoidInstance isNullInstance isReferenceType u0 t).
  assert (Hstep : numValueTypes_ u1 = sizeWrap (nv + countKind kindOf ValueMember [t])
                  /\ numReferenceTypes_ u1
                     = sizeWrap (nr + countKind kindOf ReferenceMember [t])
                  /\ hasVoidType_ u1
                     = hasVoidType_ u0 || MemberKind_eqb (kindOf t) VoidMember
                  /\ hasNullType_ u1
                     = hasNullType_ u0 || MemberKind_eqb (kindOf t) NullMember
                  /\ unionAddr u1 = unionAddr u0).
  { subst u1 kindOf. unfold countMember, countKind, memberKind. simpl.
    destruct (isVoidInstance (dealias t)), (isNullInstance (dealias t)),
      (isReferenceType (dealias t)); simpl;
      rewrite ?Hv, ?Hr, ?sizeWrap_add_l, ?Z.add_0_r, ?orb_false_r, ?orb_true_r; auto.
    all: rewrite ?sizeWrap_add_l; auto. }
  destruct Hstep as (S1 & S2 & S3 & S4 & S5).
  destruct (IH u1 _ _ S1 S2) as (H1 & H2 & H3 & H4 & H5).
  rewrite H1, H2, H3, H4, H5, S3, S4, S5.
  rewrite (countKind_cons kindOf ValueMember t ts),
    (countKind_cons kindOf ReferenceMember t ts), !Z.add_assoc, !orb_assoc.
  auto.
Qed.

Lemma countKind_bounds (kindOf : Ty -> MemberKind) k ts :
0 <= countKind kindOf k ts <= Z.of_nat (length ts).
Proof.
unfold countKind. pose proof (List.filter_length_le
  (fun t => MemberKind_eqb (kindOf t) k) ts). lia.
Qed.

Lemma countKind_zero (kindOf : Ty -> MemberKind) k ts :
countKind kindOf k ts = 0 <-> forall t, In t ts -> kindOf t <> k.
Proof.
unfold countKind. induction ts as [|t ts IH]; simpl.
- split; [intros _ t []|reflexivity].
- destruct (MemberKind_eqb (kindOf t) k) eqn:E; simpl.
  + split; [lia|]. intros H. exfalso. apply (H t (or_introl eq_refl)).
    destruct (kindOf t), k; simpl in E; congruence.
  + rewrite IH. split.
    * intros H t' [<-|Hin]; [|exact (H t' Hin)].
      intros K. rewrite K in E. destruct k; discriminate.
    * intros H t' Hin. apply H. right. exact Hin.
Qed.

(** X23: the counters of a union made by the constructor classify its
  members: the numbers of value and of reference types are those of the
  members that are, dealiased, neither Void nor Null, and the two flags say
  whether Void or Null is among them.  So the union has reference types
  only exactly when none of its members is Void or a value type, and it is
  a single optional type exactly when it has one reference type beside
  Null, or one value type beside Void, and nothing else. *)
Theorem union_counters (addr : N) (members : list Ty) :
let kindOf := memberKind dealias isVoidInstance isNullInstance isReferenceType in
let u := UnionType_new dealias tyIsEqual tyIsSubtype isVoidInstance isNullInstance
           isReferenceType sortTypes addr members in
Z.of_nat (length (members_ u)) < 2 ^ 64 ->
numValueTypes_ u = countKind kindOf ValueMember (members_ u)
/\ numReferenceTypes_ u = countKind kindOf ReferenceMember (members_ u)
/\ (hasVoidType_ u = true <-> exists t, In t (members_ u) /\ kindOf t = VoidMember)
/\ (hasNullType_ u = true <-> exists t, In t (members_ u) /\ kindOf t = NullMember)
/\ (hasRefTypesOnly u = true
    <-> forall t, In t (members_ u) -> kindOf t = NullMember \/ kindOf t = ReferenceMember)
/\ (isSingleOptionalType u = true
    <-> (countKind kindOf ReferenceMember (members_ u) = 1
         /\ 0 < countKind kindOf NullMember (members_ u)
         /\ countKind kindOf VoidMember (members_ u) = 0
         /\ countKind kindOf ValueMember (members_ u) = 0)
        \/ (countKind kindOf ValueMember (members_ u) = 1
            /\ 0 < countKind kindOf VoidMember (members_ u)
            /\ countKind kindOf NullMember (members_ u) = 0
            /\ countKind kindOf ReferenceMember (members_ u) = 0)).
Proof.
intros kindOf u Hlen.
set (combined := sortTypes (fold_left (addMember dealias tyIsEqual tyIsSubtype) members [])).
assert (Hm : members_ u = combined) by reflexivity.
destruct (counters_of_loop combined (mkUnionType addr [] 0 0 false false) 0 0
            eq_refl eq_refl) as (H1 & H2 & H3 & H4 & _).
simpl in H1, H2, H3, H4. fold kindOf in H1, H2, H3, H4.
assert (Hv : numValueTypes_ u = countKind kindOf ValueMember combined).
{ change (numValueTypes_ u) with (numValueTypes_ (fold_left
    (countMember dealias isVoidInstance isNullInstance isReferenceType) combined
    (mkUnionType addr [] 0 0 false false))).
  rewrite H1. apply sizeWrap_small. rewrite Hm in Hlen.
  pose proof (countKind_bounds kindOf ValueMember combined). lia. }
assert (Hr : numReferenceTypes_ u = countKind kindOf ReferenceMember combined).
{ change (numReferenceTypes_ u) with (numReferenceTypes_ (fold_left
    (countMember dealias isVoidInstance isNullInstance isReferenceType) combined
    (mkUnionType addr [] 0 0 false false))).
  rewrite H2. apply sizeWrap_small. rewrite Hm in Hlen.
  pose proof (countKind_bounds kindOf ReferenceMember combined). lia. }
assert (Hkind : forall a b, MemberKind_eqb a b = true <-> a = b).
{ intros a b. destruct a, b; simpl; split; congruence. }
assert (Hvoid : hasVoidType_ u = true
                <-> exists t, In t combined /\ kindOf t = VoidMember).
{ change (hasVoidType_ u) with (hasVoidType_ (fold_left
    (countMember dealias isVoidInstance isNullInstance isReferenceType) combined
    (mkUnionType addr [] 0 0 false false))).
  rewrite H3, existsb_exists. split; intros (t & Hin & Hk); exists t;
    (split; [exact Hin|]); apply Hkind; exact Hk. }
assert (Hnull : hasNullType_ u = true
                <-> exists t, In t combined /\ kindOf t = NullMember).
{ change (hasNullType_ u) with (hasNullType_ (fold_left
    (countMember dealias isVoidInstance isNullInstance isReferenceType) combined
    (mkUnionType addr [] 0 0 false false))).
  rewrite H4, existsb_exists. split; intros (t & Hin & Hk); exists t;
    (split; [exact Hin|]); apply Hkind; exact Hk. }
assert (Hsum : countKind kindOf VoidMember combined + countKind kindOf NullMember combined
               + countKind kindOf ReferenceMember combined
               + countKind kindOf ValueMember combined
               = Z.of_nat (length combined)).
{ unfold countKind. clear. induction combined as [|t ts IH]; simpl; [reflexivity|].
  destruct (kindOf t); simpl; lia. }
assert (Hnone : forall k, countKind kindOf k combined = 0
                          <-> ~ exists t, In t combined /\ kindOf t = k).
{ intros k. rewrite countKind_zero. split.
  - intros H (t & Hin & Hk). exact (H t Hin Hk).
  - intros H t Hin Hk. apply H. exists t. auto. }
rewrite Hm. split; [exact Hv|]. split; [exact Hr|]. split; [exact Hvoid|].
split; [exact Hnull|]. split.
- unfold hasRefTypesOnly. rewrite andb_true_iff, Z.eqb_eq, negb_true_iff, Hv.
  rewrite countKind_zero. split.
  + intros [Hval Hnv] t Hin.
    destruct (kindOf t) eqn:K; auto.
    * exfalso. assert (hasVoidType_ u = true) by (apply Hvoid; exists t; auto). congruence.
    * exfalso. exact (Hval t Hin K).
  + intros H. split.
    * intros t Hin K. destruct (H t Hin); congruence.
    * destruct (hasVoidType_ u) eqn:E; [|reflexivity].
      destruct (proj1 Hvoid eq_refl) as (t & Hin & K). destruct (H t Hin); congruence.
- unfold isSingleOptionalType. rewrite Hv, Hr.
  pose proof (countKind_bounds kindOf VoidMember combined) as Bv.
  pose proof (countKind_bounds kindOf NullMember combined) as Bn.
  pose proof (countKind_bounds kindOf ReferenceMember combined) as Br.
  pose proof (countKind_bounds kindOf ValueMember combined) as Ba.
  assert (Hvz : hasVoidType_ u = false <-> countKind kindOf VoidMember combined = 0).
  { rewrite Hnone, <- Hvoid. destruct (hasVoidType_ u); split; congruence. }
  assert (Hnz : hasNullType_ u = false <-> countKind kindOf NullMember combined = 0).
  { rewrite Hnone, <- Hnull. destruct (hasNullType_ u); split; congruence. }
  destruct (hasVoidType_ u) eqn:EV; destruct (hasNullType_ u) eqn:EN;
    destruct (countKind kindOf ValueMember combined =? 0) eqn:Z0;
    destruct (countKind kindOf ReferenceMember combined =? 0) eqn:R0;
    destruct (countKind kindOf ReferenceMember combined =? 1) eqn:R1;
    destruct (countKind kindOf ValueMember combined =? 1) eqn:Z1;
    simpl;
    rewrite ?Z.eqb_eq, ?Z.eqb_neq in *;
    try (assert (countKind kindOf VoidMember combined = 0) by (apply Hvz; reflexivity));
    try (assert (countKind kindOf NullMember combined = 0) by (apply Hnz; reflexivity));
    try (assert (countKind kindOf VoidMember combined <> 0)
           by (intros Hc; apply Hvz in Hc; discriminate));
    try (assert (countKind kindOf NullMember combined <> 0)
           by (intros Hc; apply Hnz in Hc; discriminate));
    (split; [try discriminate; intros _; lia| intros [?|?]; try reflexivity; lia]).
Qed.
End UnionTypeProperties.

Lemma union_counters_witness :
  let u := sampleUnion 7 [4; 1; 4]%nat in
  members_ u = [4; 1]%nat
  /\ numReferenceTypes_ u = 1 /\ hasNullType_ u = true
  /\ hasRefTypesOnly u = true /\ isSingleOptionalType u = true
  /\ (isSingleOptionalType u = true
      <-> (countKind sampleKind ReferenceMember (members_ u) = 1
           /\ 0 < countKind sampleKind NullMember (members_ u)
           /\ countKind sampleKind VoidMember (members_ u) = 0
           /\ countKind sampleKind ValueMember (members_ u) = 0)
          \/ (countKind sampleKind ValueMember (members_ u) = 1
              /\ 0 < countKind sampleKind VoidMember (members_ u)
              /\ countKind sampleKind NullMember (members_ u) = 0
              /\ countKind sampleKind ReferenceMember (members_ u) = 0)).
Proof.
  intros u.
  assert (Hlen : Z.of_nat (length (members_ u)) < 2 ^ 64) by (vm_compute; reflexivity).
  destruct (union_counters (fun t => t) Nat.eqb (fun _ _ => false)
              (Nat.eqb 0) (Nat.eqb 1) Nat.even (fun ts => ts) 7 [4; 1; 4]%nat Hlen)
    as (_ & _ & _ & _ & _ & Hopt).
  repeat split; try reflexivity; apply Hopt.
Defined.

(** Two unions of reference types with different members are equal; a type
    that is not a member has the index 0 in them. *)
Lemma union_equality_example :
  UnionType_isEqual (fun t => t) Nat.eqb (sampleUnion 1 [4; 6]%nat) (sampleUnion 2 [8; 1]%nat)
  = true
  /\ getTypeIndex (fun t => t) Nat.eqb (sampleUnion 1 [4; 6]%nat) 10%nat = 0
  /\ getTypeIndex (fun t => t) Nat.eqb (sampleUnion 3 [4; 3; 5]%nat) 5%nat = 2
  /\ getTypeIndex (fun t => t) Nat.eqb (sampleUnion 3 [4; 3; 5]%nat) 6%nat = -1.
Proof. repeat split. Qed.

(** ** The size of an IR type *)

Lemma IRType_nested_ind (P : IRType -> Prop) :
  (forall id bits, P (IRPlain id bits)) ->
  P IRPointer ->
  (forall subtypes, Forall P subtypes -> P (IRStruct subtypes)) ->
  (forall e n, P e -> P (IRArray e n)) ->
  (forall e n, P e -> P (IRVector e n)) ->
  forall type, P type.
Proof.
  intros Hplain Hptr Hstruct Harr Hvec. fix IH 1.
  intros [id bits| |subtypes|e n|e n].
  - apply Hplain.
  - apply Hptr.
  - apply Hstruct. induction subtypes as [|t ts IHts]; constructor; [apply IH|exact IHts].
  - apply Harr, IH.
  - apply Hvec, IH.
Qed.

Lemma sumOf_app f xs ys : sumOf f (xs ++ ys) = sumOf f xs + sumOf f ys.
Proof. unfold sumOf. induction xs as [|x xs IH]; simpl; [reflexivity|]. rewrite IH. lia. Qed.

(** X24: the estimate adds up the pointers and the bits of the parts of a
    type, where an array or a vector counts as one of its elements: the
    number of elements does not enter, so an array is estimated as its
    element type. *)
Theorem estimate_counts_parts (type : IRType) (numPointers numBits : Z) :
  estimateTypeSize type (sizeWrap numPointers) (sizeWrap numBits)
  = (sizeWrap (numPointers + sumOf pointerOf (countedParts type)),
     sizeWrap (numBits + sumOf bitsOf (countedParts type)))
  /\ (forall n, estimateTypeSize (IRArray type n) 0 0 = estimateTypeSize type 0 0)
  /\ (forall n, estimateTypeSize (IRVector type n) 0 0 = estimateTypeSize type 0 0).
Proof.
  assert (Hsum : forall t p b,
             estimateTypeSize t (sizeWrap p) (sizeWrap b)
             = (sizeWrap (p + sumOf pointerOf (countedParts t)),
                sizeWrap (b + sumOf bitsOf (countedParts t)))).
  { induction t as [id bits| |subtypes IHs|e n IHe|e n IHe] using IRType_nested_ind;
      intros p b.
    - destruct id; simpl; rewrite ?sizeWrap_add_l, ?Z.add_0_r; reflexivity.
    - simpl. rewrite sizeWrap_add_l, !Z.add_0_r. reflexivity.
    - simpl. revert p b. induction IHs as [|t ts Ht _ IHts]; intros p b.
      + simpl. rewrite !Z.add_0_r. reflexivity.
      + simpl. rewrite (Ht p b). rewrite IHts. rewrite !sumOf_app, !Z.add_assoc.
        reflexivity.
    - simpl. rewrite (IHe p b). rewrite !Z.mul_0_l.
      change (sizeWrap 0) with 0. rewrite !Z.add_0_r, !sizeWrap_idem. reflexivity.
    - simpl. rewrite (IHe p b). rewrite !Z.mul_0_l.
      change (sizeWrap 0) with 0. rewrite !Z.add_0_r, !sizeWrap_idem. reflexivity. }
  split; [apply Hsum|].
  pose proof (Hsum type 0 0) as H0. change (sizeWrap 0) with 0 in H0.
  split; intros n; simpl; rewrite H0, !Z.mul_0_l; change (sizeWrap 0) with 0;
    rewrite !Z.add_0_r, !sizeWrap_idem; reflexivity.
Qed.

(** An array of a thousand bytes is estimated as one byte, and is not
    large where arrays are first-class types. *)
Lemma estimate_counts_parts_example :
  estimateTypeSize (IRArray (IRPlain IntegerTyID 8) 1000) 0 0 = (0, 8)
  /\ isLargeIRType (fun _ => false) (fun _ => true) (IRArray (IRPlain IntegerTyID 8) 1000)
     = false
  /\ isLargeIRType (fun _ => false) (fun _ => true)
       (IRStruct [IRPointer; IRPlain IntegerTyID 64]) = true.
Proof. repeat split. Qed.
